(** * ostree-repo-commit.c: object ingest, transactions, devino cache, tree variants

    A shallow embedding of [src/libostree/ostree-repo-commit.c].  The C
    functions are stateful and fallible: they are modelled in a small
    state-and-error monad over a record holding the [OstreeRepo] fields
    the file touches, the part of the disk it reaches ([tmp/], [objects/],
    the [transaction] link, the refs namespace) and the environment
    (injected syscall failures, the random temp-name supply, a log of the
    syscalls issued). *)

From Stdlib Require Import ZArith List String Ascii Lia Bool.
From Stdlib.Strings Require Import Byte.
From stdpp Require Import base gmap strings list fin_maps sorting pretty.

Local Open Scope Z_scope.
Local Open Scope string_scope.
Local Open Scope list_scope.

(** ** Errors *)

Inductive Errno :=
| EPERM | ENOENT | EINTR | EIO | EBADF | EACCES | EEXIST | ENOTDIR | EISDIR
| ENOSPC | EROFS.

#[global] Instance Errno_eq_dec : EqDecision Errno.
Proof. solve_decision. Defined.

(** A [GError] as the file produces them: from an errno
    ([ot_util_set_error_from_errno], [g_io_error_from_errno]), with a
    prefix added by [g_prefix_error], or a literal [G_IO_ERROR_*]. *)
Inductive GError :=
| ErrFromErrno (e : Errno)
| ErrPrefix (prefix : string) (inner : GError)
| ErrFailed (msg : string)
| ErrNotSupported (msg : string)
| ErrCancelled
| ErrParse (msg : string).

(** How a call ends.  [Ok] is [TRUE]; [Error] is [FALSE] with [*error]
    set; [ReturnIfFail] is a tripped [g_return_val_if_fail] (the caller
    broke a precondition: [FALSE], no error set); [Abort] is a failed
    [g_assert]. *)
Inductive Res (A : Type) :=
| Ok (a : A)
| Error (e : GError)
| ReturnIfFail
| Abort.
Arguments Ok {A} a.
Arguments Error {A} e.
Arguments ReturnIfFail {A}.
Arguments Abort {A}.

Definition is_caller_error {A} (r : Res A) : bool :=
  match r with ReturnIfFail | Abort => true | _ => false end.

Definition is_ok {A} (r : Res A) : bool :=
  match r with Ok _ => true | _ => false end.

(** ** Data *)

Inductive OstreeRepoMode := OSTREE_REPO_MODE_BARE | OSTREE_REPO_MODE_ARCHIVE_Z2.

Inductive OstreeObjectType :=
| OSTREE_OBJECT_TYPE_FILE
| OSTREE_OBJECT_TYPE_DIR_TREE
| OSTREE_OBJECT_TYPE_DIR_META
| OSTREE_OBJECT_TYPE_COMMIT.

#[global] Instance OstreeRepoMode_eq_dec : EqDecision OstreeRepoMode.
Proof. solve_decision. Defined.
#[global] Instance OstreeObjectType_eq_dec : EqDecision OstreeObjectType.
Proof. solve_decision. Defined.

(** [OSTREE_OBJECT_TYPE_IS_META]: every kind but FILE. *)
Definition OSTREE_OBJECT_TYPE_IS_META (t : OstreeObjectType) : bool :=
  match t with OSTREE_OBJECT_TYPE_FILE => false | _ => true end.

Inductive GFileType :=
| G_FILE_TYPE_UNKNOWN
| G_FILE_TYPE_REGULAR
| G_FILE_TYPE_DIRECTORY
| G_FILE_TYPE_SYMBOLIC_LINK
| G_FILE_TYPE_SPECIAL
| G_FILE_TYPE_SHORTCUT
| G_FILE_TYPE_MOUNTABLE.

#[global] Instance GFileType_eq_dec : EqDecision GFileType.
Proof. solve_decision. Defined.

Definition GFileType_to_uint (t : GFileType) : N :=
  match t with
  | G_FILE_TYPE_UNKNOWN => 0 | G_FILE_TYPE_REGULAR => 1
  | G_FILE_TYPE_DIRECTORY => 2 | G_FILE_TYPE_SYMBOLIC_LINK => 3
  | G_FILE_TYPE_SPECIAL => 4 | G_FILE_TYPE_SHORTCUT => 5
  | G_FILE_TYPE_MOUNTABLE => 6
  end%N.

(** Extended attributes, the [a(ayay)] variant: name and value pairs. *)
Definition XAttrs := list (list byte * list byte).

(** The attributes of a [GFileInfo] this file reads. *)
Record GFileInfo := {
  standard_name : string;
  standard_type : GFileType;
  standard_symlink_target : string;
  unix_uid : Z;
  unix_gid : Z;
  unix_mode : Z;
  unix_device : Z;
  unix_inode : Z
}.

(** [OstreeRepoTransactionStats]: five [guint64] counters. *)
Record OstreeRepoTransactionStats := {
  metadata_objects_total : Z;
  metadata_objects_written : Z;
  content_objects_total : Z;
  content_objects_written : Z;
  content_bytes_written : Z
}.

Definition stats_zero : OstreeRepoTransactionStats :=
  {| metadata_objects_total := 0; metadata_objects_written := 0;
     content_objects_total := 0; content_objects_written := 0;
     content_bytes_written := 0 |}.

(** [guint64] arithmetic wraps. *)
Definition u64 (z : Z) : Z := z mod 2 ^ 64.

(** ** The disk *)

Inductive NodeKind :=
| RegularFile (content : list byte)
| Symlink (target : string)
| Directory.

Record Inode := {
  i_kind : NodeKind;
  i_uid : Z;
  i_gid : Z;
  i_mode : Z;
  i_xattrs : XAttrs
}.

(** What the file reaches on disk: [tmp/] by entry name, the prefix
    directories of [objects/], the loose objects by their path relative
    to [objects/] (["ab/cdef....file"]), what sits at [<repo>/transaction],
    and the refs namespace by refspec. *)
Record Disk := {
  tmp_dir : gmap string Inode;
  objects_prefixes : gset string;
  objects_dir : gmap string Inode;
  transaction_lock : option NodeKind;
  refs : gmap string string
}.

(** ** Syscalls and their log *)

Inductive Syscall :=
| SYS_mkdirat (prefix : string) (mode : Z)
| SYS_renameat (tempfile_name loose_path : string)
| SYS_unlinkat (tempfile_name : string)
| SYS_symlinkat (target tmpname : string)
| SYS_openat_excl (tmpname : string) (mode : Z)
| SYS_splice (tmpname : string) (data : list byte)
| SYS_close_stream (tmpname : string)
| SYS_fstatat (loose_path : string)
| SYS_fchownat (tmpname : string) (uid gid : Z)
| SYS_set_xattrs (tmpname : string) (xattrs : XAttrs)
| SYS_openat_noatime (tmpname : string)
| SYS_fchmod (tmpname : string) (mode : Z)
| SYS_fsync (tmpname : string)
| SYS_close (tmpname : string)
| SYS_query_transaction
| SYS_unlink_transaction
| SYS_symlink_transaction (target : string)
| SYS_enumerate_tmp
| SYS_enumerator_iterate
| SYS_rm_rf (name : string)
| SYS_update_refs (pending : gmap string (option string)).

(** One logged call: the call and the errno it failed with, if any. *)
Record Event := { ev_call : Syscall; ev_errno : option Errno }.

(** ** The repository object and the environment *)

Record OstreeRepo := {
  in_transaction : bool;
  mode : OstreeRepoMode;
  txn_refs : option (gmap string (option string));
  txn_stats : OstreeRepoTransactionStats;
  loose_object_devino_hash : option (gmap (Z * Z) string)
}.

(** The environment: [faults] is a script of injected failures, one entry
    consumed per syscall ([Some e] makes the call fail with [e], [None] or
    an exhausted script lets it act on the disk); [tmp_name_gen] with
    [tmp_name_next] is the supply of random temp names; [trace] logs the
    syscalls, oldest first. *)
Record Env := {
  faults : list (option Errno);
  tmp_name_gen : nat -> string;
  tmp_name_next : nat;
  euid : Z;
  egid : Z;
  pid : N;
  trace : list Event
}.

Record State := { self : OstreeRepo; disk : Disk; env : Env }.

Definition set_self (f : OstreeRepo -> OstreeRepo) (s : State) : State :=
  {| self := f (self s); disk := disk s; env := env s |}.
Definition set_disk (d : Disk) (s : State) : State :=
  {| self := self s; disk := d; env := env s |}.
Definition set_env (f : Env -> Env) (s : State) : State :=
  {| self := self s; disk := disk s; env := f (env s) |}.

Definition with_in_transaction (b : bool) (r : OstreeRepo) : OstreeRepo :=
  {| in_transaction := b; mode := mode r; txn_refs := txn_refs r;
     txn_stats := txn_stats r;
     loose_object_devino_hash := loose_object_devino_hash r |}.
Definition with_txn_refs (m : option (gmap string (option string)))
    (r : OstreeRepo) : OstreeRepo :=
  {| in_transaction := in_transaction r; mode := mode r; txn_refs := m;
     txn_stats := txn_stats r;
     loose_object_devino_hash := loose_object_devino_hash r |}.
Definition with_txn_stats (st : OstreeRepoTransactionStats)
    (r : OstreeRepo) : OstreeRepo :=
  {| in_transaction := in_transaction r; mode := mode r;
     txn_refs := txn_refs r; txn_stats := st;
     loose_object_devino_hash := loose_object_devino_hash r |}.
Definition with_devino_hash (h : option (gmap (Z * Z) string))
    (r : OstreeRepo) : OstreeRepo :=
  {| in_transaction := in_transaction r; mode := mode r;
     txn_refs := txn_refs r; txn_stats := txn_stats r;
     loose_object_devino_hash := h |}.

Definition with_faults (fs : list (option Errno)) (e : Env) : Env :=
  {| faults := fs; tmp_name_gen := tmp_name_gen e;
     tmp_name_next := tmp_name_next e; euid := euid e; egid := egid e;
     pid := pid e; trace := trace e |}.
Definition with_tmp_name_next (n : nat) (e : Env) : Env :=
  {| faults := faults e; tmp_name_gen := tmp_name_gen e;
     tmp_name_next := n; euid := euid e; egid := egid e;
     pid := pid e; trace := trace e |}.
Definition log_event (ev : Event) (e : Env) : Env :=
  {| faults := faults e; tmp_name_gen := tmp_name_gen e;
     tmp_name_next := tmp_name_next e; euid := euid e; egid := egid e;
     pid := pid e; trace := trace e ++ [ev] |}.

Definition with_tmp_dir (t : gmap string Inode) (d : Disk) : Disk :=
  {| tmp_dir := t; objects_prefixes := objects_prefixes d;
     objects_dir := objects_dir d; transaction_lock := transaction_lock d;
     refs := refs d |}.
Definition with_objects_prefixes (p : gset string) (d : Disk) : Disk :=
  {| tmp_dir := tmp_dir d; objects_prefixes := p;
     objects_dir := objects_dir d; transaction_lock := transaction_lock d;
     refs := refs d |}.
Definition with_objects_dir (o : gmap string Inode) (d : Disk) : Disk :=
  {| tmp_dir := tmp_dir d; objects_prefixes := objects_prefixes d;
     objects_dir := o; transaction_lock := transaction_lock d;
     refs := refs d |}.
Definition with_transaction_lock (l : option NodeKind) (d : Disk) : Disk :=
  {| tmp_dir := tmp_dir d; objects_prefixes := objects_prefixes d;
     objects_dir := objects_dir d; transaction_lock := l; refs := refs d |}.
Definition with_refs (r : gmap string string) (d : Disk) : Disk :=
  {| tmp_dir := tmp_dir d; objects_prefixes := objects_prefixes d;
     objects_dir := objects_dir d; transaction_lock := transaction_lock d;
     refs := r |}.

Definition with_kind (k : NodeKind) (i : Inode) : Inode :=
  {| i_kind := k; i_uid := i_uid i; i_gid := i_gid i; i_mode := i_mode i;
     i_xattrs := i_xattrs i |}.
Definition with_owner (uid gid : Z) (i : Inode) : Inode :=
  {| i_kind := i_kind i; i_uid := uid; i_gid := gid; i_mode := i_mode i;
     i_xattrs := i_xattrs i |}.
Definition with_mode (m : Z) (i : Inode) : Inode :=
  {| i_kind := i_kind i; i_uid := i_uid i; i_gid := i_gid i; i_mode := m;
     i_xattrs := i_xattrs i |}.
Definition with_xattrs (x : XAttrs) (i : Inode) : Inode :=
  {| i_kind := i_kind i; i_uid := i_uid i; i_gid := i_gid i;
     i_mode := i_mode i; i_xattrs := x |}.

(** ** The monad

    A computation over a state [S] ends in a [Res] and a new state; a
    result other than [Ok] skips what follows ([goto out]), keeping the
    state reached. *)
Definition M (S A : Type) : Type := S -> Res A * S.

Definition ret {S A} (a : A) : M S A := fun s => (Ok a, s).
Definition throw {S A} (e : GError) : M S A := fun s => (Error e, s).
Definition return_if_fail {S A} : M S A := fun s => (ReturnIfFail, s).
Definition abort {S A} : M S A := fun s => (Abort, s).

Definition bind {S A B} (c : M S A) (k : A -> M S B) : M S B :=
  fun s =>
    match c s with
    | (Ok a, s') => k a s'
    | (Error e, s') => (Error e, s')
    | (ReturnIfFail, s') => (ReturnIfFail, s')
    | (Abort, s') => (Abort, s')
    end.

Definition get {S} : M S S := fun s => (Ok s, s).
Definition modify {S} (f : S -> S) : M S unit := fun s => (Ok tt, f s).

Declare Scope m_scope.
Delimit Scope m_scope with m.
Notation "x <- c ;; k" := (bind c (fun x => k))
  (at level 100, c at next level, right associativity) : m_scope.
Notation "c ;;; k" := (bind c (fun _ => k))
  (at level 100, right associativity) : m_scope.
Local Open Scope m_scope.

(** Run a computation over [State] inside one that also carries the
    caller's local variables. *)
Definition lift {L A} (c : M State A) : M (L * State) A :=
  fun ls =>
    match c (snd ls) with
    | (r, s') => (r, (fst ls, s'))
    end.
Definition get_locals {L} : M (L * State) L := fun ls => (Ok (fst ls), ls).
Definition set_locals {L} (l : L) : M (L * State) unit :=
  fun ls => (Ok tt, (l, snd ls)).

(** ** Syscalls *)

(** The effect a call has on the disk when no failure is injected. *)
Definition Effect := Disk -> Errno + Disk.

(** Issue one syscall: consume a fault entry; on an injected fault the
    disk is untouched, otherwise the call acts on the disk.  Either way
    the call and its errno are logged.  The result is the errno, [None]
    for success. *)
Definition syscall (call : Syscall) (eff : Effect) : M State (option Errno) :=
  fun s =>
    let injected := match faults (env s) with
                    | Some e :: _ => Some e
                    | _ => None
                    end in
    let s1 := set_env (with_faults (tail (faults (env s)))) s in
    match injected with
    | Some e =>
        (Ok (Some e), set_env (log_event {| ev_call := call; ev_errno := Some e |}) s1)
    | None =>
        match eff (disk s1) with
        | inl e =>
            (Ok (Some e), set_env (log_event {| ev_call := call; ev_errno := Some e |}) s1)
        | inr d =>
            (Ok None, set_env (log_event {| ev_call := call; ev_errno := None |}) (set_disk d s1))
        end
    end.

(** [do res = call; while (res == -1 && errno == EINTR)]: reissue the
    call while the environment interrupts it. *)
Fixpoint retry_eintr_from (call : Syscall) (eff : Effect)
    (fs : list (option Errno)) (s : State) : Res (option Errno) * State :=
  match fs with
  | Some EINTR :: fs' =>
      retry_eintr_from call eff fs'
        (set_env (log_event {| ev_call := call; ev_errno := Some EINTR |})
           (set_env (with_faults fs') s))
  | _ => syscall call eff s
  end.
Definition retry_eintr (call : Syscall) (eff : Effect) : M State (option Errno) :=
  fun s => retry_eintr_from call eff (faults (env s)) s.

(** The 2-character prefix directory of a loose path. *)
Definition loose_prefix_of (loose_path : string) : string :=
  substring 0 2 loose_path.

Definition eff_mkdirat (prefix : string) : Effect := fun d =>
  if decide (prefix ∈ objects_prefixes d) then inl EEXIST
  else inr (with_objects_prefixes ({[prefix]} ∪ objects_prefixes d) d).

(** [rename] replaces an existing target. *)
Definition eff_renameat (tempfile_name loose_path : string) : Effect := fun d =>
  match tmp_dir d !! tempfile_name with
  | None => inl ENOENT
  | Some i =>
      if decide (loose_prefix_of loose_path ∈ objects_prefixes d) then
        inr (with_objects_dir (<[loose_path := i]> (objects_dir d))
               (with_tmp_dir (delete tempfile_name (tmp_dir d)) d))
      else inl ENOENT
  end.

Definition eff_unlinkat (tempfile_name : string) : Effect := fun d =>
  match tmp_dir d !! tempfile_name with
  | None => inl ENOENT
  | Some _ => inr (with_tmp_dir (delete tempfile_name (tmp_dir d)) d)
  end.

Definition eff_create (tmpname : string) (i : Inode) : Effect := fun d =>
  match tmp_dir d !! tmpname with
  | Some _ => inl EEXIST
  | None => inr (with_tmp_dir (<[tmpname := i]> (tmp_dir d)) d)
  end.

Definition eff_update (tmpname : string) (f : Inode -> Errno + Inode) : Effect :=
  fun d =>
    match tmp_dir d !! tmpname with
    | None => inl ENOENT
    | Some i =>
        match f i with
        | inl e => inl e
        | inr i' => inr (with_tmp_dir (<[tmpname := i']> (tmp_dir d)) d)
        end
    end.

Definition eff_append (tmpname : string) (data : list byte) : Effect :=
  eff_update tmpname (fun i =>
    match i_kind i with
    | RegularFile c => inr (with_kind (RegularFile (c ++ data)) i)
    | _ => inl EBADF
    end).

Definition eff_probe_tmp (tmpname : string) : Effect :=
  eff_update tmpname (fun i => inr i).

Definition eff_fstatat (loose_path : string) : Effect := fun d =>
  match objects_dir d !! loose_path with
  | None => inl ENOENT
  | Some _ => inr d
  end.

Definition eff_none : Effect := fun d => inr d.

(** ** Loose object paths *)

(** Modelled from the spec: [ostree_object_type_to_string] is not in this
    file.  The spec names the kinds by their file-name suffixes,
    [<hex>.file] and [<hex>.{dirmeta|dirtree|commit}]. *)
Definition ostree_object_type_to_string (t : OstreeObjectType) : string :=
  match t with
  | OSTREE_OBJECT_TYPE_FILE => "file"
  | OSTREE_OBJECT_TYPE_DIR_TREE => "dirtree"
  | OSTREE_OBJECT_TYPE_DIR_META => "dirmeta"
  | OSTREE_OBJECT_TYPE_COMMIT => "commit"
  end.

(** Modelled from the spec: [_ostree_loose_path] is not in this file.
    Under [objects/], one directory per 2-hex prefix holds files named
    [<remaining-62-hex>.<suffix>]; a FILE object of an ARCHIVE repository
    has the suffix [filez]. *)
Definition _ostree_loose_path (checksum : string) (objtype : OstreeObjectType)
    (repo_mode : OstreeRepoMode) : string :=
  substring 0 2 checksum +:+ "/"
  +:+ substring 2 (String.length checksum - 2) checksum +:+ "."
  +:+ match objtype, repo_mode with
     | OSTREE_OBJECT_TYPE_FILE, OSTREE_REPO_MODE_ARCHIVE_Z2 => "filez"
     | _, _ => ostree_object_type_to_string objtype
     end.

(** Modelled from the spec: [_ostree_repo_has_loose_object] is not in this
    file.  It tells whether [objects/<path-for(checksum, kind)>] exists and
    hands back that path; a failure other than "no such file" is an I/O
    error. *)
Definition _ostree_repo_has_loose_object (checksum : string)
    (objtype : OstreeObjectType) : M State (bool * string) :=
  s <- get ;;
  let loose_objpath := _ostree_loose_path checksum objtype (mode (self s)) in
  r <- syscall (SYS_fstatat loose_objpath) (eff_fstatat loose_objpath) ;;
  match r with
  | None => ret (true, loose_objpath)
  | Some ENOENT => ret (false, loose_objpath)
  | Some e => throw (ErrFromErrno e)
  end.

(** ** [commit_loose_object_trusted] (lines 35-74) *)

Definition commit_loose_object_trusted (loose_path tempfile_name : string)
    : M State unit :=
  let loose_prefix := loose_prefix_of loose_path in
  r <- syscall (SYS_mkdirat loose_prefix 511) (eff_mkdirat loose_prefix) ;;
  (match r with
   | Some errsv =>
       if decide (errsv <> EEXIST) then throw (ErrFromErrno errsv) else ret tt
   | None => ret tt
   end) ;;;
  r <- syscall (SYS_renameat tempfile_name loose_path)
         (eff_renameat tempfile_name loose_path) ;;
  match r with
  | Some e =>
      if decide (e <> EEXIST) then
        throw (ErrPrefix ("Storing file '" +:+ tempfile_name +:+ "': ")
                 (ErrFromErrno e))
      else
        syscall (SYS_unlinkat tempfile_name) (eff_unlinkat tempfile_name) ;;;
        ret tt
  | None => ret tt
  end.

(** ** Temp files *)

(** [gsystem_fileutil_gen_tmp_name]: the next name of the random supply. *)
Definition gsystem_fileutil_gen_tmp_name : M State string :=
  fun s =>
    (Ok (tmp_name_gen (env s) (tmp_name_next (env s))),
     set_env (with_tmp_name_next (S (tmp_name_next (env s)))) s).

(** The loop of [make_temporary_symlink_at] (lines 96-120), by the
    attempts left of [max_attempts = 128]. *)
Fixpoint make_temporary_symlink_at_loop (attempts : nat) (target : string)
    : M State string :=
  match attempts with
  | O => throw (ErrFailed "Exhausted attempts to open temporary file")
  | S n =>
      tmpname <- gsystem_fileutil_gen_tmp_name ;;
      s <- get ;;
      r <- syscall (SYS_symlinkat target tmpname)
             (eff_create tmpname
                {| i_kind := Symlink target; i_uid := euid (env s);
                   i_gid := egid (env s); i_mode := 511; i_xattrs := [] |}) ;;
      match r with
      | Some EEXIST => make_temporary_symlink_at_loop n target
      | Some errsv => throw (ErrFromErrno errsv)
      | None => ret tmpname
      end
  end.

Definition make_temporary_symlink_at (target : string) : M State string :=
  make_temporary_symlink_at_loop 128 target.

(** Modelled from the spec: [gs_file_open_in_tmpdir_at] (libgsystem) is
    not in this file.  It creates a temp regular file with the given mode
    under a random name, like its sibling [make_temporary_symlink_at]:
    a name collision draws another name, up to 128 times. *)
Fixpoint gs_file_open_in_tmpdir_at_loop (attempts : nat) (file_mode : Z)
    : M State string :=
  match attempts with
  | O => throw (ErrFailed "Exhausted attempts to open temporary file")
  | S n =>
      tmpname <- gsystem_fileutil_gen_tmp_name ;;
      s <- get ;;
      r <- syscall (SYS_openat_excl tmpname file_mode)
             (eff_create tmpname
                {| i_kind := RegularFile []; i_uid := euid (env s);
                   i_gid := egid (env s); i_mode := file_mode;
                   i_xattrs := [] |}) ;;
      match r with
      | Some EEXIST => gs_file_open_in_tmpdir_at_loop n file_mode
      | Some errsv => throw (ErrFromErrno errsv)
      | None => ret tmpname
      end
  end.

Definition gs_file_open_in_tmpdir_at (file_mode : Z) : M State string :=
  gs_file_open_in_tmpdir_at_loop 128 file_mode.

(** A syscall whose failure is an error of the call. *)
Definition checked (call : Syscall) (eff : Effect) : M State unit :=
  r <- syscall call eff ;;
  match r with
  | Some e => throw (ErrFromErrno e)
  | None => ret tt
  end.

(** [g_output_stream_splice] into the open temp file. *)
Definition g_output_stream_splice (tmpname : string) (data : list byte)
    : M State unit :=
  checked (SYS_splice tmpname data) (eff_append tmpname data).

(** ** Checksums *)

Definition hex_digit (n : N) : ascii :=
  match String.get (N.to_nat n) "0123456789abcdef" with
  | Some c => c
  | None => "0"%char
  end.

Definition hex_of_byte (b : byte) : string :=
  String (hex_digit (Byte.to_N b / 16))
    (String (hex_digit (Byte.to_N b mod 16)) EmptyString).

(** [g_checksum_get_string]: the digest in lowercase hex. *)
Definition g_checksum_get_string (digest : list byte) : string :=
  String.concat "" (map hex_of_byte digest).

(** ** Variants *)

(** The GVariant values the file builds. *)
#[local] Set Warnings "-register-all".
Inductive GVariant :=
| GV_string (s : string)
| GV_bytes (ay : list byte)
| GV_uint64 (t : Z)
| GV_tuple (items : list GVariant)
| GV_array (items : list GVariant).

(** What [ostree_content_stream_parse] hands back: the bytes of the header
    it read from the stream, the file info and xattrs decoded from them,
    and the payload left in the stream ([file_input]). *)
Record ParsedContent := {
  pc_header : list byte;
  pc_file_info : GFileInfo;
  pc_xattrs : option XAttrs;
  pc_payload : list byte
}.

(** ** Transactions (lines 585-797) *)

(** [g_file_query_file_type (transaction_lock_path, NOFOLLOW_SYMLINKS)]:
    the type of what sits at [<repo>/transaction], [G_FILE_TYPE_UNKNOWN]
    when the query fails. *)
Definition query_transaction_lock_type : M State GFileType :=
  r <- syscall SYS_query_transaction
         (fun d => match transaction_lock d with
                   | None => inl ENOENT
                   | Some _ => inr d
                   end) ;;
  s <- get ;;
  match r with
  | Some _ => ret G_FILE_TYPE_UNKNOWN
  | None =>
      ret match transaction_lock (disk s) with
          | Some (Symlink _) => G_FILE_TYPE_SYMBOLIC_LINK
          | Some (RegularFile _) => G_FILE_TYPE_REGULAR
          | Some Directory => G_FILE_TYPE_DIRECTORY
          | None => G_FILE_TYPE_UNKNOWN
          end
  end.

(** Modelled from the spec: [ot_gfile_ensure_unlinked] (otutil) is not in
    this file.  It unlinks the [transaction] link; that there is none to
    unlink is no error. *)
Definition ot_gfile_ensure_unlinked_transaction_lock : M State unit :=
  r <- syscall SYS_unlink_transaction
         (fun d => match transaction_lock d with
                   | None => inl ENOENT
                   | Some Directory => inl EISDIR
                   | Some _ => inr (with_transaction_lock None d)
                   end) ;;
  match r with
  | None => ret tt
  | Some ENOENT => ret tt
  | Some e => throw (ErrFromErrno e)
  end.

(** [g_file_make_symbolic_link (transaction_lock_path, target)]. *)
Definition make_transaction_lock (target : string) : M State unit :=
  checked (SYS_symlink_transaction target)
    (fun d => match transaction_lock d with
              | Some _ => inl EEXIST
              | None => inr (with_transaction_lock (Some (Symlink target)) d)
              end).

(** [ostree_repo_prepare_transaction] (lines 585-623); the result is
    [*out_transaction_resume]. *)
Definition ostree_repo_prepare_transaction : M State bool :=
  s <- get ;;
  if in_transaction (self s) then return_if_fail
  else
    t <- query_transaction_lock_type ;;
    let ret_transaction_resume :=
      bool_decide (t = G_FILE_TYPE_SYMBOLIC_LINK) in
    modify (set_self (with_txn_stats stats_zero)) ;;;
    modify (set_self (with_in_transaction true)) ;;;
    (if ret_transaction_resume
     then ot_gfile_ensure_unlinked_transaction_lock
     else ret tt) ;;;
    s <- get ;;
    make_transaction_lock ("pid=" +:+ pretty (pid (env s))) ;;;
    ret ret_transaction_resume.

(** [gs_shutil_rm_rf] of one entry of [tmp/]. *)
Definition gs_shutil_rm_rf (name : string) : M State unit :=
  checked (SYS_rm_rf name)
    (fun d => inr (with_tmp_dir (delete name (tmp_dir d)) d)).

(** The loop of [cleanup_tmpdir] (lines 640-653) over the entries the
    enumerator yields. *)
Fixpoint cleanup_tmpdir_loop (names : list string) : M State unit :=
  match names with
  | [] => checked SYS_enumerator_iterate eff_none
  | name :: rest =>
      checked SYS_enumerator_iterate eff_none ;;;
      gs_shutil_rm_rf name ;;;
      cleanup_tmpdir_loop rest
  end.

(** [cleanup_tmpdir] (lines 625-658). *)
Definition cleanup_tmpdir : M State unit :=
  checked SYS_enumerate_tmp eff_none ;;;
  s <- get ;;
  cleanup_tmpdir_loop (map fst (map_to_list (tmp_dir (disk s)))).

(** [g_hash_table_remove_all] on the devino cache, if there is one. *)
Definition clear_devino_hash (r : OstreeRepo) : OstreeRepo :=
  match loose_object_devino_hash r with
  | Some _ => with_devino_hash (Some ∅) r
  | None => r
  end.

(** [ensure_txn_refs] (lines 660-665). *)
Definition ensure_txn_refs : M State unit :=
  modify (set_self (fun r =>
    match txn_refs r with
    | None => with_txn_refs (Some ∅) r
    | Some _ => r
    end)).

(** [g_hash_table_replace (self->txn_refs, refspec, checksum)]. *)
Definition replace_txn_ref (refspec : string) (checksum : option string)
    : M State unit :=
  modify (set_self (fun r =>
    with_txn_refs (insert refspec checksum <$> txn_refs r) r)).

(** [ostree_repo_transaction_set_refspec] (lines 677-687); a [NULL]
    checksum is [None]. *)
Definition ostree_repo_transaction_set_refspec (refspec : string)
    (checksum : option string) : M State unit :=
  s <- get ;;
  if negb (in_transaction (self s)) then return_if_fail
  else
    ensure_txn_refs ;;;
    replace_txn_ref refspec checksum.

(** [ostree_repo_transaction_set_ref] (lines 708-726). *)
Definition ostree_repo_transaction_set_ref (remote : option string)
    (ref : string) (checksum : option string) : M State unit :=
  s <- get ;;
  if negb (in_transaction (self s)) then return_if_fail
  else
    ensure_txn_refs ;;;
    let refspec := match remote with
                   | Some rem => rem +:+ ":" +:+ ref
                   | None => ref
                   end in
    replace_txn_ref refspec checksum.

(** What a pending map does to the refs namespace: a checksum sets the
    ref, a null checksum deletes it, other refs stay. *)
Definition apply_pending_refs (pending : gmap string (option string))
    (current : gmap string string) : gmap string string :=
  merge (fun p c => match p with
                    | Some (Some checksum) => Some checksum
                    | Some None => None
                    | None => c
                    end) pending current.

(** Modelled from the spec: [_ostree_repo_update_refs] is not in this
    file.  The ref updater applies the pending map to the refs namespace
    atomically: all of it, or (on failure) nothing. *)
Definition _ostree_repo_update_refs (pending : gmap string (option string))
    : M State unit :=
  checked (SYS_update_refs pending)
    (fun d => inr (with_refs (apply_pending_refs pending (refs d)) d)).

(** [ostree_repo_commit_transaction] (lines 740-772); the result is
    [*out_stats]. *)
Definition ostree_repo_commit_transaction
    : M State OstreeRepoTransactionStats :=
  s <- get ;;
  if negb (in_transaction (self s)) then return_if_fail
  else
    cleanup_tmpdir ;;;
    modify (set_self clear_devino_hash) ;;;
    s <- get ;;
    (match txn_refs (self s) with
     | Some pending => _ostree_repo_update_refs pending
     | None => ret tt
     end) ;;;
    modify (set_self (with_txn_refs None)) ;;;
    modify (set_self (with_in_transaction false)) ;;;
    ot_gfile_ensure_unlinked_transaction_lock ;;;
    s <- get ;;
    ret (txn_stats (self s)).

(** [ostree_repo_abort_transaction] (lines 774-797). *)
Definition ostree_repo_abort_transaction : M State unit :=
  s <- get ;;
  if negb (in_transaction (self s)) then ret tt
  else
    cleanup_tmpdir ;;;
    modify (set_self clear_devino_hash) ;;;
    modify (set_self (with_txn_refs None)) ;;;
    modify (set_self (with_in_transaction false)) ;;;
    ret tt.

(** A call of one of the two setters. *)
Inductive RefCall :=
| SetRef (remote : option string) (ref : string) (checksum : option string)
| SetRefspec (refspec : string) (checksum : option string).

Definition run_ref_call (c : RefCall) : M State unit :=
  match c with
  | SetRef remote ref checksum =>
      ostree_repo_transaction_set_ref remote ref checksum
  | SetRefspec refspec checksum =>
      ostree_repo_transaction_set_refspec refspec checksum
  end.

Fixpoint run_ref_calls (cs : list RefCall) : M State unit :=
  match cs with
  | [] => ret tt
  | c :: rest => run_ref_call c ;;; run_ref_calls rest
  end.

(** The refspec a call writes and the checksum it records for it. *)
Definition ref_call_refspec (c : RefCall) : string :=
  match c with
  | SetRef (Some rem) ref _ => rem +:+ ":" +:+ ref
  | SetRef None ref _ => ref
  | SetRefspec refspec _ => refspec
  end.
Definition ref_call_checksum (c : RefCall) : option string :=
  match c with
  | SetRef _ _ checksum => checksum
  | SetRefspec _ checksum => checksum
  end.

(** The checksum of the most recent call for [refspec], if any call
    named it. *)
Fixpoint last_call_for (refspec : string) (cs : list RefCall)
    : option (option string) :=
  match cs with
  | [] => None
  | c :: rest =>
      match last_call_for refspec rest with
      | Some v => Some v
      | None =>
          if decide (ref_call_refspec c = refspec)
          then Some (ref_call_checksum c) else None
      end
  end.

(** ** The devino cache (lines 403-567) *)

(** [g_str_has_suffix]. *)
Definition g_str_has_suffix (str suffix : string) : bool :=
  let n := String.length str in
  let m := String.length suffix in
  if (m <=? n)%nat
  then String.eqb (substring (n - m) m str) suffix
  else false.

(** [strrchr (s, c) - s]: the offset of the last [c] in [s]. *)
Fixpoint strrchr (s : string) (c : ascii) : option nat :=
  match s with
  | EmptyString => None
  | String a rest =>
      match strrchr rest c with
      | Some i => Some (S i)
      | None => if Ascii.eqb a c then Some O else None
      end
  end.

(** One step of [gs_file_enumerator_iterate]: a child, or an error. *)
Inductive IterStep :=
| IterChild (file_info : GFileInfo)
| IterFail (e : GError).

(** One [objects/XX] directory as [_ostree_repo_get_loose_object_dirs]
    lists it: its base name, and what enumerating it yields (an error of
    [g_file_enumerate_children], or the steps of the enumerator, which
    ends with the list). *)
Record LooseObjectDir := {
  objdir_basename : string;
  objdir_enumerate : GError + list IterStep
}.

(** The repository chain as the scan reads it. *)
Inductive RepoListing := {
  listing_mode : OstreeRepoMode;
  listing_parent_repo : option RepoListing;
  listing_object_dirs : GError + list LooseObjectDir
}.

(** The [while (TRUE)] loop of lines 463-510 over one directory. *)
Fixpoint scan_objdir_children (repo_mode : OstreeRepoMode) (dirname : string)
    (steps : list IterStep) (devino_cache : gmap (Z * Z) string)
    : Res unit * gmap (Z * Z) string :=
  match steps with
  | [] => (Ok tt, devino_cache)
  | IterFail e :: _ => (Error e, devino_cache)
  | IterChild file_info :: rest =>
      let name := standard_name file_info in
      if decide (standard_type file_info = G_FILE_TYPE_DIRECTORY) then
        scan_objdir_children repo_mode dirname rest devino_cache
      else
        let skip := match repo_mode with
                    | OSTREE_REPO_MODE_ARCHIVE_Z2
                    | OSTREE_REPO_MODE_BARE =>
                        negb (g_str_has_suffix name ".file")
                    end in
        if skip then scan_objdir_children repo_mode dirname rest devino_cache
        else
          match strrchr name "." with
          | None => (Abort, devino_cache)
          | Some dot =>
              if decide (dot <> 62%nat) then
                scan_objdir_children repo_mode dirname rest devino_cache
              else
                let checksum := dirname +:+ substring 0 62 name in
                let key := (unix_device file_info, unix_inode file_info) in
                scan_objdir_children repo_mode dirname rest
                  (<[key := checksum]> devino_cache)
          end
  end.

(** The [for] loop of lines 447-511 over the object directories. *)
Fixpoint scan_object_dirs (repo_mode : OstreeRepoMode)
    (object_dirs : list LooseObjectDir) (devino_cache : gmap (Z * Z) string)
    : Res unit * gmap (Z * Z) string :=
  match object_dirs with
  | [] => (Ok tt, devino_cache)
  | objdir :: rest =>
      match objdir_enumerate objdir with
      | inl e => (Error e, devino_cache)
      | inr steps =>
          match scan_objdir_children repo_mode (objdir_basename objdir)
                  steps devino_cache with
          | (Ok _, cache') => scan_object_dirs repo_mode rest cache'
          | failed => failed
          end
      end
  end.

(** [scan_loose_devino] (lines 425-516): the parent chain first, then this
    repository.  The cache is updated in place, so a failing scan leaves
    what it recorded. *)
Fixpoint scan_loose_devino (repo : RepoListing)
    (devino_cache : gmap (Z * Z) string) : Res unit * gmap (Z * Z) string :=
  let after_parent :=
    match listing_parent_repo repo with
    | Some parent => scan_loose_devino parent devino_cache
    | None => (Ok tt, devino_cache)
    end in
  match after_parent with
  | (Ok _, cache1) =>
      match listing_object_dirs repo with
      | inl e => (Error e, cache1)
      | inr object_dirs => scan_object_dirs (listing_mode repo) object_dirs cache1
      end
  | failed => failed
  end.

(** [devino_cache_lookup] (lines 518-530). *)
Definition devino_cache_lookup (r : OstreeRepo) (finfo : GFileInfo)
    : option string :=
  match loose_object_devino_hash r with
  | None => None
  | Some h => h !! (unix_device finfo, unix_inode finfo)
  end.

(** [ostree_repo_scan_hardlinks] (lines 549-567), reading the chain
    through [listing]. *)
Definition ostree_repo_scan_hardlinks (listing : RepoListing) : M State unit :=
  s <- get ;;
  if negb (in_transaction (self s)) then return_if_fail
  else
    fun s0 =>
      match scan_loose_devino listing ∅ with
      | (r, cache) => (r, set_self (with_devino_hash (Some cache)) s0)
      end.

(** ** Hash tables that are iterated, and sorting by name *)

(** A [GHashTable] with string keys whose iteration order matters to the
    code: the entries in the order [g_hash_table_iter_next] yields them.
    Where a new key lands in that order is GLib's business; the model
    appends it, and what is proved of iterating code is proved for every
    order. *)
Definition GHashTable (V : Type) : Type := list (string * V).

Fixpoint g_hash_table_lookup {V} (t : GHashTable V) (key : string)
    : option V :=
  match t with
  | [] => None
  | (k, v) :: rest =>
      if decide (k = key) then Some v else g_hash_table_lookup rest key
  end.

Fixpoint g_hash_table_replace {V} (t : GHashTable V) (key : string)
    (value : V) : GHashTable V :=
  match t with
  | [] => [(key, value)]
  | (k, v) :: rest =>
      if decide (k = key) then (key, value) :: rest
      else (k, v) :: g_hash_table_replace rest key value
  end.

(** [strcmp]: bytes compared as unsigned chars; only the sign of the
    result is specified. *)
Definition strcmp (a b : string) : Z :=
  match String.compare a b with
  | Lt => -1
  | Eq => 0
  | Gt => 1
  end.

Definition strcmp_le (a b : string) : Prop := strcmp a b <= 0.

#[global] Instance strcmp_le_dec a b : Decision (strcmp_le a b).
Proof. unfold strcmp_le. apply _. Defined.

(** Modelled from the spec: [g_slist_sort] is GLib's; it sorts the list
    by the comparison function (a merge sort). *)
Definition g_slist_sort (l : list string) : list string :=
  merge_sort strcmp_le l.

(** The loop of lines 1270-1275: [g_slist_prepend] of every key. *)
Definition prepend_keys {V} (t : GHashTable V) : list string :=
  fold_left (fun acc kv => fst kv :: acc) t [].

(** [OstreeMutableTree]: the cached contents checksum, the metadata
    checksum, the files and the subdirectories by name. *)
#[local] Set Warnings "-register-all".
Inductive OstreeMutableTree := {
  mt_contents_checksum : option string;
  mt_metadata_checksum : option string;
  mt_files : GHashTable string;
  mt_subdirs : list (string * OstreeMutableTree)
}.

(** The local variable of [write_object] that its [out:] label reads. *)
Record WriteObjectLocals := { temp_filename : option string }.

(** What the branches of lines 185-279 leave behind for the rest of
    [write_object]: the temp file's name, [file_info] and [xattrs] (set for
    FILE objects only), [is_symlink], and the bytes read from the input
    stream, which are the bytes a checksum stream wrapped around it has
    hashed. *)
Record Materialized := {
  m_temp : string;
  m_file_info : option GFileInfo;
  m_xattrs : option XAttrs;
  m_is_symlink : bool;
  m_read : list byte
}.

Section Externals.
#[local] Set Default Proof Using "Type".

(** Functions of other files, taken as given: the SHA-256 digest
    ([GChecksum]), [ostree_content_stream_parse], the archive header
    written by [_ostree_zlib_file_header_new] with
    [_ostree_write_variant_with_size], raw deflate at level 9, the bytes of
    a variant's normal form ([ot_variant_read]), and
    [ostree_checksum_to_bytes]. *)
Variable g_checksum_sha256 : list byte -> list byte.
Variable ostree_content_stream_parse :
  list byte -> Z -> GError + ParsedContent.
Variable _ostree_zlib_file_header : GFileInfo -> option XAttrs -> list byte.
Variable g_zlib_compress_raw : list byte -> list byte.
Variable ot_variant_read : GVariant -> list byte.
Variable ostree_checksum_to_bytes : string -> list byte.

(** [gs_file_open_in_tmpdir_at (..., 0644, &temp_filename, ...)]. *)
Definition open_temp_file : M (WriteObjectLocals * State) string :=
  name <- lift (gs_file_open_in_tmpdir_at 420) ;;
  set_locals {| temp_filename := Some name |} ;;;
  ret name.

(** Lines 185-266: the temp file of a FILE object. *)
Definition materialize_file (repo_mode : OstreeRepoMode) (input : list byte)
    (file_object_length : Z) : M (WriteObjectLocals * State) Materialized :=
  match ostree_content_stream_parse input file_object_length with
  | inl e => throw e
  | inr pc =>
      let file_info := pc_file_info pc in
      let temp_file_is_regular :=
        bool_decide (standard_type file_info = G_FILE_TYPE_REGULAR) in
      let is_symlink :=
        bool_decide (standard_type file_info = G_FILE_TYPE_SYMBOLIC_LINK) in
      if negb (temp_file_is_regular || is_symlink) then
        throw (ErrNotSupported
                 ("Unsupported file type "
                  +:+ pretty (GFileType_to_uint (standard_type file_info))))
      else
        match repo_mode with
        | OSTREE_REPO_MODE_BARE =>
            if temp_file_is_regular then
              name <- open_temp_file ;;
              lift (g_output_stream_splice name (pc_payload pc)) ;;;
              ret {| m_temp := name; m_file_info := Some file_info;
                     m_xattrs := pc_xattrs pc; m_is_symlink := is_symlink;
                     m_read := pc_header pc ++ pc_payload pc |}
            else
              name <- lift (make_temporary_symlink_at
                              (standard_symlink_target file_info)) ;;
              set_locals {| temp_filename := Some name |} ;;;
              ret {| m_temp := name; m_file_info := Some file_info;
                     m_xattrs := pc_xattrs pc; m_is_symlink := is_symlink;
                     m_read := pc_header pc |}
        | OSTREE_REPO_MODE_ARCHIVE_Z2 =>
            name <- open_temp_file ;;
            lift (g_output_stream_splice name
                    (_ostree_zlib_file_header file_info (pc_xattrs pc))) ;;;
            (if temp_file_is_regular then
               lift (g_output_stream_splice name
                       (g_zlib_compress_raw (pc_payload pc)))
             else ret tt) ;;;
            lift (checked (SYS_close_stream name) eff_none) ;;;
            ret {| m_temp := name; m_file_info := Some file_info;
                   m_xattrs := pc_xattrs pc; m_is_symlink := is_symlink;
                   m_read := if temp_file_is_regular
                             then pc_header pc ++ pc_payload pc
                             else pc_header pc |}
        end
  end.

(** Lines 267-279: the temp file of a metadata object. *)
Definition materialize_metadata (input : list byte)
    : M (WriteObjectLocals * State) Materialized :=
  name <- open_temp_file ;;
  lift (g_output_stream_splice name input) ;;;
  ret {| m_temp := name; m_file_info := None; m_xattrs := None;
         m_is_symlink := false; m_read := input |}.

Definition materialize (objtype : OstreeObjectType)
    (repo_mode : OstreeRepoMode) (input : list byte) (file_object_length : Z)
    : M (WriteObjectLocals * State) Materialized :=
  match objtype with
  | OSTREE_OBJECT_TYPE_FILE =>
      materialize_file repo_mode input file_object_length
  | _ => materialize_metadata input
  end.

(** The message of line 288. *)
Definition corrupted_message (objtype : OstreeObjectType)
    (expected_checksum actual_checksum : string) : string :=
  "Corrupted " +:+ ostree_object_type_to_string objtype +:+ " object "
  +:+ expected_checksum +:+ " (actual checksum is " +:+ actual_checksum +:+ ")".

(** Lines 281-294: the checksum the object is stored under. *)
Definition resolve_checksum (objtype : OstreeObjectType)
    (expected_checksum : option string) (out_csum : bool) (m : Materialized)
    : M (WriteObjectLocals * State) string :=
  if negb out_csum then
    match expected_checksum with
    | Some e => ret e
    | None => abort
    end
  else
    let actual_checksum :=
      g_checksum_get_string (g_checksum_sha256 (m_read m)) in
    match expected_checksum with
    | Some e =>
        if decide (actual_checksum <> e) then
          throw (ErrFailed (corrupted_message objtype e actual_checksum))
        else ret actual_checksum
    | None => ret actual_checksum
    end.

(** Lines 334-363: mode bits and fsync of a BARE regular file.  After a
    failed [fchmod] or [fsync] the code closes the descriptor and reads
    [errno] only then: a close that fails too replaces the error. *)
Definition apply_mode_and_sync (tmpname : string) (file_mode : Z)
    : M State unit :=
  checked (SYS_openat_noatime tmpname) (eff_probe_tmp tmpname) ;;;
  res <- retry_eintr (SYS_fchmod tmpname file_mode)
           (eff_update tmpname (fun i => inr (with_mode file_mode i))) ;;
  match res with
  | Some e =>
      closed <- syscall (SYS_close tmpname) eff_none ;;
      throw (ErrFromErrno (default e closed))
  | None =>
      r <- syscall (SYS_fsync tmpname) (eff_probe_tmp tmpname) ;;
      match r with
      | Some e =>
          closed <- syscall (SYS_close tmpname) eff_none ;;
          throw (ErrFromErrno (default e closed))
      | None =>
          syscall (SYS_close tmpname) eff_none ;;;
          ret tt
      end
  end.

(** Lines 305-364: owner, xattrs and mode of a BARE FILE object. *)
Definition apply_bare_attributes (m : Materialized) : M State unit :=
  match m_file_info m with
  | None => abort
  | Some file_info =>
      checked (SYS_fchownat (m_temp m) (unix_uid file_info) (unix_gid file_info))
        (eff_update (m_temp m)
           (fun i => inr (with_owner (unix_uid file_info) (unix_gid file_info) i))) ;;;
      (match m_xattrs m with
       | Some xattrs =>
           checked (SYS_set_xattrs (m_temp m) xattrs)
             (eff_update (m_temp m) (fun i => inr (with_xattrs xattrs i)))
       | None => ret tt
       end) ;;;
      if negb (m_is_symlink m) then
        apply_mode_and_sync (m_temp m) (unix_mode file_info)
      else ret tt
  end.

(** Lines 372-389. *)
Definition update_txn_stats (objtype : OstreeObjectType) (do_commit : bool)
    (file_object_length : Z) (st : OstreeRepoTransactionStats)
    : OstreeRepoTransactionStats :=
  let st1 :=
    if do_commit then
      if OSTREE_OBJECT_TYPE_IS_META objtype then
        {| metadata_objects_total := metadata_objects_total st;
           metadata_objects_written := u64 (metadata_objects_written st + 1);
           content_objects_total := content_objects_total st;
           content_objects_written := content_objects_written st;
           content_bytes_written := content_bytes_written st |}
      else
        {| metadata_objects_total := metadata_objects_total st;
           metadata_objects_written := metadata_objects_written st;
           content_objects_total := content_objects_total st;
           content_objects_written := u64 (content_objects_written st + 1);
           content_bytes_written :=
             u64 (content_bytes_written st + file_object_length) |}
    else st in
  if OSTREE_OBJECT_TYPE_IS_META objtype then
    {| metadata_objects_total := u64 (metadata_objects_total st1 + 1);
       metadata_objects_written := metadata_objects_written st1;
       content_objects_total := content_objects_total st1;
       content_objects_written := content_objects_written st1;
       content_bytes_written := content_bytes_written st1 |}
  else
    {| metadata_objects_total := metadata_objects_total st1;
       metadata_objects_written := metadata_objects_written st1;
       content_objects_total := u64 (content_objects_total st1 + 1);
       content_objects_written := content_objects_written st1;
       content_bytes_written := content_bytes_written st1 |}.

(** Lines 296-395: place the temp file unless the object is there, count
    the object, hand back the binary checksum if one was computed. *)
Definition store_object (objtype : OstreeObjectType) (out_csum : bool)
    (file_object_length : Z) (m : Materialized) (actual_checksum : string)
    : M (WriteObjectLocals * State) (option (list byte)) :=
  hl <- lift (_ostree_repo_has_loose_object actual_checksum objtype) ;;
  let have_obj := fst hl in
  let loose_objpath := snd hl in
  let do_commit := negb have_obj in
  (if do_commit then
     s <- lift get ;;
     (if bool_decide (objtype = OSTREE_OBJECT_TYPE_FILE)
         && bool_decide (mode (self s) = OSTREE_REPO_MODE_BARE)
      then lift (apply_bare_attributes m)
      else ret tt) ;;;
     lift (commit_loose_object_trusted loose_objpath (m_temp m)) ;;;
     set_locals {| temp_filename := None |}
   else ret tt) ;;;
  lift (modify (set_self (fun r =>
          with_txn_stats
            (update_txn_stats objtype do_commit file_object_length (txn_stats r))
            r))) ;;;
  ret (if out_csum then Some (g_checksum_sha256 (m_read m)) else None).

(** Lines 163-395, between the entry checks and the [out:] label.  The
    result is [ret_csum]; the fast path of lines 163-174 leaves it unset. *)
Definition write_object_body (objtype : OstreeObjectType)
    (expected_checksum : option string) (input : list byte)
    (file_object_length : Z) (out_csum : bool)
    : M (WriteObjectLocals * State) (option (list byte)) :=
  have_obj <- (match expected_checksum with
               | Some e =>
                   hl <- lift (_ostree_repo_has_loose_object e objtype) ;;
                   ret (fst hl)
               | None => ret false
               end) ;;
  if (have_obj : bool) then ret None
  else
    s <- lift get ;;
    m <- materialize objtype (mode (self s)) input file_object_length ;;
    actual_checksum <- resolve_checksum objtype expected_checksum out_csum m ;;
    store_object objtype out_csum file_object_length m actual_checksum.

(** [write_object] (lines 128-401).  [out_csum] says whether the caller
    passed a place for the checksum; [cancelled] is the state of the
    [GCancellable] at entry. *)
Definition write_object (objtype : OstreeObjectType)
    (expected_checksum : option string) (input : list byte)
    (file_object_length : Z) (out_csum : bool) (cancelled : bool)
    : M State (option (list byte)) :=
  fun s =>
    if negb (in_transaction (self s)) then (ReturnIfFail, s)
    else if cancelled then (Error ErrCancelled, s)
    else if negb (bool_decide (is_Some expected_checksum) || out_csum)
    then (Abort, s)
    else
      match write_object_body objtype expected_checksum input
              file_object_length out_csum ({| temp_filename := None |}, s) with
      | (Abort, (_, s')) => (Abort, s')
      | (r, (l, s')) =>
          match temp_filename l with
          | Some t =>
              (r, snd (syscall (SYS_unlinkat t) (eff_unlinkat t) s'))
          | None => (r, s')
          end
      end.

(** ** The public writers (lines 815-862, 1032-1071) *)

Definition ostree_repo_write_metadata (objtype : OstreeObjectType)
    (expected_checksum : option string) (object : GVariant)
    (out_csum cancelled : bool) : M State (option (list byte)) :=
  write_object objtype expected_checksum (ot_variant_read object) 0
    out_csum cancelled.

Definition ostree_repo_write_metadata_trusted (type : OstreeObjectType)
    (checksum : option string) (variant : GVariant) (cancelled : bool)
    : M State (option (list byte)) :=
  write_object type checksum (ot_variant_read variant) 0 false cancelled.

Definition ostree_repo_write_content_trusted (checksum : option string)
    (object_input : list byte) (length : Z) (cancelled : bool)
    : M State (option (list byte)) :=
  write_object OSTREE_OBJECT_TYPE_FILE checksum object_input length false
    cancelled.

Definition ostree_repo_write_content (expected_checksum : option string)
    (object_input : list byte) (length : Z) (out_csum cancelled : bool)
    : M State (option (list byte)) :=
  write_object OSTREE_OBJECT_TYPE_FILE expected_checksum object_input length
    out_csum cancelled.


(** ** Tree variants (lines 1254-1325, 1608-1673) *)

(** [ostree_checksum_to_bytes_v]. *)
Definition ostree_checksum_to_bytes_v (checksum : string) : GVariant :=
  GV_bytes (ostree_checksum_to_bytes checksum).

(** One entry of the [a(say)] files array (lines 1279-1287); [None] when
    the lookup yields [NULL]. *)
Definition tree_file_entry (file_checksums : GHashTable string)
    (name : string) : option GVariant :=
  value ← g_hash_table_lookup file_checksums name;
  Some (GV_tuple [GV_string name; ostree_checksum_to_bytes_v value]).

(** One entry of the [a(sayay)] dirs array (lines 1301-1314). *)
Definition tree_dir_entry
    (dir_contents_checksums dir_metadata_checksums : GHashTable string)
    (name : string) : option GVariant :=
  content_checksum ← g_hash_table_lookup dir_contents_checksums name;
  meta_checksum ← g_hash_table_lookup dir_metadata_checksums name;
  Some (GV_tuple [GV_string name;
                  ostree_checksum_to_bytes_v content_checksum;
                  ostree_checksum_to_bytes_v meta_checksum]).

(** [create_tree_variant_from_hashes] (lines 1254-1325). *)
Definition create_tree_variant_from_hashes
    (file_checksums dir_contents_checksums dir_metadata_checksums
       : GHashTable string) : option GVariant :=
  files ← mapM (tree_file_entry file_checksums)
             (g_slist_sort (prepend_keys file_checksums));
  dirs ← mapM (tree_dir_entry dir_contents_checksums dir_metadata_checksums)
            (g_slist_sort (prepend_keys dir_metadata_checksums));
  Some (GV_tuple [GV_array files; GV_array dirs]).

(** The two tables the loop of lines 1637-1656 fills, from the name, the
    contents checksum and the metadata checksum of each subdirectory in
    the order the subdirs table yields them. *)
Definition collect_dir_checksums
    (children : list (string * (string * string)))
    : GHashTable string * GHashTable string :=
  fold_left
    (fun tables child =>
       (g_hash_table_replace (fst tables) (fst child) (fst (snd child)),
        g_hash_table_replace (snd tables) (fst child) (snd (snd child))))
    children ([], []).

(** [ostree_checksum_from_bytes]: lowercase hex. *)
Definition ostree_checksum_from_bytes (csum : list byte) : string :=
  g_checksum_get_string csum.

(** [ostree_repo_write_mtree] (lines 1608-1673): the subdirectories are
    written first, in the order the subdirs table yields them. *)
Fixpoint ostree_repo_write_mtree (mtree : OstreeMutableTree)
    (cancelled : bool) : M State string :=
  match mt_contents_checksum mtree with
  | Some existing_checksum => ret existing_checksum
  | None =>
      children <-
        (fix write_subdirs (subdirs : list (string * OstreeMutableTree))
           : M State (list (string * (string * string))) :=
           match subdirs with
           | [] => ret []
           | (name, child_dir) :: rest =>
               child_dir_contents_checksum <-
                 ostree_repo_write_mtree child_dir cancelled ;;
               match mt_metadata_checksum child_dir with
               | None => abort
               | Some metadata_checksum =>
                   more <- write_subdirs rest ;;
                   ret ((name, (child_dir_contents_checksum,
                                metadata_checksum)) :: more)
               end
           end) (mt_subdirs mtree) ;;
      let tables := collect_dir_checksums children in
      match create_tree_variant_from_hashes (mt_files mtree)
              (fst tables) (snd tables) with
      | None => abort
      | Some serialized_tree =>
          contents_csum <-
            ostree_repo_write_metadata OSTREE_OBJECT_TYPE_DIR_TREE None
              serialized_tree true cancelled ;;
          match contents_csum with
          | Some csum => ret (ostree_checksum_from_bytes csum)
          | None => abort
          end
      end
  end.


(** ** The keys of the devino cache (lines 403-423) *)

(** [OstreeDevIno]. *)
Record OstreeDevIno := { dev : Z; ino : Z }.

(** [devino_hash]: the sum of device and inode, cut to a [guint]. *)
Definition devino_hash (a : OstreeDevIno) : Z :=
  (dev a + ino a) mod 2 ^ 32.

(** [devino_equal]. *)
Definition devino_equal (a b : OstreeDevIno) : bool :=
  (dev a =? dev b)%Z && (ino a =? ino b)%Z.


(** ** Commit objects (lines 1182-1252) *)

(** [create_empty_gvariant_dict]: an [a{sv}] with no entry. *)
Definition create_empty_gvariant_dict : GVariant := GV_array [].

(** Modelled from the spec: [ot_gvariant_new_bytearray] is libotutil's;
    it makes an [ay] of the bytes given. *)
Definition ot_gvariant_new_bytearray (data : list byte) : GVariant :=
  GV_bytes data.

(** The byte order of the host ([G_BYTE_ORDER]). *)
Inductive ByteOrder := G_LITTLE_ENDIAN | G_BIG_ENDIAN.

(** Modelled from the spec: [GUINT64_TO_BE] is GLib's; the identity on a
    big-endian host, else the swap of the eight bytes
    ([GUINT64_SWAP_LE_BE]). *)
Definition GUINT64_SWAP_LE_BE (val : Z) : Z :=
  Z.lor (Z.shiftl (Z.land val 0x00000000000000ff) 56)
  (Z.lor (Z.shiftl (Z.land val 0x000000000000ff00) 40)
  (Z.lor (Z.shiftl (Z.land val 0x0000000000ff0000) 24)
  (Z.lor (Z.shiftl (Z.land val 0x00000000ff000000) 8)
  (Z.lor (Z.shiftr (Z.land val 0x000000ff00000000) 8)
  (Z.lor (Z.shiftr (Z.land val 0x0000ff0000000000) 24)
  (Z.lor (Z.shiftr (Z.land val 0x00ff000000000000) 40)
         (Z.shiftr (Z.land val 0xff00000000000000) 56))))))).

Definition GUINT64_TO_BE (host : ByteOrder) (val : Z) : Z :=
  match host with
  | G_BIG_ENDIAN => val
  | G_LITTLE_ENDIAN => GUINT64_SWAP_LE_BE val
  end.

(** The variant of lines 1234-1241, of type [(a{sv}aya(say)sstayay)];
    [now] is [g_date_time_to_unix] of the current time, passed as a
    [guint64]. *)
Definition commit_variant (host : ByteOrder) (now : Z)
    (parent : option string) (subject : string) (body : option string)
    (root_contents_checksum root_metadata_checksum : string) : GVariant :=
  GV_tuple
    [create_empty_gvariant_dict;
     match parent with
     | Some p => ostree_checksum_to_bytes_v p
     | None => ot_gvariant_new_bytearray []
     end;
     GV_array [];
     GV_string subject;
     GV_string match body with Some b => b | None => EmptyString end;
     GV_uint64 (GUINT64_TO_BE host (u64 now));
     ostree_checksum_to_bytes_v root_contents_checksum;
     ostree_checksum_to_bytes_v root_metadata_checksum].

(** [ostree_repo_write_commit] (lines 1206-1252).  A [NULL] string is
    [None]; [host] and [now] are what the build and the clock give. *)
Definition ostree_repo_write_commit (host : ByteOrder) (now : Z)
    (branch parent subject body : option string)
    (root_contents_checksum root_metadata_checksum : option string)
    (cancelled : bool) : M State string :=
  match branch with
  | None => return_if_fail
  | Some _ =>
  match subject with
  | None => return_if_fail
  | Some subject =>
  match root_contents_checksum with
  | None => return_if_fail
  | Some root_contents_checksum =>
  match root_metadata_checksum with
  | None => return_if_fail
  | Some root_metadata_checksum =>
      let commit :=
        commit_variant host now parent subject body root_contents_checksum
          root_metadata_checksum in
      commit_csum <-
        ostree_repo_write_metadata OSTREE_OBJECT_TYPE_COMMIT None commit
          true cancelled ;;
      match commit_csum with
      | Some csum => ret (ostree_checksum_from_bytes csum)
      | None => abort
      end
  end end end end.

(** [_ostree_repo_write_directory_meta] (lines 966-983);
    [ostree_create_directory_metadata] is taken as given. *)
Definition _ostree_repo_write_directory_meta
    (ostree_create_directory_metadata : GFileInfo -> option XAttrs -> GVariant)
    (file_info : GFileInfo) (xattrs : option XAttrs)
    (out_csum cancelled : bool) : M State (option (list byte)) :=
  if cancelled then throw ErrCancelled
  else
    let dirmeta := ostree_create_directory_metadata file_info xattrs in
    ostree_repo_write_metadata OSTREE_OBJECT_TYPE_DIR_META None dirmeta
      out_csum cancelled.


(** ** Commit modifiers (lines 1327-1375, 1684-1721) *)

Inductive OstreeRepoCommitFilterResult :=
| OSTREE_REPO_COMMIT_FILTER_ALLOW
| OSTREE_REPO_COMMIT_FILTER_SKIP.

(** [OstreeRepoCommitFilter]: the callback gets the repository, the
    path, the file info and the user data; the info it hands back is the
    one it was given, as it left it. *)
Definition OstreeRepoCommitFilter : Type :=
  OstreeRepo -> string -> GFileInfo -> Z
  -> OstreeRepoCommitFilterResult * GFileInfo.

(** [struct OstreeRepoCommitModifier]; [modifier_destroy_notify] tells
    whether a notifier was given. *)
Record OstreeRepoCommitModifier := {
  modifier_refcount : Z;
  modifier_flags : Z;
  modifier_filter : option OstreeRepoCommitFilter;
  modifier_user_data : Z;
  modifier_destroy_notify : bool
}.

Definition with_refcount (n : Z) (m : OstreeRepoCommitModifier)
    : OstreeRepoCommitModifier :=
  {| modifier_refcount := n; modifier_flags := modifier_flags m;
     modifier_filter := modifier_filter m;
     modifier_user_data := modifier_user_data m;
     modifier_destroy_notify := modifier_destroy_notify m |}.

(** A [gint]: 32 bits, two's complement. *)
Definition gint (z : Z) : Z := (z + 2 ^ 31) mod 2 ^ 32 - 2 ^ 31.

(** The modifiers that are allocated, by address, and the user data the
    destroy notifiers were called with, oldest first. *)
Record ModifierHeap := {
  modifiers : gmap positive OstreeRepoCommitModifier;
  destroyed : list Z
}.

(** [ostree_repo_commit_modifier_new] (lines 1684-1699). *)
Definition ostree_repo_commit_modifier_new (flags : Z)
    (commit_filter : option OstreeRepoCommitFilter) (user_data : Z)
    (destroy_notify : bool) (h : ModifierHeap) : positive * ModifierHeap :=
  let modifier := fresh (dom (modifiers h)) in
  (modifier,
   {| modifiers :=
        <[modifier := {| modifier_refcount := 1; modifier_flags := flags;
                         modifier_filter := commit_filter;
                         modifier_user_data := user_data;
                         modifier_destroy_notify := destroy_notify |}]>
          (modifiers h);
      destroyed := destroyed h |}).

(** [ostree_repo_commit_modifier_ref] (lines 1701-1706); [None] when the
    address holds no modifier. *)
Definition ostree_repo_commit_modifier_ref (modifier : positive)
    (h : ModifierHeap) : option (positive * ModifierHeap) :=
  m ← modifiers h !! modifier;
  Some (modifier,
        {| modifiers :=
             <[modifier := with_refcount (gint (modifier_refcount m + 1)) m]>
               (modifiers h);
           destroyed := destroyed h |}).

(** [ostree_repo_commit_modifier_unref] (lines 1708-1721); the pointer
    may be [NULL]. *)
Definition ostree_repo_commit_modifier_unref (modifier : option positive)
    (h : ModifierHeap) : option ModifierHeap :=
  match modifier with
  | None => Some h
  | Some modifier =>
      m ← modifiers h !! modifier;
      let n := gint (modifier_refcount m - 1) in
      if negb (n =? 0)%Z then
        Some {| modifiers := <[modifier := with_refcount n m]> (modifiers h);
                destroyed := destroyed h |}
      else
        Some {| modifiers := delete modifier (modifiers h);
                destroyed :=
                  if modifier_destroy_notify m
                  then destroyed h ++ [modifier_user_data m]
                  else destroyed h |}
  end.

(** A holder takes or drops a reference. *)
Inductive ModifierOp := ModifierRef | ModifierUnref.

Fixpoint run_modifier_ops (modifier : positive) (ops : list ModifierOp)
    (h : ModifierHeap) : option ModifierHeap :=
  match ops with
  | [] => Some h
  | ModifierRef :: rest =>
      ph ← ostree_repo_commit_modifier_ref modifier h;
      run_modifier_ops modifier rest (snd ph)
  | ModifierUnref :: rest =>
      h' ← ostree_repo_commit_modifier_unref (Some modifier) h;
      run_modifier_ops modifier rest h'
  end.


(** ** Walking a directory into a mutable tree (lines 1336-1606) *)

(** A [GFile] as the walker reads it: whether it is an [OstreeRepoFile]
    and what the [ostree_repo_file_*] calls give for it, what
    [g_file_query_info], [ostree_get_xattrs_for_file] and [g_file_read]
    give, and its enumeration: the error of
    [g_file_enumerate_children], if any, else the children
    [gs_file_enumerator_iterate] yields, each with the [GFile] that
    [g_file_get_child] gives for its name, and the error that ends the
    iteration, if one does. *)
#[local] Set Warnings "-register-all".
Inductive GFile := {
  is_repo_file : bool;
  repo_file_ensure_resolved : option GError;
  repo_file_checksum : string;
  repo_file_tree_contents_checksum : string;
  file_query_info : GError + GFileInfo;
  file_xattrs : GError + XAttrs;
  file_read : GError + list byte;
  enumerate_error : option GError;
  enumerated : list (GFileInfo * GFile);
  iterate_error : option GError
}.

(** The mutable trees live in a store of their own and are reached
    through pointers; the functions of [ostree-mutable-tree.c] are taken
    as given.  [ostree_raw_file_to_content_stream] hands back the stream
    of the FILE object and its length, [ostree_create_directory_metadata]
    the DIR_META variant. *)
Variable MTreeStore : Type.
Variable MTreePtr : Type.
Variable ostree_mutable_tree_set_metadata_checksum :
  MTreePtr -> string -> MTreeStore -> MTreeStore.
Variable ostree_mutable_tree_set_contents_checksum :
  MTreePtr -> string -> MTreeStore -> MTreeStore.
Variable ostree_mutable_tree_get_files :
  MTreePtr -> MTreeStore -> GHashTable string.
Variable ostree_mutable_tree_get_subdirs :
  MTreePtr -> MTreeStore -> GHashTable MTreePtr.
Variable ostree_mutable_tree_ensure_dir :
  MTreePtr -> string -> MTreeStore -> (GError + MTreePtr) * MTreeStore.
Variable ostree_mutable_tree_replace_file :
  MTreePtr -> string -> string -> MTreeStore -> option GError * MTreeStore.
Variable ostree_create_directory_metadata :
  GFileInfo -> option XAttrs -> GVariant.
Variable ostree_raw_file_to_content_stream :
  option (list byte) -> GFileInfo -> option XAttrs
  -> GError + (list byte * Z).

(** What the walker works on besides the repository: the mutable trees,
    the [path] array, and a record of the calls of the filter, each with
    the path it was given and its answer, oldest first. *)
Record Walk := {
  w_mtrees : MTreeStore;
  w_path : list string;
  w_asked : list (string * OstreeRepoCommitFilterResult)
}.

Definition with_mtrees (f : MTreeStore -> MTreeStore) (w : Walk) : Walk :=
  {| w_mtrees := f (w_mtrees w); w_path := w_path w; w_asked := w_asked w |}.
Definition with_path (f : list string -> list string) (w : Walk) : Walk :=
  {| w_mtrees := w_mtrees w; w_path := f (w_path w); w_asked := w_asked w |}.
Definition with_asked (path : string) (result : OstreeRepoCommitFilterResult)
    (w : Walk) : Walk :=
  {| w_mtrees := w_mtrees w; w_path := w_path w;
     w_asked := w_asked w ++ [(path, result)] |}.

Definition modify_walk (f : Walk -> Walk) : M (Walk * State) unit :=
  fun ws => (Ok tt, (f (fst ws), snd ws)).

(** A call into [ostree-mutable-tree.c] that can fail. *)
Definition mtree_call {A} (call : MTreeStore -> (GError + A) * MTreeStore)
    : M (Walk * State) A :=
  fun ws =>
    match call (w_mtrees (fst ws)) with
    | (inl e, t) => (Error e, (with_mtrees (fun _ => t) (fst ws), snd ws))
    | (inr a, t) => (Ok a, (with_mtrees (fun _ => t) (fst ws), snd ws))
    end.

Definition mtree_replace_file (mtree : MTreePtr) (name checksum : string)
    : M (Walk * State) unit :=
  mtree_call (fun t =>
    match ostree_mutable_tree_replace_file mtree name checksum t with
    | (Some e, t') => (inl e, t')
    | (None, t') => (inr tt, t')
    end).

(** Lines 1351-1364: the path handed to the filter. *)
Definition filter_path (path : list string) : string :=
  match path with
  | [] => "/"
  | _ => fold_left (fun path_buf elt => path_buf +:+ "/" +:+ elt) path
           EmptyString
  end.

(** [apply_commit_filter] (lines 1336-1375). *)
Definition apply_commit_filter (modifier : option OstreeRepoCommitModifier)
    (file_info : GFileInfo)
    : M (Walk * State) (OstreeRepoCommitFilterResult * GFileInfo) :=
  match modifier with
  | None => ret (OSTREE_REPO_COMMIT_FILTER_ALLOW, file_info)
  | Some m =>
      match modifier_filter m with
      | None => ret (OSTREE_REPO_COMMIT_FILTER_ALLOW, file_info)
      | Some filter =>
          ws <- get ;;
          let path_buf := filter_path (w_path (fst ws)) in
          let answer :=
            filter (self (snd ws)) path_buf file_info (modifier_user_data m) in
          modify_walk (with_asked path_buf (fst answer)) ;;;
          ret answer
      end
  end.

(** Modelled from the spec: the flag [SKIP_XATTRS] of a modifier; its
    value is the first bit. *)
Definition OSTREE_REPO_COMMIT_MODIFIER_FLAGS_SKIP_XATTRS : Z := 1.

(** Lines 1427-1431 and 1516-1521: the xattrs of [file], unless the
    modifier says to skip them. *)
Definition xattrs_unless_skipped (modifier : option OstreeRepoCommitModifier)
    (file : GFile) : M (Walk * State) (option XAttrs) :=
  if match modifier with
     | Some m =>
         (Z.land (modifier_flags m)
            OSTREE_REPO_COMMIT_MODIFIER_FLAGS_SKIP_XATTRS >? 0)%Z
     | None => false
     end
  then ret None
  else match file_xattrs file with
       | inl e => throw e
       | inr xattrs => ret (Some xattrs)
       end.

Definition is_allow (r : OstreeRepoCommitFilterResult) : bool :=
  match r with
  | OSTREE_REPO_COMMIT_FILTER_ALLOW => true
  | OSTREE_REPO_COMMIT_FILTER_SKIP => false
  end.

(** Lines 1489-1539: a child that is no directory, outside the reuse of
    a repository directory. *)
Definition write_child_file (modifier : option OstreeRepoCommitModifier)
    (cancelled : bool) (mtree : MTreePtr) (name : string)
    (child_info modified_info : GFileInfo) (child : GFile)
    : M (Walk * State) unit :=
  ws <- get ;;
  match devino_cache_lookup (self (snd ws)) child_info with
  | Some loose_checksum => mtree_replace_file mtree name loose_checksum
  | None =>
      file_input <-
        (if bool_decide (standard_type modified_info = G_FILE_TYPE_REGULAR)
         then match file_read child with
              | inl e => throw e
              | inr data => ret (Some data)
              end
         else ret None) ;;
      xattrs <- xattrs_unless_skipped modifier child ;;
      match ostree_raw_file_to_content_stream file_input modified_info
              xattrs with
      | inl e => throw e
      | inr (file_object_input, file_obj_length) =>
          child_file_csum <-
            lift (ostree_repo_write_content None file_object_input
                    file_obj_length true cancelled) ;;
          match child_file_csum with
          | Some csum =>
              mtree_replace_file mtree name (ostree_checksum_from_bytes csum)
          | None => abort
          end
      end
  end.

(** Lines 1392-1441: the directory itself.  The result is the answer of
    the filter and [repo_dir_was_empty]. *)
Definition write_directory_itself
    (modifier : option OstreeRepoCommitModifier) (cancelled : bool)
    (repo_dir : bool) (dir : GFile) (mtree : MTreePtr)
    : M (Walk * State) (OstreeRepoCommitFilterResult * bool) :=
  if repo_dir then
    match repo_file_ensure_resolved dir with
    | Some e => throw e
    | None =>
        modify_walk (with_mtrees
          (ostree_mutable_tree_set_metadata_checksum mtree
             (repo_file_checksum dir))) ;;;
        ws <- get ;;
        let t := w_mtrees (fst ws) in
        ret (OSTREE_REPO_COMMIT_FILTER_ALLOW,
             (length (ostree_mutable_tree_get_files mtree t) =? 0)%nat
             && (length (ostree_mutable_tree_get_subdirs mtree t) =? 0)%nat)
    end
  else
    match file_query_info dir with
    | inl e => throw e
    | inr child_info =>
        answer <- apply_commit_filter modifier child_info ;;
        let filter_result := fst answer in
        let modified_info := snd answer in
        (if is_allow filter_result then
           xattrs <- xattrs_unless_skipped modifier dir ;;
           child_file_csum <-
             lift (_ostree_repo_write_directory_meta
                     ostree_create_directory_metadata modified_info xattrs
                     true cancelled) ;;
           match child_file_csum with
           | Some csum =>
               modify_walk (with_mtrees
                 (ostree_mutable_tree_set_metadata_checksum mtree
                    (ostree_checksum_from_bytes csum)))
           | None => abort
           end
         else ret tt) ;;;
        ret (filter_result, false)
    end.

(** [write_directory_to_mtree_internal] (lines 1377-1571). *)
Fixpoint write_directory_to_mtree_internal
    (modifier : option OstreeRepoCommitModifier) (cancelled : bool)
    (dir : GFile) (mtree : MTreePtr) {struct dir} : M (Walk * State) unit :=
  let repo_dir :=
    is_repo_file dir
    && match modifier with None => true | Some _ => false end in
  itself <- write_directory_itself modifier cancelled repo_dir dir mtree ;;
  let filter_result := fst itself in
  let repo_dir_was_empty := snd itself in
  (if is_allow filter_result then
     match enumerate_error dir with
     | Some e => throw e
     | None =>
         (fix iterate (children : list (GFileInfo * GFile))
            : M (Walk * State) unit :=
            match children with
            | [] =>
                match iterate_error dir with
                | Some e => throw e
                | None => ret tt
                end
            | (child_info, child) :: rest =>
                let name := standard_name child_info in
                modify_walk (with_path (fun path => path ++ [name])) ;;;
                answer <- apply_commit_filter modifier child_info ;;
                (if is_allow (fst answer) then
                   (if bool_decide (standard_type child_info
                                    = G_FILE_TYPE_DIRECTORY)
                    then
                      child_mtree <-
                        mtree_call
                          (ostree_mutable_tree_ensure_dir mtree name) ;;
                      write_directory_to_mtree_internal modifier cancelled
                        child child_mtree
                    else if repo_dir then
                      mtree_replace_file mtree name (repo_file_checksum child)
                    else
                      write_child_file modifier cancelled mtree name
                        child_info (snd answer) child) ;;;
                   modify_walk
                     (with_path (fun path => take (length path - 1) path))
                 else ret tt) ;;;
                iterate rest
            end) (enumerated dir)
     end
   else ret tt) ;;;
  if repo_dir && repo_dir_was_empty then
    modify_walk (with_mtrees
      (ostree_mutable_tree_set_contents_checksum mtree
         (repo_file_tree_contents_checksum dir)))
  else ret tt.

(** [ostree_repo_write_directory_to_mtree] (lines 1573-1606): the walk
    starts with an empty path. *)
Definition ostree_repo_write_directory_to_mtree
    (modifier : option OstreeRepoCommitModifier) (cancelled : bool)
    (dir : GFile) (mtree : MTreePtr) : M (Walk * State) unit :=
  modify_walk (with_path (fun _ => [])) ;;;
  write_directory_to_mtree_internal modifier cancelled dir mtree.


(** The loop of lines 1453-1543, by name. *)
Definition iterate_children (modifier : option OstreeRepoCommitModifier)
    (cancelled : bool) (dir : GFile) (mtree : MTreePtr)
    : list (GFileInfo * GFile) -> M (Walk * State) unit :=
  let repo_dir :=
    is_repo_file dir
    && match modifier with None => true | Some _ => false end in
  fix iterate (children : list (GFileInfo * GFile))
    : M (Walk * State) unit :=
    match children with
    | [] =>
        match iterate_error dir with
        | Some e => throw e
        | None => ret tt
        end
    | (child_info, child) :: rest =>
        let name := standard_name child_info in
        modify_walk (with_path (fun path => path ++ [name])) ;;;
        answer <- apply_commit_filter modifier child_info ;;
        (if is_allow (fst answer) then
           (if bool_decide (standard_type child_info = G_FILE_TYPE_DIRECTORY)
            then
              child_mtree <-
                mtree_call (ostree_mutable_tree_ensure_dir mtree name) ;;
              write_directory_to_mtree_internal modifier cancelled
                child child_mtree
            else if repo_dir then
              mtree_replace_file mtree name (repo_file_checksum child)
            else
              write_child_file modifier cancelled mtree name
                child_info (snd answer) child) ;;;
           modify_walk
             (with_path (fun path => take (length path - 1) path))
         else ret tt) ;;;
        iterate rest
    end.


(** * Properties *)

#[local] Set Warnings "-clear-no-such-hyp".

(** The events a run added to the log. *)
Definition logged (s s' : State) (evs : list Event) : Prop :=
  trace (env s') = trace (env s) ++ evs.

Definition Ev (call : Syscall) (errno : option Errno) : Event :=
  {| ev_call := call; ev_errno := errno |}.

Lemma logged_refl s : logged s s [].
Proof. unfold logged. by rewrite app_nil_r. Qed.

Lemma logged_trans s1 s2 s3 evs1 evs2 :
  logged s1 s2 evs1 -> logged s2 s3 evs2 -> logged s1 s3 (evs1 ++ evs2).
Proof. unfold logged. intros H1 H2. by rewrite H2, H1, app_assoc. Qed.

(** What one syscall does: it yields an errno [r], logs itself with it,
    drops one fault entry, and changes the disk only when it succeeds,
    then as its effect says. *)
Lemma syscall_inv call eff s r s' :
  syscall call eff s = (r, s') ->
  exists errno,
    r = Ok errno /\ logged s s' [Ev call errno] /\ self s' = self s
    /\ faults (env s') = tail (faults (env s))
    /\ tmp_name_next (env s') = tmp_name_next (env s)
    /\ match errno with
       | Some e =>
           disk s' = disk s
           /\ (head (faults (env s)) = Some (Some e)
               \/ (eff (disk s) = inl e
                   /\ (head (faults (env s)) = None
                       \/ head (faults (env s)) = Some None)))
       | None =>
           eff (disk s) = inr (disk s')
           /\ (head (faults (env s)) = None \/ head (faults (env s)) = Some None)
       end.
Proof.
  unfold syscall, logged. intros H.
  destruct (faults (env s)) as [|[e|] fs] eqn:Hf; simpl in H.
  - destruct (eff (disk s)) as [e|d] eqn:He; inversion H; subst; clear H;
      [exists (Some e) | exists None]; simpl; rewrite ?Hf; auto 10.
  - inversion H; subst; clear H. exists (Some e). simpl. rewrite ?Hf. auto 10.
  - destruct (eff (disk s)) as [e|d] eqn:He; inversion H; subst; clear H;
      [exists (Some e) | exists None]; simpl; rewrite ?Hf; auto 10.
Qed.

(** A result other than [Ok], at another type. *)
Definition failure_of {A B} (r : Res A) : Res B :=
  match r with
  | Ok _ => Abort
  | Error e => Error e
  | ReturnIfFail => ReturnIfFail
  | Abort => Abort
  end.

Lemma bind_inv {S A B} (c : M S A) (k : A -> M S B) s r s' :
  bind c k s = (r, s') ->
  (exists a s1, c s = (Ok a, s1) /\ k a s1 = (r, s'))
  \/ (exists r1, c s = (r1, s') /\ is_ok r1 = false /\ r = failure_of r1).
Proof.
  unfold bind. destruct (c s) as [[a|e| |] s1] eqn:Hc; intros H.
  - left. eauto.
  - right. inversion H; subst. by exists (Error e).
  - right. inversion H; subst. by exists ReturnIfFail.
  - right. inversion H; subst. by exists Abort.
Qed.

Lemma bind_ok {S A B} (c : M S A) (k : A -> M S B) s a s1 :
  c s = (Ok a, s1) -> bind c k s = k a s1.
Proof. unfold bind. by intros ->. Qed.

Lemma bind_fail {S A B} (c : M S A) (k : A -> M S B) s r1 s1 :
  c s = (r1, s1) -> is_ok r1 = false -> bind c k s = (failure_of r1, s1).
Proof. unfold bind. intros ->. by destruct r1. Qed.

(** Split a hypothesis [bind c k s = (r, s')] into its two cases. *)
Ltac inv_bind H :=
  let a := fresh "a" in
  let s1 := fresh "s" in
  let r1 := fresh "r" in
  let Hc := fresh "Hc" in
  let Hf := fresh "Hfail" in
  apply bind_inv in H as [(a & s1 & Hc & H) | (r1 & Hc & Hf & H)].

Tactic Notation "step_bind" hyp(H) "as" ident(a) ident(s1) ident(Hc) :=
  let r1 := fresh "r" in
  let Hf := fresh "Hfail" in
  apply bind_inv in H as [(a & s1 & Hc & H) | (r1 & Hc & Hf & H)].

Lemma bind_get {S B} (k : S -> M S B) s : bind get k s = k s s.
Proof. done. Qed.

Lemma bind_modify {S B} (f : S -> S) (k : unit -> M S B) s :
  bind (modify f) k s = k tt (f s).
Proof. done. Qed.

Lemma bind_ret {S A B} (a : A) (k : A -> M S B) s : bind (ret a) k s = k a s.
Proof. done. Qed.

Ltac inv_ret H :=
  match type of H with
  | ret _ _ = _ => unfold ret in H; inversion H; subst; clear H
  | throw _ _ = _ => unfold throw in H; inversion H; subst; clear H
  | abort _ = _ => unfold abort in H; inversion H; subst; clear H
  | return_if_fail _ = _ => unfold return_if_fail in H; inversion H; subst; clear H
  | get _ = _ => unfold get in H; inversion H; subst; clear H
  | modify _ _ = _ => unfold modify in H; inversion H; subst; clear H
  end.

(** How [commit_loose_object_trusted] ends, with the calls it logs. *)
Lemma commit_loose_object_trusted_inv loose_path tempfile_name s r s' :
  commit_loose_object_trusted loose_path tempfile_name s = (r, s') ->
  let mk := SYS_mkdirat (loose_prefix_of loose_path) 511 in
  let rn := SYS_renameat tempfile_name loose_path in
  let ul := SYS_unlinkat tempfile_name in
  (exists e, e <> EEXIST
     /\ r = Error (ErrFromErrno e)
     /\ logged s s' [Ev mk (Some e)])
  \/ (exists mk_errno, (mk_errno = None \/ mk_errno = Some EEXIST)
      /\ ((r = Ok tt
           /\ logged s s' [Ev mk mk_errno; Ev rn None])
          \/ (exists ul_errno,
                r = Ok tt
                /\ logged s s'
                     [Ev mk mk_errno; Ev rn (Some EEXIST); Ev ul ul_errno])
          \/ (exists e, e <> EEXIST
                /\ r = Error (ErrPrefix ("Storing file '" +:+ tempfile_name +:+ "': ")
                                (ErrFromErrno e))
                /\ logged s s' [Ev mk mk_errno; Ev rn (Some e)]))).
Proof.
  intros H mk rn ul.
  unfold commit_loose_object_trusted in H. fold mk rn ul in H.
  inv_bind H; [|apply syscall_inv in Hc as (? & -> & _); done].
  apply syscall_inv in Hc as (e1 & [= ->] & L1 & _).
  inv_bind H.
  2:{ (* mkdirat failed with something other than EEXIST *)
    destruct e1 as [e1|]; [|inv_ret Hc; done].
    destruct (decide (e1 <> EEXIST)); inv_ret Hc; [|done].
    left. exists e1. done. }
  assert ((e1 = None \/ e1 = Some EEXIST) /\ s1 = s0) as [Hme ->].
  { destruct e1 as [e1|]; [|inv_ret Hc; auto].
    destruct (decide (e1 <> EEXIST)) as [|Heq]; inv_ret Hc.
    destruct (decide (e1 = EEXIST)) as [->|]; [auto|by destruct Heq]. }
  clear Hc. right. exists e1. split; [done|].
  inv_bind H; [|apply syscall_inv in Hc as (? & -> & _); done].
  apply syscall_inv in Hc as (e2 & [= ->] & L2 & _).
  pose proof (logged_trans _ _ _ _ _ L1 L2) as L12. simpl in L12.
  destruct e2 as [e2|]; [|inv_ret H; auto].
  destruct (decide (e2 <> EEXIST)) as [|Heq].
  - inv_ret H. right; right. exists e2. done.
  - destruct (decide (e2 = EEXIST)) as [->|]; [|by destruct Heq].
    right; left.
    inv_bind H; [|apply syscall_inv in Hc as (? & -> & _); done].
    apply syscall_inv in Hc as (e3 & [= ->] & L3 & _).
    inv_ret H. exists e3. split; [done|].
    apply (logged_trans _ _ _ _ _ L12 L3).
Qed.

(** C3.  How [commit_loose_object_trusted] ends, by what [mkdirat] and
    [renameat] answer.  A [mkdirat] failing with anything but EEXIST is the
    call's error and nothing else is tried.  Otherwise (the directory was
    made, or EEXIST said it exists) the rename is issued: if it succeeds
    the call succeeds; if it fails with EEXIST the temp file is unlinked
    and the call succeeds; any other failure is the call's error. *)
Theorem commit_loose_object_trusted_outcomes
    (loose_path tempfile_name : string) (s : State) :
  let mk := SYS_mkdirat (loose_prefix_of loose_path) 511 in
  let rn := SYS_renameat tempfile_name loose_path in
  let ul := SYS_unlinkat tempfile_name in
  let out := commit_loose_object_trusted loose_path tempfile_name s in
  (exists e, e <> EEXIST
     /\ fst out = Error (ErrFromErrno e)
     /\ logged s (snd out) [Ev mk (Some e)])
  \/ (exists mk_errno, (mk_errno = None \/ mk_errno = Some EEXIST)
      /\ ((fst out = Ok tt
           /\ logged s (snd out) [Ev mk mk_errno; Ev rn None])
          \/ (exists ul_errno,
                fst out = Ok tt
                /\ logged s (snd out)
                     [Ev mk mk_errno; Ev rn (Some EEXIST); Ev ul ul_errno])
          \/ (exists e, e <> EEXIST
                /\ fst out = Error (ErrPrefix ("Storing file '" +:+ tempfile_name +:+ "': ")
                                      (ErrFromErrno e))
                /\ logged s (snd out) [Ev mk mk_errno; Ev rn (Some e)]))).
Proof.
  intros mk rn ul out. subst out.
  destruct (commit_loose_object_trusted loose_path tempfile_name s)
    as [r s'] eqn:H.
  exact (commit_loose_object_trusted_inv _ _ _ _ _ H).
Qed.

(** ** Transactions *)

Lemma checked_inv call eff s r s' :
  checked call eff s = (r, s') ->
  exists errno,
    logged s s' [Ev call errno] /\ self s' = self s
    /\ faults (env s') = tail (faults (env s))
    /\ tmp_name_next (env s') = tmp_name_next (env s)
    /\ match errno with
       | None =>
           r = Ok tt /\ eff (disk s) = inr (disk s')
           /\ (head (faults (env s)) = None \/ head (faults (env s)) = Some None)
       | Some e =>
           r = Error (ErrFromErrno e) /\ disk s' = disk s
           /\ (head (faults (env s)) = Some (Some e) \/ eff (disk s) = inl e)
       end.
Proof.
  unfold checked. intros H.
  inv_bind H; [|apply syscall_inv in Hc as (? & -> & _); done].
  apply syscall_inv in Hc as (errno & [= ->] & L & Hs & Hf & Hn & Hd).
  exists errno. destruct errno as [e|]; inv_ret H; intuition.
Qed.

(** A call with no effect on the disk. *)
Lemma checked_none_inv call s r s' :
  checked call eff_none s = (r, s') ->
  disk s' = disk s /\ self s' = self s
  /\ faults (env s') = tail (faults (env s))
  /\ exists errno,
       logged s s' [Ev call errno]
       /\ match errno with
          | None => r = Ok tt
          | Some e => r = Error (ErrFromErrno e) /\ faults (env s) <> []
          end.
Proof.
  intros H. apply checked_inv in H as (errno & L & Hs & Hf & _ & Hd).
  unfold eff_none in Hd. destruct errno as [e|].
  - destruct Hd as (-> & Hd & Hh). repeat split; try done.
    exists (Some e). split; [done|]. split; [done|].
    destruct Hh as [Hh|Hh]; [|done]. by destruct (faults (env s)).
  - destruct Hd as (-> & [= Hd] & _). repeat split; try done.
    by exists None.
Qed.

(** A syscall issued by the cleanup of [tmp/]. *)
Definition is_cleanup_call (c : Syscall) : bool :=
  match c with
  | SYS_enumerate_tmp | SYS_enumerator_iterate | SYS_rm_rf _ => true
  | _ => false
  end.

(** What [tmp/] holds once the entries [names] are removed in turn. *)
Definition remove_all (names : list string) (t : gmap string Inode)
    : gmap string Inode :=
  fold_left (fun m n => delete n m) names t.

Lemma remove_all_lookup names (t : gmap string Inode) k :
  remove_all names t !! k = if decide (k ∈ names) then None else t !! k.
Proof.
  revert t. unfold remove_all.
  induction names as [|n names IH]; intros t; simpl.
  - done.
  - rewrite IH. destruct (decide (k = n)) as [->|Hne].
    + rewrite lookup_delete_eq.
      rewrite (decide_True (P := n ∈ n :: names)) by left. by case_decide.
    + rewrite lookup_delete_ne by done.
      repeat case_decide; try done;
        match goal with
        | H : ¬ (_ ∈ _ :: _) |- _ => exfalso; apply H; by right
        | H : _ ∈ _ :: _ |- _ => by apply elem_of_cons in H as [?|?]
        end.
Qed.

Lemma remove_all_keys (t : gmap string Inode) :
  remove_all (map fst (map_to_list t)) t = ∅.
Proof.
  apply map_eq. intros k. rewrite remove_all_lookup, lookup_empty.
  destruct (decide _) as [|Hn]; [done|].
  destruct (t !! k) as [i|] eqn:Hk; [|done].
  destruct Hn. apply list_elem_of_fmap. exists (k, i). split; [done|].
  by apply elem_of_map_to_list.
Qed.

(** The parts of the state the cleanup of [tmp/] leaves alone. *)
Definition disk_same_but_tmp (d d' : Disk) : Prop :=
  objects_prefixes d' = objects_prefixes d
  /\ objects_dir d' = objects_dir d
  /\ transaction_lock d' = transaction_lock d
  /\ refs d' = refs d.

Definition same_but_tmp (s s' : State) : Prop :=
  self s' = self s /\ disk_same_but_tmp (disk s) (disk s').

Lemma same_but_tmp_refl s : same_but_tmp s s.
Proof. by repeat split. Qed.

Lemma same_but_tmp_trans s1 s2 s3 :
  same_but_tmp s1 s2 -> same_but_tmp s2 s3 -> same_but_tmp s1 s3.
Proof. unfold same_but_tmp, disk_same_but_tmp. intros (?&?&?&?&?) (?&?&?&?&?). repeat split; congruence. Qed.

Lemma gs_shutil_rm_rf_inv name s r s' :
  gs_shutil_rm_rf name s = (r, s') ->
  same_but_tmp s s'
  /\ faults (env s') = tail (faults (env s))
  /\ exists errno,
       logged s s' [Ev (SYS_rm_rf name) errno]
       /\ match errno with
          | None => r = Ok tt /\ tmp_dir (disk s') = delete name (tmp_dir (disk s))
          | Some e => r = Error (ErrFromErrno e) /\ faults (env s) <> []
                      /\ tmp_dir (disk s') = tmp_dir (disk s)
          end.
Proof.
  intros H. apply checked_inv in H as (errno & L & Hs & Hf & _ & Hd).
  destruct errno as [e|].
  - destruct Hd as (-> & Hd & Hh). unfold same_but_tmp, disk_same_but_tmp. rewrite Hd, Hs.
    split; [done|].
    split; [done|]. exists (Some e). split; [done|]. split; [done|].
    split; [|done]. destruct Hh as [Hh|Hh]; [|done]. by destruct (faults (env s)).
  - destruct Hd as (-> & [= Hd] & _). unfold same_but_tmp, disk_same_but_tmp.
    rewrite <- Hd, Hs. simpl.
    split; [done|].
    split; [done|]. by exists None.
Qed.

Lemma cleanup_tmpdir_loop_inv names s r s' :
  cleanup_tmpdir_loop names s = (r, s') ->
  same_but_tmp s s'
  /\ (exists evs, logged s s' evs
        /\ Forall (fun ev => is_cleanup_call (ev_call ev) = true) evs)
  /\ ((r = Ok tt /\ tmp_dir (disk s') = remove_all names (tmp_dir (disk s)))
      \/ (exists e, r = Error (ErrFromErrno e)))
  /\ (faults (env s) = [] -> r = Ok tt /\ faults (env s') = []).
Proof.
  revert s. induction names as [|name rest IH]; intros s H; simpl in H.
  - apply checked_none_inv in H as (Hd & Hs & Hf & errno & L & Hr).
    split; [unfold same_but_tmp, disk_same_but_tmp; by rewrite Hd, Hs|].
    split; [exists [Ev SYS_enumerator_iterate errno]; split; [done|by repeat constructor]|].
    split.
    + destruct errno as [e|]; [right; exists e; tauto|left; by rewrite Hd].
    + intros Hnil. rewrite Hnil in *. destruct errno as [e|]; [by destruct Hr|done].
  - inv_bind H.
    2:{ apply checked_none_inv in Hc as (Hd & Hs & Hf & errno & L & Hr).
        destruct errno as [e|]; [|by subst].
        destruct Hr as [-> Hne]. subst r. simpl.
        split; [unfold same_but_tmp, disk_same_but_tmp; by rewrite Hd, Hs|].
        split; [exists [Ev SYS_enumerator_iterate (Some e)]; split; [done|by repeat constructor]|].
        split; [right; by exists e|]. intros Hnil. by destruct Hne. }
    apply checked_none_inv in Hc as (Hd & Hs & Hf & errno & L & Hr).
    inv_bind H.
    2:{ apply gs_shutil_rm_rf_inv in Hc as (Hsame & Hf2 & errno2 & L2 & Hr2).
        destruct errno2 as [e|]; [|destruct Hr2; by subst].
        destruct Hr2 as (-> & Hne & Ht). subst r. simpl.
        split.
        { eapply same_but_tmp_trans; [|exact Hsame].
          unfold same_but_tmp, disk_same_but_tmp; by rewrite Hd, Hs. }
        split.
        { eexists. split; [exact (logged_trans _ _ _ _ _ L L2)|by repeat constructor]. }
        split; [right; by exists e|]. intros Hnil. rewrite Hnil in Hf. by destruct Hne. }
    apply gs_shutil_rm_rf_inv in Hc as (Hsame & Hf2 & errno2 & L2 & Hr2).
    apply IH in H as (Hsame3 & (evs & L3 & Hevs) & Hres & Hnofault).
    split.
    { eapply same_but_tmp_trans; [|exact Hsame3].
      eapply same_but_tmp_trans; [|exact Hsame].
      unfold same_but_tmp, disk_same_but_tmp; by rewrite Hd, Hs. }
    split.
    { eexists. split; [exact (logged_trans _ _ _ _ _ (logged_trans _ _ _ _ _ L L2) L3)|].
      simpl. by repeat constructor. }
    split.
    + destruct Hres as [[-> Ht]|[e ->]]; [left|right; by exists e].
      split; [done|]. rewrite Ht. unfold remove_all. simpl.
      destruct errno2 as [e|]; [by destruct Hr2|]. destruct Hr2 as [_ ->].
      by rewrite Hd.
    + intros Hnil. apply Hnofault. rewrite Hf2, Hf, Hnil. done.
Qed.

Lemma cleanup_tmpdir_inv s r s' :
  cleanup_tmpdir s = (r, s') ->
  same_but_tmp s s'
  /\ (exists evs, logged s s' evs
        /\ Forall (fun ev => is_cleanup_call (ev_call ev) = true) evs)
  /\ ((r = Ok tt /\ tmp_dir (disk s') = ∅)
      \/ (exists e, r = Error (ErrFromErrno e)))
  /\ (faults (env s) = [] -> r = Ok tt /\ faults (env s') = []).
Proof.
  unfold cleanup_tmpdir. intros H. inv_bind H.
  2:{ apply checked_none_inv in Hc as (Hd & Hs & Hf & errno & L & Hr).
      destruct errno as [e|]; [|by subst].
      destruct Hr as [-> Hne]. subst r. simpl.
      split; [unfold same_but_tmp, disk_same_but_tmp; by rewrite Hd, Hs|].
      split; [exists [Ev SYS_enumerate_tmp (Some e)]; split; [done|by repeat constructor]|].
      split; [right; by exists e|]. intros Hnil. by destruct Hne. }
  apply checked_none_inv in Hc as (Hd & Hs & Hf & errno & L & Hr).
  inv_bind H; [|inv_ret Hc; done]. inv_ret Hc.
  apply cleanup_tmpdir_loop_inv in H as (Hsame & (evs & L2 & Hevs) & Hres & Hnofault).
  split.
  { eapply same_but_tmp_trans; [|exact Hsame].
    unfold same_but_tmp, disk_same_but_tmp; by rewrite Hd, Hs. }
  split.
  { eexists. split; [exact (logged_trans _ _ _ _ _ L L2)|]. simpl. by repeat constructor. }
  split.
  - destruct Hres as [[-> Ht]|[e ->]]; [left|right; by exists e].
    split; [done|]. rewrite Ht. apply remove_all_keys.
  - intros Hnil. apply Hnofault. by rewrite Hf, Hnil.
Qed.

Definition is_update_refs_call (c : Syscall) : bool :=
  match c with SYS_update_refs _ => true | _ => false end.

Lemma cleanup_calls_no_update_refs evs :
  Forall (fun ev => is_cleanup_call (ev_call ev) = true) evs ->
  Forall (fun ev => is_update_refs_call (ev_call ev) = false) evs.
Proof.
  intros H. eapply Forall_impl; [exact H|]. intros [c e]; simpl. by destruct c.
Qed.

(** What an abort inside a transaction does: either the cleanup of
    [tmp/] fails and so does the abort, the repository object untouched;
    or [tmp/] is emptied, the devino cache and the pending refs are
    dropped and the repository leaves the transaction.  Nothing else on
    disk changes, and the ref updater is not called. *)
Lemma abort_in_transaction_inv s r s' :
  in_transaction (self s) = true ->
  ostree_repo_abort_transaction s = (r, s') ->
  disk_same_but_tmp (disk s) (disk s')
  /\ (exists evs, logged s s' evs
        /\ Forall (fun ev => is_cleanup_call (ev_call ev) = true) evs)
  /\ ((r = Ok tt
       /\ self s' = with_in_transaction false
                      (with_txn_refs None (clear_devino_hash (self s)))
       /\ tmp_dir (disk s') = ∅)
      \/ (exists e, r = Error (ErrFromErrno e) /\ self s' = self s))
  /\ (faults (env s) = [] -> r = Ok tt).
Proof.
  intros Hin H. unfold ostree_repo_abort_transaction in H.
  inv_bind H; [|inv_ret Hc; done]. inv_ret Hc. rewrite Hin in H. simpl in H.
  inv_bind H.
  2:{ apply cleanup_tmpdir_inv in Hc as (Hsame & Hev & Hres & Hnf).
      split; [by destruct Hsame|]. split; [done|].
      destruct Hres as [[-> _]|[e ->]]; [done|]. subst r. simpl.
      split; [right; exists e; split; [done|by destruct Hsame]|].
      intros Hnil. by destruct (Hnf Hnil). }
  apply cleanup_tmpdir_inv in Hc as (Hsame & Hev & Hres & Hnf).
  destruct Hres as [[_ Ht]|[e [=]]].
  repeat (inv_bind H; [|inv_ret Hc; done]; inv_ret Hc). inv_ret H. simpl.
  destruct Hsame as (Hs&?).
  split; [done|]. split; [done|]. split; [|done].
  left. rewrite Hs. done.
Qed.

(** The parts of the disk that making or removing the [transaction]
    link leaves alone. *)
Definition disk_same_but_lock (d d' : Disk) : Prop :=
  tmp_dir d' = tmp_dir d
  /\ objects_prefixes d' = objects_prefixes d
  /\ objects_dir d' = objects_dir d
  /\ refs d' = refs d.

Lemma disk_same_but_lock_refl d : disk_same_but_lock d d.
Proof. by repeat split. Qed.

Lemma query_transaction_lock_type_inv s r s' :
  query_transaction_lock_type s = (r, s') ->
  self s' = self s /\ disk s' = disk s
  /\ exists t errno, r = Ok t /\ logged s s' [Ev SYS_query_transaction errno].
Proof.
  unfold query_transaction_lock_type. intros H.
  inv_bind H; [|apply syscall_inv in Hc as (? & -> & _); done].
  apply syscall_inv in Hc as (errno & [= ->] & L & Hs & _ & _ & Hd).
  assert (disk s0 = disk s) as Hd'.
  { destruct errno; [tauto|]. destruct Hd as [Hd _].
    destruct (transaction_lock (disk s)); congruence. }
  inv_bind H; [|inv_ret Hc; done]. inv_ret Hc.
  split; [|split]; [| |destruct errno; inv_ret H; eauto];
    destruct errno; inv_ret H; done.
Qed.

Lemma ot_gfile_ensure_unlinked_transaction_lock_inv s r s' :
  ot_gfile_ensure_unlinked_transaction_lock s = (r, s') ->
  self s' = self s /\ disk_same_but_lock (disk s) (disk s')
  /\ exists errno,
       logged s s' [Ev SYS_unlink_transaction errno]
       /\ match errno with
          | None => r = Ok tt /\ transaction_lock (disk s') = None
          | Some e =>
              disk s' = disk s
              /\ if decide (e = ENOENT) then r = Ok tt
                 else r = Error (ErrFromErrno e)
          end.
Proof.
  unfold ot_gfile_ensure_unlinked_transaction_lock. intros H.
  inv_bind H; [|apply syscall_inv in Hc as (? & -> & _); done].
  apply syscall_inv in Hc as (errno & [= ->] & L & Hs & _ & _ & Hd).
  destruct errno as [e|].
  - destruct Hd as [Hd _].
    assert (s' = s0 /\ if decide (e = ENOENT) then r = Ok tt
                       else r = Error (ErrFromErrno e)) as [-> Hr].
    { destruct e; inv_ret H; done. }
    rewrite Hd. split; [done|]. split; [apply disk_same_but_lock_refl|].
    exists (Some e). done.
  - inv_ret H. destruct Hd as [Hd _]. split; [done|].
    destruct (transaction_lock (disk s)) as [[]|]; inversion Hd as [Hd'];
      (split; [by repeat split|]); exists None; done.
Qed.

Lemma make_transaction_lock_inv target s r s' :
  make_transaction_lock target s = (r, s') ->
  self s' = self s /\ disk_same_but_lock (disk s) (disk s')
  /\ exists errno,
       logged s s' [Ev (SYS_symlink_transaction target) errno]
       /\ match errno with
          | None =>
              r = Ok tt
              /\ transaction_lock (disk s') = Some (Symlink target)
          | Some e => r = Error (ErrFromErrno e) /\ disk s' = disk s
          end.
Proof.
  unfold make_transaction_lock. intros H.
  apply checked_inv in H as (errno & L & Hs & _ & _ & Hd).
  split; [done|]. destruct errno as [e|].
  - destruct Hd as (-> & Hd & _). rewrite Hd.
    split; [apply disk_same_but_lock_refl|]. exists (Some e). done.
  - destruct Hd as (-> & Hd & _).
    destruct (transaction_lock (disk s)); inversion Hd as [Hd'].
    split; [by repeat split|]. exists None. done.
Qed.

Lemma syscall_pid call eff s r s' :
  syscall call eff s = (r, s') -> pid (env s') = pid (env s).
Proof.
  unfold syscall. intros H.
  destruct (faults (env s)) as [|[e|] fs]; simpl in H;
    try destruct (eff (disk s)); by inversion H.
Qed.

Lemma query_transaction_lock_type_pid s r s' :
  query_transaction_lock_type s = (r, s') -> pid (env s') = pid (env s).
Proof.
  unfold query_transaction_lock_type. intros H.
  inv_bind H; [|by apply syscall_pid in Hc].
  apply syscall_pid in Hc.
  inv_bind H; [|inv_ret Hc0; done]. inv_ret Hc0.
  destruct a; inv_ret H; done.
Qed.

Lemma ot_gfile_ensure_unlinked_transaction_lock_pid s r s' :
  ot_gfile_ensure_unlinked_transaction_lock s = (r, s') ->
  pid (env s') = pid (env s).
Proof.
  unfold ot_gfile_ensure_unlinked_transaction_lock. intros H.
  inv_bind H; [|by apply syscall_pid in Hc].
  apply syscall_pid in Hc. destruct a as [[]|]; inv_ret H; done.
Qed.

Definition is_transaction_lock_call (c : Syscall) : bool :=
  match c with
  | SYS_query_transaction | SYS_unlink_transaction
  | SYS_symlink_transaction _ => true
  | _ => false
  end.

Lemma disk_same_but_lock_trans d1 d2 d3 :
  disk_same_but_lock d1 d2 -> disk_same_but_lock d2 d3 ->
  disk_same_but_lock d1 d3.
Proof.
  unfold disk_same_but_lock. intros (?&?&?&?) (?&?&?&?).
  repeat split; congruence.
Qed.

(** What a successful [prepare_transaction] leaves. *)
Lemma prepare_transaction_inv s resume s' :
  ostree_repo_prepare_transaction s = (Ok resume, s') ->
  in_transaction (self s) = false
  /\ self s' = with_in_transaction true (with_txn_stats stats_zero (self s))
  /\ disk_same_but_lock (disk s) (disk s')
  /\ transaction_lock (disk s')
     = Some (Symlink ("pid=" +:+ pretty (pid (env s))))
  /\ exists evs, logged s s' evs
       /\ Forall (fun ev => is_transaction_lock_call (ev_call ev) = true) evs.
Proof.
  intros H. unfold ostree_repo_prepare_transaction in H.
  inv_bind H; [|inv_ret Hc; done]. inv_ret Hc.
  destruct (in_transaction (self s0)) eqn:Hin; [inv_ret H|].
  split; [done|].
  inv_bind H;
    [|apply query_transaction_lock_type_inv in Hc as (_&_&?&?&->&_); done].
  pose proof (query_transaction_lock_type_pid _ _ _ Hc) as Hp1.
  apply query_transaction_lock_type_inv in Hc as (Hs1&Hd1&t&e1&[= ->]&L1).
  inv_bind H; [|inv_ret Hc; done]. inv_ret Hc.
  inv_bind H; [|inv_ret Hc; done]. inv_ret Hc.
  simpl in H.
  set (sa := set_self (with_in_transaction true)
               (set_self (with_txn_stats stats_zero) s)) in H.
  assert (exists sb evs2,
    self sb = self sa /\ disk_same_but_lock (disk sa) (disk sb)
    /\ pid (env sb) = pid (env sa) /\ logged sa sb evs2
    /\ Forall (fun ev => is_transaction_lock_call (ev_call ev) = true) evs2
    /\ (s1 <- get;;
        make_transaction_lock ("pid=" +:+ pretty (pid (env s1)));;;
        ret (bool_decide (t = G_FILE_TYPE_SYMBOLIC_LINK))) sb = (Ok resume, s'))
    as (sb & evs2 & Hsb & Hdb & Hpb & L2 & Hev2 & H').
  { inv_bind H.
    2:{ destruct (bool_decide _); [|inv_ret Hc; done].
        apply ot_gfile_ensure_unlinked_transaction_lock_inv in Hc
          as (_&_&[e|]&_&He); [|destruct He; by subst].
        destruct He as [_ He]. destruct (decide _); by subst. }
    destruct (bool_decide _).
    - pose proof (ot_gfile_ensure_unlinked_transaction_lock_pid _ _ _ Hc) as Hp.
      apply ot_gfile_ensure_unlinked_transaction_lock_inv in Hc
        as (Hs&Hd&e&L&_).
      exists s1, [Ev SYS_unlink_transaction e]. split_and!; try done.
      by repeat constructor.
    - inv_ret Hc. exists sa, []. split_and!; try done.
      apply logged_refl. }
  inv_bind H'; [|inv_ret Hc; done]. inv_ret Hc.
  inv_bind H'.
  2:{ apply make_transaction_lock_inv in Hc as (_&_&[e|]&_&He);
        destruct He; by subst. }
  apply make_transaction_lock_inv in Hc as (Hs3&Hd3&[e|]&L3&He);
    [by destruct He|]. destruct He as [_ Hlock]. inv_ret H'.
  split; [by rewrite Hs3, Hsb; unfold sa; simpl; rewrite Hs1|].
  split.
  { eapply disk_same_but_lock_trans; [|exact Hd3].
    eapply disk_same_but_lock_trans; [|exact Hdb].
    unfold sa; simpl. rewrite Hd1. apply disk_same_but_lock_refl. }
  split.
  { rewrite Hlock, Hpb. unfold sa; simpl. by rewrite Hp1. }
  eexists. split.
  { eapply logged_trans; [exact L1|].
    eapply logged_trans; [|exact L3].
    unfold sa in L2. exact L2. }
  simpl. apply Forall_cons. split; [done|].
  apply Forall_app. split; [done|]. by repeat constructor.
Qed.

(** C6 (amended).  After a successful [prepare_transaction] followed by
    a successful [abort_transaction]: the repository is out of the
    transaction, the pending refs are gone, the refs are as they were and
    the ref updater was never called, [tmp/] is empty, the statistics are
    zero; the [transaction] link that prepare made is still there. *)
Theorem prepare_then_abort (s s1 s2 : State) (resume : bool) :
  ostree_repo_prepare_transaction s = (Ok resume, s1) ->
  ostree_repo_abort_transaction s1 = (Ok tt, s2) ->
  in_transaction (self s2) = false
  /\ txn_refs (self s2) = None
  /\ refs (disk s2) = refs (disk s)
  /\ (exists evs, logged s s2 evs
        /\ Forall (fun ev => is_update_refs_call (ev_call ev) = false) evs)
  /\ tmp_dir (disk s2) = ∅
  /\ txn_stats (self s2) = stats_zero
  /\ transaction_lock (disk s2)
     = Some (Symlink ("pid=" +:+ pretty (pid (env s)))).
Proof.
  intros Hp Ha.
  apply prepare_transaction_inv in Hp as (Hin & Hs1 & Hd1 & Hlock & evs1 & L1 & Hev1).
  apply abort_in_transaction_inv in Ha as (Hd2 & (evs2 & L2 & Hev2) & Hres & _);
    [|by rewrite Hs1].
  destruct Hres as [(_ & Hs2 & Ht)|(e & [=] & _)].
  destruct Hd1 as (?&?&?&Hr1). destruct Hd2 as (?&?&Hl2&Hr2).
  rewrite Hs2, Hs1. split; [done|]. split; [done|].
  split; [by rewrite Hr2, Hr1|].
  split.
  { exists (evs1 ++ evs2). split; [by eapply logged_trans|].
    apply Forall_app. split.
    - eapply Forall_impl; [exact Hev1|]. intros [c ?]; simpl. by destruct c.
    - by apply cleanup_calls_no_update_refs. }
  split; [done|]. split; [|by rewrite Hl2].
  unfold clear_devino_hash. by destruct (loose_object_devino_hash _).
Qed.

(** ** Committing *)

Lemma _ostree_repo_update_refs_inv pending s r s' :
  _ostree_repo_update_refs pending s = (r, s') ->
  self s' = self s
  /\ tmp_dir (disk s') = tmp_dir (disk s)
  /\ transaction_lock (disk s') = transaction_lock (disk s)
  /\ exists errno,
       logged s s' [Ev (SYS_update_refs pending) errno]
       /\ match errno with
          | None =>
              r = Ok tt
              /\ refs (disk s') = apply_pending_refs pending (refs (disk s))
          | Some e => r = Error (ErrFromErrno e) /\ disk s' = disk s
          end.
Proof.
  unfold _ostree_repo_update_refs. intros H.
  apply checked_inv in H as (errno & L & Hs & _ & _ & Hd).
  split; [done|]. destruct errno as [e|].
  - destruct Hd as (-> & Hd & _). rewrite Hd. split_and!; try done.
    by exists (Some e).
  - destruct Hd as (-> & [= <-] & _). split_and!; try done. by exists None.
Qed.

(** The refs after the pending map, if any, was applied. *)
Definition refs_after (pending : option (gmap string (option string)))
    (current : gmap string string) : gmap string string :=
  match pending with
  | Some m => apply_pending_refs m current
  | None => current
  end.

(** The calls of the ref updater a commit makes: one, with the pending
    map, if there is a pending map. *)
Definition update_refs_events (pending : option (gmap string (option string)))
    (errno : option Errno) : list Event :=
  match pending with
  | Some m => [Ev (SYS_update_refs m) errno]
  | None => []
  end.

(** How a commit inside a transaction ends, by the step that fails:
    - the cleanup of [tmp/]: an error, the repository object untouched;
    - the ref updater: an error, still in the transaction, the pending
      refs kept, the refs untouched;
    - the unlink of the [transaction] link: an error, but the repository
      has already left the transaction and the refs are updated;
    - none: the statistics, out of the transaction, the refs updated. *)
Lemma commit_in_transaction_inv s r s' :
  in_transaction (self s) = true ->
  ostree_repo_commit_transaction s = (r, s') ->
  exists cleanup_evs,
    Forall (fun ev => is_cleanup_call (ev_call ev) = true) cleanup_evs
    /\ ((exists e, r = Error (ErrFromErrno e) /\ self s' = self s
           /\ refs (disk s') = refs (disk s)
           /\ logged s s' cleanup_evs)
        \/ (exists e m, r = Error (ErrFromErrno e)
              /\ txn_refs (self s) = Some m
              /\ self s' = clear_devino_hash (self s)
              /\ refs (disk s') = refs (disk s)
              /\ logged s s' (cleanup_evs ++ [Ev (SYS_update_refs m) (Some e)]))
        \/ (exists e, r = Error (ErrFromErrno e) /\ e <> ENOENT
              /\ self s' = with_in_transaction false
                             (with_txn_refs None (clear_devino_hash (self s)))
              /\ refs (disk s') = refs_after (txn_refs (self s)) (refs (disk s))
              /\ logged s s'
                   (cleanup_evs ++ update_refs_events (txn_refs (self s)) None
                    ++ [Ev SYS_unlink_transaction (Some e)]))
        \/ (exists errno, r = Ok (txn_stats (self s))
              /\ self s' = with_in_transaction false
                             (with_txn_refs None (clear_devino_hash (self s)))
              /\ tmp_dir (disk s') = ∅
              /\ refs (disk s') = refs_after (txn_refs (self s)) (refs (disk s))
              /\ logged s s'
                   (cleanup_evs ++ update_refs_events (txn_refs (self s)) None
                    ++ [Ev SYS_unlink_transaction errno]))).
Proof.
  intros Hin H. unfold ostree_repo_commit_transaction in H.
  rewrite bind_get, Hin in H. simpl in H.
  step_bind H as u1 s1 Hc.
  2:{ apply cleanup_tmpdir_inv in Hc as ((Hs&_&_&_&Hr) & (evs & L & Hev) & Hres & _).
      exists evs. split; [done|]. left.
      destruct Hres as [[-> _]|[e ->]]; [done|]. subst r. exists e. done. }
  apply cleanup_tmpdir_inv in Hc as ((Hs&_&_&Hl1&Hr1) & (evs & L & Hev) & Hres & _).
  destruct Hres as [[_ Ht]|[e [=]]].
  exists evs. split; [done|]. right.
  rewrite bind_modify, bind_get in H.
  set (sb := set_self clear_devino_hash s1) in *.
  assert (txn_refs (self sb) = txn_refs (self s)) as Hrefs.
  { unfold sb; simpl. rewrite Hs. unfold clear_devino_hash.
    by destruct (loose_object_devino_hash _). }
  assert (self sb = clear_devino_hash (self s)) as Hsb.
  { unfold sb; simpl. by rewrite Hs. }
  assert (logged s sb evs) as Lb by done.
  assert (refs (disk sb) = refs (disk s)) as Hrb by done.
  assert (tmp_dir (disk sb) = ∅) as Htb by done.
  clearbody sb. clear L Hr1 Ht Hs Hl1 s1.
  step_bind H as u2 s2 Hc.
  2:{ left. destruct (txn_refs (self sb)) as [m|] eqn:Hm;
        [|inv_ret Hc; done].
      apply _ostree_repo_update_refs_inv in Hc as (Hs2&_&_&errno&L2&Hr).
      destruct errno as [e|]; [|destruct Hr; by subst].
      destruct Hr as [-> Hd]. subst r. exists e, m.
      split_and!;
        first [done | congruence | by rewrite Hd | by eapply logged_trans]. }
  right.
  assert (self s2 = self sb /\ tmp_dir (disk s2) = ∅
          /\ refs (disk s2) = refs_after (txn_refs (self s)) (refs (disk s))
          /\ logged s s2 (evs ++ update_refs_events (txn_refs (self s)) None))
    as (Hs2 & Ht2 & Hr2 & L2).
  { rewrite <- Hrefs.
    destruct (txn_refs (self sb)) as [m|] eqn:Hm.
    - apply _ostree_repo_update_refs_inv in Hc as (Hs2&Ht2&_&errno&L2&Hr).
      destruct errno as [e|]; [by destruct Hr|]. destruct Hr as [_ Hr].
      split_and!;
        first [done | by rewrite Ht2 | by simpl; rewrite Hr, Hrb
              | by eapply logged_trans].
    - inv_ret Hc. split_and!; first [done | by simpl; rewrite app_nil_r]. }
  clear Hc. rewrite !bind_modify in H.
  set (sc := set_self (with_in_transaction false)
               (set_self (with_txn_refs None) s2)) in *.
  assert (self sc = with_in_transaction false
                      (with_txn_refs None (clear_devino_hash (self s)))) as Hsc.
  { unfold sc; simpl. by rewrite Hs2, Hsb. }
  assert (logged s sc (evs ++ update_refs_events (txn_refs (self s)) None))
    as Lc by done.
  assert (refs (disk sc) = refs_after (txn_refs (self s)) (refs (disk s)))
    as Hrc by done.
  assert (tmp_dir (disk sc) = ∅) as Htc by done.
  clearbody sc. clear L2 Hr2 Ht2 Hs2 s2.
  step_bind H as u3 s3 Hc.
  2:{ left.
      apply ot_gfile_ensure_unlinked_transaction_lock_inv in Hc
        as (Hs3&(?&?&?&Hr3)&errno&L3&Hr).
      destruct errno as [e|]; [|destruct Hr; by subst].
      destruct Hr as [_ Hr]. destruct (decide (e = ENOENT)); [by subst|].
      subst r0 r. exists e.
      split_and!;
        first [done | by rewrite Hs3 | by rewrite Hr3
              | by rewrite app_assoc; eapply logged_trans]. }
  right.
  apply ot_gfile_ensure_unlinked_transaction_lock_inv in Hc
    as (Hs3&(Ht3&?&?&Hr3)&errno&L3&Hr).
  rewrite bind_get in H. inv_ret H.
  exists errno.
  split_and!;
    first [by rewrite Hs3, Hsc; simpl; unfold clear_devino_hash;
                destruct (loose_object_devino_hash _)
          | by rewrite Hs3 | by rewrite Ht3
          | by rewrite Hr3 | by rewrite app_assoc; eapply logged_trans].
Qed.

(** C7 (amended).  A commit inside a transaction that fails, fails with
    an error, in one of two ways.  If the cleanup of [tmp/] or the ref
    updater failed (the log of the run is then cleanup calls only, or ends
    with the failed ref update), the repository is still in the
    transaction, with its pending refs, and the refs are untouched.  If
    the final unlink of the [transaction] link failed, the repository has
    already left the transaction, the pending refs are cleared and the
    refs are updated.  Which of the two it is can be read off the last
    call logged: a failed cleanup call or a failed ref update means the
    first, a failed unlink of the link the second.  An abort after the
    failed commit either succeeds, leaving the repository out of the
    transaction with no pending refs and the refs as the commit left
    them, or fails because its own cleanup of [tmp/] fails, the repository
    still in the transaction; it succeeds whenever the environment
    injects no further failure. *)
Theorem failed_commit_then_abort (s s1 : State)
    (r : Res OstreeRepoTransactionStats) :
  in_transaction (self s) = true ->
  ostree_repo_commit_transaction s = (r, s1) ->
  is_ok r = false ->
  (exists e, r = Error (ErrFromErrno e))
  /\ ((in_transaction (self s1) = true
       /\ txn_refs (self s1) = txn_refs (self s)
       /\ refs (disk s1) = refs (disk s)
       /\ exists evs,
            logged s s1 evs
            /\ (Forall (fun ev => is_cleanup_call (ev_call ev) = true) evs
                \/ exists evs0 m e,
                     evs = evs0 ++ [Ev (SYS_update_refs m) (Some e)]))
      \/ (in_transaction (self s1) = false
          /\ txn_refs (self s1) = None
          /\ refs (disk s1) = refs_after (txn_refs (self s)) (refs (disk s))
          /\ exists evs e, e <> ENOENT
               /\ logged s s1 (evs ++ [Ev SYS_unlink_transaction (Some e)])))
  /\ (forall evs m e,
        logged s s1 (evs ++ [Ev (SYS_update_refs m) (Some e)]) ->
        in_transaction (self s1) = true
        /\ txn_refs (self s1) = txn_refs (self s)
        /\ refs (disk s1) = refs (disk s))
  /\ (forall evs call e,
        is_cleanup_call call = true ->
        logged s s1 (evs ++ [Ev call (Some e)]) ->
        in_transaction (self s1) = true
        /\ txn_refs (self s1) = txn_refs (self s)
        /\ refs (disk s1) = refs (disk s))
  /\ (forall evs e,
        logged s s1 (evs ++ [Ev SYS_unlink_transaction (Some e)]) ->
        in_transaction (self s1) = false
        /\ txn_refs (self s1) = None
        /\ refs (disk s1) = refs_after (txn_refs (self s)) (refs (disk s)))
  /\ (forall r2 s2,
        ostree_repo_abort_transaction s1 = (r2, s2) ->
        ((r2 = Ok tt
          /\ in_transaction (self s2) = false
          /\ txn_refs (self s2) = None
          /\ refs (disk s2) = refs (disk s1))
         \/ (exists e, r2 = Error (ErrFromErrno e)
               /\ in_transaction (self s2) = true))
        /\ (faults (env s1) = [] -> r2 = Ok tt)).
Proof.
  intros Hin Hc Hfail.
  assert (forall r0, txn_refs (clear_devino_hash r0) = txn_refs r0
                     /\ in_transaction (clear_devino_hash r0) = in_transaction r0)
    as Hclear.
  { intros r0. unfold clear_devino_hash. by destruct (loose_object_devino_hash _). }
  apply commit_in_transaction_inv in Hc as (cevs & Hcev & Hcases); [|done].
  assert (forall r2 s2,
            ostree_repo_abort_transaction s1 = (r2, s2) ->
            ((r2 = Ok tt
              /\ in_transaction (self s2) = false
              /\ txn_refs (self s2) = None
              /\ refs (disk s2) = refs (disk s1))
             \/ (exists e, r2 = Error (ErrFromErrno e)
                   /\ in_transaction (self s2) = true))
            /\ (faults (env s1) = [] -> r2 = Ok tt)) as Habort.
  { intros r2 s2 Ha.
    destruct (in_transaction (self s1)) eqn:Hin1.
    - apply abort_in_transaction_inv in Ha as ((_&_&_&Hr) & _ & Hres & Hnf);
        [|done].
      split; [|done].
      destruct Hres as [(-> & Hs2 & _)|(e & -> & Hs2)].
      + left. rewrite Hs2. done.
      + right. exists e. by rewrite Hs2.
    - unfold ostree_repo_abort_transaction in Ha.
      rewrite bind_get, Hin1 in Ha. simpl in Ha. inv_ret Ha.
      split; [|done]. left.
      split_and!; try done.
      destruct Hcases as [(e&_&Hs&_)|[(e&m&_&_&Hs&_)|[(e&_&_&Hs&_)|(e&_&Hs&_)]]];
        rewrite Hs in *; simpl in *; try done; try congruence;
        try (by rewrite (proj2 (Hclear _)) in Hin1; congruence). }
  (* the last event of a log tells the cases apart *)
  assert (forall sa sb evs1 evs2,
            logged sa sb evs1 -> logged sa sb evs2 -> evs1 = evs2) as Hinj.
  { unfold logged. intros sa sb evs1 evs2 -> H. by apply app_inv_head in H. }
  assert (forall evs ev, cevs = evs ++ [ev] ->
                         is_cleanup_call (ev_call ev) = true) as Hlast.
  { intros evs ev ->. apply Forall_app in Hcev as [_ Hev].
    by inversion Hev. }
  assert (forall (a b : list Event) x y, a ++ [x] = b ++ [y] -> x = y)
    as Htail.
  { intros a b x y Hab. by apply app_inj_tail in Hab as [_ ->]. }
  destruct Hcases as [(e&->&Hs&Hr&L)|[(e&m&->&Hm&Hs&Hr&L)
                     |[(e&->&Hne&Hs&Hr&L)|(e&->&_)]]]; [| | |done].
  - (* the cleanup failed *)
    assert (in_transaction (self s1) = true
            /\ txn_refs (self s1) = txn_refs (self s)
            /\ refs (disk s1) = refs (disk s)) as Hstay.
    { by rewrite Hs. }
    split; [by exists e|]. split.
    { left. destruct Hstay as (? & ? & ?). split_and!; try done.
      exists cevs. split; [done|by left]. }
    split; [done|]. split; [done|]. split; [|done].
    intros evs e' L'. exfalso.
    pose proof (Hlast _ _ (Hinj _ _ _ _ L L')). done.
  - (* the ref update failed *)
    assert (in_transaction (self s1) = true
            /\ txn_refs (self s1) = txn_refs (self s)
            /\ refs (disk s1) = refs (disk s)) as Hstay.
    { rewrite Hs. by rewrite (proj1 (Hclear _)), (proj2 (Hclear _)). }
    split; [by exists e|]. split.
    { left. destruct Hstay as (? & ? & ?). split_and!; try done.
      eexists. split; [exact L|]. right. by exists cevs, m, e. }
    split; [done|]. split; [done|]. split; [|done].
    intros evs e' L'. exfalso.
    pose proof (Htail _ _ _ _ (Hinj _ _ _ _ L L')). done.
  - (* the unlink of the link failed *)
    assert (in_transaction (self s1) = false
            /\ txn_refs (self s1) = None
            /\ refs (disk s1) = refs_after (txn_refs (self s)) (refs (disk s)))
      as Hleft.
    { by rewrite Hs. }
    rewrite app_assoc in L.
    split; [by exists e|]. split.
    { right. destruct Hleft as (? & ? & ?). split_and!; try done.
      by exists (cevs ++ update_refs_events (txn_refs (self s)) None), e. }
    split.
    { intros evs m e' L'. exfalso.
      pose proof (Htail _ _ _ _ (Hinj _ _ _ _ L L')). done. }
    split; [|done].
    intros evs call e' Hcall L'. exfalso.
    pose proof (Htail _ _ _ _ (Hinj _ _ _ _ L L')) as Heq.
    injection Heq as <- _. done.
Qed.

(** ** Pending refs *)

(** The entry of the pending refs map for [refspec]: [None] when there is
    none, [Some None] for a deletion, [Some (Some c)] for a checksum. *)
Definition pending_ref (r : OstreeRepo) (refspec : string)
    : option (option string) :=
  m ← txn_refs r; m !! refspec.

Lemma apply_pending_refs_lookup pending current refspec :
  apply_pending_refs pending current !! refspec
  = match pending !! refspec with
    | Some v => v
    | None => current !! refspec
    end.
Proof.
  unfold apply_pending_refs. rewrite lookup_merge.
  destruct (pending !! refspec) as [[c|]|]; destruct (current !! refspec); done.
Qed.

Lemma run_ref_call_inv c s :
  in_transaction (self s) = true ->
  exists s', run_ref_call c s = (Ok tt, s')
    /\ disk s' = disk s /\ env s' = env s
    /\ in_transaction (self s') = true
    /\ is_Some (txn_refs (self s'))
    /\ forall refspec,
         pending_ref (self s') refspec
         = if decide (ref_call_refspec c = refspec)
           then Some (ref_call_checksum c)
           else pending_ref (self s) refspec.
Proof.
  intros Hin.
  assert (forall refspec checksum,
    exists s',
      (ensure_txn_refs ;;; replace_txn_ref refspec checksum) s = (Ok tt, s')
      /\ disk s' = disk s /\ env s' = env s
      /\ in_transaction (self s') = true
      /\ is_Some (txn_refs (self s'))
      /\ forall refspec',
           pending_ref (self s') refspec'
           = if decide (refspec = refspec') then Some checksum
             else pending_ref (self s) refspec') as Hcore.
  { intros refspec checksum. eexists. split; [reflexivity|].
    unfold pending_ref. simpl.
    destruct (txn_refs (self s)) as [m|] eqn:Hm; simpl; rewrite ?Hm; simpl;
      (split_and!; [done|done|done|by eexists|]);
      intros refspec'; rewrite lookup_insert; by destruct (decide _). }
  destruct c as [[rem|] ref checksum|refspec checksum]; simpl;
    unfold ostree_repo_transaction_set_ref, ostree_repo_transaction_set_refspec;
    rewrite bind_get, Hin; simpl; apply Hcore.
Qed.

Lemma run_ref_calls_inv cs s :
  in_transaction (self s) = true ->
  exists s', run_ref_calls cs s = (Ok tt, s')
    /\ disk s' = disk s /\ env s' = env s
    /\ in_transaction (self s') = true
    /\ (cs <> [] -> is_Some (txn_refs (self s')))
    /\ forall refspec,
         pending_ref (self s') refspec
         = match last_call_for refspec cs with
           | Some v => Some v
           | None => pending_ref (self s) refspec
           end.
Proof.
  revert s. induction cs as [|c rest IH]; intros s Hin; simpl.
  - exists s. by split_and!.
  - destruct (run_ref_call_inv c s Hin) as (s1 & Hc & Hd1 & He1 & Hin1 & Hsome1 & Hp1).
    destruct (IH s1 Hin1) as (s2 & Hr & Hd2 & He2 & Hin2 & Hsome2 & Hp2).
    exists s2. rewrite (bind_ok _ _ _ _ _ Hc). split_and!; try done; try congruence.
    + intros _. destruct rest as [|c' rest']; [|by apply Hsome2].
      simpl in Hr. inv_ret Hr. done.
    + intros refspec. rewrite Hp2, Hp1.
      destruct (last_call_for refspec rest); [done|]. by destruct (decide _).
Qed.

(** With no failure injected and no directory in the place of the
    [transaction] link, a commit inside a transaction succeeds. *)
Lemma commit_transaction_unfaulted s :
  in_transaction (self s) = true ->
  faults (env s) = [] ->
  transaction_lock (disk s) <> Some Directory ->
  is_ok (fst (ostree_repo_commit_transaction s)) = true.
Proof.
  intros Hin Hf Hlock.
  destruct (ostree_repo_commit_transaction s) as [r s'] eqn:H. simpl.
  unfold ostree_repo_commit_transaction in H.
  rewrite bind_get, Hin in H. simpl in H.
  step_bind H as u1 s1 Hc.
  2:{ apply cleanup_tmpdir_inv in Hc as (_ & _ & _ & Hnf).
      destruct (Hnf Hf) as [-> _]. done. }
  apply cleanup_tmpdir_inv in Hc as ((Hs1 & _ & _ & Hl1 & _) & _ & _ & Hnf).
  destruct (Hnf Hf) as [_ Hf1].
  rewrite bind_modify, bind_get in H.
  set (sb := set_self clear_devino_hash s1) in *.
  assert (faults (env sb) = []) as Hfb by done.
  step_bind H as u2 s2 Hu.
  2:{ destruct (txn_refs (self sb)) as [m|]; [|by inv_ret Hu].
      unfold _ostree_repo_update_refs in Hu.
      apply checked_inv in Hu as (errno & _ & _ & _ & _ & Hr).
      destruct errno as [e|]; [|by destruct Hr as [-> _]].
      destruct Hr as (_ & _ & [Hh|He]); [|done].
      by rewrite Hfb in Hh. }
  assert (faults (env s2) = []
          /\ transaction_lock (disk s2) = transaction_lock (disk s))
    as [Hf2 Hl2].
  { destruct (txn_refs (self sb)) as [m|]; [|by inv_ret Hu].
    pose proof (_ostree_repo_update_refs_inv _ _ _ _ Hu) as (_ & _ & Hl & _).
    unfold _ostree_repo_update_refs in Hu.
    apply checked_inv in Hu as (errno & _ & _ & Hft & _).
    split; [by rewrite Hft, Hfb|]. by rewrite Hl. }
  rewrite !bind_modify in H.
  set (sc := set_self (with_in_transaction false)
               (set_self (with_txn_refs None) s2)) in *.
  step_bind H as u3 s3 Hk; [by rewrite bind_get in H; inv_ret H|].
  exfalso. unfold ot_gfile_ensure_unlinked_transaction_lock in Hk.
  step_bind Hk as errno s4 Hsys;
    [|apply syscall_inv in Hsys as (? & -> & _); done].
  apply syscall_inv in Hsys as (errno' & [= <-] & _ & _ & _ & _ & Hd).
  destruct errno as [e|]; [|by inv_ret Hk].
  change (faults (env sc)) with (faults (env s2)) in Hd.
  change (transaction_lock (disk sc)) with (transaction_lock (disk s2)) in Hd.
  rewrite Hf2, Hl2 in Hd.
  destruct Hd as (_ & [Hh|(He & _)]); [done|].
  destruct (transaction_lock (disk s)) as [[]|]; try done.
  injection He as <-. inv_ret Hk. done.
Qed.

(** C10.  Inside a transaction, after any sequence of [set_ref] and
    [set_refspec] calls: every call succeeds; the pending refs map holds,
    for each refspec some call named, the checksum of the most recent such
    call (a null checksum for a deletion), and for any other refspec what
    it held before.  A commit that then succeeds calls the ref updater
    with this map and no other, and leaves each ref as the map says: set
    to the checksum, deleted, or as it was.  The commit does succeed when
    no failure is injected and no directory sits in the place of the
    [transaction] link; and however a commit ends, the only map it hands
    to the ref updater is this one, and the refs are either all as the
    map says or all as they were. *)
Theorem pending_refs_last_call_wins (cs : list RefCall) (s : State) :
  in_transaction (self s) = true ->
  let out := run_ref_calls cs s in
  fst out = Ok tt
  /\ (forall refspec,
        pending_ref (self (snd out)) refspec
        = match last_call_for refspec cs with
          | Some v => Some v
          | None => pending_ref (self s) refspec
          end)
  /\ (forall stats s2,
        ostree_repo_commit_transaction (snd out) = (Ok stats, s2) ->
        (forall refspec,
           refs (disk s2) !! refspec
           = match pending_ref (self (snd out)) refspec with
             | Some v => v
             | None => refs (disk s) !! refspec
             end)
        /\ exists evs,
             logged (snd out) s2 evs
             /\ (forall m e, In (Ev (SYS_update_refs m) e) evs ->
                   txn_refs (self (snd out)) = Some m /\ e = None)
             /\ (forall m, txn_refs (self (snd out)) = Some m ->
                   In (Ev (SYS_update_refs m) None) evs))
  /\ (faults (env s) = [] ->
      transaction_lock (disk s) <> Some Directory ->
      is_ok (fst (ostree_repo_commit_transaction (snd out))) = true)
  /\ (forall r s2,
        ostree_repo_commit_transaction (snd out) = (r, s2) ->
        (exists evs,
           logged (snd out) s2 evs
           /\ forall m e, In (Ev (SYS_update_refs m) e) evs ->
                 txn_refs (self (snd out)) = Some m)
        /\ ((forall refspec,
               refs (disk s2) !! refspec
               = match pending_ref (self (snd out)) refspec with
                 | Some v => v
                 | None => refs (disk s) !! refspec
                 end)
            \/ (is_ok r = false /\ refs (disk s2) = refs (disk s)))).
Proof.
  intros Hin out.
  destruct (run_ref_calls_inv cs s Hin) as (s1 & Hr & Hd1 & He1 & Hin1 & _ & Hp).
  subst out. rewrite Hr. simpl. split; [done|]. split; [done|].
  assert (forall s2,
            refs (disk s2) = refs_after (txn_refs (self s1)) (refs (disk s1)) ->
            forall refspec,
              refs (disk s2) !! refspec
              = match pending_ref (self s1) refspec with
                | Some v => v
                | None => refs (disk s) !! refspec
                end) as Happlied.
  { intros s2 Hrefs refspec. rewrite Hrefs, Hd1. unfold pending_ref, refs_after.
    destruct (txn_refs (self s1)) as [m|]; simpl; [|done].
    apply apply_pending_refs_lookup. }
  assert (forall cevs tail_evs m e,
            Forall (fun ev => is_cleanup_call (ev_call ev) = true) cevs ->
            In (Ev (SYS_update_refs m) e)
               (cevs ++ update_refs_events (txn_refs (self s1)) None
                ++ tail_evs) ->
            (forall m' e', ~ In (Ev (SYS_update_refs m') e') tail_evs) ->
            txn_refs (self s1) = Some m /\ e = None) as Hcalls.
  { intros cevs tail_evs m e Hcev Hi Htail.
    apply in_app_or in Hi as [Hi|Hi].
    { apply Forall_forall with (x := Ev (SYS_update_refs m) e) in Hcev;
        [done|by apply list_elem_of_In]. }
    apply in_app_or in Hi as [Hi|Hi]; [|by destruct (Htail _ _ Hi)].
    destruct (txn_refs (self s1)) as [m'|]; simpl in Hi; [|done].
    by destruct Hi as [[= <- <-]|[]]. }
  split.
  { intros stats s2 Hc.
    apply commit_in_transaction_inv in Hc as (cevs & Hcev & Hcases); [|done].
    destruct Hcases as [(e&[=]&_)|[(e&m&[=]&_)
                       |[(e&[=]&_)|(errno&_&Hs&_&Hrefs&L)]]].
    split; [by apply Happlied|].
    eexists. split; [exact L|]. split.
    - intros m e Hi. eapply Hcalls; [exact Hcev|exact Hi|].
      intros m' e' [[=]|[]].
    - intros m Hm. rewrite Hm. simpl. apply in_or_app. right. by left. }
  split.
  { intros Hf Hlock. apply commit_transaction_unfaulted; [done| |].
    - by rewrite He1.
    - by rewrite Hd1. }
  intros r s2 Hc.
  apply commit_in_transaction_inv in Hc as (cevs & Hcev & Hcases); [|done].
  destruct Hcases as [(e&->&Hs&Hrefs&L)|[(e&m&->&Hm&Hs&Hrefs&L)
                     |[(e&->&Hne&Hs&Hrefs&L)|(errno&->&Hs&_&Hrefs&L)]]].
  - split; [|right; by rewrite Hrefs, Hd1].
    exists cevs. split; [done|]. intros m e' Hi.
    apply Forall_forall with (x := Ev (SYS_update_refs m) e') in Hcev;
      [done|by apply list_elem_of_In].
  - split; [|right; by rewrite Hrefs, Hd1].
    eexists. split; [exact L|]. intros m' e' Hi.
    apply in_app_or in Hi as [Hi|Hi].
    { apply Forall_forall with (x := Ev (SYS_update_refs m') e') in Hcev;
        [done|by apply list_elem_of_In]. }
    destruct Hi as [[= <- _]|[]]. done.
  - split; [|left; by apply Happlied].
    eexists. split; [exact L|]. intros m e' Hi.
    eapply Hcalls; [exact Hcev|exact Hi|]. intros m' e'' [[=]|[]].
  - split; [|left; by apply Happlied].
    eexists. split; [exact L|]. intros m e' Hi.
    eapply Hcalls; [exact Hcev|exact Hi|]. intros m' e'' [[=]|[]].
Qed.

(** ** The devino cache *)

Lemma substring_all (str : string) :
  substring 0 (String.length str) str = str.
Proof. induction str as [|a str IH]; simpl; [done|by rewrite IH]. Qed.

Lemma append_cons (a : ascii) (s1 s2 : string) :
  String a s1 +:+ s2 = String a (s1 +:+ s2).
Proof. reflexivity. Qed.

Lemma append_nil (s2 : string) : EmptyString +:+ s2 = s2.
Proof. reflexivity. Qed.

Lemma substring_split (k : nat) (str : string) :
  (k <= String.length str)%nat ->
  str = substring 0 k str +:+ substring k (String.length str - k) str.
Proof.
  revert k. induction str as [|a str IH]; intros k Hk; simpl in *.
  - assert (k = O) as -> by lia. done.
  - destruct k as [|k]; simpl.
    + by rewrite append_nil, substring_all.
    + rewrite append_cons. f_equal. apply IH. lia.
Qed.

Lemma length_substring_prefix (k : nat) (str : string) :
  (k <= String.length str)%nat -> String.length (substring 0 k str) = k.
Proof.
  revert k. induction str as [|a str IH]; intros k Hk; simpl in *.
  - assert (k = O) as -> by lia. done.
  - destruct k as [|k]; simpl; [done|]. rewrite IH; [done|lia].
Qed.

Lemma length_append (a b : string) :
  String.length (a +:+ b) = (String.length a + String.length b)%nat.
Proof.
  induction a as [|x a IH]; [done|]. rewrite append_cons. simpl. by rewrite IH.
Qed.

Lemma strrchr_app (a b : string) (c : ascii) :
  strrchr (a +:+ b) c
  = match strrchr b c with
    | Some i => Some (String.length a + i)%nat
    | None => strrchr a c
    end.
Proof.
  induction a as [|x a IH].
  - rewrite append_nil. simpl. by destruct (strrchr b c).
  - rewrite append_cons. simpl. rewrite IH.
    destruct (strrchr b c); simpl; done.
Qed.

(** A name with the suffix [.file] has its last dot five bytes before its
    end: the [g_assert (dot)] of line 497 holds. *)
Lemma strrchr_dot_file (name : string) :
  g_str_has_suffix name ".file" = true ->
  strrchr name "." = Some (String.length name - 5)%nat.
Proof.
  unfold g_str_has_suffix. simpl String.length.
  destruct (5 <=? String.length name)%nat eqn:Hle; [|done].
  apply Nat.leb_le in Hle. intros Heq. apply String.eqb_eq in Heq.
  rewrite (substring_split (String.length name - 5) name) at 1 by lia.
  replace (String.length name - (String.length name - 5))%nat with 5%nat by lia.
  rewrite Heq, strrchr_app. simpl. f_equal.
  rewrite length_substring_prefix by lia. lia.
Qed.

(** Whether the scan records a child: it is no directory, its name ends
    in [.file], and the last dot of the name is at offset 62. *)
Definition devino_accepts (file_info : GFileInfo) : bool :=
  bool_decide (standard_type file_info <> G_FILE_TYPE_DIRECTORY)
  && g_str_has_suffix (standard_name file_info) ".file"
  && bool_decide (strrchr (standard_name file_info) "." = Some 62%nat).

(** The entry recorded for an accepted child of the directory [dirname]. *)
Definition devino_entry (child : string * GFileInfo) : (Z * Z) * string :=
  ((unix_device (snd child), unix_inode (snd child)),
   fst child +:+ substring 0 62 (standard_name (snd child))).

Definition record_entries (entries : list ((Z * Z) * string))
    (devino_cache : gmap (Z * Z) string) : gmap (Z * Z) string :=
  fold_left (fun c e => <[fst e := snd e]> c) entries devino_cache.

(** The children the enumerators yield, each with the name of its
    directory, in the order the scan meets them. *)
Definition steps_children (dirname : string) (steps : list IterStep)
    : list (string * GFileInfo) :=
  omap (fun st => match st with
                  | IterChild fi => Some (dirname, fi)
                  | IterFail _ => None
                  end) steps.

Definition objdir_children (d : LooseObjectDir) : list (string * GFileInfo) :=
  match objdir_enumerate d with
  | inl _ => []
  | inr steps => steps_children (objdir_basename d) steps
  end.

Fixpoint listing_children (repo : RepoListing) : list (string * GFileInfo) :=
  match listing_parent_repo repo with
  | Some parent => listing_children parent
  | None => []
  end
  ++ match listing_object_dirs repo with
     | inl _ => []
     | inr dirs => concat (map objdir_children dirs)
     end.

Definition recorded (children : list (string * GFileInfo))
    : list ((Z * Z) * string) :=
  map devino_entry (filter (fun c => devino_accepts (snd c) = true) children).

Lemma record_entries_app e1 e2 c :
  record_entries (e1 ++ e2) c = record_entries e2 (record_entries e1 c).
Proof. unfold record_entries. by rewrite fold_left_app. Qed.

Lemma recorded_app c1 c2 : recorded (c1 ++ c2) = recorded c1 ++ recorded c2.
Proof. unfold recorded. by rewrite filter_app, map_app. Qed.

Lemma recorded_cons dirname fi children :
  recorded ((dirname, fi) :: children)
  = if devino_accepts fi
    then devino_entry (dirname, fi) :: recorded children
    else recorded children.
Proof.
  unfold recorded. rewrite filter_cons. simpl.
  destruct (devino_accepts fi); by case_decide.
Qed.

Lemma scan_objdir_children_ok repo_mode dirname steps cache cache' :
  scan_objdir_children repo_mode dirname steps cache = (Ok tt, cache') ->
  cache' = record_entries (recorded (steps_children dirname steps)) cache.
Proof.
  revert cache. induction steps as [|[fi|e] steps IH]; intros cache H;
    simpl in H.
  - by inversion H.
  - change (steps_children dirname (IterChild fi :: steps))
      with ((dirname, fi) :: steps_children dirname steps).
    rewrite recorded_cons. unfold devino_accepts.
    destruct (decide (standard_type fi = G_FILE_TYPE_DIRECTORY)) as [Hd|Hd].
    { rewrite bool_decide_false by (intros Hn; by apply Hn). simpl.
      by apply IH. }
    rewrite bool_decide_true by done. simpl.
    assert (match repo_mode with
            | OSTREE_REPO_MODE_BARE | OSTREE_REPO_MODE_ARCHIVE_Z2 =>
                negb (g_str_has_suffix (standard_name fi) ".file")
            end = negb (g_str_has_suffix (standard_name fi) ".file")) as Hskip
      by (by destruct repo_mode).
    rewrite Hskip in H. clear Hskip.
    destruct (g_str_has_suffix (standard_name fi) ".file") eqn:Hsuf; simpl in *.
    2:{ by apply IH. }
    rewrite (strrchr_dot_file _ Hsuf) in *.
    destruct (decide (_ <> 62%nat)) as [Hne|Heq].
    { rewrite bool_decide_false by congruence. by apply IH. }
    assert ((String.length (standard_name fi) - 5)%nat = 62%nat) as Heq'
      by (destruct (decide ((String.length (standard_name fi) - 5)%nat = 62%nat));
          [done|by destruct Heq]).
    rewrite bool_decide_true by congruence. simpl. by apply IH.
  - done.
Qed.

Lemma scan_object_dirs_ok repo_mode dirs cache cache' :
  scan_object_dirs repo_mode dirs cache = (Ok tt, cache') ->
  cache' = record_entries (recorded (concat (map objdir_children dirs))) cache.
Proof.
  revert cache. induction dirs as [|d dirs IH]; intros cache H; simpl in H.
  - by inversion H.
  - destruct (objdir_enumerate d) as [e|steps] eqn:He; [done|].
    destruct (scan_objdir_children _ _ _ _) as [[[]|?| |] cache1] eqn:Hs;
      try done.
    apply scan_objdir_children_ok in Hs as ->.
    simpl. rewrite recorded_app, record_entries_app.
    replace (objdir_children d)
      with (steps_children (objdir_basename d) steps)
      by (unfold objdir_children; by rewrite He).
    by apply IH.
Qed.

(** Induction along the parent chain. *)
Lemma RepoListing_chain_ind (P : RepoListing -> Prop) :
  (forall m d,
      P {| listing_mode := m; listing_parent_repo := None;
           listing_object_dirs := d |}) ->
  (forall m parent d,
      P parent ->
      P {| listing_mode := m; listing_parent_repo := Some parent;
           listing_object_dirs := d |}) ->
  forall repo, P repo.
Proof.
  intros Hroot Hchild. fix IH 1.
  intros [m [parent|] d]; [apply Hchild, IH|apply Hroot].
Qed.

Lemma scan_loose_devino_ok repo cache cache' :
  scan_loose_devino repo cache = (Ok tt, cache') ->
  cache' = record_entries (recorded (listing_children repo)) cache.
Proof.
  revert cache cache'.
  induction repo as [m d|m parent d IH] using RepoListing_chain_ind;
    intros cache cache' H; simpl in *.
  - destruct d as [e|dirs]; [done|]. by eapply scan_object_dirs_ok.
  - rewrite recorded_app, record_entries_app.
    destruct (scan_loose_devino parent cache) as [[[]|?| |] cache1] eqn:Hp;
      try done.
    apply IH in Hp as ->.
    destruct d as [e|dirs]; [done|]. by eapply scan_object_dirs_ok.
Qed.

(** What the cache holds for a key after a series of replacements: the
    value of the last entry with that key, else what it held. *)
Lemma record_entries_lookup entries cache key :
  record_entries entries cache !! key
  = match list_find (fun e => fst e = key) (reverse entries) with
    | Some (_, e) => Some (snd e)
    | None => cache !! key
    end.
Proof.
  revert cache. induction entries as [|e entries IH]; intros cache; [done|].
  unfold record_entries in *. simpl. rewrite IH, reverse_cons.
  destruct (list_find _ (reverse entries)) as [[i e']|] eqn:Hf.
  - erewrite list_find_app_l; [|done]. done.
  - rewrite list_find_app_r by done. simpl.
    destruct (decide (e.1 = key)) as [<-|Hne]; simpl.
    + by rewrite lookup_insert_eq.
    + by rewrite lookup_insert_ne.
Qed.

(** C5 (amended).  A completed scan of the repository chain, parents
    first, records exactly the accepted children, in the order met, each
    under its (device, inode), a later entry replacing an earlier one with
    the same key.  A child is accepted when it is no directory and its
    name ends in [.file] and is 67 bytes long, whatever the storage mode
    and whatever the 62 bytes before the last dot are.  The value recorded
    is the directory name followed by those 62 bytes: 64 bytes for a
    2-byte directory name.  In particular every key the scan adds or
    changes comes from an accepted child. *)
Theorem scan_loose_devino_records (repo : RepoListing)
    (devino_cache devino_cache' : gmap (Z * Z) string) :
  scan_loose_devino repo devino_cache = (Ok tt, devino_cache') ->
  devino_cache'
  = record_entries (recorded (listing_children repo)) devino_cache
  /\ (forall file_info,
        devino_accepts file_info = true
        <-> (standard_type file_info <> G_FILE_TYPE_DIRECTORY
             /\ g_str_has_suffix (standard_name file_info) ".file" = true
             /\ String.length (standard_name file_info) = 67%nat))
  /\ (forall dirname file_info,
        devino_accepts file_info = true ->
        String.length dirname = 2%nat ->
        String.length (snd (devino_entry (dirname, file_info))) = 64%nat)
  /\ (forall key checksum,
        devino_cache' !! key = Some checksum ->
        devino_cache !! key = Some checksum
        \/ exists dirname file_info,
             In (dirname, file_info) (listing_children repo)
             /\ devino_accepts file_info = true
             /\ key = (unix_device file_info, unix_inode file_info)
             /\ checksum = dirname +:+ substring 0 62 (standard_name file_info)).
Proof.
  intros H. apply scan_loose_devino_ok in H as ->.
  assert (forall file_info,
        devino_accepts file_info = true
        <-> (standard_type file_info <> G_FILE_TYPE_DIRECTORY
             /\ g_str_has_suffix (standard_name file_info) ".file" = true
             /\ String.length (standard_name file_info) = 67%nat)) as Hacc.
  { intros fi. unfold devino_accepts.
    rewrite !andb_true_iff, !bool_decide_eq_true.
    split.
    - intros [[Hd Hs] Hdot]. rewrite (strrchr_dot_file _ Hs) in Hdot.
      split_and!; try done. injection Hdot. lia.
    - intros (Hd & Hs & Hlen). split_and!; try done.
      rewrite (strrchr_dot_file _ Hs). f_equal. lia. }
  split; [done|]. split; [done|]. split.
  - intros dirname fi Ha Hlen. apply Hacc in Ha as (_ & _ & Hn). simpl.
    rewrite length_append, Hlen, length_substring_prefix; lia.
  - intros key checksum Hl. rewrite record_entries_lookup in Hl.
    destruct (list_find _ _) as [[i e]|] eqn:Hf; [|by left]. right.
    apply list_find_Some in Hf as (Hi & Hk & _). injection Hl as <-.
    apply list_elem_of_lookup_2 in Hi. rewrite elem_of_reverse in Hi.
    unfold recorded in Hi. apply list_elem_of_fmap in Hi as ([d fi] & -> & Hi).
    apply list_elem_of_filter in Hi as [Ha Hi]. simpl in *.
    exists d, fi. split_and!; try done. by apply list_elem_of_In.
Qed.

(** ** Events and frames of composed computations *)

(** Every call a computation logs satisfies [P].  [proj] reads the
    [State] out of the computation's state. *)
Definition emits {S A} (proj : S -> State) (P : Event -> Prop) (c : M S A)
    : Prop :=
  forall x r x', c x = (r, x') ->
    exists evs, logged (proj x) (proj x') evs /\ Forall P evs.

(** A computation leaves the repository object and all of the disk but
    [tmp/] alone. *)
Definition keeps {S A} (proj : S -> State) (c : M S A) : Prop :=
  forall x r x', c x = (r, x') -> same_but_tmp (proj x) (proj x').

Section Composition.
Context {S : Type} (proj : S -> State) (P : Event -> Prop).

Lemma emits_ret {A} (a : A) : emits proj P (ret a).
Proof. intros x r x' [= <- <-]. exists []. split; [apply logged_refl|done]. Qed.
Lemma emits_throw {A} e : emits proj P (@throw S A e).
Proof. intros x r x' [= <- <-]. exists []. split; [apply logged_refl|done]. Qed.
Lemma emits_abort {A} : emits proj P (@abort S A).
Proof. intros x r x' [= <- <-]. exists []. split; [apply logged_refl|done]. Qed.
Lemma emits_get : emits proj P (@get S).
Proof. intros x r x' [= <- <-]. exists []. split; [apply logged_refl|done]. Qed.

Lemma emits_bind {A B} (c : M S A) (k : A -> M S B) :
  emits proj P c -> (forall a, emits proj P (k a)) -> emits proj P (bind c k).
Proof.
  intros Hc Hk x r x' H. inv_bind H.
  - destruct (Hc _ _ _ Hc0) as (evs1 & L1 & F1).
    destruct (Hk _ _ _ _ H) as (evs2 & L2 & F2).
    exists (evs1 ++ evs2). split; [by eapply logged_trans|by apply Forall_app].
  - by apply (Hc _ _ _ Hc0).
Qed.

Lemma keeps_ret {A} (a : A) : keeps proj (ret a).
Proof. intros x r x' [= <- <-]. apply same_but_tmp_refl. Qed.
Lemma keeps_throw {A} e : keeps proj (@throw S A e).
Proof. intros x r x' [= <- <-]. apply same_but_tmp_refl. Qed.
Lemma keeps_abort {A} : keeps proj (@abort S A).
Proof. intros x r x' [= <- <-]. apply same_but_tmp_refl. Qed.
Lemma keeps_get : keeps proj (@get S).
Proof. intros x r x' [= <- <-]. apply same_but_tmp_refl. Qed.

Lemma keeps_bind {A B} (c : M S A) (k : A -> M S B) :
  keeps proj c -> (forall a, keeps proj (k a)) -> keeps proj (bind c k).
Proof.
  intros Hc Hk x r x' H. inv_bind H.
  - eapply same_but_tmp_trans; [by eapply Hc|by eapply Hk].
  - by eapply Hc.
Qed.

End Composition.

Lemma emits_lift {L A} P (c : M State A) :
  emits id P c -> emits (@snd L State) P (lift c).
Proof.
  intros Hc [l s] r [l' s'] H. unfold lift in H. simpl in H.
  destruct (c s) as [r0 s0] eqn:Hcs. inversion H; subst. by eapply Hc.
Qed.

Lemma keeps_lift {L A} (c : M State A) :
  keeps id c -> keeps (@snd L State) (lift c).
Proof.
  intros Hc [l s] r [l' s'] H. unfold lift in H. simpl in H.
  destruct (c s) as [r0 s0] eqn:Hcs. inversion H; subst. by eapply Hc.
Qed.

Lemma emits_set_locals {L} P (l : L) : emits (@snd L State) P (set_locals l).
Proof.
  intros [l0 s] r x' [= <- <-]. exists []. split; [apply logged_refl|done].
Qed.
Lemma keeps_set_locals {L} (l : L) : keeps (@snd L State) (set_locals l).
Proof. intros [l0 s] r x' [= <- <-]. apply same_but_tmp_refl. Qed.

Lemma emits_syscall (P : Event -> Prop) call eff :
  (forall errno, P (Ev call errno)) -> emits id P (syscall call eff).
Proof.
  intros HP s r s' H. apply syscall_inv in H as (errno & _ & L & _).
  exists [Ev call errno]. split; [done|]. by repeat constructor.
Qed.

(** An effect that touches [tmp/] only. *)
Definition tmp_only (eff : Effect) : Prop :=
  forall d d', eff d = inr d' -> disk_same_but_tmp d d'.

Lemma keeps_syscall call eff : tmp_only eff -> keeps id (syscall call eff).
Proof.
  intros He s r s' H. apply syscall_inv in H as (errno & _ & _ & Hs & _ & _ & Hd).
  unfold same_but_tmp, id. split; [done|]. destruct errno as [e|].
  - destruct Hd as [Hd _]. rewrite Hd. by repeat split.
  - destruct Hd as [Hd _]. by apply He.
Qed.

Lemma emits_retry_eintr (P : Event -> Prop) call eff :
  (forall errno, P (Ev call errno)) -> emits id P (retry_eintr call eff).
Proof.
  intros HP s r s' H. unfold retry_eintr in H.
  remember (faults (env s)) as fs eqn:Hfs.
  revert s Hfs H. induction fs as [|f fs IH]; intros s Hfs H; simpl in H.
  - exact (emits_syscall P call eff HP _ _ _ H).
  - destruct f as [[]|]; try exact (emits_syscall P call eff HP _ _ _ H).
    apply IH in H as (evs & L & F); [|done].
    exists (Ev call (Some EINTR) :: evs). split; [|by constructor].
    unfold logged in *. rewrite L. simpl. by rewrite <- app_assoc.
Qed.

Lemma keeps_retry_eintr call eff : tmp_only eff -> keeps id (retry_eintr call eff).
Proof.
  intros He s r s' H. unfold retry_eintr in H.
  remember (faults (env s)) as fs eqn:Hfs.
  revert s Hfs H. induction fs as [|f fs IH]; intros s Hfs H; simpl in H.
  - exact (keeps_syscall call eff He _ _ _ H).
  - destruct f as [[]|]; try exact (keeps_syscall call eff He _ _ _ H).
    apply IH in H; [|done]. done.
Qed.

Lemma tmp_only_none : tmp_only eff_none.
Proof. intros d d' [= <-]. by repeat split. Qed.

Lemma tmp_only_update name f : tmp_only (eff_update name f).
Proof.
  intros d d'. unfold eff_update.
  destruct (tmp_dir d !! name); [|done]. destruct (f i); [done|].
  intros [= <-]. by repeat split.
Qed.

Lemma tmp_only_create name i : tmp_only (eff_create name i).
Proof.
  intros d d'. unfold eff_create. destruct (tmp_dir d !! name); [done|].
  intros [= <-]. by repeat split.
Qed.

Lemma tmp_only_unlinkat name : tmp_only (eff_unlinkat name).
Proof.
  intros d d'. unfold eff_unlinkat. destruct (tmp_dir d !! name); [|done].
  intros [= <-]. by repeat split.
Qed.

Lemma tmp_only_fstatat path : tmp_only (eff_fstatat path).
Proof.
  intros d d'. unfold eff_fstatat. destruct (objects_dir d !! path); [|done].
  intros [= <-]. by repeat split.
Qed.

Create HintDb frames.
#[local] Hint Resolve tmp_only_none tmp_only_update tmp_only_create
  tmp_only_unlinkat tmp_only_fstatat : frames.

(** The calls of a class. *)
Definition of_class (cls : Syscall -> bool) (ev : Event) : Prop :=
  cls (ev_call ev) = true.

Ltac emits_core :=
  lazymatch goal with
  | |- emits _ _ (bind _ _) => apply emits_bind; [|intros ?]
  | |- emits _ _ (ret _) => apply emits_ret
  | |- emits _ _ (throw _) => apply emits_throw
  | |- emits _ _ abort => apply emits_abort
  | |- emits _ _ get => apply emits_get
  | |- emits _ _ (set_locals _) => apply emits_set_locals
  | |- emits _ _ (lift _) => apply emits_lift
  | |- emits _ _ (syscall _ _) =>
      apply emits_syscall; intros ?; unfold of_class; simpl; done
  | |- emits _ _ (retry_eintr _ _) =>
      apply emits_retry_eintr; intros ?; unfold of_class; simpl; done
  | |- emits _ _ (match ?x with _ => _ end) => destruct x
  end.

Ltac keeps_core :=
  lazymatch goal with
  | |- keeps _ (bind _ _) => apply keeps_bind; [|intros ?]
  | |- keeps _ (ret _) => apply keeps_ret
  | |- keeps _ (throw _) => apply keeps_throw
  | |- keeps _ abort => apply keeps_abort
  | |- keeps _ get => apply keeps_get
  | |- keeps _ (set_locals _) => apply keeps_set_locals
  | |- keeps _ (lift _) => apply keeps_lift
  | |- keeps _ (syscall _ _) => apply keeps_syscall; auto with frames
  | |- keeps _ (retry_eintr _ _) => apply keeps_retry_eintr; auto with frames
  | |- keeps _ (match ?x with _ => _ end) => destruct x
  end.

Section Classes.
Context (cls : Syscall -> bool).

Lemma emits_checked call eff :
  cls call = true -> emits id (of_class cls) (checked call eff).
Proof. intros Hc. unfold checked. repeat emits_core. Qed.

Lemma emits_has_loose_object checksum objtype :
  (forall path, cls (SYS_fstatat path) = true) ->
  emits id (of_class cls) (_ostree_repo_has_loose_object checksum objtype).
Proof.
  intros Hc. unfold _ostree_repo_has_loose_object.
  apply emits_bind; [apply emits_get|intros s0].
  apply emits_bind;
    [apply emits_syscall; intros ?; apply Hc|intros r]. repeat emits_core.
Qed.

Lemma emits_open_in_tmpdir file_mode :
  (forall n m, cls (SYS_openat_excl n m) = true) ->
  emits id (of_class cls) (gs_file_open_in_tmpdir_at file_mode).
Proof.
  intros Hc. unfold gs_file_open_in_tmpdir_at. generalize 128%nat.
  intros n. induction n as [|n IH]; simpl; [apply emits_throw|].
  apply emits_bind.
  { intros s r s' [= <- <-]. exists []. split; [|done].
    unfold logged, id. simpl. by rewrite app_nil_r. }
  intros name. apply emits_bind; [apply emits_get|intros s0].
  apply emits_bind; [apply emits_syscall; intros ?; apply Hc|intros r].
  repeat first [exact IH | emits_core].
Qed.

Lemma emits_make_temporary_symlink target :
  (forall t n, cls (SYS_symlinkat t n) = true) ->
  emits id (of_class cls) (make_temporary_symlink_at target).
Proof.
  intros Hc. unfold make_temporary_symlink_at. generalize 128%nat.
  intros n. induction n as [|n IH]; simpl; [apply emits_throw|].
  apply emits_bind.
  { intros s r s' [= <- <-]. exists []. split; [|done].
    unfold logged, id. simpl. by rewrite app_nil_r. }
  intros name. apply emits_bind; [apply emits_get|intros s0].
  apply emits_bind; [apply emits_syscall; intros ?; apply Hc|intros r].
  repeat first [exact IH | emits_core].
Qed.

Lemma emits_splice name data :
  (forall n d, cls (SYS_splice n d) = true) ->
  emits id (of_class cls) (g_output_stream_splice name data).
Proof. intros Hc. apply emits_checked, Hc. Qed.

End Classes.

Lemma keeps_checked call eff : tmp_only eff -> keeps id (checked call eff).
Proof. intros He. unfold checked. repeat keeps_core. Qed.

Lemma keeps_has_loose_object checksum objtype :
  keeps id (_ostree_repo_has_loose_object checksum objtype).
Proof. unfold _ostree_repo_has_loose_object. repeat keeps_core. Qed.

Lemma keeps_gen_tmp_name : keeps id gsystem_fileutil_gen_tmp_name.
Proof. intros s r s' [= <- <-]. by repeat split. Qed.

Lemma keeps_open_in_tmpdir file_mode :
  keeps id (gs_file_open_in_tmpdir_at file_mode).
Proof.
  unfold gs_file_open_in_tmpdir_at. generalize 128%nat.
  intros n. induction n as [|n IH]; simpl; [apply keeps_throw|].
  apply keeps_bind; [apply keeps_gen_tmp_name|intros name].
  repeat first [exact IH | keeps_core].
Qed.

Lemma keeps_make_temporary_symlink target :
  keeps id (make_temporary_symlink_at target).
Proof.
  unfold make_temporary_symlink_at. generalize 128%nat.
  intros n. induction n as [|n IH]; simpl; [apply keeps_throw|].
  apply keeps_bind; [apply keeps_gen_tmp_name|intros name].
  repeat first [exact IH | keeps_core].
Qed.

Lemma keeps_splice name data : keeps id (g_output_stream_splice name data).
Proof. apply keeps_checked, tmp_only_update. Qed.

Ltac class_side := first [assumption | by intros].

Ltac emits_step :=
  lazymatch goal with
  | |- emits _ _ (gs_file_open_in_tmpdir_at _) =>
      apply emits_open_in_tmpdir; class_side
  | |- emits _ _ (make_temporary_symlink_at _) =>
      apply emits_make_temporary_symlink; class_side
  | |- emits _ _ (g_output_stream_splice _ _) =>
      apply emits_splice; class_side
  | |- emits _ _ (checked _ _) => apply emits_checked; class_side
  | |- emits _ _ (_ostree_repo_has_loose_object _ _) =>
      apply emits_has_loose_object; class_side
  | |- _ => emits_core
  end.

Ltac keeps_step :=
  lazymatch goal with
  | |- keeps _ (gs_file_open_in_tmpdir_at _) => apply keeps_open_in_tmpdir
  | |- keeps _ (make_temporary_symlink_at _) =>
      apply keeps_make_temporary_symlink
  | |- keeps _ (g_output_stream_splice _ _) => apply keeps_splice
  | |- keeps _ (checked _ _) => apply keeps_checked; auto with frames
  | |- keeps _ (_ostree_repo_has_loose_object _ _) =>
      apply keeps_has_loose_object
  | |- _ => keeps_core
  end.

(** ** The object writer *)

(** The calls that put something into [objects/]. *)
Definition is_placement_call (c : Syscall) : bool :=
  match c with
  | SYS_mkdirat _ _ | SYS_renameat _ _ => true
  | _ => false
  end.

Definition not_placement (c : Syscall) : bool := negb (is_placement_call c).

Lemma lift_inv {L A} (c : M State A) (l l' : L) s r s' :
  lift c (l, s) = (r, (l', s')) -> l' = l /\ c s = (r, s').
Proof.
  unfold lift. simpl. destruct (c s) as [r0 s0]. by intros [= -> -> ->].
Qed.

Lemma lift_ok {L A} (c : M State A) (l : L) s a s' :
  c s = (Ok a, s') -> lift c (l, s) = (Ok a, (l, s')).
Proof. unfold lift. simpl. by intros ->. Qed.

(** The event that made the temp file [name]. *)
Definition creates (name : string) (ev : Event) : Prop :=
  (exists file_mode, ev = Ev (SYS_openat_excl name file_mode) None)
  \/ (exists target, ev = Ev (SYS_symlinkat target name) None).

Lemma gs_file_open_in_tmpdir_at_created file_mode s name s' :
  gs_file_open_in_tmpdir_at file_mode s = (Ok name, s') ->
  exists evs, logged s s' evs /\ Exists (creates name) evs.
Proof.
  unfold gs_file_open_in_tmpdir_at. generalize 128%nat. intros n.
  revert s. induction n as [|n IH]; intros s H; simpl in H; [done|].
  step_bind H as tmpname s1 Hg; [|inversion Hg; subst; done].
  assert (logged s s1 []) as L0.
  { inversion Hg; subst. unfold logged. simpl. by rewrite app_nil_r. }
  rewrite bind_get in H.
  step_bind H as errno s2 Hs; [|apply syscall_inv in Hs as (? & -> & _); done].
  apply syscall_inv in Hs as (errno' & [= ->] & L1 & _).
  destruct errno' as [e|].
  - destruct e; try (by inv_ret H).
    apply IH in H as (evs & L2 & Hex).
    exists ([Ev (SYS_openat_excl tmpname file_mode) (Some EEXIST)] ++ evs).
    split; [|apply Exists_app; by right].
    eapply logged_trans; [|exact L2].
    apply (logged_trans _ _ _ _ _ L0 L1).
  - inv_ret H. exists [Ev (SYS_openat_excl name file_mode) None].
    split; [apply (logged_trans _ _ _ _ _ L0 L1)|].
    apply Exists_cons_hd. left. by eexists.
Qed.

Lemma make_temporary_symlink_at_created target s name s' :
  make_temporary_symlink_at target s = (Ok name, s') ->
  exists evs, logged s s' evs /\ Exists (creates name) evs.
Proof.
  unfold make_temporary_symlink_at. generalize 128%nat. intros n.
  revert s. induction n as [|n IH]; intros s H; simpl in H; [done|].
  step_bind H as tmpname s1 Hg; [|inversion Hg; subst; done].
  assert (logged s s1 []) as L0.
  { inversion Hg; subst. unfold logged. simpl. by rewrite app_nil_r. }
  rewrite bind_get in H.
  step_bind H as errno s2 Hs; [|apply syscall_inv in Hs as (? & -> & _); done].
  apply syscall_inv in Hs as (errno' & [= ->] & L1 & _).
  destruct errno' as [e|].
  - destruct e; try (by inv_ret H).
    apply IH in H as (evs & L2 & Hex).
    exists ([Ev (SYS_symlinkat target tmpname) (Some EEXIST)] ++ evs).
    split; [|apply Exists_app; by right].
    eapply logged_trans; [|exact L2].
    apply (logged_trans _ _ _ _ _ L0 L1).
  - inv_ret H. exists [Ev (SYS_symlinkat target name) None].
    split; [apply (logged_trans _ _ _ _ _ L0 L1)|].
    apply Exists_cons_hd. right. by eexists.
Qed.

Lemma emits_materialize cls objtype repo_mode input file_object_length :
  (forall n m, cls (SYS_openat_excl n m) = true) ->
  (forall t n, cls (SYS_symlinkat t n) = true) ->
  (forall n d, cls (SYS_splice n d) = true) ->
  (forall n, cls (SYS_close_stream n) = true) ->
  emits snd (of_class cls)
    (materialize objtype repo_mode input file_object_length).
Proof.
  intros H1 H2 H3 H4.
  unfold materialize, materialize_file, materialize_metadata, open_temp_file.
  destruct objtype; repeat emits_step.
Qed.

Lemma keeps_materialize objtype repo_mode input file_object_length :
  keeps snd (materialize objtype repo_mode input file_object_length).
Proof.
  unfold materialize, materialize_file, materialize_metadata, open_temp_file.
  destruct objtype; repeat keeps_step.
Qed.

(** The failure branch of a bind cannot end in [Ok]. *)
Ltac not_ok :=
  match goal with
  | H : Ok _ = failure_of ?r |- _ => by destruct r
  | H : (Ok _, _) = (failure_of ?r, _) |- _ => by destruct r
  end.

Lemma open_temp_file_inv l s name l' s' :
  open_temp_file (l, s) = (Ok name, (l', s')) ->
  l' = {| temp_filename := Some name |}
  /\ exists evs, logged s s' evs /\ Exists (creates name) evs.
Proof.
  unfold open_temp_file. intros H.
  step_bind H as n x1 Ho; [|not_ok]. destruct x1 as [l1 s1].
  apply lift_inv in Ho as [-> Ho].
  apply gs_file_open_in_tmpdir_at_created in Ho.
  step_bind H as u x2 Hs; [|not_ok]. inversion Hs; subst.
  inversion H; subst. done.
Qed.

Lemma materialize_temp objtype repo_mode input file_object_length l s m l' s' :
  materialize objtype repo_mode input file_object_length (l, s)
  = (Ok m, (l', s')) ->
  l' = {| temp_filename := Some (m_temp m) |}
  /\ exists evs, logged s s' evs /\ Exists (creates (m_temp m)) evs.
Proof.
  assert (forall (A : Type) (c : M State A)
            (k : M (WriteObjectLocals * State) Materialized)
            name s1 cls,
    emits id (of_class cls) c ->
    (forall l2 s2, k (l2, s2) = (Ok m, (l', s')) ->
       l' = l2 /\ m_temp m = name /\ exists evs, logged s2 s' evs) ->
    (exists evs, logged s s1 evs /\ Exists (creates name) evs) ->
    (lift c ;;; k) ({| temp_filename := Some name |}, s1) = (Ok m, (l', s')) ->
    l' = {| temp_filename := Some (m_temp m) |}
    /\ exists evs, logged s s' evs /\ Exists (creates (m_temp m)) evs)
    as Hthen.
  { intros A c k name s1 cls Hc Hk (evs & L & Hex) H.
    step_bind H as a x2 Hl; [|not_ok]. destruct x2 as [l2 s2].
    pose proof Hl as Hl'. apply lift_inv in Hl' as [-> Hl'].
    destruct (Hc _ _ _ Hl') as (evs2 & L2 & _).
    apply Hk in H as (-> & <- & evs3 & L3). split; [done|].
    exists (evs ++ evs2 ++ evs3). split.
    - eapply logged_trans; [exact L|]. by eapply logged_trans.
    - apply Exists_app. by left. }
  assert (forall (m0 : Materialized) l2 s2,
    ret m0 (l2, s2) = (Ok m, (l', s')) ->
    l' = l2 /\ m_temp m = m_temp m0 /\ exists evs, logged s2 s' evs) as Hret.
  { intros m0 l2 s2 [= <- <- <-]. split_and!; try done.
    exists []. apply logged_refl. }
  set (all := fun _ : Syscall => true).
  assert (forall n d, emits id (of_class all) (g_output_stream_splice n d))
    as Hsplice by (intros; by apply emits_splice).
  assert (forall n, emits id (of_class all)
                      (checked (SYS_close_stream n) eff_none))
    as Hclose by (intros; by apply emits_checked).
  unfold materialize, materialize_file, materialize_metadata. intros H.
  assert (forall input',
    (name <- open_temp_file;;
     lift (g_output_stream_splice name input');;;
     ret {| m_temp := name; m_file_info := None; m_xattrs := None;
            m_is_symlink := false; m_read := input' |}) (l, s)
    = (Ok m, (l', s')) ->
    l' = {| temp_filename := Some (m_temp m) |}
    /\ exists evs, logged s s' evs /\ Exists (creates (m_temp m)) evs) as Hmeta.
  { intros input' H'. step_bind H' as name x1 Ho; [|not_ok].
    destruct x1 as [l1 s1]. apply open_temp_file_inv in Ho as [-> Ho].
    eapply Hthen; [apply Hsplice| |exact Ho|exact H'].
    intros l2 s2 Hr. by apply Hret in Hr. }
  destruct objtype; try (by apply (Hmeta input)).
  destruct (ostree_content_stream_parse input file_object_length) as [e|pc];
    [done|].
  simpl in H. destruct (negb _); [done|].
  destruct repo_mode.
  - destruct (bool_decide (standard_type (pc_file_info pc) = G_FILE_TYPE_REGULAR)).
    + step_bind H as name x1 Ho; [|not_ok].
      destruct x1 as [l1 s1]. apply open_temp_file_inv in Ho as [-> Ho].
      eapply Hthen; [apply Hsplice| |exact Ho|exact H].
      intros l2 s2 Hr. by apply Hret in Hr.
    + step_bind H as name x1 Ho; [|not_ok]. destruct x1 as [l1 s1].
      apply lift_inv in Ho as [-> Ho].
      apply make_temporary_symlink_at_created in Ho as (evs & L & Hex).
      step_bind H as u x2 Hs; [|not_ok]. inversion Hs; subst.
      inversion H; subst. simpl. eauto.
  - step_bind H as name x1 Ho; [|not_ok].
    destruct x1 as [l1 s1]. apply open_temp_file_inv in Ho as [-> Ho].
    eapply Hthen; [apply Hsplice| |exact Ho|exact H].
    intros l2 s2 Hr.
    step_bind Hr as u x3 Hz; [|not_ok]. destruct x3 as [l3 s3].
    assert (l3 = l2 /\ exists evs, logged s2 s3 evs) as [-> (evs3 & L3)].
    { destruct (bool_decide _).
      - pose proof Hz as Hz'. apply lift_inv in Hz' as [-> Hz'].
        destruct (Hsplice _ _ _ _ _ Hz') as (evs & L & _). eauto.
      - inversion Hz; subst. split; [done|]. exists []. apply logged_refl. }
    step_bind Hr as u' x4 Hcl; [|not_ok]. destruct x4 as [l4 s4].
    pose proof Hcl as Hcl'. apply lift_inv in Hcl' as [-> Hcl'].
    destruct (Hclose _ _ _ _ Hcl') as (evs4 & L4 & _).
    apply Hret in Hr as (-> & Hm & evs5 & L5). split_and!; try done.
    exists (evs3 ++ evs4 ++ evs5).
    eapply logged_trans; [exact L3|]. by eapply logged_trans.
Qed.

Lemma bind_lift_get {L B} (k : State -> M (L * State) B) l s :
  bind (lift get) k (l, s) = k s (l, s).
Proof. done. Qed.

(** C2.  A verifying write whose expected checksum names no stored
    object, and whose temp file was written, ends as follows when the
    computed checksum differs from the expected one: the call fails with
    the corrupt-object error, whose message cites the kind, the expected
    and the actual checksum; the repository object, [objects/] and the
    refs are as before, no [mkdirat] or [renameat] was issued; and the last
    call issued is the unlink of the temp file the call created, after
    which, if it succeeded, the temp file is gone.  [write_content] and
    [write_metadata] are this call. *)
Theorem corrupt_object_rejected (objtype : OstreeObjectType)
    (expected_checksum : string) (input : list byte)
    (file_object_length : Z) (s s1 s2 : State) (hl : bool * string)
    (l2 : WriteObjectLocals) (m : Materialized) :
  in_transaction (self s) = true ->
  _ostree_repo_has_loose_object expected_checksum objtype s = (Ok hl, s1) ->
  fst hl = false ->
  materialize objtype (mode (self s1)) input file_object_length
    ({| temp_filename := None |}, s1) = (Ok m, (l2, s2)) ->
  g_checksum_get_string (g_checksum_sha256 (m_read m)) <> expected_checksum ->
  let actual_checksum := g_checksum_get_string (g_checksum_sha256 (m_read m)) in
  let out := write_object objtype (Some expected_checksum) input
               file_object_length true false s in
  fst out = Error (ErrFailed
                     ("Corrupted " +:+ ostree_object_type_to_string objtype
                      +:+ " object " +:+ expected_checksum
                      +:+ " (actual checksum is " +:+ actual_checksum +:+ ")"))
  /\ self (snd out) = self s
  /\ disk_same_but_tmp (disk s) (disk (snd out))
  /\ (exists evs errno,
        logged s (snd out) (evs ++ [Ev (SYS_unlinkat (m_temp m)) errno])
        /\ Forall (of_class not_placement) evs
        /\ Exists (creates (m_temp m)) evs
        /\ (errno = None -> tmp_dir (disk (snd out)) !! m_temp m = None))
  /\ (objtype = OSTREE_OBJECT_TYPE_FILE ->
      ostree_repo_write_content (Some expected_checksum) input
        file_object_length true false s = out)
  /\ (forall object,
        input = ot_variant_read object -> file_object_length = 0 ->
        ostree_repo_write_metadata objtype (Some expected_checksum) object
          true false s = out).
Proof.
  intros Hin Hhl Hmiss Hm Hne actual_checksum out.
  pose proof (materialize_temp _ _ _ _ _ _ _ _ _ Hm) as (-> & cevs & Lc & Hcreated).
  assert (write_object_body objtype (Some expected_checksum) input
            file_object_length true ({| temp_filename := None |}, s)
          = (Error (ErrFailed (corrupted_message objtype expected_checksum
                                 actual_checksum)),
             ({| temp_filename := Some (m_temp m) |}, s2))) as Hbody.
  { unfold write_object_body.
    erewrite bind_ok;
      [|erewrite bind_ok; [|apply lift_ok, Hhl]; reflexivity].
    rewrite Hmiss. rewrite bind_lift_get.
    erewrite bind_ok; [|exact Hm].
    unfold resolve_checksum. simpl. fold actual_checksum.
    rewrite decide_True by done. done. }
  assert (out = (Error (ErrFailed (corrupted_message objtype expected_checksum
                                     actual_checksum)),
                 snd (syscall (SYS_unlinkat (m_temp m))
                        (eff_unlinkat (m_temp m)) s2))) as Hout.
  { subst out. unfold write_object. rewrite Hin. simpl. by rewrite Hbody. }
  destruct (syscall (SYS_unlinkat (m_temp m)) (eff_unlinkat (m_temp m)) s2)
    as [ru s3] eqn:Hu. simpl in Hout.
  pose proof (keeps_has_loose_object _ _ _ _ _ Hhl) as K1.
  pose proof (keeps_materialize _ _ _ _ _ _ _ Hm) as K2.
  pose proof (keeps_syscall _ _ (tmp_only_unlinkat _) _ _ _ Hu) as K3.
  pose proof (same_but_tmp_trans _ _ _ (same_but_tmp_trans _ _ _ K1 K2) K3)
    as [Ks Kd].
  destruct (emits_has_loose_object not_placement expected_checksum objtype
              ltac:(done) _ _ _ Hhl) as (evs1 & L1 & F1).
  destruct (emits_materialize not_placement objtype (mode (self s1)) input
              file_object_length ltac:(done) ltac:(done) ltac:(done)
              ltac:(done) _ _ _ Hm) as (evs2 & L2 & F2).
  apply syscall_inv in Hu as (errno & _ & L3 & _ & _ & _ & Hd).
  rewrite Hout. simpl. split_and!; try done.
  - exists (evs1 ++ evs2), errno. split_and!.
    + eapply logged_trans; [|exact L3]. by eapply logged_trans.
    + by apply Forall_app.
    + apply Exists_app. right.
      simpl in *. unfold logged in Lc, L2. rewrite Lc in L2.
      by apply app_inv_head in L2 as <-.
    + intros ->. destruct Hd as [Hd _]. unfold eff_unlinkat in Hd.
      destruct (tmp_dir (disk s2) !! m_temp m); [|done].
      injection Hd as <-. simpl. apply lookup_delete_eq.
  - by intros ->.
  - by intros object -> ->.
Qed.

(** *** The order of the calls on a BARE temp file *)

(** The calls whose order matters: writing the body, owner, xattrs, mode
    bits, fsync and the rename into [objects/]. *)
Definition is_attr_call (c : Syscall) : bool :=
  match c with
  | SYS_splice _ _ | SYS_fchownat _ _ _ | SYS_set_xattrs _ _
  | SYS_fchmod _ _ | SYS_fsync _ | SYS_renameat _ _ => true
  | _ => false
  end.

Definition not_attr (c : Syscall) : bool := negb (is_attr_call c).

Definition attr_events (evs : list Event) : list Event :=
  filter (fun ev => is_attr_call (ev_call ev) = true) evs.

(** A rename into [objects/] that succeeded. *)
Definition placed (ev : Event) : bool :=
  match ev_call ev, ev_errno ev with
  | SYS_renameat _ _, None => true
  | _, _ => false
  end.

Definition is_fchmod_call (c : Syscall) : bool :=
  match c with SYS_fchmod _ _ => true | _ => false end.

Definition not_fchmod (c : Syscall) : bool := negb (is_fchmod_call c).

Lemma logged_inj s s' evs1 evs2 :
  logged s s' evs1 -> logged s s' evs2 -> evs1 = evs2.
Proof. unfold logged. intros -> H. by apply app_inv_head in H. Qed.

(** A stretch of the run with no successful rename, and the
    order-relevant calls it logged. *)
Definition seg (s s' : State) (attrs : list Event) : Prop :=
  exists evs, logged s s' evs /\ attr_events evs = attrs
              /\ Forall (fun ev => placed ev = false) evs.

Lemma seg_refl s : seg s s [].
Proof. exists []. split; [apply logged_refl|done]. Qed.

Lemma seg_trans s1 s2 s3 a1 a2 :
  seg s1 s2 a1 -> seg s2 s3 a2 -> seg s1 s3 (a1 ++ a2).
Proof.
  intros (e1 & L1 & <- & F1) (e2 & L2 & <- & F2). exists (e1 ++ e2).
  split; [by eapply logged_trans|].
  split; [unfold attr_events; by rewrite filter_app|by apply Forall_app].
Qed.

Lemma attr_events_boring evs :
  Forall (of_class not_attr) evs -> attr_events evs = [].
Proof.
  unfold attr_events. induction 1 as [|ev evs Hev F IH]; [done|].
  rewrite filter_cons, decide_False; [done|].
  unfold of_class, not_attr in Hev. by destruct (is_attr_call _).
Qed.

Lemma seg_boring s s' evs :
  logged s s' evs -> Forall (of_class not_attr) evs -> seg s s' [].
Proof.
  intros L F. exists evs. split; [done|]. split; [by apply attr_events_boring|].
  eapply Forall_impl; [exact F|]. intros [c e]. unfold of_class, placed.
  simpl. by destruct c.
Qed.

Lemma seg_one s s' call errno :
  logged s s' [Ev call errno] -> placed (Ev call errno) = false ->
  seg s s' (if is_attr_call call then [Ev call errno] else []).
Proof.
  intros L Hp. exists [Ev call errno]. split; [done|]. split; [|by repeat constructor].
  unfold attr_events. rewrite filter_cons. simpl.
  destruct (is_attr_call call); by case_decide.
Qed.

Lemma seg_emits {S A} (proj : S -> State) (c : M S A) x r x' :
  emits proj (of_class not_attr) c -> c x = (r, x') ->
  seg (proj x) (proj x') [].
Proof. intros Hc H. destruct (Hc _ _ _ H) as (evs & L & F). by eapply seg_boring. Qed.

Lemma retry_eintr_inv call eff s r s' :
  retry_eintr call eff s = (r, s') ->
  exists n errno,
    r = Ok errno
    /\ logged s s' (repeat (Ev call (Some EINTR)) n ++ [Ev call errno]).
Proof.
  unfold retry_eintr. intros H.
  remember (faults (env s)) as fs eqn:Hfs.
  revert s Hfs H. induction fs as [|f fs IH]; intros s Hfs H; simpl in H.
  - apply syscall_inv in H as (errno & -> & L & _). by exists O, errno.
  - destruct f as [[]|];
      try (apply syscall_inv in H as (errno & -> & L & _); by exists O, errno).
    apply IH in H as (n & errno & -> & L); [|done].
    exists (S n), errno. split; [done|].
    unfold logged in *. rewrite L. simpl. by rewrite <- app_assoc.
Qed.

Ltac failed :=
  subst;
  match goal with
  | |- is_ok (failure_of ?r) = false => by destruct r
  end.

Lemma seg_all_attr s s' evs :
  logged s s' evs ->
  Forall (fun ev => is_attr_call (ev_call ev) = true /\ placed ev = false) evs ->
  seg s s' evs.
Proof.
  intros L F. exists evs. split; [done|]. split.
  - unfold attr_events. clear L. induction F as [|ev evs [Ha _] F IH]; [done|].
    by rewrite filter_cons, decide_True, IH.
  - eapply Forall_impl; [exact F|]. by intros ev [_ ?].
Qed.

Lemma seg_checked call eff s r s' :
  (forall errno, placed (Ev call errno) = false) ->
  checked call eff s = (r, s') ->
  (r = Ok tt /\ seg s s' (if is_attr_call call then [Ev call None] else []))
  \/ (is_ok r = false /\ exists a, seg s s' a).
Proof.
  intros Hp H. apply checked_inv in H as (errno & L & _ & _ & _ & Hr).
  pose proof (seg_one _ _ _ _ L (Hp errno)) as Hseg.
  destruct errno as [e|].
  - right. destruct Hr as [-> _]. eauto.
  - left. by destruct Hr as [-> _].
Qed.

(** The mode bits and the fsync of a regular temp file: [fchmod],
    reissued while interrupted, then [fsync]. *)
Lemma apply_mode_and_sync_inv tmpname file_mode s r s' :
  apply_mode_and_sync tmpname file_mode s = (r, s') ->
  (r = Ok tt
   /\ exists n,
        seg s s' (repeat (Ev (SYS_fchmod tmpname file_mode) (Some EINTR)) n
                  ++ [Ev (SYS_fchmod tmpname file_mode) None;
                      Ev (SYS_fsync tmpname) None]))
  \/ (is_ok r = false /\ exists a, seg s s' a).
Proof.
  unfold apply_mode_and_sync. intros H.
  assert (forall sa sb (ra : Res unit),
            checked (SYS_openat_noatime tmpname) (eff_probe_tmp tmpname) sa
            = (ra, sb) -> exists a, seg sa sb a) as Hopen.
  { intros sa sb ra Hc. apply checked_inv in Hc as (e & L & _).
    eexists. by apply (seg_one _ _ _ _ L). }
  step_bind H as u1 s1 Ho; [|right; split; [failed|by eapply Hopen]].
  apply checked_inv in Ho as (e1 & L1 & _).
  pose proof (seg_one _ _ _ _ L1 eq_refl) as S1. simpl in S1. clear L1.
  step_bind H as res s2 Hf;
    [|apply retry_eintr_inv in Hf as (?&?&->&_); done].
  apply retry_eintr_inv in Hf as (n & errno & [= ->] & L2).
  assert (seg s1 s2 (repeat (Ev (SYS_fchmod tmpname file_mode) (Some EINTR)) n
                     ++ [Ev (SYS_fchmod tmpname file_mode) errno])) as S2.
  { apply seg_all_attr; [done|]. apply Forall_app. split.
    - apply Forall_forall. by intros ev ->%list_elem_of_In%repeat_spec.
    - by repeat constructor. }
  assert (forall sa sb (ra : Res (option Errno)),
            syscall (SYS_close tmpname) eff_none sa = (ra, sb) -> seg sa sb [])
    as Hclose.
  { intros sa sb ra Hc. apply syscall_inv in Hc as (e & _ & L & _).
    by apply (seg_one _ _ _ _ L). }
  destruct errno as [e|].
  - right. step_bind H as u3 s3 Hc;
      [|apply syscall_inv in Hc as (?&->&_); done].
    apply Hclose in Hc. inv_ret H. split; [done|]. eexists.
    eapply seg_trans; [exact S1|]. eapply seg_trans; [exact S2|exact Hc].
  - step_bind H as r3 s3 Hs; [|apply syscall_inv in Hs as (?&->&_); done].
    apply syscall_inv in Hs as (e3 & [= ->] & L3 & _).
    pose proof (seg_one _ _ _ _ L3 eq_refl) as S3. simpl in S3.
    destruct e3 as [e3|];
      (step_bind H as u4 s4 Hc;
       [|apply syscall_inv in Hc as (?&->&_); done]).
    + right. apply Hclose in Hc. inv_ret H. split; [done|]. eexists.
      eapply seg_trans; [exact S1|]. eapply seg_trans; [exact S2|].
      eapply seg_trans; [exact S3|exact Hc].
    + left. apply Hclose in Hc. inv_ret H. split; [done|]. exists n.
      pose proof (seg_trans _ _ _ _ _ S1
                    (seg_trans _ _ _ _ _ S2 (seg_trans _ _ _ _ _ S3 Hc))) as St.
      rewrite app_nil_l, <- app_assoc in St. exact St.
Qed.

(** What [apply_bare_attributes] does to a regular temp file, in order. *)
Definition bare_attribute_events (tmpname : string) (file_info : GFileInfo)
    (xattrs : option XAttrs) (n : nat) : list Event :=
  [Ev (SYS_fchownat tmpname (unix_uid file_info) (unix_gid file_info)) None]
  ++ match xattrs with
     | Some x => [Ev (SYS_set_xattrs tmpname x) None]
     | None => []
     end
  ++ repeat (Ev (SYS_fchmod tmpname (unix_mode file_info)) (Some EINTR)) n
  ++ [Ev (SYS_fchmod tmpname (unix_mode file_info)) None;
      Ev (SYS_fsync tmpname) None].

Lemma apply_bare_attributes_inv m file_info s r s' :
  m_file_info m = Some file_info -> m_is_symlink m = false ->
  apply_bare_attributes m s = (r, s') ->
  (r = Ok tt
   /\ exists n,
        seg s s' (bare_attribute_events (m_temp m) file_info (m_xattrs m) n))
  \/ (is_ok r = false /\ exists a, seg s s' a).
Proof.
  unfold apply_bare_attributes, bare_attribute_events.
  intros -> -> H. simpl in H.
  step_bind H as u1 s1 H1.
  2:{ right. split; [failed|].
      apply seg_checked in H1 as [[_ ?]|[_ ?]]; by eauto. }
  apply seg_checked in H1 as [[_ S1]|[[=] _]]; [|done]. simpl in S1.
  step_bind H as u2 s2 H2.
  2:{ right. split; [failed|]. destruct (m_xattrs m).
      - apply seg_checked in H2 as [[_ S2]|[_ [a S2]]]; [| |done];
          eexists; eapply seg_trans; [exact S1|exact S2| exact S1|exact S2].
      - inversion H2; subst; done. }
  assert (seg s1 s2 match m_xattrs m with
                    | Some x => [Ev (SYS_set_xattrs (m_temp m) x) None]
                    | None => []
                    end) as S2.
  { destruct (m_xattrs m).
    - by apply seg_checked in H2 as [[_ S2]|[[=] _]].
    - inversion H2; subst. apply seg_refl. }
  apply apply_mode_and_sync_inv in H as [[-> [n S3]]|[Hr [a S3]]].
  - left. split; [done|]. exists n.
    eapply seg_trans; [exact S1|]. eapply seg_trans; [exact S2|exact S3].
  - right. split; [done|]. eexists.
    eapply seg_trans; [exact S1|]. eapply seg_trans; [exact S2|exact S3].
Qed.

Definition att (s s' : State) (attrs : list Event) : Prop :=
  exists evs, logged s s' evs /\ attr_events evs = attrs.

Lemma seg_att s s' a : seg s s' a -> att s s' a.
Proof. intros (evs & L & E & _). by exists evs. Qed.

Lemma att_trans s1 s2 s3 a b :
  att s1 s2 a -> att s2 s3 b -> att s1 s3 (a ++ b).
Proof.
  intros (e1 & L1 & <-) (e2 & L2 & <-). exists (e1 ++ e2).
  split; [by eapply logged_trans|]. unfold attr_events. by rewrite filter_app.
Qed.

Lemma emits_open_temp_file cls :
  (forall n m, cls (SYS_openat_excl n m) = true) ->
  emits snd (of_class cls) open_temp_file.
Proof. intros H. unfold open_temp_file. repeat emits_step. Qed.

(** The temp file of a regular FILE object in a BARE repository: made,
    then filled by one splice of the payload. *)
Lemma materialize_bare_regular input file_object_length pc l s r l' s' :
  ostree_content_stream_parse input file_object_length = inr pc ->
  standard_type (pc_file_info pc) = G_FILE_TYPE_REGULAR ->
  materialize OSTREE_OBJECT_TYPE_FILE OSTREE_REPO_MODE_BARE input
    file_object_length (l, s) = (r, (l', s')) ->
  (exists m, r = Ok m
     /\ m_file_info m = Some (pc_file_info pc)
     /\ m_xattrs m = pc_xattrs pc
     /\ m_is_symlink m = false
     /\ seg s s' [Ev (SYS_splice (m_temp m) (pc_payload pc)) None])
  \/ (is_ok r = false /\ exists a, seg s s' a).
Proof.
  intros Hp Ht. unfold materialize, materialize_file. rewrite Hp, Ht.
  rewrite bool_decide_eq_true_2 by done.
  rewrite bool_decide_eq_false_2 by done. simpl. intros H.
  step_bind H as name x1 Ho.
  2:{ right. split; [failed|]. eexists.
      exact (seg_emits snd _ _ _ _ (emits_open_temp_file not_attr
                                      (fun _ _ => eq_refl)) Ho). }
  pose proof (seg_emits snd _ _ _ _ (emits_open_temp_file not_attr
                                       (fun _ _ => eq_refl)) Ho) as S1.
  destruct x1 as [l1 s1]. simpl in S1.
  step_bind H as u2 x2 Hs.
  - destruct x2 as [l2 s2]. apply lift_inv in Hs as [-> Hs].
    apply seg_checked in Hs as [[_ S2]|[[=] _]]; [|done]. simpl in S2.
    inv_ret H. left. eexists. split; [done|]. simpl.
    split_and!; [done..|]. exact (seg_trans _ _ _ _ _ S1 S2).
  - apply lift_inv in Hs as [-> Hs]. right. split; [failed|].
    apply seg_checked in Hs as [[_ S2]|[_ [a S2]]]; [| |done];
      eexists; exact (seg_trans _ _ _ _ _ S1 S2).
Qed.

Lemma seg_set_self f s : seg s (set_self f s) [].
Proof.
  exists []. split; [|done]. unfold logged. simpl. by rewrite app_nil_r.
Qed.

(** Placing the temp file of a regular FILE object in a BARE repository:
    unless some call fails or the object is there already, the attributes
    are applied in order and the rename comes last. *)
Lemma store_object_bare_regular out_csum file_object_length m file_info
    actual_checksum l s r l' s' :
  mode (self s) = OSTREE_REPO_MODE_BARE ->
  m_file_info m = Some file_info -> m_is_symlink m = false ->
  store_object OSTREE_OBJECT_TYPE_FILE out_csum file_object_length m
    actual_checksum (l, s) = (r, (l', s')) ->
  (exists a, seg s s' a)
  \/ (is_ok r = true /\ l' = {| temp_filename := None |}
      /\ exists loose_path n,
           att s s' (bare_attribute_events (m_temp m) file_info (m_xattrs m) n
                     ++ [Ev (SYS_renameat (m_temp m) loose_path) None])).
Proof.
  intros Hm Hfi Hsym H. unfold store_object in H.
  assert (forall sa ra sb,
            _ostree_repo_has_loose_object actual_checksum
              OSTREE_OBJECT_TYPE_FILE sa = (ra, sb) ->
            seg sa sb [] /\ self sb = self sa) as Hhas.
  { intros sa ra sb Hh. split.
    - exact (seg_emits id _ _ _ _
               (emits_has_loose_object not_attr _ _ (fun _ => eq_refl)) Hh).
    - by destruct (keeps_has_loose_object _ _ _ _ _ Hh) as [? _]. }
  step_bind H as hl x1 Hh.
  2:{ left. apply lift_inv in Hh as [_ Hh]. exists []. by apply Hhas in Hh as [? _]. }
  destruct x1 as [l1 s1]. apply lift_inv in Hh as [-> Hh].
  apply Hhas in Hh as [S1 Hself].
  destruct (fst hl) eqn:Hhave; simpl in H.
  { left. inversion H; subst. eexists.
    eapply seg_trans; [exact S1|apply seg_set_self]. }
  step_bind H as u2 x2 Hc;
    rewrite bind_lift_get, Hself, Hm in Hc;
    rewrite bool_decide_eq_true_2 in Hc by done.
  2:{ left.
      step_bind Hc as u3 x3 Ha.
      - destruct x3 as [l3 s3]. apply lift_inv in Ha as [-> Ha].
        apply (apply_bare_attributes_inv _ _ _ _ _ Hfi Hsym) in Ha
          as [[_ [n S2]]|[[=] _]].
        step_bind Hc as u4 x4 Hp; [by inversion Hc; subst|].
        apply lift_inv in Hp as [_ Hp].
        apply commit_loose_object_trusted_inv in Hp
          as [(e & _ & -> & L)|(mk & _ & [[-> _]|[(ul & -> & _)|(e & _ & -> & L)]])];
          try done.
        + eexists. eapply seg_trans; [exact S1|].
          eapply seg_trans; [exact S2|]. by apply (seg_one _ _ _ _ L).
        + eexists. eapply seg_trans; [exact S1|].
          eapply seg_trans; [exact S2|]. exists [Ev (SYS_mkdirat (loose_prefix_of (snd hl)) 511) mk; Ev (SYS_renameat (m_temp m) (snd hl)) (Some e)].
          split; [done|]. split; [reflexivity|by repeat constructor].
      - apply lift_inv in Ha as [_ Ha].
        apply (apply_bare_attributes_inv _ _ _ _ _ Hfi Hsym) in Ha
          as [[-> _]|[_ [a S2]]]; [done|].
        eexists. eapply seg_trans; [exact S1|exact S2]. }
  step_bind Hc as u3 x3 Ha; [|not_ok].
  destruct x3 as [l3 s3]. apply lift_inv in Ha as [-> Ha].
  apply (apply_bare_attributes_inv _ _ _ _ _ Hfi Hsym) in Ha
    as [[_ [n S2]]|[[=] _]].
  step_bind Hc as u4 x4 Hp; [|not_ok].
  destruct x4 as [l4 s4]. apply lift_inv in Hp as [-> Hp].
  inversion Hc; subst. inversion H; subst. clear H Hc.
  apply commit_loose_object_trusted_inv in Hp
    as [(e & _ & [=] & _)|(mk & _ & [[_ L]|[(ul & _ & L)|(e & _ & [=] & _)]])].
  - right. split; [done|]. split; [done|]. exists (snd hl), n.
    apply seg_att in S1, S2.
    pose proof (att_trans _ _ _ _ _ S1 S2) as A. simpl in A.
    eapply att_trans; [exact A|].
    exists [Ev (SYS_mkdirat (loose_prefix_of (snd hl)) 511) mk;
            Ev (SYS_renameat (m_temp m) (snd hl)) None].
    split; [exact L|reflexivity].
  - left. eexists. eapply seg_trans; [exact S1|].
    eapply seg_trans; [exact S2|].
    eapply seg_trans; [|apply seg_set_self].
    eexists. split; [exact L|]. split; [reflexivity|by repeat constructor].
Qed.

Lemma resolve_checksum_inv objtype expected_checksum out_csum m x r x' :
  resolve_checksum objtype expected_checksum out_csum m x = (r, x') -> x' = x.
Proof.
  unfold resolve_checksum.
  destruct (negb out_csum), expected_checksum; try case_decide;
    by intros [= _ <-].
Qed.

(** The events of a regular FILE write that places its object. *)
Definition bare_regular_write (tmpname loose_path : string)
    (pc : ParsedContent) (n : nat) : list Event :=
  Ev (SYS_splice tmpname (pc_payload pc)) None
  :: bare_attribute_events tmpname (pc_file_info pc) (pc_xattrs pc) n
  ++ [Ev (SYS_renameat tmpname loose_path) None].

Lemma write_object_body_bare_regular expected_checksum input
    file_object_length out_csum pc s r l' s' :
  mode (self s) = OSTREE_REPO_MODE_BARE ->
  ostree_content_stream_parse input file_object_length = inr pc ->
  standard_type (pc_file_info pc) = G_FILE_TYPE_REGULAR ->
  write_object_body OSTREE_OBJECT_TYPE_FILE expected_checksum input
    file_object_length out_csum ({| temp_filename := None |}, s)
  = (r, (l', s')) ->
  (exists a, seg s s' a)
  \/ (is_ok r = true /\ l' = {| temp_filename := None |}
      /\ exists tmpname loose_path n,
           att s s' (bare_regular_write tmpname loose_path pc n)).
Proof.
  intros Hm Hp Ht H. unfold write_object_body in H.
  assert (forall e sa ra sb,
            _ostree_repo_has_loose_object e OSTREE_OBJECT_TYPE_FILE sa
            = (ra, sb) -> seg sa sb [] /\ self sb = self sa) as Hhas.
  { intros e sa ra sb Hh. split.
    - exact (seg_emits id _ _ _ _
               (emits_has_loose_object not_attr _ _ (fun _ => eq_refl)) Hh).
    - by destruct (keeps_has_loose_object _ _ _ _ _ Hh) as [? _]. }
  set (l0 := {| temp_filename := None |}) in *.
  step_bind H as have_obj x1 Hh.
  2:{ left. destruct expected_checksum as [e|]; [|by inversion Hh; subst].
      step_bind Hh as hl x1 Hh1; [by inversion Hh; subst|].
      apply lift_inv in Hh1 as [_ Hh1]. exists []. by apply Hhas in Hh1 as [? _]. }
  assert (exists s1, x1 = (l0, s1) /\ seg s s1 [] /\ self s1 = self s)
    as (s1 & -> & S1 & Hself).
  { destruct expected_checksum as [e|].
    - step_bind Hh as hl x2 Hh1; [|not_ok]. destruct x2 as [l2 s2].
      apply lift_inv in Hh1 as [-> Hh1]. inversion Hh; subst.
      exists s2. split; [done|]. by apply Hhas in Hh1.
    - inversion Hh; subst. exists s. split; [done|].
      split; [apply seg_refl|done]. }
  destruct have_obj.
  { left. inversion H; subst. eauto. }
  rewrite bind_lift_get, Hself, Hm in H.
  step_bind H as m x2 Hmat.
  2:{ left. apply (materialize_bare_regular _ _ _ _ _ _ _ _ Hp Ht) in Hmat
        as [(m & -> & _)|[_ [a S2]]]; [done|].
      eexists. exact (seg_trans _ _ _ _ _ S1 S2). }
  destruct x2 as [l2 s2].
  pose proof (keeps_materialize _ _ _ _ _ _ _ Hmat) as [Hself2 _].
  simpl in Hself2.
  apply (materialize_bare_regular _ _ _ _ _ _ _ _ Hp Ht) in Hmat
    as [(m' & [= <-] & Hfi & Hx & Hsym & S2)|[[=] _]].
  step_bind H as actual_checksum x3 Hres;
    apply resolve_checksum_inv in Hres.
  2:{ left. injection Hres as -> ->. eexists.
      exact (seg_trans _ _ _ _ _ S1 S2). }
  subst x3.
  assert (mode (self s2) = OSTREE_REPO_MODE_BARE) as Hm2 by congruence.
  destruct (store_object_bare_regular _ _ _ _ _ _ _ _ _ _ Hm2 Hfi Hsym H)
    as [[a S3]|(Hok & -> & loose_path & n & A)].
  - left. eexists. eapply seg_trans; [exact S1|].
    eapply seg_trans; [exact S2|exact S3].
  - right. split; [done|]. split; [done|].
    exists (m_temp m), loose_path, n. unfold bare_regular_write.
    rewrite <- Hx. apply seg_att in S1, S2.
    exact (att_trans _ _ _ _ _ S1 (att_trans _ _ _ _ _ S2 A)).
Qed.

Lemma emits_bind_ok {S A B} (proj : S -> State) (P : Event -> Prop)
    (c : M S A) (k : A -> M S B) :
  emits proj P c ->
  (forall x a x', c x = (Ok a, x') -> emits proj P (k a)) ->
  emits proj P (bind c k).
Proof.
  intros Hc Hk x r x' H. step_bind H as a x1 Hca.
  - destruct (Hc _ _ _ Hca) as (evs1 & L1 & F1).
    destruct (Hk _ _ _ Hca _ _ _ H) as (evs2 & L2 & F2).
    exists (evs1 ++ evs2). split; [by eapply logged_trans|by apply Forall_app].
  - by apply (Hc _ _ _ Hca).
Qed.

Lemma emits_modify_self (P : Event -> Prop) f :
  emits id P (modify (set_self f)).
Proof.
  intros s r s' [= <- <-]. exists []. split; [|done].
  unfold logged, id. simpl. by rewrite app_nil_r.
Qed.

Lemma emits_commit_loose_object_trusted cls loose_path tempfile_name :
  (forall p m, cls (SYS_mkdirat p m) = true) ->
  (forall a b, cls (SYS_renameat a b) = true) ->
  (forall n, cls (SYS_unlinkat n) = true) ->
  emits id (of_class cls) (commit_loose_object_trusted loose_path tempfile_name).
Proof.
  intros H1 H2 H3 s r s' H.
  apply commit_loose_object_trusted_inv in H
    as [(e & _ & _ & L)|(mk & _ & [[_ L]|[(ul & _ & L)|(e & _ & _ & L)]])];
    eexists; (split; [exact L|]); repeat constructor; unfold of_class; simpl; auto.
Qed.

Lemma materialize_symlink repo_mode input file_object_length pc x m x' :
  ostree_content_stream_parse input file_object_length = inr pc ->
  standard_type (pc_file_info pc) = G_FILE_TYPE_SYMBOLIC_LINK ->
  materialize OSTREE_OBJECT_TYPE_FILE repo_mode input file_object_length x
  = (Ok m, x') ->
  m_is_symlink m = true.
Proof.
  intros Hp Ht. unfold materialize, materialize_file. rewrite Hp, Ht.
  rewrite bool_decide_eq_false_2 by done.
  rewrite bool_decide_eq_true_2 by done. simpl. intros H.
  destruct repo_mode; repeat (inv_bind H; [|not_ok]); by inv_ret H.
Qed.

Lemma emits_apply_bare_attributes_symlink m :
  m_is_symlink m = true ->
  emits id (of_class not_fchmod) (apply_bare_attributes m).
Proof.
  intros Hs. unfold apply_bare_attributes. rewrite Hs. simpl.
  repeat emits_step.
Qed.

Lemma emits_store_object_symlink objtype out_csum file_object_length m
    actual_checksum :
  m_is_symlink m = true ->
  emits snd (of_class not_fchmod)
    (store_object objtype out_csum file_object_length m actual_checksum).
Proof.
  intros Hs. unfold store_object.
  repeat first
    [ apply emits_apply_bare_attributes_symlink; exact Hs
    | apply emits_modify_self
    | apply emits_commit_loose_object_trusted; by intros
    | emits_step ].
Qed.

(** A write of a symlink FILE object never calls [fchmod]. *)
Lemma emits_write_object_body_symlink expected_checksum input
    file_object_length out_csum pc :
  ostree_content_stream_parse input file_object_length = inr pc ->
  standard_type (pc_file_info pc) = G_FILE_TYPE_SYMBOLIC_LINK ->
  emits snd (of_class not_fchmod)
    (write_object_body OSTREE_OBJECT_TYPE_FILE expected_checksum input
       file_object_length out_csum).
Proof.
  intros Hp Ht. unfold write_object_body.
  apply emits_bind; [repeat emits_step|intros have_obj].
  destruct have_obj; [apply emits_ret|].
  apply emits_bind; [repeat emits_step|intros s0].
  apply emits_bind_ok; [by apply emits_materialize|intros x m x' Hm].
  apply (materialize_symlink _ _ _ _ _ _ _ Hp Ht) in Hm.
  apply emits_bind.
  { intros y r y' Hr. apply resolve_checksum_inv in Hr as ->.
    exists []. split; [apply logged_refl|done]. }
  intros actual_checksum. by apply emits_store_object_symlink.
Qed.

(** [write_object] is its body, followed at [out:] by the unlink of a temp
    file that was not placed. *)
Lemma write_object_inv objtype expected_checksum input file_object_length
    out_csum cancelled s r s' :
  write_object objtype expected_checksum input file_object_length out_csum
    cancelled s = (r, s') ->
  s' = s
  \/ exists lb sb,
       write_object_body objtype expected_checksum input file_object_length
         out_csum ({| temp_filename := None |}, s) = (r, (lb, sb))
       /\ (s' = sb
           \/ exists t errno,
                temp_filename lb = Some t
                /\ logged sb s' [Ev (SYS_unlinkat t) errno]).
Proof.
  unfold write_object. intros H.
  destruct (negb (in_transaction (self s))); [left; by inversion H|].
  destruct cancelled; [left; by inversion H|].
  destruct (negb _); [left; by inversion H|].
  destruct (write_object_body _ _ _ _ _ _) as [rb [lb sb]] eqn:Hb.
  right. exists lb, sb.
  assert (rb = r
          /\ (match temp_filename lb with
              | Some t => snd (syscall (SYS_unlinkat t) (eff_unlinkat t) sb)
              | None => sb
              end = s' \/ s' = sb)) as [-> [Hs|Hs]]; [|clear H|by auto].
  { destruct rb; destruct (temp_filename lb); inversion H; subst; auto. }
  split; [done|].
  destruct (temp_filename lb) as [t|]; [|by left]. right.
  destruct (syscall (SYS_unlinkat t) (eff_unlinkat t) sb) as [ru su] eqn:Hu.
  simpl in Hs. subst su.
  apply syscall_inv in Hu as (errno & _ & L & _). by exists t, errno.
Qed.

(** C1.  A write of a FILE object into a BARE repository whose content
    parses.  When the object is a regular file and the call places it (a
    rename into [objects/] succeeds), the call succeeds and its splice,
    fchownat, set-xattrs, fchmod, fsync and renameat calls are, in this
    order and all on one temp file: one splice of the payload, one
    fchownat to the recorded owner, one set-xattrs when xattrs are
    present, fchmod to the recorded mode (reissued while interrupted),
    one fsync, and the rename.  When the object is a symlink, no fchmod
    is called at all. *)
Theorem bare_file_write_order (expected_checksum : option string)
    (input : list byte) (file_object_length : Z) (out_csum cancelled : bool)
    (pc : ParsedContent) (s s' : State) (r : Res (option (list byte)))
    (evs : list Event) :
  mode (self s) = OSTREE_REPO_MODE_BARE ->
  ostree_content_stream_parse input file_object_length = inr pc ->
  write_object OSTREE_OBJECT_TYPE_FILE expected_checksum input
    file_object_length out_csum cancelled s = (r, s') ->
  logged s s' evs ->
  (standard_type (pc_file_info pc) = G_FILE_TYPE_REGULAR ->
   Exists (fun ev => placed ev = true) evs ->
   is_ok r = true
   /\ exists tmpname loose_path n,
        attr_events evs = bare_regular_write tmpname loose_path pc n)
  /\ (standard_type (pc_file_info pc) = G_FILE_TYPE_SYMBOLIC_LINK ->
      Forall (of_class not_fchmod) evs).
Proof.
  intros Hm Hp H L.
  apply write_object_inv in H as [->|(lb & sb & Hb & Hout)].
  { rewrite (logged_inj _ _ _ _ L (logged_refl s)).
    split; [by intros _ ?%Exists_nil|done]. }
  split.
  - intros Ht Hplaced.
    destruct (write_object_body_bare_regular _ _ _ _ _ _ _ _ _ Hm Hp Ht Hb)
      as [[a (eb & Lb & _ & Fb)]|(Hok & -> & tmpname & loose_path & n & A)].
    + exfalso.
      assert (Forall (fun ev => placed ev = false) evs) as F.
      { destruct Hout as [->|(t & errno & _ & Lu)].
        - by rewrite (logged_inj _ _ _ _ L Lb).
        - rewrite (logged_inj _ _ _ _ L (logged_trans _ _ _ _ _ Lb Lu)).
          apply Forall_app. split; [done|by repeat constructor]. }
      apply Exists_exists in Hplaced as (ev & Hin & Hev).
      rewrite Forall_forall in F. apply F in Hin. congruence.
    + split; [done|]. exists tmpname, loose_path, n.
      destruct Hout as [->|(t & errno & [=] & _)].
      destruct A as (eb & Lb & <-). by rewrite (logged_inj _ _ _ _ L Lb).
  - intros Ht.
    destruct (emits_write_object_body_symlink _ _ _ _ _ Hp Ht _ _ _ Hb)
      as (eb & Lb & Fb). simpl in Lb.
    destruct Hout as [->|(t & errno & _ & Lu)].
    + by rewrite (logged_inj _ _ _ _ L Lb).
    + rewrite (logged_inj _ _ _ _ L (logged_trans _ _ _ _ _ Lb Lu)).
      apply Forall_app. split; [done|by repeat constructor].
Qed.

(** ** Runs without injected failures *)

(** No failure is left in the script: every call acts on the disk. *)
Definition calm (s : State) : Prop := faults (env s) = [].

(** The temp file [name] is the inode [i]. *)
Definition holds (name : string) (i : Inode) (s : State) : Prop :=
  tmp_dir (disk s) !! name = Some i.

Lemma syscall_calm call eff s :
  calm s ->
  syscall call eff s
  = match eff (disk s) with
    | inl e =>
        (Ok (Some e),
         set_env (log_event (Ev call (Some e))) (set_env (with_faults []) s))
    | inr d =>
        (Ok None,
         set_env (log_event (Ev call None))
           (set_disk d (set_env (with_faults []) s)))
    end.
Proof. unfold calm, syscall. intros ->. simpl. by destruct (eff (disk s)). Qed.

Lemma retry_eintr_calm call eff s :
  calm s -> retry_eintr call eff s = syscall call eff s.
Proof. unfold calm, retry_eintr. by intros ->. Qed.

Lemma has_loose_object_calm checksum objtype s :
  calm s ->
  let path := _ostree_loose_path checksum objtype (mode (self s)) in
  exists s',
    _ostree_repo_has_loose_object checksum objtype s
    = (Ok (bool_decide (is_Some (objects_dir (disk s) !! path)), path), s')
    /\ calm s' /\ self s' = self s /\ disk s' = disk s
    /\ tmp_name_gen (env s') = tmp_name_gen (env s)
    /\ tmp_name_next (env s') = tmp_name_next (env s).
Proof.
  intros Hc path. unfold _ostree_repo_has_loose_object.
  rewrite bind_get. fold path. unfold bind.
  rewrite syscall_calm by done. unfold eff_fstatat.
  destruct (objects_dir (disk s) !! path) as [i|] eqn:Hl.
  - rewrite bool_decide_eq_true_2 by eauto. eexists. split; [done|].
    by repeat split.
  - rewrite bool_decide_eq_false_2 by (by intros [? ?]).
    eexists. split; [done|]. by repeat split.
Qed.

Lemma update_calm call name f i i' s :
  calm s -> holds name i s -> f i = inr i' ->
  exists s',
    checked call (eff_update name f) s = (Ok tt, s')
    /\ calm s' /\ same_but_tmp s s' /\ holds name i' s'.
Proof.
  intros Hc Hh Hf. unfold checked, bind. rewrite syscall_calm by done.
  unfold eff_update. rewrite Hh, Hf. eexists. split; [done|].
  split; [done|]. split; [by repeat split|].
  unfold holds. simpl. apply lookup_insert_eq.
Qed.

Lemma open_in_tmpdir_calm file_mode s :
  calm s ->
  let name := tmp_name_gen (env s) (tmp_name_next (env s)) in
  tmp_dir (disk s) !! name = None ->
  exists s',
    gs_file_open_in_tmpdir_at file_mode s = (Ok name, s')
    /\ calm s' /\ same_but_tmp s s'
    /\ holds name {| i_kind := RegularFile []; i_uid := euid (env s);
                     i_gid := egid (env s); i_mode := file_mode;
                     i_xattrs := [] |} s'.
Proof.
  intros Hc name Hfresh. unfold gs_file_open_in_tmpdir_at.
  change 128%nat with (S 127). simpl.
  unfold bind at 1. unfold gsystem_fileutil_gen_tmp_name at 1. fold name.
  rewrite bind_get. unfold bind at 1.
  rewrite syscall_calm by done. simpl. unfold eff_create. simpl.
  rewrite Hfresh. eexists. split; [done|]. split; [done|].
  split; [by repeat split|]. unfold holds. simpl. apply lookup_insert_eq.
Qed.

Lemma syscall_update_calm call name f i i' s :
  calm s -> holds name i s -> f i = inr i' ->
  exists s',
    syscall call (eff_update name f) s = (Ok None, s')
    /\ calm s' /\ same_but_tmp s s' /\ holds name i' s'.
Proof.
  intros Hc Hh Hf. rewrite syscall_calm by done.
  unfold eff_update. rewrite Hh, Hf. eexists. split; [done|].
  split; [done|]. split; [by repeat split|].
  unfold holds. simpl. apply lookup_insert_eq.
Qed.

Lemma syscall_none_calm call name i s :
  calm s -> holds name i s ->
  exists s',
    syscall call eff_none s = (Ok None, s')
    /\ calm s' /\ same_but_tmp s s' /\ holds name i s'.
Proof.
  intros Hc Hh. rewrite syscall_calm by done. unfold eff_none.
  eexists. split; [done|]. split; [done|]. split; [by repeat split|done].
Qed.

Lemma apply_mode_and_sync_calm name file_mode i s :
  calm s -> holds name i s ->
  exists s',
    apply_mode_and_sync name file_mode s = (Ok tt, s')
    /\ calm s' /\ same_but_tmp s s' /\ holds name (with_mode file_mode i) s'.
Proof.
  intros Hc Hh. unfold apply_mode_and_sync.
  destruct (update_calm (SYS_openat_noatime name) name (fun i => inr i)
              i i s Hc Hh eq_refl) as (s1 & R1 & C1 & K1 & H1).
  unfold eff_probe_tmp. rewrite (bind_ok _ _ _ _ _ R1).
  destruct (syscall_update_calm (SYS_fchmod name file_mode) name
              (fun i => inr (with_mode file_mode i)) i _ s1 C1 H1 eq_refl)
    as (s2 & R2 & C2 & K2 & H2).
  rewrite <- retry_eintr_calm in R2 by done. rewrite (bind_ok _ _ _ _ _ R2).
  destruct (syscall_update_calm (SYS_fsync name) name (fun i => inr i)
              _ _ s2 C2 H2 eq_refl) as (s3 & R3 & C3 & K3 & H3).
  rewrite (bind_ok _ _ _ _ _ R3).
  destruct (syscall_none_calm (SYS_close name) name _ s3 C3 H3)
    as (s4 & R4 & C4 & K4 & H4).
  rewrite (bind_ok _ _ _ _ _ R4). exists s4. split; [done|].
  split; [done|]. split; [|done].
  eauto using same_but_tmp_trans.
Qed.

(** The inode a regular FILE object is stored as. *)
Definition bare_file_inode (file_info : GFileInfo) (xattrs : option XAttrs)
    (payload : list byte) : Inode :=
  {| i_kind := RegularFile payload; i_uid := unix_uid file_info;
     i_gid := unix_gid file_info; i_mode := unix_mode file_info;
     i_xattrs := default [] xattrs |}.

Lemma apply_bare_attributes_calm m file_info i s :
  m_file_info m = Some file_info -> m_is_symlink m = false ->
  i_xattrs i = [] ->
  calm s -> holds (m_temp m) i s ->
  exists s',
    apply_bare_attributes m s = (Ok tt, s')
    /\ calm s' /\ same_but_tmp s s'
    /\ exists payload,
         i_kind i = payload
         /\ holds (m_temp m)
              {| i_kind := payload; i_uid := unix_uid file_info;
                 i_gid := unix_gid file_info; i_mode := unix_mode file_info;
                 i_xattrs := default [] (m_xattrs m) |} s'.
Proof.
  intros Hfi Hsym Hx Hc Hh. unfold apply_bare_attributes.
  rewrite Hfi, Hsym. simpl.
  destruct (update_calm
              (SYS_fchownat (m_temp m) (unix_uid file_info) (unix_gid file_info))
              (m_temp m)
              (fun i => inr (with_owner (unix_uid file_info)
                               (unix_gid file_info) i))
              i _ s Hc Hh eq_refl) as (s1 & R1 & C1 & K1 & H1).
  rewrite (bind_ok _ _ _ _ _ R1).
  assert (exists s2,
            match m_xattrs m with
            | Some xattrs =>
                checked (SYS_set_xattrs (m_temp m) xattrs)
                  (eff_update (m_temp m) (fun i => inr (with_xattrs xattrs i)))
            | None => ret tt
            end s1 = (Ok tt, s2)
            /\ calm s2 /\ same_but_tmp s1 s2
            /\ holds (m_temp m)
                 (with_xattrs (default [] (m_xattrs m))
                    (with_owner (unix_uid file_info) (unix_gid file_info) i))
                 s2) as (s2 & R2 & C2 & K2 & H2).
  { destruct (m_xattrs m) as [x|]; simpl.
    - by eapply update_calm.
    - exists s1. split; [done|]. split; [done|].
      split; [apply same_but_tmp_refl|].
      destruct i; simpl in *; by subst. }
  rewrite (bind_ok _ _ _ _ _ R2).
  destruct (apply_mode_and_sync_calm (m_temp m) (unix_mode file_info)
              _ s2 C2 H2) as (s3 & R3 & C3 & K3 & H3).
  exists s3. split; [done|]. split; [done|].
  split; [eauto using same_but_tmp_trans|]. by exists (i_kind i).
Qed.

Lemma commit_loose_object_trusted_calm loose_path tempfile_name i s :
  calm s -> holds tempfile_name i s ->
  exists s',
    commit_loose_object_trusted loose_path tempfile_name s = (Ok tt, s')
    /\ calm s' /\ self s' = self s
    /\ objects_dir (disk s') = <[loose_path := i]> (objects_dir (disk s))
    /\ tmp_dir (disk s') = delete tempfile_name (tmp_dir (disk s)).
Proof.
  intros Hc Hh. unfold commit_loose_object_trusted.
  unfold bind at 1. rewrite syscall_calm by done. unfold eff_mkdirat.
  case_decide as Hp; simpl; rewrite bind_ret; unfold bind;
    rewrite syscall_calm by done; unfold eff_renameat; simpl; rewrite Hh;
    rewrite decide_True
      by first [assumption | apply elem_of_union_l; by apply elem_of_singleton];
    (eexists; split; [done|]; by repeat split).
Qed.

Lemma materialize_bare_regular_calm input file_object_length pc l s :
  ostree_content_stream_parse input file_object_length = inr pc ->
  standard_type (pc_file_info pc) = G_FILE_TYPE_REGULAR ->
  calm s ->
  let name := tmp_name_gen (env s) (tmp_name_next (env s)) in
  tmp_dir (disk s) !! name = None ->
  exists m s',
    materialize OSTREE_OBJECT_TYPE_FILE OSTREE_REPO_MODE_BARE input
      file_object_length (l, s)
    = (Ok m, ({| temp_filename := Some name |}, s'))
    /\ m_temp m = name /\ m_file_info m = Some (pc_file_info pc)
    /\ m_xattrs m = pc_xattrs pc /\ m_is_symlink m = false
    /\ calm s' /\ same_but_tmp s s'
    /\ exists i, holds name i s' /\ i_kind i = RegularFile (pc_payload pc)
                 /\ i_xattrs i = [].
Proof.
  intros Hp Ht Hc name Hfresh. unfold materialize, materialize_file.
  rewrite Hp, Ht. rewrite bool_decide_eq_true_2 by done.
  rewrite bool_decide_eq_false_2 by done. simpl.
  destruct (open_in_tmpdir_calm 420 s Hc Hfresh) as (s1 & R1 & C1 & K1 & H1).
  fold name in R1, H1.
  assert (open_temp_file (l, s)
          = (Ok name, ({| temp_filename := Some name |}, s1))) as Ro.
  { unfold open_temp_file.
    by rewrite (bind_ok _ _ _ _ _ (lift_ok _ l _ _ _ R1)). }
  rewrite (bind_ok _ _ _ _ _ Ro).
  destruct (update_calm (SYS_splice name (pc_payload pc)) name
              (fun i => match i_kind i with
                        | RegularFile c =>
                            inr (with_kind (RegularFile (c ++ pc_payload pc)) i)
                        | _ => inl EBADF
                        end) _ _ s1 C1 H1 eq_refl) as (s2 & R2 & C2 & K2 & H2).
  unfold g_output_stream_splice, eff_append.
  rewrite (bind_ok _ _ _ _ _ (lift_ok _ _ _ _ _ R2)).
  eexists _, s2. split; [done|]. simpl. split_and!; try done.
  - eauto using same_but_tmp_trans.
  - eexists. split; [exact H2|]. done.
Qed.

Lemma store_object_bare_regular_calm file_object_length m file_info
    actual_checksum i l s :
  mode (self s) = OSTREE_REPO_MODE_BARE ->
  m_file_info m = Some file_info -> m_is_symlink m = false ->
  calm s -> holds (m_temp m) i s -> i_xattrs i = [] ->
  let path := _ostree_loose_path actual_checksum OSTREE_OBJECT_TYPE_FILE
                OSTREE_REPO_MODE_BARE in
  objects_dir (disk s) !! path = None ->
  exists s',
    store_object OSTREE_OBJECT_TYPE_FILE false file_object_length m
      actual_checksum (l, s) = (Ok None, ({| temp_filename := None |}, s'))
    /\ calm s'
    /\ self s'
       = with_txn_stats
           (update_txn_stats OSTREE_OBJECT_TYPE_FILE true file_object_length
              (txn_stats (self s))) (self s)
    /\ objects_dir (disk s')
       = <[path := {| i_kind := i_kind i; i_uid := unix_uid file_info;
                      i_gid := unix_gid file_info;
                      i_mode := unix_mode file_info;
                      i_xattrs := default [] (m_xattrs m) |}]>
           (objects_dir (disk s)).
Proof.
  intros Hm Hfi Hsym Hc Hh Hx path Hnone. unfold store_object.
  destruct (has_loose_object_calm actual_checksum OSTREE_OBJECT_TYPE_FILE s Hc)
    as (s1 & R1 & C1 & Hs1 & Hd1 & _). rewrite Hm in R1. fold path in R1.
  rewrite bool_decide_eq_false_2 in R1 by (rewrite Hnone; by intros [? ?]).
  rewrite (bind_ok _ _ _ _ _ (lift_ok _ l _ _ _ R1)). simpl.
  assert (holds (m_temp m) i s1) as Hh1 by (unfold holds; by rewrite Hd1).
  destruct (apply_bare_attributes_calm m file_info i s1 Hfi Hsym Hx C1 Hh1)
    as (s2 & R2 & C2 & K2 & k & <- & H2).
  destruct (commit_loose_object_trusted_calm path (m_temp m) _ s2 C2 H2)
    as (s3 & R3 & C3 & Hs3 & Ho3 & _).
  eexists. split.
  { match goal with
    | |- bind ?c _ _ = _ =>
        assert (c (l, s1) = (Ok tt, ({| temp_filename := None |}, s3))) as Ri
    end.
    { rewrite bind_lift_get, Hs1, Hm.
      rewrite bool_decide_eq_true_2 by done.
      rewrite (bind_ok _ _ _ _ _ (lift_ok _ l _ _ _ R2)).
      by rewrite (bind_ok _ _ _ _ _ (lift_ok _ l _ _ _ R3)). }
    by rewrite (bind_ok _ _ _ _ _ Ri). }
  simpl. destruct K2 as (Hs2 & _ & Ho2 & _).
  split; [done|]. split.
  - unfold set_self. simpl. by rewrite Hs3, Hs2, Hs1.
  - by rewrite Ho3, Ho2, Hd1.
Qed.

(** The fast path of lines 163-174: the object is there, nothing is
    written and nothing is counted. *)
Lemma write_object_present objtype checksum input file_object_length
    out_csum s :
  in_transaction (self s) = true -> calm s ->
  is_Some (objects_dir (disk s)
             !! _ostree_loose_path checksum objtype (mode (self s))) ->
  exists s',
    write_object objtype (Some checksum) input file_object_length out_csum
      false s = (Ok None, s')
    /\ calm s' /\ self s' = self s /\ disk s' = disk s.
Proof.
  intros Hin Hc Hthere.
  destruct (has_loose_object_calm checksum objtype s Hc)
    as (s1 & R1 & C1 & Hs1 & Hd1 & _).
  rewrite bool_decide_eq_true_2 in R1 by done.
  exists s1. split; [|done].
  unfold write_object. rewrite Hin. simpl.
  unfold write_object_body.
  rewrite (bind_ok _ _ _ _ _
             (bind_ok _ _ _ _ _ (lift_ok _ {| temp_filename := None |} _ _ _ R1))).
  reflexivity.
Qed.

(** The slow path of a trusted write of a regular FILE object into a BARE
    repository, when nothing fails. *)
Lemma write_object_absent checksum input file_object_length pc s :
  in_transaction (self s) = true ->
  mode (self s) = OSTREE_REPO_MODE_BARE ->
  calm s ->
  ostree_content_stream_parse input file_object_length = inr pc ->
  standard_type (pc_file_info pc) = G_FILE_TYPE_REGULAR ->
  let path := _ostree_loose_path checksum OSTREE_OBJECT_TYPE_FILE
                OSTREE_REPO_MODE_BARE in
  objects_dir (disk s) !! path = None ->
  tmp_dir (disk s) !! tmp_name_gen (env s) (tmp_name_next (env s)) = None ->
  exists s',
    write_object OSTREE_OBJECT_TYPE_FILE (Some checksum) input
      file_object_length false false s = (Ok None, s')
    /\ calm s'
    /\ self s'
       = with_txn_stats
           (update_txn_stats OSTREE_OBJECT_TYPE_FILE true file_object_length
              (txn_stats (self s))) (self s)
    /\ objects_dir (disk s')
       = <[path := bare_file_inode (pc_file_info pc) (pc_xattrs pc)
                     (pc_payload pc)]> (objects_dir (disk s)).
Proof.
  intros Hin Hm Hc Hp Ht path Hnone Hfresh.
  destruct (has_loose_object_calm checksum OSTREE_OBJECT_TYPE_FILE s Hc)
    as (s1 & R1 & C1 & Hs1 & Hd1 & Hg1 & Hn1).
  rewrite Hm in R1. fold path in R1.
  rewrite bool_decide_eq_false_2 in R1 by (rewrite Hnone; by intros [? ?]).
  set (l0 := {| temp_filename := None |}).
  assert (tmp_dir (disk s1) !! tmp_name_gen (env s1) (tmp_name_next (env s1))
          = None) as Hfresh1 by (by rewrite Hd1, Hg1, Hn1).
  destruct (materialize_bare_regular_calm input file_object_length pc l0 s1
              Hp Ht C1 Hfresh1)
    as (m & s2 & R2 & Hname & Hfi & Hx & Hsym & C2 & K2 & i & H2 & Hk & Hix).
  rewrite <- Hname in H2. destruct K2 as (Hs2 & _ & Ho2 & _).
  assert (mode (self s2) = OSTREE_REPO_MODE_BARE) as Hm2 by congruence.
  assert (objects_dir (disk s2) !! path = None) as Hnone2 by congruence.
  destruct (store_object_bare_regular_calm file_object_length m _ checksum i
              {| temp_filename := Some (tmp_name_gen (env s1) (tmp_name_next (env s1))) |}
              s2 Hm2 Hfi Hsym C2 H2 Hix Hnone2)
    as (s3 & R3 & C3 & Hs3 & Ho3).
  exists s3. split.
  { unfold write_object. rewrite Hin. simpl. unfold write_object_body.
    rewrite (bind_ok _ _ _ _ _ (bind_ok _ _ _ _ _ (lift_ok _ l0 _ _ _ R1))).
    simpl. rewrite bind_lift_get, Hs1, Hm.
    rewrite (bind_ok _ _ _ _ _ R2). unfold resolve_checksum. simpl.
    rewrite bind_ret. fold path in R3. by rewrite R3. }
  split; [done|]. split; [by rewrite Hs3, Hs2, Hs1|].
  rewrite Ho3, Ho2, Hd1, Hk, Hx. reflexivity.
Qed.

(** C4 (amended).  In a BARE repository in a transaction, with no failing
    call, a store that lacks the object and a fresh temp name: two trusted
    writes of the same regular FILE content under the same checksum both
    succeed; [objects/] gains the one file at the checksum's path, with the
    payload, owner, mode and xattrs of the content; and the object is
    counted once: [content_objects_total] and [content_objects_written]
    go up by one, [content_bytes_written] by the declared length.  The
    second write finds the object and leaves the statistics alone. *)
Theorem write_content_trusted_twice (checksum : string) (input : list byte)
    (length : Z) (pc : ParsedContent) (s : State) :
  in_transaction (self s) = true ->
  mode (self s) = OSTREE_REPO_MODE_BARE ->
  calm s ->
  ostree_content_stream_parse input length = inr pc ->
  standard_type (pc_file_info pc) = G_FILE_TYPE_REGULAR ->
  let path := _ostree_loose_path checksum OSTREE_OBJECT_TYPE_FILE
                OSTREE_REPO_MODE_BARE in
  objects_dir (disk s) !! path = None ->
  tmp_dir (disk s) !! tmp_name_gen (env s) (tmp_name_next (env s)) = None ->
  let out1 := ostree_repo_write_content_trusted (Some checksum) input length
                false s in
  let out2 := ostree_repo_write_content_trusted (Some checksum) input length
                false (snd out1) in
  let st := txn_stats (self s) in
  let st2 := txn_stats (self (snd out2)) in
  fst out1 = Ok None /\ fst out2 = Ok None
  /\ objects_dir (disk (snd out2))
     = <[path := bare_file_inode (pc_file_info pc) (pc_xattrs pc)
                   (pc_payload pc)]> (objects_dir (disk s))
  /\ content_objects_total st2 = u64 (content_objects_total st + 1)
  /\ content_objects_written st2 = u64 (content_objects_written st + 1)
  /\ content_bytes_written st2 = u64 (content_bytes_written st + length)
  /\ metadata_objects_total st2 = metadata_objects_total st
  /\ metadata_objects_written st2 = metadata_objects_written st.
Proof.
  intros Hin Hm Hc Hp Ht path Hnone Hfresh out1 out2 st st2.
  destruct (write_object_absent checksum input length pc s Hin Hm Hc Hp Ht
              Hnone Hfresh) as (s1 & R1 & C1 & Hs1 & Ho1).
  fold path in Ho1.
  assert (out1 = (Ok None, s1)) as E1 by exact R1.
  destruct (write_object_present OSTREE_OBJECT_TYPE_FILE checksum input
              length false s1) as (s2 & R2 & C2 & Hs2 & Hd2).
  { by rewrite Hs1. }
  { done. }
  { rewrite Hs1. simpl. rewrite Hm. fold path. rewrite Ho1.
    rewrite lookup_insert_eq. eauto. }
  assert (out2 = (Ok None, s2)) as E2.
  { subst out2. rewrite E1. exact R2. }
  subst st2. rewrite E1, E2. simpl. rewrite Hs2, Hd2, Hs1, Ho1. simpl.
  by repeat split.
Qed.

(** ** The entry checks of [write_object] *)

(** C9 (amended).  A call of [write_object] made outside a transaction, or with
    neither an expected checksum nor a place for the computed one, fails
    and leaves the state as it was: no syscall is issued, nothing is
    logged.  Outside a transaction it is a tripped [g_return_val_if_fail];
    inside one, with neither checksum, it is a failed [g_assert], unless
    the cancellable was already cancelled, which is reported first.  The
    four public writers pass their arguments on, so the same holds of
    them; the trusted ones pass no place for the checksum, so they need
    the checksum. *)
Theorem write_object_rejects_caller_errors (objtype : OstreeObjectType)
    (expected_checksum : option string) (input : list byte)
    (file_object_length : Z) (out_csum cancelled : bool) (s : State) :
  in_transaction (self s) = false
  \/ (expected_checksum = None /\ out_csum = false) ->
  let out := write_object objtype expected_checksum input file_object_length
               out_csum cancelled s in
  snd out = s
  /\ is_ok (fst out) = false
  /\ (in_transaction (self s) = false -> fst out = ReturnIfFail)
  /\ (in_transaction (self s) = true -> cancelled = false -> fst out = Abort)
  /\ (in_transaction (self s) = true -> cancelled = true ->
      fst out = Error ErrCancelled)
  /\ (in_transaction (self s) = false \/ cancelled = false ->
      is_caller_error (fst out) = true)
  /\ (forall object,
        ostree_repo_write_metadata objtype expected_checksum object
          out_csum cancelled s = out
        /\ (out_csum = false ->
            ostree_repo_write_metadata_trusted objtype expected_checksum
              object cancelled s = out))
  /\ (objtype = OSTREE_OBJECT_TYPE_FILE ->
      ostree_repo_write_content expected_checksum input file_object_length
        out_csum cancelled s = out
      /\ (out_csum = false ->
          ostree_repo_write_content_trusted expected_checksum input
            file_object_length cancelled s = out)).
Proof.
  intros Hpre out.
  assert (out = if negb (in_transaction (self s)) then (ReturnIfFail, s)
                else if cancelled then (Error ErrCancelled, s)
                else (Abort, s)) as Hout.
  { subst out. unfold write_object.
    destruct (in_transaction (self s)); simpl; [|done].
    destruct cancelled; [done|].
    destruct Hpre as [|[-> ->]]; done. }
  assert (forall input' len',
    write_object objtype expected_checksum input' len' out_csum cancelled s
    = out) as Hany.
  { intros input' len'. rewrite Hout. unfold write_object.
    destruct (in_transaction (self s)); simpl; [|done].
    destruct cancelled; [done|].
    destruct Hpre as [|[-> ->]]; done. }
  split_and!.
  - rewrite Hout. by destruct (in_transaction (self s)), cancelled.
  - rewrite Hout. by destruct (in_transaction (self s)), cancelled.
  - rewrite Hout. by intros ->.
  - rewrite Hout. by intros -> ->.
  - rewrite Hout. by intros -> ->.
  - rewrite Hout. intros [->| ->]; [done|].
    by destruct (in_transaction (self s)).
  - intros object. split.
    + unfold ostree_repo_write_metadata. apply Hany.
    + intros ->. unfold ostree_repo_write_metadata_trusted. apply Hany.
  - intros ->. split.
    + unfold ostree_repo_write_content. apply Hany.
    + intros ->. unfold ostree_repo_write_content_trusted. apply Hany.
Qed.

(** ** Tree variants *)

Lemma strcmp_le_compare a b : strcmp_le a b <-> String.compare a b <> Gt.
Proof.
  unfold strcmp_le, strcmp. destruct (String.compare a b); split; done || lia.
Qed.

Lemma compare_le_trans a b c :
  String.compare a b <> Gt -> String.compare b c <> Gt ->
  String.compare a c <> Gt.
Proof.
  revert b c. induction a as [|x a IH]; intros [|y b] [|z c]; simpl; try done.
  unfold Ascii.compare.
  destruct (N.compare_spec (N_of_ascii x) (N_of_ascii y)) as [Hxy|Hxy|Hxy];
    destruct (N.compare_spec (N_of_ascii y) (N_of_ascii z)) as [Hyz|Hyz|Hyz];
    destruct (N.compare_spec (N_of_ascii x) (N_of_ascii z)) as [Hxz|Hxz|Hxz];
    try done; try lia.
  apply IH.
Qed.

#[local] Instance strcmp_le_total : Total strcmp_le.
Proof.
  intros a b. rewrite !strcmp_le_compare, (String.compare_antisym b a).
  destruct (String.compare a b); simpl; [left|left|right]; done.
Qed.

#[local] Instance strcmp_le_trans : Transitive strcmp_le.
Proof.
  intros a b c. rewrite !strcmp_le_compare. apply compare_le_trans.
Qed.

#[local] Instance strcmp_le_antisym : AntiSymm (=) strcmp_le.
Proof.
  intros a b. rewrite !strcmp_le_compare, (String.compare_antisym b a).
  destruct (String.compare a b) eqn:Hc; simpl; try done.
  intros _ _. by apply String.compare_eq_iff.
Qed.

(** Sorting forgets the order the keys came in. *)
Lemma g_slist_sort_perm l1 l2 :
  l1 ≡ₚ l2 -> g_slist_sort l1 = g_slist_sort l2.
Proof.
  intros Hp. unfold g_slist_sort.
  apply (Sorted_unique strcmp_le); try apply Sorted_merge_sort; try apply _.
  by rewrite !merge_sort_Permutation.
Qed.

Lemma prepend_keys_rev {V} (t : GHashTable V) :
  prepend_keys t = reverse (map fst t).
Proof.
  unfold prepend_keys.
  assert (forall acc, fold_left (fun acc kv => fst kv :: acc) t acc
                      = reverse (map fst t) ++ acc) as Hgen.
  { induction t as [|kv t IH]; intros acc; simpl; [done|].
    rewrite IH, reverse_cons, <- app_assoc. done. }
  by rewrite Hgen, app_nil_r.
Qed.

Lemma prepend_keys_perm {V} (t1 t2 : GHashTable V) :
  t1 ≡ₚ t2 -> prepend_keys t1 ≡ₚ prepend_keys t2.
Proof.
  intros Hp. rewrite !prepend_keys_rev, !reverse_Permutation. by rewrite Hp.
Qed.

Lemma g_hash_table_lookup_Some {V} (t : GHashTable V) key value :
  NoDup (map fst t) ->
  g_hash_table_lookup t key = Some value <-> (key, value) ∈ t.
Proof.
  induction t as [|[k v] t IH]; simpl; intros Hnd.
  - split; [done|]. by intros ?%elem_of_nil.
  - apply NoDup_cons in Hnd as [Hk Hnd]. rewrite elem_of_cons.
    destruct (decide (k = key)) as [->|Hne].
    + split; [intros [= ->]; by left|].
      intros [[= ->]|Hin]; [done|]. destruct Hk.
      apply list_elem_of_fmap. by exists (key, value).
    + rewrite IH by done. split; [by right|].
      intros [[= <- _]|Hin]; done.
Qed.

Lemma g_hash_table_lookup_perm {V} (t1 t2 : GHashTable V) key :
  NoDup (map fst t1) -> t1 ≡ₚ t2 ->
  g_hash_table_lookup t1 key = g_hash_table_lookup t2 key.
Proof.
  intros Hnd Hp.
  assert (NoDup (map fst t2)) as Hnd2 by (by rewrite <- Hp).
  destruct (g_hash_table_lookup t1 key) as [v|] eqn:H1.
  - symmetry. apply g_hash_table_lookup_Some; [done|].
    rewrite <- Hp. by apply g_hash_table_lookup_Some.
  - destruct (g_hash_table_lookup t2 key) as [v|] eqn:H2; [|done].
    apply g_hash_table_lookup_Some in H2; [|done].
    rewrite <- Hp in H2. apply g_hash_table_lookup_Some in H2; [|done].
    congruence.
Qed.

Lemma g_hash_table_lookup_key {V} (t : GHashTable V) key :
  key ∈ map fst t -> is_Some (g_hash_table_lookup t key).
Proof.
  induction t as [|[k v] t IH]; simpl; [by intros ?%elem_of_nil|].
  intros Hin. destruct (decide (k = key)); [by eexists|].
  apply IH. apply elem_of_cons in Hin as [|]; done.
Qed.

(** Replacing under a key the table does not hold appends the entry. *)
Lemma g_hash_table_replace_fresh {V} (t : GHashTable V) key value :
  key ∉ map fst t -> g_hash_table_replace t key value = t ++ [(key, value)].
Proof.
  induction t as [|[k v] t IH]; simpl; [done|]. intros Hn.
  apply not_elem_of_cons in Hn as [Hne Hn].
  rewrite decide_False by done. by rewrite IH.
Qed.

Lemma collect_dir_checksums_nodup children :
  NoDup (map fst children) ->
  collect_dir_checksums children
  = (map (fun c => (fst c, fst (snd c))) children,
     map (fun c => (fst c, snd (snd c))) children).
Proof.
  unfold collect_dir_checksums.
  assert (forall done_ todo : list (string * (string * string)),
    NoDup (map fst (done_ ++ todo)) ->
    fold_left
      (fun tables child =>
         (g_hash_table_replace (fst tables) (fst child) (fst (snd child)),
          g_hash_table_replace (snd tables) (fst child) (snd (snd child))))
      todo
      (map (fun c => (fst c, fst (snd c))) done_,
       map (fun c => (fst c, snd (snd c))) done_)
    = (map (fun c => (fst c, fst (snd c))) (done_ ++ todo),
       map (fun c => (fst c, snd (snd c))) (done_ ++ todo))) as Hgen.
  { intros done_ todo. revert done_.
    induction todo as [|c todo IH]; intros done_ Hnd; simpl.
    - by rewrite app_nil_r.
    - assert (fst c ∉ map fst done_) as Hfresh.
      { rewrite map_app in Hnd. apply NoDup_app in Hnd as (_ & Hd & _).
        intros Hin. apply (Hd _ Hin). simpl. by left. }
      rewrite !g_hash_table_replace_fresh
        by (by rewrite map_map; simpl).
      replace (done_ ++ c :: todo) with ((done_ ++ [c]) ++ todo) in *
        by (by rewrite <- app_assoc).
      rewrite <- IH by done. by rewrite !map_app. }
  intros Hnd. apply (Hgen [] children Hnd).
Qed.

(** Entries ordered by name. *)
Definition by_name {V} (a b : string * V) : Prop := strcmp_le (fst a) (fst b).

#[local] Instance by_name_dec {V} (a b : string * V) : Decision (by_name a b).
Proof. unfold by_name. apply _. Defined.

#[local] Instance by_name_total {V} : Total (@by_name V).
Proof. intros a b. unfold by_name. apply strcmp_le_total. Qed.

(** The sorted keys of a table are the names of its entries sorted by
    name. *)
Lemma sorted_keys_of_entries {V} (t : GHashTable V) :
  g_slist_sort (prepend_keys t) = map fst (merge_sort by_name t).
Proof.
  unfold g_slist_sort.
  apply (Sorted_unique strcmp_le).
  - apply Sorted_merge_sort, _.
  - apply (Sorted_fmap fst by_name strcmp_le); [done|].
    apply Sorted_merge_sort, _.
  - rewrite !merge_sort_Permutation, prepend_keys_rev, reverse_Permutation.
    done.
Qed.

Lemma mapM_lookup_entries {V} (entry : string * V -> GVariant)
    (f : string -> option GVariant) (l : list (string * V)) :
  (forall n v, (n, v) ∈ l -> f n = Some (entry (n, v))) ->
  mapM f (map fst l) = Some (map entry l).
Proof.
  intros Hf. apply mapM_Some. induction l as [|[n v] l IH]; simpl.
  - constructor.
  - constructor.
    + apply Hf. by left.
    + apply IH. intros n' v' Hin. apply Hf. by right.
Qed.

(** The entries the arrays of a tree variant are made of. *)
Definition file_entry_of (kv : string * string) : GVariant :=
  GV_tuple [GV_string (fst kv); ostree_checksum_to_bytes_v (snd kv)].

Definition dir_entry_of (c : string * (string * string)) : GVariant :=
  GV_tuple [GV_string (fst c);
            ostree_checksum_to_bytes_v (fst (snd c));
            ostree_checksum_to_bytes_v (snd (snd c))].

(** The variant of a node, from its files table and the checksums of its
    subdirectories: the entries sorted by name. *)
Lemma create_tree_variant_from_hashes_sorted
    (files : GHashTable string) (children : list (string * (string * string))) :
  NoDup (map fst files) -> NoDup (map fst children) ->
  create_tree_variant_from_hashes files
    (fst (collect_dir_checksums children))
    (snd (collect_dir_checksums children))
  = Some (GV_tuple
            [GV_array (map file_entry_of (merge_sort by_name files));
             GV_array (map dir_entry_of (merge_sort by_name children))]).
Proof.
  intros Hf Hc. rewrite collect_dir_checksums_nodup by done. simpl.
  unfold create_tree_variant_from_hashes.
  rewrite (sorted_keys_of_entries files).
  rewrite (mapM_lookup_entries file_entry_of (tree_file_entry files)).
  2:{ intros n v Hin. unfold tree_file_entry.
      rewrite merge_sort_Permutation in Hin.
      apply g_hash_table_lookup_Some in Hin; [|done]. by rewrite Hin. }
  simpl.
  set (tm := map (fun c : string * (string * string) => (fst c, snd (snd c)))
               children).
  set (tc := map (fun c : string * (string * string) => (fst c, fst (snd c)))
               children).
  assert (g_slist_sort (prepend_keys tm)
          = map fst (merge_sort by_name children)) as ->.
  { unfold g_slist_sort. apply (Sorted_unique strcmp_le).
    - apply Sorted_merge_sort, _.
    - apply (Sorted_fmap fst by_name strcmp_le); [done|].
      apply Sorted_merge_sort, _.
    - rewrite !merge_sort_Permutation, prepend_keys_rev, reverse_Permutation.
      unfold tm. by rewrite map_map. }
  rewrite (mapM_lookup_entries dir_entry_of); [done|].
  intros n [c m] Hin. rewrite merge_sort_Permutation in Hin.
  unfold tree_dir_entry.
  assert (g_hash_table_lookup tc n = Some c) as ->.
  { apply g_hash_table_lookup_Some.
    - unfold tc. by rewrite map_map.
    - apply list_elem_of_fmap. by exists (n, (c, m)). }
  assert (g_hash_table_lookup tm n = Some m) as ->.
  { apply g_hash_table_lookup_Some.
    - unfold tm. by rewrite map_map.
    - apply list_elem_of_fmap. by exists (n, (c, m)). }
  done.
Qed.

Lemma merge_sort_by_name_perm {V} (t1 t2 : list (string * V)) :
  NoDup (map fst t1) -> t1 ≡ₚ t2 ->
  merge_sort by_name t1 = merge_sort by_name t2.
Proof.
  intros Hnd Hp.
  assert (map fst (merge_sort by_name t1) = map fst (merge_sort by_name t2))
    as Hkeys.
  { rewrite <- !sorted_keys_of_entries. apply g_slist_sort_perm.
    by apply prepend_keys_perm. }
  assert (merge_sort by_name t1 ≡ₚ merge_sort by_name t2) as Hp'
    by (by rewrite !merge_sort_Permutation).
  assert (NoDup (map fst (merge_sort by_name t1))) as Hnd'
    by (by rewrite merge_sort_Permutation).
  revert Hkeys Hp' Hnd'.
  generalize (merge_sort by_name t1) (merge_sort by_name t2).
  clear. intros l1. induction l1 as [|[k v] l1 IH]; intros [|[k' v'] l2];
    simpl; try done.
  intros [= <- Hk] Hp Hnd. apply NoDup_cons in Hnd as [Hk1 Hnd].
  assert (v = v') as <-.
  { assert ((k, v) ∈ (k, v') :: l2) as Hin by (rewrite <- Hp; by left).
    apply elem_of_cons in Hin as [[= ->]|Hin]; [done|].
    destruct Hk1. rewrite Hk. apply list_elem_of_fmap. by exists (k, v). }
  f_equal. apply IH; [done| |done]. by apply Permutation_cons_inv in Hp.
Qed.

(** C8.  Two nodes whose files tables hold the same (name, checksum)
    entries, and whose subdirectories yield the same (name, contents
    checksum, metadata checksum) triples, each in whatever order its hash
    tables iterate, get the same DIR_TREE variant and so the same bytes:
    the files array and the dirs array hold the entries sorted by name,
    ascending in [strcmp] order. *)
Theorem tree_variant_deterministic
    (files1 files2 : GHashTable string)
    (children1 children2 : list (string * (string * string))) :
  NoDup (map fst files1) -> NoDup (map fst children1) ->
  files1 ≡ₚ files2 -> children1 ≡ₚ children2 ->
  let tables1 := collect_dir_checksums children1 in
  let tables2 := collect_dir_checksums children2 in
  exists sorted_files sorted_dirs,
    sorted_files ≡ₚ files1
    /\ Sorted strcmp_le (map fst sorted_files)
    /\ sorted_dirs ≡ₚ children1
    /\ Sorted strcmp_le (map fst sorted_dirs)
    /\ create_tree_variant_from_hashes files1 (fst tables1) (snd tables1)
       = Some (GV_tuple [GV_array (map file_entry_of sorted_files);
                         GV_array (map dir_entry_of sorted_dirs)])
    /\ create_tree_variant_from_hashes files2 (fst tables2) (snd tables2)
       = create_tree_variant_from_hashes files1 (fst tables1) (snd tables1)
    /\ (ot_variant_read <$>
          create_tree_variant_from_hashes files2 (fst tables2) (snd tables2))
       = (ot_variant_read <$>
            create_tree_variant_from_hashes files1 (fst tables1) (snd tables1)).
Proof.
  intros Hf Hc Hpf Hpc tables1 tables2. subst tables1 tables2.
  assert (NoDup (map fst files2)) as Hf2 by (by rewrite <- Hpf).
  assert (NoDup (map fst children2)) as Hc2 by (by rewrite <- Hpc).
  exists (merge_sort by_name files1), (merge_sort by_name children1).
  rewrite !create_tree_variant_from_hashes_sorted by done.
  rewrite <- (merge_sort_by_name_perm files1 files2) by done.
  rewrite <- (merge_sort_by_name_perm children1 children2) by done.
  split_and!; try done.
  - apply merge_sort_Permutation.
  - apply (Sorted_fmap fst by_name strcmp_le); [done|].
    apply Sorted_merge_sort, _.
  - apply merge_sort_Permutation.
  - apply (Sorted_fmap fst by_name strcmp_le); [done|].
    apply Sorted_merge_sort, _.
Qed.

(** * Further properties *)

(** ** Starting and ending a transaction *)

Lemma query_transaction_lock_type_symlink s t s' :
  query_transaction_lock_type s = (Ok t, s') ->
  t = G_FILE_TYPE_SYMBOLIC_LINK ->
  exists target, transaction_lock (disk s) = Some (Symlink target).
Proof.
  unfold query_transaction_lock_type. intros H Ht.
  step_bind H as r1 s1 Hq; [|apply syscall_inv in Hq as (?&->&_); done].
  apply syscall_inv in Hq as (errno & [= ->] & _ & _ & _ & _ & Hd).
  rewrite bind_get in H. destruct errno as [e|]; inv_ret H; [done|].
  destruct Hd as [Hd _].
  destruct (transaction_lock (disk s)) as [[]|] eqn:Hl; try done;
    injection Hd as Hd; rewrite <- Hd, Hl in *; by eauto.
Qed.

Lemma make_transaction_lock_ok target s s' :
  make_transaction_lock target s = (Ok tt, s') ->
  transaction_lock (disk s) = None.
Proof.
  unfold make_transaction_lock. intros H.
  apply checked_inv in H as ([e|] & _ & _ & _ & _ & He); [by destruct He|].
  destruct He as (_ & He & _).
  by destruct (transaction_lock (disk s)).
Qed.

(** X1.  [ostree_repo_prepare_transaction] on a repository that is
    already in a transaction trips its precondition and changes nothing.
    Otherwise, whether it then succeeds or fails, it leaves the repository
    in the transaction with the statistics zeroed, so that a second call
    trips the precondition.  It fails with an errno or succeeds; when it
    succeeds, it reports a resumed transaction exactly when [transaction]
    was a symbolic link, and a fresh one exactly when there was nothing at
    [transaction]: with a regular file or a directory there it cannot
    succeed. *)
Theorem prepare_transaction_outcomes (s s' : State) (r : Res bool) :
  ostree_repo_prepare_transaction s = (r, s') ->
  (in_transaction (self s) = true -> r = ReturnIfFail /\ s' = s)
  /\ (in_transaction (self s) = false ->
      self s' = with_in_transaction true (with_txn_stats stats_zero (self s))
      /\ ((exists resume, r = Ok resume)
          \/ exists e, r = Error (ErrFromErrno e))
      /\ (forall resume, r = Ok resume ->
          match transaction_lock (disk s) with
          | Some (Symlink _) => resume = true
          | None => resume = false
          | Some _ => False
          end)
      /\ fst (ostree_repo_prepare_transaction s') = ReturnIfFail).
Proof.
  intros H. unfold ostree_repo_prepare_transaction in H.
  rewrite bind_get in H. split; intros Hin; rewrite Hin in H; simpl in H.
  { by inv_ret H. }
  assert (forall x, in_transaction (self x) = true ->
            fst (ostree_repo_prepare_transaction x) = ReturnIfFail) as Hagain.
  { intros x Hx. unfold ostree_repo_prepare_transaction.
    rewrite bind_get, Hx. done. }
  step_bind H as t s1 Hq;
    [|apply query_transaction_lock_type_inv in Hq as (_&_&?&?&->&_); done].
  pose proof (query_transaction_lock_type_symlink _ _ _ Hq) as Hsym.
  apply query_transaction_lock_type_inv in Hq as (Hs1 & Hd1 & _).
  rewrite !bind_modify in H.
  set (sa := set_self (with_in_transaction true)
               (set_self (with_txn_stats stats_zero) s1)) in H.
  assert (self sa
          = with_in_transaction true (with_txn_stats stats_zero (self s)))
    as Hsa by (unfold sa; simpl; by rewrite Hs1).
  assert (disk sa = disk s) as Hda by (unfold sa; simpl; by rewrite Hd1).
  assert (in_transaction (self sa) = true) as Hina by (by rewrite Hsa).
  step_bind H as u2 s2 Hu.
  2:{ destruct (bool_decide _) eqn:Ht; [|inv_ret Hu; done].
      apply ot_gfile_ensure_unlinked_transaction_lock_inv in Hu
        as (Hs2 & _ & [e|] & _ & He); [|destruct He; by subst].
      destruct He as [_ He]. destruct (decide _); [by subst|]. subst.
      split; [by rewrite Hs2|]. split; [eauto|]. split; [done|].
      apply Hagain. by rewrite Hs2. }
  assert (self s2 = self sa
          /\ (bool_decide (t = G_FILE_TYPE_SYMBOLIC_LINK) = false ->
              disk s2 = disk sa)) as [Hs2 Hd2].
  { destruct (bool_decide _); [|inv_ret Hu; done].
    apply ot_gfile_ensure_unlinked_transaction_lock_inv in Hu as (? & _).
    done. }
  rewrite bind_get in H.
  step_bind H as u3 s3 Hm.
  2:{ apply make_transaction_lock_inv in Hm as (Hs3 & _ & [e|] & _ & He);
        destruct He as [-> _]; [|done]. subst.
      split; [by rewrite Hs3, Hs2|]. split; [eauto|]. split; [done|].
      apply Hagain. by rewrite Hs3, Hs2. }
  destruct u3. pose proof (make_transaction_lock_ok _ _ _ Hm) as Hnone.
  apply make_transaction_lock_inv in Hm as (Hs3 & _). inv_ret H.
  split; [by rewrite Hs3, Hs2|]. split; [eauto|]. split.
  - intros resume [= <-]. case_bool_decide as Ht.
    + destruct (Hsym Ht) as [target ->]. done.
    + rewrite <- Hda, <- (Hd2 eq_refl), Hnone. done.
  - apply Hagain. by rewrite Hs3, Hs2.
Qed.

Lemma _ostree_repo_update_refs_objects pending s r s' :
  _ostree_repo_update_refs pending s = (r, s') ->
  objects_dir (disk s') = objects_dir (disk s)
  /\ objects_prefixes (disk s') = objects_prefixes (disk s).
Proof.
  unfold _ostree_repo_update_refs. intros H.
  apply checked_inv in H as ([e|] & _ & _ & _ & _ & He).
  - destruct He as (_ & -> & _). done.
  - destruct He as (_ & [= <-] & _). done.
Qed.

Lemma ot_gfile_ensure_unlinked_transaction_lock_calm s s' :
  faults (env s) = [] ->
  ot_gfile_ensure_unlinked_transaction_lock s = (Ok tt, s') ->
  transaction_lock (disk s') = None.
Proof.
  unfold ot_gfile_ensure_unlinked_transaction_lock. intros Hc H.
  unfold bind in H. rewrite syscall_calm in H by done.
  destruct (transaction_lock (disk s)) as [[]|] eqn:Hl;
    by inversion H; subst.
Qed.

(** What a successful commit did besides leaving the transaction: the
    disk outside [tmp/], the lock and the refs is untouched, and with no
    injected failure the lock is gone. *)
Lemma commit_transaction_ok_inv s stats s' :
  ostree_repo_commit_transaction s = (Ok stats, s') ->
  in_transaction (self s) = true
  /\ objects_dir (disk s') = objects_dir (disk s)
  /\ objects_prefixes (disk s') = objects_prefixes (disk s)
  /\ (faults (env s) = [] -> transaction_lock (disk s') = None).
Proof.
  intros H. unfold ostree_repo_commit_transaction in H.
  rewrite bind_get in H.
  destruct (in_transaction (self s)) eqn:Hin; simpl in H; [|by inv_ret H].
  split; [done|].
  step_bind H as u1 s1 Hc; [|not_ok].
  apply cleanup_tmpdir_inv in Hc as ((Hs1 & Hp1 & Ho1 & _) & _ & _ & Hcalm1).
  rewrite bind_modify, bind_get in H.
  set (sb := set_self clear_devino_hash s1) in *.
  step_bind H as u2 s2 Hu; [|not_ok].
  assert (objects_dir (disk s2) = objects_dir (disk s)
          /\ objects_prefixes (disk s2) = objects_prefixes (disk s)
          /\ (faults (env s) = [] -> faults (env s2) = []))
    as (Ho2 & Hp2 & Hcalm2).
  { destruct (txn_refs (self sb)) as [m|].
    - pose proof (_ostree_repo_update_refs_objects _ _ _ _ Hu) as [Ho Hp].
      unfold _ostree_repo_update_refs in Hu.
      apply checked_inv in Hu as (_ & _ & _ & Hf & _).
      split; [by rewrite Ho|]. split; [by rewrite Hp|].
      intros Hc0. rewrite Hf. unfold sb. simpl.
      by rewrite (proj2 (Hcalm1 Hc0)).
    - inv_ret Hu. split; [done|]. split; [done|].
      intros Hc0. by apply Hcalm1. }
  rewrite !bind_modify in H.
  set (sc := set_self (with_in_transaction false)
               (set_self (with_txn_refs None) s2)) in *.
  step_bind H as u3 s3 Hk; [|not_ok]. destruct u3.
  rewrite bind_get in H. inv_ret H.
  pose proof (ot_gfile_ensure_unlinked_transaction_lock_inv _ _ _ Hk)
    as (_ & (_ & Hp3 & Ho3 & _) & _).
  split; [by rewrite Ho3|]. split; [by rewrite Hp3|].
  intros Hc0.
  apply (ot_gfile_ensure_unlinked_transaction_lock_calm sc); [|done].
  by apply Hcalm2.
Qed.

Lemma devino_cache_lookup_cleared r finfo :
  devino_cache_lookup
    (with_in_transaction false (with_txn_refs None (clear_devino_hash r)))
    finfo = None.
Proof.
  unfold devino_cache_lookup, clear_devino_hash.
  destruct (loose_object_devino_hash r) eqn:Hh; simpl;
    [apply lookup_empty|by rewrite Hh].
Qed.

(** X2.  A commit that succeeds was made inside a transaction and
    hands back the statistics gathered in it.  It leaves the repository
    out of the transaction with no pending refs and an empty devino cache
    (every lookup misses), [tmp/] empty, the objects untouched, and the
    refs as the pending map says; with no injected failure the
    [transaction] link is gone.  After it an abort is a successful no-op
    and a second commit trips the precondition. *)
Theorem commit_transaction_success (s s' : State)
    (stats : OstreeRepoTransactionStats) :
  ostree_repo_commit_transaction s = (Ok stats, s') ->
  in_transaction (self s) = true
  /\ stats = txn_stats (self s)
  /\ in_transaction (self s') = false
  /\ txn_refs (self s') = None
  /\ txn_stats (self s') = txn_stats (self s)
  /\ (forall finfo, devino_cache_lookup (self s') finfo = None)
  /\ tmp_dir (disk s') = ∅
  /\ objects_dir (disk s') = objects_dir (disk s)
  /\ objects_prefixes (disk s') = objects_prefixes (disk s)
  /\ refs (disk s') = refs_after (txn_refs (self s)) (refs (disk s))
  /\ (faults (env s) = [] -> transaction_lock (disk s') = None)
  /\ ostree_repo_abort_transaction s' = (Ok tt, s')
  /\ ostree_repo_commit_transaction s' = (ReturnIfFail, s').
Proof.
  intros H.
  destruct (commit_transaction_ok_inv _ _ _ H) as (Hin & Ho & Hp & Hlock).
  destruct (commit_in_transaction_inv _ _ _ Hin H)
    as (evs & _ & [(e & [=] & _)|[(e & m & [=] & _)|[(e & [=] & _)|
         (errno & [= ->] & Hs & Ht & Hr & _)]]]).
  assert (in_transaction (self s') = false) as Hout by (by rewrite Hs).
  split_and!; try done.
  - by rewrite Hs.
  - rewrite Hs. simpl. unfold clear_devino_hash.
    by destruct (loose_object_devino_hash (self s)).
  - intros finfo. rewrite Hs. apply devino_cache_lookup_cleared.
  - unfold ostree_repo_abort_transaction. by rewrite bind_get, Hout.
  - unfold ostree_repo_commit_transaction. by rewrite bind_get, Hout.
Qed.

(** X3.  An abort outside a transaction succeeds and changes
    nothing; so after any abort that succeeded, a further abort is a
    successful no-op.  An abort never touches the objects, the refs or the
    [transaction] link, whether it succeeds or not, and after a
    successful one every devino lookup misses. *)
Theorem abort_transaction_idempotent (s s' : State) (r : Res unit) :
  ostree_repo_abort_transaction s = (r, s') ->
  (in_transaction (self s) = false -> r = Ok tt /\ s' = s)
  /\ disk_same_but_tmp (disk s) (disk s')
  /\ (r = Ok tt ->
      in_transaction (self s') = false
      /\ (forall finfo, devino_cache_lookup (self s') finfo
                        = if in_transaction (self s) then None
                          else devino_cache_lookup (self s) finfo)
      /\ ostree_repo_abort_transaction s' = (Ok tt, s')).
Proof.
  intros H.
  assert (forall x, in_transaction (self x) = false ->
            ostree_repo_abort_transaction x = (Ok tt, x)) as Hnoop.
  { intros x Hx. unfold ostree_repo_abort_transaction.
    by rewrite bind_get, Hx. }
  destruct (in_transaction (self s)) eqn:Hin.
  - destruct (abort_in_transaction_inv _ _ _ Hin H)
      as (Hd & _ & Hres & _).
    split; [done|]. split; [done|]. intros ->.
    destruct Hres as [(_ & Hs & _)|(e & [=] & _)].
    assert (in_transaction (self s') = false) as Hout by (by rewrite Hs).
    split; [done|]. split; [|by apply Hnoop].
    intros finfo. rewrite Hs. apply devino_cache_lookup_cleared.
  - rewrite (Hnoop _ Hin) in H. injection H as <- <-.
    split; [done|]. split; [by repeat split|]. intros _.
    split; [done|]. split; [done|]. by apply Hnoop.
Qed.

(** X4.  [ostree_repo_transaction_set_ref] is
    [ostree_repo_transaction_set_refspec] on the refspec [remote:ref], or
    [ref] when no remote is given; in particular a ref whose name holds a
    colon and no remote is the same pending entry as the remote and ref
    on either side of it.  Outside a transaction both trip their
    precondition and record nothing; inside one they cannot fail, touch
    only the pending refs map, and the refspec is pending afterwards with
    the checksum given. *)
Theorem set_ref_is_set_refspec (remote : option string)
    (ref : string) (checksum : option string) (s : State) :
  let refspec := match remote with
                 | Some rem => rem +:+ ":" +:+ ref
                 | None => ref
                 end in
  let out := ostree_repo_transaction_set_ref remote ref checksum s in
  out = ostree_repo_transaction_set_refspec refspec checksum s
  /\ (forall rem,
        remote = Some rem ->
        out = ostree_repo_transaction_set_ref None (rem +:+ ":" +:+ ref)
                checksum s)
  /\ (in_transaction (self s) = false -> out = (ReturnIfFail, s))
  /\ (in_transaction (self s) = true ->
      fst out = Ok tt
      /\ disk (snd out) = disk s /\ env (snd out) = env s
      /\ self (snd out)
         = with_txn_refs (txn_refs (self (snd out))) (self s)
      /\ pending_ref (self (snd out)) refspec = Some checksum).
Proof.
  intros refspec out.
  assert (out = ostree_repo_transaction_set_refspec refspec checksum s) as E.
  { subst out refspec. unfold ostree_repo_transaction_set_ref,
      ostree_repo_transaction_set_refspec. by destruct remote. }
  split; [done|]. split.
  { intros rem ->. subst out. unfold ostree_repo_transaction_set_ref. done. }
  rewrite E. clear E out.
  unfold ostree_repo_transaction_set_refspec. rewrite bind_get.
  split; intros Hin; rewrite Hin; simpl; [done|].
  unfold ensure_txn_refs, replace_txn_ref, bind, modify, pending_ref. simpl.
  destruct (self s) as [it md refs st h]. simpl.
  destruct refs as [m|]; simpl; split_and!; try done;
    by rewrite lookup_insert_eq.
Qed.

(** ** The devino cache in use *)

Lemma record_entries_sound children key checksum :
  record_entries (recorded children) ∅ !! key = Some checksum ->
  exists dirname file_info,
    In (dirname, file_info) children
    /\ devino_accepts file_info = true
    /\ key = (unix_device file_info, unix_inode file_info)
    /\ checksum = dirname +:+ substring 0 62 (standard_name file_info).
Proof.
  intros Hl. rewrite record_entries_lookup in Hl.
  destruct (list_find _ _) as [[i e]|] eqn:Hf; [|done].
  apply list_find_Some in Hf as (Hi & Hk & _). injection Hl as <-.
  apply list_elem_of_lookup_2 in Hi. rewrite elem_of_reverse in Hi.
  unfold recorded in Hi. apply list_elem_of_fmap in Hi as ([d fi] & -> & Hi).
  apply list_elem_of_filter in Hi as [Ha Hi]. simpl in *.
  exists d, fi. split_and!; try done. by apply list_elem_of_In.
Qed.

Lemma record_entries_complete children dirname file_info cache :
  In (dirname, file_info) children ->
  devino_accepts file_info = true ->
  is_Some (record_entries (recorded children) cache
             !! (unix_device file_info, unix_inode file_info)).
Proof.
  intros Hin Ha. rewrite record_entries_lookup.
  destruct (list_find_elem_of
              (fun e : Z * Z * string =>
                 fst e = (unix_device file_info, unix_inode file_info))
              (reverse (recorded children))
              (devino_entry (dirname, file_info))) as [[i e] ->]; [|done|by eauto].
  rewrite elem_of_reverse. unfold recorded.
  apply list_elem_of_fmap. exists (dirname, file_info). split; [done|].
  apply list_elem_of_filter. split; [done|]. by apply list_elem_of_In.
Qed.

(** X5.  [ostree_repo_scan_hardlinks] outside a transaction trips
    its precondition and changes nothing.  Inside one it touches nothing
    but the devino cache, which it replaces even when the scan fails, so
    that what an earlier scan recorded is gone.  After a scan that
    succeeded, a lookup hits for every accepted child of the listing, and
    a hit is always the checksum of an accepted child of the listing with
    the file's device and inode. *)
Theorem scan_hardlinks_then_lookup (listing : RepoListing)
    (s s' : State) (r : Res unit) :
  ostree_repo_scan_hardlinks listing s = (r, s') ->
  (in_transaction (self s) = false -> r = ReturnIfFail /\ s' = s)
  /\ (in_transaction (self s) = true ->
      disk s' = disk s /\ env s' = env s
      /\ self s' = with_devino_hash (loose_object_devino_hash (self s'))
                     (self s)
      /\ loose_object_devino_hash (self s')
         = Some (snd (scan_loose_devino listing ∅))
      /\ (r = Ok tt ->
          (forall dirname file_info,
             In (dirname, file_info) (listing_children listing) ->
             devino_accepts file_info = true ->
             is_Some (devino_cache_lookup (self s') file_info))
          /\ (forall finfo checksum,
                devino_cache_lookup (self s') finfo = Some checksum ->
                exists dirname file_info,
                  In (dirname, file_info) (listing_children listing)
                  /\ devino_accepts file_info = true
                  /\ (unix_device finfo, unix_inode finfo)
                     = (unix_device file_info, unix_inode file_info)
                  /\ checksum
                     = dirname +:+ substring 0 62 (standard_name file_info)))).
Proof.
  unfold ostree_repo_scan_hardlinks. rewrite bind_get.
  intros H. split; intros Hin; rewrite Hin in H; simpl in H.
  { by inv_ret H. }
  destruct (scan_loose_devino listing ∅) as [r0 cache] eqn:Hscan.
  injection H as <- <-. simpl. split_and!; try done.
  intros ->. apply scan_loose_devino_ok in Hscan as ->.
  unfold devino_cache_lookup. simpl. split.
  - intros dirname fi. apply record_entries_complete.
  - intros finfo checksum. apply record_entries_sound.
Qed.

(** X6.  The two functions the devino cache is keyed by agree:
    [devino_equal] holds exactly of keys with the same device and inode,
    which is the key the cache is read by, and such keys have the same
    [devino_hash].  The hash is a 32-bit value, and it does not tell a
    key from the one with device and inode swapped. *)
Theorem devino_hash_respects_equal (a b : OstreeDevIno) :
  (devino_equal a b = true <-> (dev a, ino a) = (dev b, ino b))
  /\ (devino_equal a b = true -> devino_hash a = devino_hash b)
  /\ 0 <= devino_hash a < 2 ^ 32
  /\ devino_hash {| dev := ino a; ino := dev a |} = devino_hash a.
Proof.
  unfold devino_equal, devino_hash. simpl.
  rewrite andb_true_iff, !Z.eqb_eq. split_and!.
  - split; [by intros [-> ->]|by intros [= -> ->]].
  - by intros [-> ->].
  - apply Z.mod_pos_bound. lia.
  - apply Z.mod_pos_bound. lia.
  - by rewrite Z.add_comm.
Qed.

(** ** Temporary symlinks *)

Lemma syscall_names call eff s r s' :
  syscall call eff s = (r, s') ->
  tmp_name_gen (env s') = tmp_name_gen (env s)
  /\ euid (env s') = euid (env s) /\ egid (env s') = egid (env s).
Proof.
  unfold syscall. intros H.
  destruct (faults (env s)) as [|[e|] fs]; simpl in H;
    try destruct (eff (disk s)); by inversion H.
Qed.

(** The failed attempts of a run that drew [k] names which all existed. *)
Definition symlink_collisions (target : string) (gen : nat -> string)
    (next k : nat) : list Event :=
  map (fun i => Ev (SYS_symlinkat target (gen (next + i)%nat)) (Some EEXIST))
    (seq 0 k).
Arguments symlink_collisions : simpl never.

Lemma symlink_collisions_S target gen next k :
  symlink_collisions target gen next (S k)
  = Ev (SYS_symlinkat target (gen next)) (Some EEXIST)
    :: symlink_collisions target gen (S next) k.
Proof.
  unfold symlink_collisions. simpl. rewrite Nat.add_0_r. f_equal.
  rewrite <- seq_shift, map_map. apply map_ext. intros i.
  by rewrite Nat.add_succ_r.
Qed.

(** The inode of a fresh temporary symlink. *)
Definition symlink_inode (target : string) (s : State) : Inode :=
  {| i_kind := Symlink target; i_uid := euid (env s); i_gid := egid (env s);
     i_mode := 511; i_xattrs := [] |}.

Lemma make_temporary_symlink_at_loop_inv n target s r s' :
  make_temporary_symlink_at_loop n target s = (r, s') ->
  let gen := tmp_name_gen (env s) in
  let next := tmp_name_next (env s) in
  self s' = self s /\ tmp_name_gen (env s') = gen
  /\ exists k,
       (k = n
        /\ r = Error (ErrFailed "Exhausted attempts to open temporary file")
        /\ logged s s' (symlink_collisions target gen next k)
        /\ disk s' = disk s
        /\ tmp_name_next (env s') = (next + n)%nat)
       \/ ((k < n)%nat
           /\ exists e, e <> EEXIST /\ r = Error (ErrFromErrno e)
              /\ logged s s'
                   (symlink_collisions target gen next k
                    ++ [Ev (SYS_symlinkat target (gen (next + k)%nat))
                          (Some e)])
              /\ disk s' = disk s)
       \/ ((k < n)%nat
           /\ r = Ok (gen (next + k)%nat)
           /\ logged s s'
                (symlink_collisions target gen next k
                 ++ [Ev (SYS_symlinkat target (gen (next + k)%nat)) None])
           /\ tmp_dir (disk s) !! gen (next + k)%nat = None
           /\ disk s'
              = with_tmp_dir
                  (<[gen (next + k)%nat := symlink_inode target s]>
                     (tmp_dir (disk s))) (disk s)
           /\ tmp_name_next (env s') = S (next + k)).
Proof.
  revert s. induction n as [|n IH]; intros s H gen next; simpl in H.
  { inv_ret H. split; [done|]. split; [done|]. exists 0%nat. left.
    split_and!; try done. apply logged_refl. }
  unfold bind at 1 in H. unfold gsystem_fileutil_gen_tmp_name at 1 in H.
  fold gen next in H. rewrite bind_get in H.
  set (s0 := set_env (with_tmp_name_next (S next)) s) in H.
  step_bind H as errno s1 Hsys;
    [|apply syscall_inv in Hsys as (?&->&_); done].
  pose proof (syscall_names _ _ _ _ _ Hsys) as (Hg1 & Hu1 & Hgi1).
  apply syscall_inv in Hsys as (errno' & [= <-] & L1 & Hs1 & _ & Hn1 & Hd).
  assert (logged s s1 [Ev (SYS_symlinkat target (gen next)) errno]) as L1'
    by exact L1.
  destruct errno as [e|].
  - destruct Hd as [Hd _].
    destruct (decide (e = EEXIST)) as [->|Hne].
    + destruct (IH _ H) as (Hs & Hg & k & Hk). clear IH H.
      rewrite Hg1, Hn1 in *. simpl in *. fold gen next in Hk.
      split; [by rewrite Hs, Hs1|]. split; [by rewrite Hg|].
      destruct Hk as [(-> & -> & L & Hd' & Hn)
                     |[(Hlt & e & He & -> & L & Hd')
                      |(Hlt & -> & L & Hfresh & Hd' & Hn)]].
      * exists (S n). left. split_and!; try done.
        -- rewrite symlink_collisions_S.
           exact (logged_trans _ _ _ _ _ L1' L).
        -- by rewrite Hd', Hd.
        -- rewrite Hn. lia.
      * exists (S k). right. left. split; [lia|]. exists e.
        split_and!; try done.
        -- rewrite symlink_collisions_S, Nat.add_succ_r. simpl.
           exact (logged_trans _ _ _ _ _ L1' L).
        -- by rewrite Hd', Hd.
      * exists (S k). right. right. split; [lia|].
        rewrite !Nat.add_succ_r, symlink_collisions_S.
        simpl in *. split_and!; try done.
        -- exact (logged_trans _ _ _ _ _ L1' L).
        -- by rewrite <- Hd.
        -- rewrite Hd', Hd. unfold symlink_inode. by rewrite Hu1, Hgi1.
    + assert (r = Error (ErrFromErrno e) /\ s' = s1) as [-> ->].
      { destruct e; try done; by inv_ret H. }
      split; [done|]. split; [done|]. exists 0%nat. right. left.
      split; [lia|]. exists e. rewrite Nat.add_0_r. by split_and!.
  - inv_ret H. destruct Hd as [Hd _]. unfold eff_create in Hd. simpl in Hd.
    split; [done|]. split; [done|]. exists 0%nat. right. right.
    split; [lia|]. rewrite Nat.add_0_r. fold gen next.
    destruct (tmp_dir (disk s) !! gen next) eqn:Hl; [done|].
    injection Hd as <-. by split_and!.
Qed.

(** X7.  How [make_temporary_symlink_at] ends.  It draws names
    until [symlinkat] answers something other than EEXIST, at most 128
    times.  If the [k]-th further name is free, the call succeeds with
    it: the name was absent from [tmp/], and [tmp/] now holds under it a
    symlink to the target, mode 0777, owned by the caller, and is
    otherwise as before.  If a [symlinkat] fails with another errno, that
    errno is the call's error.  If all 128 names exist, the call fails
    with "Exhausted attempts to open temporary file" after exactly 128
    attempts.  A call that fails leaves the disk as it was, and the
    repository object is never touched. *)
Theorem make_temporary_symlink_at_outcomes (target : string) (s : State) :
  let gen := tmp_name_gen (env s) in
  let next := tmp_name_next (env s) in
  let out := make_temporary_symlink_at target s in
  self (snd out) = self s
  /\ exists k,
       (k = 128%nat
        /\ fst out
           = Error (ErrFailed "Exhausted attempts to open temporary file")
        /\ logged s (snd out) (symlink_collisions target gen next k)
        /\ disk (snd out) = disk s)
       \/ ((k < 128)%nat
           /\ exists e, e <> EEXIST /\ fst out = Error (ErrFromErrno e)
              /\ logged s (snd out)
                   (symlink_collisions target gen next k
                    ++ [Ev (SYS_symlinkat target (gen (next + k)%nat))
                          (Some e)])
              /\ disk (snd out) = disk s)
       \/ ((k < 128)%nat
           /\ fst out = Ok (gen (next + k)%nat)
           /\ logged s (snd out)
                (symlink_collisions target gen next k
                 ++ [Ev (SYS_symlinkat target (gen (next + k)%nat)) None])
           /\ tmp_dir (disk s) !! gen (next + k)%nat = None
           /\ disk (snd out)
              = with_tmp_dir
                  (<[gen (next + k)%nat := symlink_inode target s]>
                     (tmp_dir (disk s))) (disk s)).
Proof.
  intros gen next out.
  destruct out as [r s'] eqn:Hout. subst out.
  unfold make_temporary_symlink_at in Hout.
  apply make_temporary_symlink_at_loop_inv in Hout
    as (Hs & _ & k & Hk). fold gen next in Hk. simpl.
  split; [done|]. exists k.
  destruct Hk as [(-> & -> & L & Hd & _)
                 |[(Hlt & e & He & -> & L & Hd)
                  |(Hlt & -> & L & Hfresh & Hd & _)]].
  - left. done.
  - right. left. split; [done|]. by exists e.
  - right. right. done.
Qed.

(** ** The phases of [write_object] *)

(** The state with the object counted (lines 372-389). *)
Definition counted (objtype : OstreeObjectType) (do_commit : bool)
    (file_object_length : Z) (s : State) : State :=
  set_self (fun r =>
    with_txn_stats
      (update_txn_stats objtype do_commit file_object_length (txn_stats r))
      r) s.

Lemma store_object_inv objtype out_csum file_object_length m actual_checksum
    l s r lb sb :
  store_object objtype out_csum file_object_length m actual_checksum (l, s)
  = (r, (lb, sb)) ->
  let v := if out_csum then Some (g_checksum_sha256 (m_read m)) else None in
  (exists r1,
     _ostree_repo_has_loose_object actual_checksum objtype s = (r1, sb)
     /\ is_ok r1 = false /\ r = failure_of r1 /\ lb = l)
  \/ (exists p s1,
        _ostree_repo_has_loose_object actual_checksum objtype s
        = (Ok (true, p), s1)
        /\ r = Ok v /\ lb = l
        /\ sb = counted objtype false file_object_length s1)
  \/ (exists p s1 ra s2,
        _ostree_repo_has_loose_object actual_checksum objtype s
        = (Ok (false, p), s1)
        /\ (if bool_decide (objtype = OSTREE_OBJECT_TYPE_FILE)
               && bool_decide (mode (self s1) = OSTREE_REPO_MODE_BARE)
            then apply_bare_attributes m else ret tt) s1 = (ra, s2)
        /\ ((is_ok ra = false /\ r = failure_of ra /\ lb = l /\ sb = s2)
            \/ (ra = Ok tt
                /\ exists rc s3,
                     commit_loose_object_trusted p (m_temp m) s2 = (rc, s3)
                     /\ ((is_ok rc = false /\ r = failure_of rc /\ lb = l
                          /\ sb = s3)
                         \/ (rc = Ok tt /\ r = Ok v
                             /\ lb = {| temp_filename := None |}
                             /\ sb = counted objtype true file_object_length
                                       s3))))).
Proof.
  intros H v. unfold store_object in H.
  step_bind H as hl x1 Hh.
  { destruct x1 as [l1 s1]. apply lift_inv in Hh as [-> Hh].
    destruct hl as [have p]. simpl in H. destruct have; simpl in H.
    - right. left. exists p, s1. by inversion H; subst.
    - right. right. step_bind H as u2 x2 Hc.
      + destruct x2 as [l2 s2]. rewrite bind_lift_get in Hc.
        step_bind Hc as u3 x3 Ha; [|not_ok]. destruct x3 as [l3 s3].
        assert (l3 = l /\ (if bool_decide (objtype = OSTREE_OBJECT_TYPE_FILE)
                              && bool_decide (mode (self s1)
                                              = OSTREE_REPO_MODE_BARE)
                           then apply_bare_attributes m else ret tt) s1
                          = (Ok tt, s3)) as [-> Ha'].
        { destruct (_ && _).
          - apply lift_inv in Ha as [-> Ha]. by destruct u3.
          - by inversion Ha; subst. }
        step_bind Hc as u4 x4 Hp; [|not_ok]. destruct x4 as [l4 s4].
        apply lift_inv in Hp as [-> Hp]. destruct u4.
        inversion Hc; subst. inversion H; subst.
        do 4 eexists. split; [exact Hh|]. split; [exact Ha'|].
        right. split; [done|]. do 2 eexists. split; [exact Hp|].
        right. done.
      + rewrite bind_lift_get in Hc.
        step_bind Hc as u3 x3 Ha.
        * destruct x3 as [l3 s3].
          assert (l3 = l /\ (if bool_decide (objtype = OSTREE_OBJECT_TYPE_FILE)
                                && bool_decide (mode (self s1)
                                                = OSTREE_REPO_MODE_BARE)
                             then apply_bare_attributes m else ret tt) s1
                            = (Ok tt, s3)) as [-> Ha'].
          { destruct (_ && _).
            - apply lift_inv in Ha as [-> Ha]. by destruct u3.
            - by inversion Ha; subst. }
          step_bind Hc as u4 x4 Hp; [by inversion Hc; subst|].
          apply lift_inv in Hp as [-> Hp]. subst.
          do 4 eexists. split; [exact Hh|]. split; [exact Ha'|].
          right. split; [done|]. do 2 eexists. split; [exact Hp|].
          left. split_and!; try done. by destruct r1.
        * assert (lb = l
                  /\ (if bool_decide (objtype = OSTREE_OBJECT_TYPE_FILE)
                         && bool_decide (mode (self s1)
                                         = OSTREE_REPO_MODE_BARE)
                      then apply_bare_attributes m else ret tt) s1
                     = (r1, sb)) as [-> Ha'].
          { destruct (_ && _).
            - by apply lift_inv in Ha as [-> Ha].
            - inversion Ha; subst. done. }
          subst. do 4 eexists. split; [exact Hh|]. split; [exact Ha'|].
          left. split_and!; try done. by destruct r1. }
  left. apply lift_inv in Hh as [-> Hh]. by exists r0.
Qed.

Lemma write_object_body_inv objtype expected_checksum input
    file_object_length out_csum l s r lb sb :
  write_object_body objtype expected_checksum input file_object_length
    out_csum (l, s) = (r, (lb, sb)) ->
  (exists e p,
     expected_checksum = Some e
     /\ _ostree_repo_has_loose_object e objtype s = (Ok (true, p), sb)
     /\ r = Ok None /\ lb = l)
  \/ (exists e r1,
        expected_checksum = Some e
        /\ _ostree_repo_has_loose_object e objtype s = (r1, sb)
        /\ is_ok r1 = false /\ r = failure_of r1 /\ lb = l)
  \/ (exists s1,
        (expected_checksum = None /\ s1 = s
         \/ exists e p,
              expected_checksum = Some e
              /\ _ostree_repo_has_loose_object e objtype s
                 = (Ok (false, p), s1))
        /\ ((exists rm,
               materialize objtype (mode (self s1)) input file_object_length
                 (l, s1) = (rm, (lb, sb))
               /\ is_ok rm = false /\ r = failure_of rm)
            \/ exists m l2 s2,
                 materialize objtype (mode (self s1)) input
                   file_object_length (l, s1) = (Ok m, (l2, s2))
                 /\ ((exists rr,
                        resolve_checksum objtype expected_checksum out_csum m
                          (l2, s2) = (rr, (lb, sb))
                        /\ is_ok rr = false /\ r = failure_of rr)
                     \/ exists actual_checksum,
                          resolve_checksum objtype expected_checksum out_csum
                            m (l2, s2) = (Ok actual_checksum, (l2, s2))
                          /\ store_object objtype out_csum file_object_length
                               m actual_checksum (l2, s2)
                             = (r, (lb, sb))))).
Proof.
  intros H. unfold write_object_body in H.
  step_bind H as have_obj x1 Hh.
  2:{ destruct expected_checksum as [e|]; [|by inversion Hh; subst].
      step_bind Hh as hl x1 Hh1; [by inversion Hh; subst|].
      apply lift_inv in Hh1 as [-> Hh1]. subst.
      right. left. exists e. eexists.
      split_and!; [done|exact Hh1|done|by destruct r1|done]. }
  assert (exists s1, x1 = (l, s1)
          /\ (expected_checksum = None /\ s1 = s /\ have_obj = false
              \/ exists e p,
                   expected_checksum = Some e
                   /\ _ostree_repo_has_loose_object e objtype s
                      = (Ok (have_obj, p), s1))) as (s1 & -> & Hpre).
  { destruct expected_checksum as [e|].
    - step_bind Hh as hl x2 Hh1; [|not_ok]. destruct x2 as [l2 s2].
      apply lift_inv in Hh1 as [-> Hh1]. inversion Hh; subst.
      exists s2. split; [done|]. right. exists e, (snd hl).
      by destruct hl.
    - inversion Hh; subst. exists s. split; [done|]. by left. }
  destruct have_obj.
  { left. inversion H; subst.
    destruct Hpre as [(_ & _ & [=])|(e & p & -> & Hl)]. by exists e, p. }
  right. right. exists s1. split.
  { destruct Hpre as [(-> & -> & _)|(e & p & -> & Hl)]; [by left|].
    right. by exists e, p. }
  rewrite bind_lift_get in H.
  step_bind H as m x2 Hm.
  2:{ left. by exists r0. }
  right. destruct x2 as [l2 s2]. exists m, l2, s2. split; [done|].
  step_bind H as actual_checksum x3 Hr.
  2:{ left. by exists r0. }
  right. pose proof (resolve_checksum_inv _ _ _ _ _ _ _ Hr) as ->.
  by exists actual_checksum.
Qed.

Lemma write_object_cases objtype expected_checksum input file_object_length
    out_csum cancelled s r s' :
  write_object objtype expected_checksum input file_object_length out_csum
    cancelled s = (r, s') ->
  (s' = s
   /\ (in_transaction (self s) = false /\ r = ReturnIfFail
       \/ in_transaction (self s) = true /\ cancelled = true
          /\ r = Error ErrCancelled
       \/ in_transaction (self s) = true /\ cancelled = false
          /\ expected_checksum = None /\ out_csum = false /\ r = Abort))
  \/ (in_transaction (self s) = true /\ cancelled = false
      /\ (is_Some expected_checksum \/ out_csum = true)
      /\ exists lb sb,
           write_object_body objtype expected_checksum input
             file_object_length out_csum ({| temp_filename := None |}, s)
           = (r, (lb, sb))
           /\ ((r = Abort \/ temp_filename lb = None) /\ s' = sb
               \/ (r <> Abort
                   /\ exists t,
                        temp_filename lb = Some t
                        /\ s' = snd (syscall (SYS_unlinkat t)
                                       (eff_unlinkat t) sb)))).
Proof.
  unfold write_object. intros H.
  destruct (in_transaction (self s)) eqn:Hin; simpl in H;
    [|left; inversion H; subst; by auto].
  destruct cancelled; [left; inversion H; subst; by auto 10|].
  destruct expected_checksum as [e|], out_csum; simpl in H;
    try (left; inversion H; subst; by auto 10).
  all: right; split; [done|]; split; [done|];
    (split; [by eauto|]);
    destruct (write_object_body _ _ _ _ _ _) as [rb [lb sb]] eqn:Hb;
    exists lb, sb;
    destruct rb; destruct (temp_filename lb) as [t|] eqn:Ht;
      inversion H; subst;
      (split; [done|]);
      first [ by left; auto
            | right; split; [done|]; by exists t ].
Qed.

(** The bytes [write_object] reads from its input: all of a metadata
    object; of a FILE object the header, and the payload if the file is
    regular. *)
Definition object_bytes (objtype : OstreeObjectType) (input : list byte)
    (file_object_length : Z) : list byte :=
  match objtype with
  | OSTREE_OBJECT_TYPE_FILE =>
      match ostree_content_stream_parse input file_object_length with
      | inr pc =>
          if bool_decide (standard_type (pc_file_info pc) = G_FILE_TYPE_REGULAR)
          then pc_header pc ++ pc_payload pc
          else pc_header pc
      | inl _ => []
      end
  | _ => input
  end.

Lemma materialize_read objtype repo_mode input file_object_length x m x' :
  materialize objtype repo_mode input file_object_length x = (Ok m, x') ->
  m_read m = object_bytes objtype input file_object_length.
Proof.
  unfold materialize, materialize_file, materialize_metadata, object_bytes.
  intros H.
  destruct objtype;
    try (repeat (inv_bind H; [|not_ok]); by inv_ret H).
  destruct (ostree_content_stream_parse input file_object_length) as [e|pc];
    [done|].
  simpl in H. destruct (negb _); [done|].
  destruct repo_mode, (bool_decide (_ = G_FILE_TYPE_REGULAR));
    repeat (inv_bind H; [|not_ok]); by inv_ret H.
Qed.

Lemma write_object_ok_digest (objtype : OstreeObjectType)
    (expected_checksum : option string) (input : list byte)
    (file_object_length : Z) (out_csum cancelled : bool) (s s' : State)
    (v : option (list byte)) :
  write_object objtype expected_checksum input file_object_length out_csum
    cancelled s = (Ok v, s') ->
  in_transaction (self s) = true /\ cancelled = false
  /\ (forall csum,
        v = Some csum ->
        out_csum = true
        /\ csum = g_checksum_sha256
                    (object_bytes objtype input file_object_length)
        /\ forall e, expected_checksum = Some e ->
                     g_checksum_get_string csum = e)
  /\ (v = None ->
      out_csum = false
      \/ exists e p,
           expected_checksum = Some e
           /\ _ostree_repo_has_loose_object e objtype s = (Ok (true, p), s')).
Proof.
  intros H.
  apply write_object_cases in H
    as [(_ & [(_ & [=])|[(_ & _ & [=])|(_ & _ & _ & _ & [=])]])
       |(Hin & Hc & _ & lb & sb & Hb & Hout)].
  split; [done|]. split; [done|].
  apply write_object_body_inv in Hb
    as [(e & p & -> & Hh & [= ->] & ->)
       |[(e & r1 & _ & _ & Hf & Hr & _)
        |(s1 & _ & [(rm & _ & Hf & Hr)
                   |(m & l2 & s2 & Hm & [(rr & _ & Hf & Hr)
                                        |(cs & Hres & Hst)])])]];
    try (by destruct r1); try (by destruct rm); try (by destruct rr).
  - destruct Hout as [[_ ->]|(_ & t & [=] & _)].
    split; [done|]. intros _. right. by exists e, p.
  - pose proof (materialize_read _ _ _ _ _ _ _ Hm) as Hread.
    assert (v = if out_csum then Some (g_checksum_sha256 (m_read m)) else None)
      as ->.
    { apply store_object_inv in Hst
        as [(r1 & _ & Hf & Hr & _)
           |[(p & s1' & _ & [= ->] & _)
            |(p & s1' & ra & s3 & _ & _ &
              [(Hf & Hr & _)
              |(_ & rc & s4 & _ & [(Hf & Hr & _)|(_ & [= ->] & _)])])]];
        try done; try (by destruct r1); try (by destruct ra);
        by destruct rc. }
    destruct out_csum; [|by split; [|auto]].
    split; [|done]. intros csum [= <-]. split; [done|].
    split; [by rewrite Hread|]. intros e ->.
    unfold resolve_checksum in Hres. simpl in Hres.
    case_decide as Hne; [done|]. exact Hne.
Qed.

(** X8.  A call of [write_object] that succeeds was made inside a
    transaction and not cancelled.  If it hands back a checksum, one was
    asked for, it is the SHA-256 of the bytes read from the input (all of a
    metadata object; the header of a FILE object and, for a regular file,
    its payload), and it is the expected checksum if one was given.  It
    succeeds without a checksum only if none was asked for, or on the fast
    path, where the expected checksum names a stored object and nothing
    is read. *)
Theorem write_object_returns_digest (objtype : OstreeObjectType)
    (expected_checksum : option string) (input : list byte)
    (file_object_length : Z) (out_csum cancelled : bool) (s s' : State)
    (v : option (list byte)) :
  write_object objtype expected_checksum input file_object_length out_csum
    cancelled s = (Ok v, s') ->
  in_transaction (self s) = true /\ cancelled = false
  /\ (forall csum,
        v = Some csum ->
        out_csum = true
        /\ csum = g_checksum_sha256
                    (object_bytes objtype input file_object_length)
        /\ forall e, expected_checksum = Some e ->
                     g_checksum_get_string csum = e)
  /\ (v = None ->
      out_csum = false
      \/ exists e p,
           expected_checksum = Some e
           /\ _ostree_repo_has_loose_object e objtype s = (Ok (true, p), s')).
Proof. apply write_object_ok_digest. Qed.

Lemma commit_loose_object_trusted_disk loose_path tempfile_name s r s' :
  commit_loose_object_trusted loose_path tempfile_name s = (r, s') ->
  self s' = self s
  /\ refs (disk s') = refs (disk s)
  /\ transaction_lock (disk s') = transaction_lock (disk s)
  /\ objects_prefixes (disk s) ⊆ objects_prefixes (disk s')
  /\ (objects_dir (disk s') = objects_dir (disk s)
      \/ (r = Ok tt
          /\ exists i,
               tmp_dir (disk s) !! tempfile_name = Some i
               /\ objects_dir (disk s')
                  = <[loose_path := i]> (objects_dir (disk s)))).
Proof.
  intros H. unfold commit_loose_object_trusted in H.
  step_bind H as r1 s1 Hmk; [|apply syscall_inv in Hmk as (?&->&_); done].
  apply syscall_inv in Hmk as (e1 & [= ->] & _ & Hs1 & _ & _ & Hd1).
  assert (refs (disk s1) = refs (disk s)
          /\ transaction_lock (disk s1) = transaction_lock (disk s)
          /\ objects_prefixes (disk s) ⊆ objects_prefixes (disk s1)
          /\ objects_dir (disk s1) = objects_dir (disk s)
          /\ tmp_dir (disk s1) = tmp_dir (disk s)) as (Hr1 & Hl1 & Hp1 & Ho1 & Ht1).
  { destruct e1 as [e|]; destruct Hd1 as [Hd1 _].
    - by rewrite Hd1.
    - unfold eff_mkdirat in Hd1. case_decide; [done|].
      injection Hd1 as <-. simpl. split_and!; try done.
      apply union_subseteq_r. }
  step_bind H as u2 s2 Hchk.
  2:{ destruct e1 as [e|]; [|by inv_ret Hchk].
      case_decide; inv_ret Hchk; [|done]. split_and!; try done.
      - by rewrite Ho1; left. }
  assert (s2 = s1) as ->.
  { destruct e1 as [e|]; [case_decide|]; by inv_ret Hchk. }
  step_bind H as r3 s3 Hrn; [|apply syscall_inv in Hrn as (?&->&_); done].
  apply syscall_inv in Hrn as (e3 & [= ->] & _ & Hs3 & _ & _ & Hd3).
  destruct e3 as [e|].
  - destruct Hd3 as [Hd3 _].
    assert (self s' = self s3 /\ disk_same_but_tmp (disk s3) (disk s'))
      as (Hs' & Hp' & Ho' & Hl' & Hr').
    { case_decide; [inv_ret H; by repeat split|].
      step_bind H as r4 s4 Hul;
        [|apply syscall_inv in Hul as (?&->&_); done].
      inv_ret H.
      by destruct (keeps_syscall _ _ (tmp_only_unlinkat _) _ _ _ Hul). }
    rewrite Hs', Hs3, Hr', Hl', Hp', Ho', Hd3. split_and!; try done.
    by left.
  - inv_ret H. destruct Hd3 as [Hd3 _]. unfold eff_renameat in Hd3.
    rewrite Ht1 in Hd3.
    destruct (tmp_dir (disk s) !! tempfile_name) as [i|] eqn:Hi; [|done].
    case_decide; [|done]. injection Hd3 as <-. simpl.
    rewrite Hs3. split_and!; try done.
    right. split; [done|]. exists i. by rewrite Ho1.
Qed.

Lemma keeps_apply_bare_attributes m : keeps id (apply_bare_attributes m).
Proof.
  unfold apply_bare_attributes, apply_mode_and_sync, eff_probe_tmp.
  repeat keeps_step.
Qed.

(** What one call of [write_object] may change: the statistics, [tmp/],
    the prefix directories and at most one entry of [objects/]. *)
Definition object_written (objtype : OstreeObjectType)
    (file_object_length : Z) (s s' : State) : Prop :=
  refs (disk s') = refs (disk s)
  /\ transaction_lock (disk s') = transaction_lock (disk s)
  /\ objects_prefixes (disk s) ⊆ objects_prefixes (disk s')
  /\ self s' = with_txn_stats (txn_stats (self s')) (self s)
  /\ (objects_dir (disk s') = objects_dir (disk s)
      \/ exists loose_path i,
           objects_dir (disk s') = <[loose_path := i]> (objects_dir (disk s))
           /\ txn_stats (self s')
              = update_txn_stats objtype true file_object_length
                  (txn_stats (self s))).

Lemma same_but_tmp_object_written objtype file_object_length s s' :
  same_but_tmp s s' -> object_written objtype file_object_length s s'.
Proof.
  intros (Hs & Hp & Ho & Hl & Hr). unfold object_written.
  rewrite Hs, Hp, Ho, Hl, Hr. split_and!; try done.
  - by destruct (self s).
  - by left.
Qed.

Lemma with_txn_stats_self r : with_txn_stats (txn_stats r) r = r.
Proof. by destruct r. Qed.

(** As [same_but_tmp], but prefix directories may have been made. *)
Definition same_objects (s s' : State) : Prop :=
  self s' = self s
  /\ refs (disk s') = refs (disk s)
  /\ transaction_lock (disk s') = transaction_lock (disk s)
  /\ objects_prefixes (disk s) ⊆ objects_prefixes (disk s')
  /\ objects_dir (disk s') = objects_dir (disk s).

Lemma same_but_tmp_same_objects s s' : same_but_tmp s s' -> same_objects s s'.
Proof.
  intros (Hs & Hp & Ho & Hl & Hr). unfold same_objects.
  by rewrite Hs, Hp, Ho, Hl, Hr.
Qed.

Lemma same_objects_trans s1 s2 s3 :
  same_objects s1 s2 -> same_objects s2 s3 -> same_objects s1 s3.
Proof.
  intros (Hs & Hr & Hl & Hp & Ho) (Hs' & Hr' & Hl' & Hp' & Ho').
  unfold same_objects. rewrite Hs', Hs, Hr', Hr, Hl', Hl, Ho', Ho.
  split_and!; try done. by etrans.
Qed.

Lemma same_objects_object_written objtype file_object_length s s' :
  same_objects s s' -> object_written objtype file_object_length s s'.
Proof.
  intros (Hs & Hr & Hl & Hp & Ho). unfold object_written.
  rewrite Hs, Hr, Hl, Ho. split_and!; try done.
  - by rewrite with_txn_stats_self.
  - by left.
Qed.

(** What [store_object] and the slow path before it leave, by how they
    end. *)
Lemma store_object_frame objtype out_csum file_object_length m
    actual_checksum l s r lb sb :
  store_object objtype out_csum file_object_length m actual_checksum (l, s)
  = (r, (lb, sb)) ->
  (is_ok r = false /\ same_objects s sb)
  \/ (is_ok r = true
      /\ exists s3 do_commit,
           sb = counted objtype do_commit file_object_length s3
           /\ self s3 = self s
           /\ refs (disk s3) = refs (disk s)
           /\ transaction_lock (disk s3) = transaction_lock (disk s)
           /\ objects_prefixes (disk s) ⊆ objects_prefixes (disk s3)
           /\ (objects_dir (disk s3) = objects_dir (disk s)
               \/ do_commit = true
                  /\ exists loose_path i,
                       objects_dir (disk s3)
                       = <[loose_path := i]> (objects_dir (disk s)))).
Proof.
  intros H.
  assert (forall e sa ra sb',
            _ostree_repo_has_loose_object e objtype sa = (ra, sb') ->
            same_objects sa sb') as Hhas.
  { intros e sa ra sb' Hh.
    apply same_but_tmp_same_objects, (keeps_has_loose_object _ _ _ _ _ Hh). }
  apply store_object_inv in H
    as [(r1 & Hh & Hf & -> & _)
       |[(p & s1 & Hh & -> & _ & ->)
        |(p & s1 & ra & s2 & Hh & Ha & Hrest)]].
  - left. split; [by destruct r1|]. by eapply Hhas.
  - right. split; [done|]. apply Hhas in Hh as (Hs & Hr & Hl & Hp & Ho).
    exists s1, false. split_and!; try done. by left.
  - apply Hhas in Hh.
    assert (same_objects s1 s2) as Ha'.
    { apply same_but_tmp_same_objects. destruct (_ && _).
      - exact (keeps_apply_bare_attributes _ _ _ _ Ha).
      - inv_ret Ha. apply same_but_tmp_refl. }
    pose proof (same_objects_trans _ _ _ Hh Ha') as H2.
    destruct Hrest as [(Hf & -> & _ & ->)
                      |(_ & rc & s3 & Hc & Hrest)].
    { left. split; [by destruct ra|done]. }
    apply commit_loose_object_trusted_disk in Hc
      as (Hs3 & Hr3 & Hl3 & Hp3 & Ho3).
    destruct H2 as (Hs2 & Hr2 & Hl2 & Hp2 & Ho2).
    destruct Hrest as [(Hf & -> & _ & ->)|(-> & -> & _ & ->)].
    + left. split; [by destruct rc|].
      destruct Ho3 as [Ho3|([=] & _)]; [|by subst].
      unfold same_objects. rewrite Hs3, Hs2, Hr3, Hr2, Hl3, Hl2, Ho3, Ho2.
      split_and!; try done. by etrans.
    + right. split; [done|]. exists s3, true.
      rewrite Hs3, Hs2, Hr3, Hr2, Hl3, Hl2. split_and!; try done.
      * by etrans.
      * destruct Ho3 as [Ho3|(_ & i & _ & Ho3)]; rewrite Ho3, Ho2;
          [by left|]. right. split; [done|]. by exists p, i.
Qed.

Lemma write_object_changes (objtype : OstreeObjectType)
    (expected_checksum : option string) (input : list byte)
    (file_object_length : Z) (out_csum cancelled : bool) (s s' : State)
    (r : Res (option (list byte))) :
  write_object objtype expected_checksum input file_object_length out_csum
    cancelled s = (r, s') ->
  object_written objtype file_object_length s s'
  /\ (is_ok r = false ->
      self s' = self s /\ objects_dir (disk s') = objects_dir (disk s))
  /\ (is_ok r = true ->
      txn_stats (self s') = txn_stats (self s)
      \/ exists do_commit,
           txn_stats (self s')
           = update_txn_stats objtype do_commit file_object_length
               (txn_stats (self s))).
Proof.
  intros H.
  assert (forall sa sb, same_objects sa sb ->
            object_written objtype file_object_length sa sb
            /\ self sb = self sa
            /\ objects_dir (disk sb) = objects_dir (disk sa)) as Hsame.
  { intros sa sb Hab. split; [by apply same_objects_object_written|].
    by destruct Hab as (? & _ & _ & _ & ?). }
  apply write_object_cases in H
    as [(-> & _)|(Hin & Hc & _ & lb & sb & Hb & Hout)].
  { split; [apply same_objects_object_written,
                  same_but_tmp_same_objects, same_but_tmp_refl|].
    split; [done|]. by left. }
  assert (same_but_tmp sb s') as Hfinal.
  { destruct Hout as [[_ ->]|(_ & t & _ & ->)]; [apply same_but_tmp_refl|].
    destruct (syscall _ _ sb) as [ru su] eqn:Hu. simpl.
    exact (keeps_syscall _ _ (tmp_only_unlinkat _) _ _ _ Hu). }
  apply same_but_tmp_same_objects in Hfinal.
  assert (forall e sa ra sb',
            _ostree_repo_has_loose_object e objtype sa = (ra, sb') ->
            same_objects sa sb') as Hhas.
  { intros e sa ra sb' Hh.
    apply same_but_tmp_same_objects, (keeps_has_loose_object _ _ _ _ _ Hh). }
  assert (forall rr, same_objects s sb -> r = rr ->
            object_written objtype file_object_length s s'
            /\ (is_ok r = false ->
                self s' = self s
                /\ objects_dir (disk s') = objects_dir (disk s))
            /\ (is_ok r = true ->
                txn_stats (self s') = txn_stats (self s)
                \/ exists do_commit,
                     txn_stats (self s')
                     = update_txn_stats objtype do_commit file_object_length
                         (txn_stats (self s)))) as Hquiet.
  { intros rr Hsb _.
    destruct (Hsame _ _ (same_objects_trans _ _ _ Hsb Hfinal))
      as (Hw & Hs & Ho).
    split; [done|]. split; [done|]. intros _. left. by rewrite Hs. }
  apply write_object_body_inv in Hb
    as [(e & p & _ & Hh & -> & _)
       |[(e & r1 & _ & Hh & _ & -> & _)
        |(s1 & Hpre & Hrest)]].
  - eapply Hquiet; [by eapply Hhas|done].
  - eapply Hquiet; [by eapply Hhas|done].
  - assert (same_objects s s1) as H1.
    { destruct Hpre as [(_ & ->)|(e & p & _ & Hh)]; [|by eapply Hhas].
      apply same_but_tmp_same_objects, same_but_tmp_refl. }
    destruct Hrest as [(rm & Hm & _ & ->)
                      |(m & l2 & s2 & Hm & Hrest)].
    { eapply Hquiet; [|done]. eapply same_objects_trans; [exact H1|].
      apply same_but_tmp_same_objects, (keeps_materialize _ _ _ _ _ _ _ Hm). }
    assert (same_objects s s2) as H2.
    { eapply same_objects_trans; [exact H1|].
      apply same_but_tmp_same_objects, (keeps_materialize _ _ _ _ _ _ _ Hm). }
    destruct Hrest as [(rr & Hr & _ & ->)|(cs & _ & Hst)].
    { apply resolve_checksum_inv in Hr. injection Hr as -> ->.
      by eapply Hquiet. }
    apply store_object_frame in Hst
      as [(Hf & Hsb)
         |(Hok & s3 & do_commit & -> & Hs3 & Hr3 & Hl3 & Hp3 & Ho3)].
    { destruct (Hquiet r (same_objects_trans _ _ _ H2 Hsb) eq_refl)
        as (? & ? & ?). done. }
    destruct H2 as (Hs2 & Hr2 & Hl2 & Hp2 & Ho2).
    destruct Hfinal as (Hs' & Hr' & Hl' & Hp' & Ho').
    simpl in *.
    assert (txn_stats (self s')
            = update_txn_stats objtype do_commit file_object_length
                (txn_stats (self s))) as Hst.
    { by rewrite Hs', Hs3, Hs2. }
    split; [|split; [by rewrite Hok|intros _; right; by exists do_commit]].
    unfold object_written.
    rewrite Hr', Hr3, Hr2, Hl', Hl3, Hl2, Ho'. simpl.
    split_and!; try done.
    + etrans; [exact Hp2|]. by etrans.
    + rewrite Hs'. simpl. rewrite Hs3, Hs2. by destruct (self s).
    + destruct Ho3 as [Ho3|(-> & p & i & Ho3)]; rewrite Ho3, Ho2;
        [by left|]. right. by exists p, i.
Qed.

(** X9.  Whatever a call of [write_object] does and however it ends,
    it leaves the refs and the [transaction] link alone, removes no prefix
    directory, and changes nothing of the repository object but the
    statistics.  It changes [objects/] by at most one entry, and only in
    a call that succeeds and counts the object as written.  A call that
    fails leaves the statistics and [objects/] as they were; a call that
    succeeds either leaves the statistics (the fast path) or counts the
    object once. *)
Theorem write_object_frame (objtype : OstreeObjectType)
    (expected_checksum : option string) (input : list byte)
    (file_object_length : Z) (out_csum cancelled : bool) (s s' : State)
    (r : Res (option (list byte))) :
  write_object objtype expected_checksum input file_object_length out_csum
    cancelled s = (r, s') ->
  object_written objtype file_object_length s s'
  /\ (is_ok r = false ->
      self s' = self s /\ objects_dir (disk s') = objects_dir (disk s))
  /\ (is_ok r = true ->
      txn_stats (self s') = txn_stats (self s)
      \/ exists do_commit,
           txn_stats (self s')
           = update_txn_stats objtype do_commit file_object_length
               (txn_stats (self s))).
Proof. apply write_object_changes. Qed.






Lemma has_loose_object_inv checksum objtype s r s' :
  _ostree_repo_has_loose_object checksum objtype s = (r, s') ->
  let path := _ostree_loose_path checksum objtype (mode (self s)) in
  self s' = self s /\ disk s' = disk s
  /\ exists errno,
       logged s s' [Ev (SYS_fstatat path) errno]
       /\ r = match errno with
              | None => Ok (true, path)
              | Some ENOENT => Ok (false, path)
              | Some e => Error (ErrFromErrno e)
              end.
Proof.
  unfold _ostree_repo_has_loose_object. rewrite bind_get. intros H.
  set (path := _ostree_loose_path checksum objtype (mode (self s))) in *.
  cbv zeta.
  step_bind H as errno s1 Hsys;
    [|apply syscall_inv in Hsys as (?&->&_); done].
  apply syscall_inv in Hsys as (errno' & [= <-] & L & Hs & _ & _ & Hd).
  assert (disk s1 = disk s) as Hd1.
  { destruct errno as [e|]; destruct Hd as [Hd _]; [done|].
    unfold eff_fstatat in Hd. destruct (objects_dir (disk s) !! path); [|done].
    by injection Hd. }
  assert (s' = s1
          /\ r = match errno with
                 | None => Ok (true, path)
                 | Some ENOENT => Ok (false, path)
                 | Some e => Error (ErrFromErrno e)
                 end) as [-> ->].
  { destruct errno as [[]|]; by inv_ret H. }
  split; [done|]. split; [done|]. by exists errno.
Qed.

(** Why a FILE object cannot be given a temp file: its stream does not
    parse, or it is neither a regular file nor a symlink. *)
Definition file_object_error (input : list byte) (file_object_length : Z)
    : option GError :=
  match ostree_content_stream_parse input file_object_length with
  | inl e => Some e
  | inr pc =>
      let t := standard_type (pc_file_info pc) in
      if bool_decide (t = G_FILE_TYPE_REGULAR)
         || bool_decide (t = G_FILE_TYPE_SYMBOLIC_LINK)
      then None
      else Some (ErrNotSupported
                   ("Unsupported file type " +:+ pretty (GFileType_to_uint t)))
  end.

Lemma materialize_file_object_error repo_mode input file_object_length err x :
  file_object_error input file_object_length = Some err ->
  materialize OSTREE_OBJECT_TYPE_FILE repo_mode input file_object_length x
  = (Error err, x).
Proof.
  unfold file_object_error, materialize, materialize_file.
  destruct (ostree_content_stream_parse input file_object_length) as [e|pc].
  - by intros [= ->].
  - simpl. destruct (_ || _); [done|]. by intros [= <-].
Qed.

(** X11.  A write of a FILE object whose stream does not
    parse, or which is neither a regular file nor a symlink (a device
    node, say: "Unsupported file type 4"), makes no temp file and changes
    neither the disk nor the repository object.  With no expected
    checksum it fails with that error before any call is made.  With one,
    the only call is the lookup of the expected object: the write
    succeeds if the object is stored, and otherwise fails, with the
    lookup's error or, if the object is absent, with the error of the
    stream. *)
Theorem write_object_unsupported_file (expected_checksum : option string)
    (input : list byte) (file_object_length : Z) (out_csum : bool)
    (err : GError) (s s' : State) (r : Res (option (list byte))) :
  in_transaction (self s) = true ->
  is_Some expected_checksum \/ out_csum = true ->
  file_object_error input file_object_length = Some err ->
  write_object OSTREE_OBJECT_TYPE_FILE expected_checksum input
    file_object_length out_csum false s = (r, s') ->
  self s' = self s /\ disk s' = disk s
  /\ (expected_checksum = None -> r = Error err /\ s' = s)
  /\ (forall e,
        expected_checksum = Some e ->
        exists errno,
          logged s s'
            [Ev (SYS_fstatat
                   (_ostree_loose_path e OSTREE_OBJECT_TYPE_FILE
                      (mode (self s)))) errno]
          /\ r = match errno with
                 | None => Ok None
                 | Some ENOENT => Error err
                 | Some e' => Error (ErrFromErrno e')
                 end).
Proof.
  intros Hin Hsome Herr H.
  apply write_object_cases in H
    as [(_ & [(Hout & _)|[(_ & [=] & _)|(_ & _ & -> & -> & _)]])
       |(_ & _ & _ & lb & sb & Hb & Hout)].
  { by rewrite Hin in Hout. }
  { by destruct Hsome as [[? [=]]|[=]]. }
  apply write_object_body_inv in Hb
    as [(e & p & -> & Hh & -> & ->)
       |[(e & r1 & -> & Hh & Hf & -> & ->)
        |(s1 & Hpre & Hrest)]].
  - destruct Hout as [[_ ->]|(_ & t & [=] & _)].
    apply has_loose_object_inv in Hh as (Hs & Hd & errno & L & Hr).
    split; [done|]. split; [done|]. split; [done|].
    intros e' [= <-]. exists errno. split; [done|].
    by destruct errno as [[]|].
  - destruct Hout as [[_ ->]|(_ & t & [=] & _)].
    apply has_loose_object_inv in Hh as (Hs & Hd & errno & L & ->).
    split; [done|]. split; [done|]. split; [done|].
    intros e' [= <-]. exists errno. split; [done|].
    by destruct errno as [[]|].
  - rewrite (materialize_file_object_error _ _ _ _ _ Herr) in Hrest.
    destruct Hrest as [(rm & [= <- <- <-] & _ & ->)|(m & l2 & s2 & [=] & _)].
    destruct Hout as [[_ ->]|(_ & t & [=] & _)]. simpl.
    destruct Hpre as [(-> & ->)|(e & p & -> & Hh)].
    + split; [done|]. split; [done|]. split; [done|]. by intros e [=].
    + apply has_loose_object_inv in Hh as (Hs & Hd & errno & L & Hr).
      split; [done|]. split; [done|]. split; [done|].
      intros e' [= <-]. exists errno. split; [done|].
      by destruct errno as [[]|].
Qed.

(** ** No assertion fails, no temp file is left *)

(** A computation that trips no [g_assert] and no [g_return_if_fail]. *)
Definition graceful {S A} (c : M S A) : Prop :=
  forall x r x', c x = (r, x') -> is_caller_error r = false.

Lemma graceful_ret {S A} (a : A) : graceful (@ret S A a).
Proof. by intros x r x' [= <- <-]. Qed.
Lemma graceful_throw {S A} e : graceful (@throw S A e).
Proof. by intros x r x' [= <- <-]. Qed.
Lemma graceful_get {S} : graceful (@get S).
Proof. by intros x r x' [= <- <-]. Qed.
Lemma graceful_modify {S} f : graceful (@modify S f).
Proof. by intros x r x' [= <- <-]. Qed.
Lemma graceful_set_locals {L} (l : L) : graceful (@set_locals L l).
Proof. by intros x r x' [= <- <-]. Qed.

Lemma graceful_bind {S A B} (c : M S A) (k : A -> M S B) :
  graceful c -> (forall a, graceful (k a)) -> graceful (bind c k).
Proof.
  intros Hc Hk x r x' H. step_bind H as a x1 Hca.
  - by eapply Hk.
  - subst. apply Hc in Hca. by destruct r0.
Qed.

Lemma graceful_lift {L A} (c : M State A) :
  graceful c -> graceful (@lift L A c).
Proof.
  intros Hc [l s] r [l' s'] H. apply lift_inv in H as [_ H]. by eapply Hc.
Qed.

Lemma graceful_syscall call eff : graceful (syscall call eff).
Proof. intros s r s' H. by apply syscall_inv in H as (? & -> & _). Qed.

Lemma graceful_retry_eintr call eff : graceful (retry_eintr call eff).
Proof. intros s r s' H. by apply retry_eintr_inv in H as (? & ? & -> & _). Qed.

Lemma graceful_gen_tmp_name : graceful gsystem_fileutil_gen_tmp_name.
Proof. by intros s r s' [= <- <-]. Qed.

Ltac graceful_core :=
  lazymatch goal with
  | |- graceful (bind _ _) => apply graceful_bind; [|intros ?]
  | |- graceful (ret _) => apply graceful_ret
  | |- graceful (throw _) => apply graceful_throw
  | |- graceful get => apply graceful_get
  | |- graceful (modify _) => apply graceful_modify
  | |- graceful (set_locals _) => apply graceful_set_locals
  | |- graceful (lift _) => apply graceful_lift
  | |- graceful (syscall _ _) => apply graceful_syscall
  | |- graceful (retry_eintr _ _) => apply graceful_retry_eintr
  | |- graceful gsystem_fileutil_gen_tmp_name => apply graceful_gen_tmp_name
  | |- graceful (match ?x with _ => _ end) => destruct x
  end.

Lemma graceful_checked call eff : graceful (checked call eff).
Proof. unfold checked. repeat graceful_core. Qed.

Lemma graceful_has_loose_object checksum objtype :
  graceful (_ostree_repo_has_loose_object checksum objtype).
Proof. unfold _ostree_repo_has_loose_object. repeat graceful_core. Qed.

Lemma graceful_commit_loose_object_trusted loose_path tempfile_name :
  graceful (commit_loose_object_trusted loose_path tempfile_name).
Proof. unfold commit_loose_object_trusted. repeat graceful_core. Qed.

Lemma graceful_open_in_tmpdir file_mode :
  graceful (gs_file_open_in_tmpdir_at file_mode).
Proof.
  unfold gs_file_open_in_tmpdir_at. generalize 128%nat.
  intros n. induction n as [|n IH]; simpl; [apply graceful_throw|].
  repeat first [exact IH | graceful_core].
Qed.

Lemma graceful_make_temporary_symlink target :
  graceful (make_temporary_symlink_at target).
Proof.
  unfold make_temporary_symlink_at. generalize 128%nat.
  intros n. induction n as [|n IH]; simpl; [apply graceful_throw|].
  repeat first [exact IH | graceful_core].
Qed.

Ltac graceful_step :=
  lazymatch goal with
  | |- graceful (gs_file_open_in_tmpdir_at _) => apply graceful_open_in_tmpdir
  | |- graceful (make_temporary_symlink_at _) =>
      apply graceful_make_temporary_symlink
  | |- graceful (g_output_stream_splice _ _) => apply graceful_checked
  | |- graceful (checked _ _) => apply graceful_checked
  | |- graceful (_ostree_repo_has_loose_object _ _) =>
      apply graceful_has_loose_object
  | |- graceful (commit_loose_object_trusted _ _) =>
      apply graceful_commit_loose_object_trusted
  | |- _ => graceful_core
  end.

Lemma graceful_materialize objtype repo_mode input file_object_length :
  graceful (materialize objtype repo_mode input file_object_length).
Proof.
  unfold materialize, materialize_file, materialize_metadata, open_temp_file.
  destruct objtype; repeat graceful_step.
Qed.

Lemma graceful_apply_bare_attributes m :
  is_Some (m_file_info m) -> graceful (apply_bare_attributes m).
Proof.
  intros [fi Hfi]. unfold apply_bare_attributes, apply_mode_and_sync.
  rewrite Hfi. repeat graceful_step.
Qed.

Lemma materialize_file_info repo_mode input file_object_length x m x' :
  materialize OSTREE_OBJECT_TYPE_FILE repo_mode input file_object_length x
  = (Ok m, x') ->
  is_Some (m_file_info m).
Proof.
  unfold materialize, materialize_file. intros H.
  destruct (ostree_content_stream_parse input file_object_length) as [e|pc];
    [done|].
  simpl in H. destruct (negb _); [done|].
  destruct repo_mode, (bool_decide (_ = G_FILE_TYPE_REGULAR));
    repeat (inv_bind H; [|not_ok]); inv_ret H; by eauto.
Qed.

(** The event that ends the life of the temp file [name] in [tmp/]: the
    rename into [objects/], or an unlink. *)
Definition disposes (name : string) (ev : Event) : Prop :=
  (exists loose_path, ev = Ev (SYS_renameat name loose_path) None)
  \/ (exists errno, ev = Ev (SYS_unlinkat name) errno).

Definition is_create_call (c : Syscall) : bool :=
  match c with
  | SYS_openat_excl _ _ | SYS_symlinkat _ _ => true
  | _ => false
  end.

Definition not_create (c : Syscall) : bool := negb (is_create_call c).

(** No event of the list made a temp file. *)
Definition no_creation (evs : list Event) : Prop :=
  Forall (fun ev => forall name, ~ creates name ev) evs.

(** The list holds the making of one temp file, [t], and of no other;
    if [disposed], an event after it ends the life of [t]. *)
Definition one_temp (t : string) (disposed : bool) (evs : list Event)
    : Prop :=
  exists evs0 ev evs1,
    evs = evs0 ++ ev :: evs1
    /\ no_creation evs0 /\ creates t ev /\ no_creation evs1
    /\ (disposed = true -> Exists (disposes t) evs1).

Lemma no_creation_class evs :
  Forall (of_class not_create) evs -> no_creation evs.
Proof.
  intros F. eapply Forall_impl; [exact F|].
  intros [c e] Hc name [[fm [= -> ->]]|[tg [= -> ->]]]; done.
Qed.

Lemma no_creation_failed call e : no_creation [Ev call (Some e)].
Proof.
  repeat constructor. by intros name [[fm [=]]|[tg [=]]].
Qed.

Lemma no_creation_app evs1 evs2 :
  no_creation evs1 -> no_creation evs2 -> no_creation (evs1 ++ evs2).
Proof. intros. by apply Forall_app. Qed.

Lemma one_temp_app_l t d evs0 evs :
  no_creation evs0 -> one_temp t d evs -> one_temp t d (evs0 ++ evs).
Proof.
  intros H0 (a & ev & b & -> & Ha & Hc & Hb & Hd).
  exists (evs0 ++ a), ev, b. rewrite <- app_assoc.
  split_and!; try done. by apply no_creation_app.
Qed.

Lemma one_temp_app_r t d evs evs' :
  one_temp t d evs -> no_creation evs' -> one_temp t d (evs ++ evs').
Proof.
  intros (a & ev & b & -> & Ha & Hc & Hb & Hd) H'.
  exists a, ev, (b ++ evs'). rewrite <- app_assoc. simpl.
  split_and!; try done; [by apply no_creation_app|].
  intros Ht. apply Exists_app. left. by apply Hd.
Qed.

Lemma one_temp_dispose t d evs evs' :
  one_temp t d evs -> no_creation evs' -> Exists (disposes t) evs' ->
  one_temp t true (evs ++ evs').
Proof.
  intros (a & ev & b & -> & Ha & Hc & Hb & Hd) H' Hex.
  exists a, ev, (b ++ evs'). rewrite <- app_assoc. simpl.
  split_and!; try done; [by apply no_creation_app|].
  intros _. apply Exists_app. by right.
Qed.

Lemma gs_file_open_in_tmpdir_at_life file_mode s r s' :
  gs_file_open_in_tmpdir_at file_mode s = (r, s') ->
  exists evs,
    logged s s' evs
    /\ match r with
       | Ok name => one_temp name false evs
       | _ => no_creation evs
       end.
Proof.
  unfold gs_file_open_in_tmpdir_at. generalize 128%nat. intros n.
  revert s. induction n as [|n IH]; intros s H; simpl in H.
  { inv_ret H. exists []. split; [apply logged_refl|by constructor]. }
  step_bind H as tmpname s1 Hg; [|inversion Hg; subst; done].
  assert (logged s s1 []) as L0.
  { inversion Hg; subst. unfold logged. simpl. by rewrite app_nil_r. }
  rewrite bind_get in H.
  step_bind H as errno s2 Hsys;
    [|apply syscall_inv in Hsys as (?&->&_); done].
  apply syscall_inv in Hsys as (errno' & [= <-] & L1 & _).
  pose proof (logged_trans _ _ _ _ _ L0 L1) as L. simpl in L.
  destruct errno as [e|].
  - destruct (decide (e = EEXIST)) as [->|Hne].
    + apply IH in H as (evs & L2 & Hr).
      eexists. split; [exact (logged_trans _ _ _ _ _ L L2)|].
      destruct r; first [ by apply one_temp_app_l; [apply no_creation_failed|]
                        | by apply no_creation_app;
                            [apply no_creation_failed|] ].
    + assert (r = Error (ErrFromErrno e) /\ s' = s2) as [-> ->].
      { destruct e; try done; by inv_ret H. }
      eexists. split; [exact L|]. apply no_creation_failed.
  - inv_ret H. eexists. split; [exact L|].
    exists [], (Ev (SYS_openat_excl tmpname file_mode) None), [].
    split_and!; try done; try (by constructor). left. by exists file_mode.
Qed.

Lemma symlink_collisions_no_creation target gen next k :
  no_creation (symlink_collisions target gen next k).
Proof.
  unfold symlink_collisions, no_creation. apply Forall_map, Forall_forall.
  intros i _ name [[fm [=]]|[tg [=]]].
Qed.

Lemma make_temporary_symlink_at_life target s r s' :
  make_temporary_symlink_at target s = (r, s') ->
  exists evs,
    logged s s' evs
    /\ match r with
       | Ok name => one_temp name false evs
       | _ => no_creation evs
       end.
Proof.
  unfold make_temporary_symlink_at. intros H.
  apply make_temporary_symlink_at_loop_inv in H as (_ & _ & k & Hk).
  pose proof (symlink_collisions_no_creation target
                (tmp_name_gen (env s)) (tmp_name_next (env s)) k) as Hno.
  destruct Hk as [(_ & -> & L & _)
                 |[(_ & e & _ & -> & L & _)|(_ & -> & L & _)]];
    (eexists; split; [exact L|]).
  - done.
  - apply no_creation_app; [done|apply no_creation_failed].
  - eexists _, _, []. split_and!; try done; try (by constructor).
    right. by exists target.
Qed.

(** A computation that leaves the caller's local variables alone. *)
Definition keeps_locals {L A} (c : M (L * State) A) : Prop :=
  forall x r x', c x = (r, x') -> fst x' = fst x.

Lemma keeps_locals_ret {L A} (a : A) : keeps_locals (@ret (L * State) A a).
Proof. by intros x r x' [= <- <-]. Qed.
Lemma keeps_locals_throw {L A} e : keeps_locals (@throw (L * State) A e).
Proof. by intros x r x' [= <- <-]. Qed.
Lemma keeps_locals_lift {L A} (c : M State A) : keeps_locals (@lift L A c).
Proof. intros [l s] r [l' s'] H. by apply lift_inv in H as [-> _]. Qed.
Lemma keeps_locals_bind {L A B} (c : M (L * State) A)
    (k : A -> M (L * State) B) :
  keeps_locals c -> (forall a, keeps_locals (k a)) -> keeps_locals (bind c k).
Proof.
  intros Hc Hk x r x' H. step_bind H as a x1 Hca.
  - rewrite (Hk _ _ _ _ H). by eapply Hc.
  - by eapply Hc.
Qed.

Ltac keeps_locals_step :=
  lazymatch goal with
  | |- keeps_locals (bind _ _) => apply keeps_locals_bind; [|intros ?]
  | |- keeps_locals (ret _) => apply keeps_locals_ret
  | |- keeps_locals (throw _) => apply keeps_locals_throw
  | |- keeps_locals (lift _) => apply keeps_locals_lift
  | |- keeps_locals (match ?x with _ => _ end) => destruct x
  end.

(** What making the temp file of an object logs, and the name it leaves
    in [temp_filename]. *)
Definition temp_made (l l' : WriteObjectLocals) (r : Res Materialized)
    (evs : list Event) : Prop :=
  (l' = l /\ is_ok r = false /\ no_creation evs)
  \/ exists t,
       l' = {| temp_filename := Some t |} /\ one_temp t false evs
       /\ forall m, r = Ok m -> m_temp m = t.

Lemma open_then_life (k : string -> M (WriteObjectLocals * State) Materialized)
    l s r l' s' :
  (forall name, emits snd (of_class not_create) (k name)) ->
  (forall name, keeps_locals (k name)) ->
  (forall name x m x', k name x = (Ok m, x') -> m_temp m = name) ->
  (name <- open_temp_file ;; k name) (l, s) = (r, (l', s')) ->
  exists evs, logged s s' evs /\ temp_made l l' r evs.
Proof.
  intros Hev Hloc Hname H. unfold open_temp_file in H.
  step_bind H as name x1 Ho.
  - step_bind Ho as name' x2 Hopen; [|not_ok]. destruct x2 as [l2 s2].
    apply lift_inv in Hopen as [-> Hopen].
    apply gs_file_open_in_tmpdir_at_life in Hopen as (evs1 & L1 & H1).
    step_bind Ho as u x3 Hset; [|not_ok]. inversion Hset; subst.
    inv_ret Ho. simpl in H.
    pose proof (Hloc _ _ _ _ H) as Hl. simpl in Hl. subst l'.
    destruct (Hev _ _ _ _ H) as (evs2 & L2 & F2). simpl in L2.
    exists (evs1 ++ evs2). split; [by eapply logged_trans|].
    right. exists name. split; [done|].
    split; [by apply one_temp_app_r, no_creation_class|].
    intros m ->. by eapply Hname.
  - step_bind Ho as name' x2 Hopen.
    { step_bind Ho as u x3 Hset; [by inversion Ho; subst|].
      inversion Hset; subst. done. }
    apply lift_inv in Hopen as [-> Hopen].
    apply gs_file_open_in_tmpdir_at_life in Hopen as (evs1 & L1 & H1).
    subst. exists evs1. split; [done|]. left.
    split; [done|]. split; by destruct r1.
Qed.

Lemma materialize_life objtype repo_mode input file_object_length
    l s r l' s' :
  materialize objtype repo_mode input file_object_length (l, s)
  = (r, (l', s')) ->
  exists evs, logged s s' evs /\ temp_made l l' r evs.
Proof.
  assert (forall e : GError,
            throw e (l, s) = (r, (l', s')) ->
            exists evs, logged s s' evs /\ temp_made l l' r evs) as Hthrow.
  { intros e [= <- <- <-]. exists []. split; [apply logged_refl|].
    left. split_and!; try done. by constructor. }
  unfold materialize, materialize_file, materialize_metadata. intros H.
  assert (forall input',
    (name <- open_temp_file;;
     lift (g_output_stream_splice name input');;;
     ret {| m_temp := name; m_file_info := None; m_xattrs := None;
            m_is_symlink := false; m_read := input' |}) (l, s)
    = (r, (l', s')) ->
    exists evs, logged s s' evs /\ temp_made l l' r evs) as Hmeta.
  { intros input'. apply open_then_life.
    - intros name. repeat emits_step.
    - intros name. repeat keeps_locals_step.
    - intros name x m x' Hk. repeat (inv_bind Hk; [|not_ok]). by inv_ret Hk. }
  destruct objtype; try (by apply (Hmeta input)).
  destruct (ostree_content_stream_parse input file_object_length) as [e|pc];
    [by eapply Hthrow|].
  simpl in H. destruct (negb _); [by eapply Hthrow|].
  destruct repo_mode.
  - destruct (bool_decide (standard_type (pc_file_info pc)
                           = G_FILE_TYPE_REGULAR)).
    + revert H. apply open_then_life.
      * intros name. repeat emits_step.
      * intros name. repeat keeps_locals_step.
      * intros name x m x' Hk. repeat (inv_bind Hk; [|not_ok]).
        by inv_ret Hk.
    + step_bind H as name x1 Ho.
      * destruct x1 as [l1 s1]. apply lift_inv in Ho as [-> Ho].
        apply make_temporary_symlink_at_life in Ho as (evs & L & H1).
        step_bind H as u x2 Hs; [|by inversion Hs; subst].
        inversion Hs; subst.
        inv_ret H. exists evs. split; [done|]. right. exists name.
        split; [done|]. split; [done|]. by intros m [= <-].
      * apply lift_inv in Ho as [-> Ho].
        apply make_temporary_symlink_at_life in Ho as (evs & L & H1).
        subst. exists evs. split; [done|]. left.
        split; [done|]. split; by destruct r0.
  - revert H. apply open_then_life.
    + intros name. repeat emits_step.
    + intros name. repeat keeps_locals_step.
    + intros name x m x' Hk. repeat (inv_bind Hk; [|not_ok]). by inv_ret Hk.
Qed.

Lemma emits_apply_bare_attributes_not_create m :
  emits id (of_class not_create) (apply_bare_attributes m).
Proof.
  unfold apply_bare_attributes, apply_mode_and_sync. repeat emits_step.
Qed.

(** Placing the temp file [m_temp m] makes no temp file; it either
    leaves the name in [temp_filename], or clears it after a rename or an
    unlink of the file. *)
Lemma store_object_life objtype out_csum file_object_length m
    actual_checksum s r lb sb :
  store_object objtype out_csum file_object_length m actual_checksum
    ({| temp_filename := Some (m_temp m) |}, s) = (r, (lb, sb)) ->
  exists evs,
    logged s sb evs /\ no_creation evs
    /\ (lb = {| temp_filename := Some (m_temp m) |}
        \/ lb = {| temp_filename := None |}
           /\ Exists (disposes (m_temp m)) evs).
Proof.
  intros H.
  assert (forall e sa ra sb',
            _ostree_repo_has_loose_object e objtype sa = (ra, sb') ->
            exists evs, logged sa sb' evs /\ no_creation evs) as Hhas.
  { intros e sa ra sb' Hh.
    destruct (emits_has_loose_object not_create _ _ ltac:(done) _ _ _ Hh)
      as (evs & L & F).
    exists evs. split; [done|]. by apply no_creation_class. }
  apply store_object_inv in H
    as [(r1 & Hh & _ & _ & ->)
       |[(p & s1 & Hh & _ & -> & ->)
        |(p & s1 & ra & s2 & Hh & Ha & Hrest)]].
  - apply Hhas in Hh as (evs & L & F). exists evs. by auto.
  - apply Hhas in Hh as (evs & L & F). exists evs. by auto.
  - apply Hhas in Hh as (evs1 & L1 & F1).
    assert (exists evs, logged s1 s2 evs /\ no_creation evs)
      as (evs2 & L2 & F2).
    { destruct (_ && _).
      - destruct (emits_apply_bare_attributes_not_create _ _ _ _ Ha)
          as (evs & L & F).
        exists evs. split; [done|]. by apply no_creation_class.
      - inv_ret Ha. exists []. split; [apply logged_refl|by constructor]. }
    destruct Hrest as [(_ & _ & -> & ->)|(_ & rc & s3 & Hc & Hrest)].
    { exists (evs1 ++ evs2). split; [by eapply logged_trans|].
      split; [by apply no_creation_app|by left]. }
    destruct (emits_commit_loose_object_trusted not_create _ _
                ltac:(done) ltac:(done) ltac:(done) _ _ _ Hc)
      as (evs3 & L3 & F3).
    apply no_creation_class in F3.
    assert (logged s sb (evs1 ++ evs2 ++ evs3)) as L.
    { destruct Hrest as [(_ & _ & _ & ->)|(_ & _ & _ & ->)];
        (eapply logged_trans; [exact L1|]; by eapply logged_trans). }
    exists (evs1 ++ evs2 ++ evs3). split; [done|].
    split; [by repeat apply no_creation_app|].
    destruct Hrest as [(_ & _ & -> & _)|(-> & _ & -> & _)]; [by left|].
    right. split; [done|].
    apply Exists_app. right. apply Exists_app. right.
    apply commit_loose_object_trusted_inv in Hc
      as [(e & _ & [=] & _)
         |(mk & _ & [[_ L']|[(ul & _ & L')|(e & _ & [=] & _)]])];
      rewrite (logged_inj _ _ _ _ L3 L').
    + apply Exists_cons_tl, Exists_cons_hd. left. by eexists.
    + do 2 apply Exists_cons_tl. apply Exists_cons_hd. right. by eexists.
Qed.

Lemma resolve_checksum_pure objtype expected_checksum out_csum m x r x' :
  resolve_checksum objtype expected_checksum out_csum m x = (r, x') ->
  x' = x
  /\ (is_Some expected_checksum \/ out_csum = true ->
      is_caller_error r = false).
Proof.
  unfold resolve_checksum. intros H.
  destruct out_csum, expected_checksum as [e|]; simpl in H;
    try destruct (decide _); inversion H; subst; split; try done.
  intros [[? [=]]|[=]].
Qed.

Lemma has_loose_object_life e objtype s r s' :
  _ostree_repo_has_loose_object e objtype s = (r, s') ->
  exists evs, logged s s' evs /\ no_creation evs.
Proof.
  intros Hh.
  destruct (emits_has_loose_object not_create _ _ ltac:(done) _ _ _ Hh)
    as (evs & L & F).
  exists evs. split; [done|]. by apply no_creation_class.
Qed.

(** The body of [write_object] makes at most one temp file.  When it
    ends with [temp_filename] unset, the temp file it made, if any, was
    renamed or unlinked; otherwise [temp_filename] names the one it made.
    It never ends in a caller error. *)
Lemma write_object_body_life objtype expected_checksum input
    file_object_length out_csum s r lb sb :
  is_Some expected_checksum \/ out_csum = true ->
  write_object_body objtype expected_checksum input file_object_length
    out_csum ({| temp_filename := None |}, s) = (r, (lb, sb)) ->
  is_caller_error r = false
  /\ exists evs,
       logged s sb evs
       /\ ((temp_filename lb = None
            /\ (no_creation evs \/ exists t, one_temp t true evs))
           \/ exists t, temp_filename lb = Some t /\ one_temp t false evs).
Proof.
  intros Hentry H.
  apply write_object_body_inv in H
    as [(e & p & _ & Hh & -> & ->)
       |[(e & r1 & _ & Hh & Hf & -> & ->)
        |(s1 & Hpre & Hrest)]].
  - split; [done|]. apply has_loose_object_life in Hh as (evs & L & F).
    exists evs. by auto.
  - split.
    { pose proof (graceful_has_loose_object _ _ _ _ _ Hh). by destruct r1. }
    apply has_loose_object_life in Hh as (evs & L & F).
    exists evs. by auto.
  - assert (exists evs0, logged s s1 evs0 /\ no_creation evs0)
      as (evs0 & L0 & F0).
    { destruct Hpre as [[_ ->]|(e & p & _ & Hh)].
      - exists []. split; [apply logged_refl|by constructor].
      - by eapply has_loose_object_life. }
    assert (forall rm l2 s2,
      materialize objtype (mode (self s1)) input file_object_length
        ({| temp_filename := None |}, s1) = (rm, (l2, s2)) ->
      exists evs,
        logged s s2 evs
        /\ ((l2 = {| temp_filename := None |} /\ is_ok rm = false
             /\ no_creation evs)
            \/ exists t, l2 = {| temp_filename := Some t |}
                 /\ one_temp t false evs
                 /\ forall m, rm = Ok m -> m_temp m = t)) as Hmat.
    { intros rm l2 s2 Hm.
      apply materialize_life in Hm as (evs1 & L1 & Hm).
      exists (evs0 ++ evs1). split; [by eapply logged_trans|].
      destruct Hm as [(-> & Hf & F1)|(t & -> & H1 & Ht)].
      - left. split_and!; try done. by apply no_creation_app.
      - right. exists t. split_and!; try done. by apply one_temp_app_l. }
    destruct Hrest as [(rm & Hm & Hf & ->)|(m & l2 & s2 & Hm & Hrest)].
    { split.
      { pose proof (graceful_materialize _ _ _ _ _ _ _ Hm). by destruct rm. }
      apply Hmat in Hm as (evs & L & [(-> & _ & F)|(t & -> & H1 & _)]);
        exists evs; (split; [done|]); [by auto|].
      right. by exists t. }
    pose proof Hm as Hm'.
    apply Hmat in Hm' as (evs & L & [(_ & [=] & _)|(t & -> & H1 & Ht)]).
    specialize (Ht m eq_refl). subst t.
    destruct Hrest as [(rr & Hr & Hf & ->)|(cs & Hr & Hs)].
    { apply resolve_checksum_pure in Hr as [[= -> ->] Hg].
      split; [specialize (Hg Hentry); by destruct rr|].
      exists evs. split; [done|]. right. by exists (m_temp m). }
    split.
    { apply store_object_inv in Hs
        as [(r1 & Hh & Hf & -> & _)
           |[(p & s3 & _ & -> & _)
            |(p & s3 & ra & s4 & Hh & Ha & Hx)]]; [|done|].
      { pose proof (graceful_has_loose_object _ _ _ _ _ Hh). by destruct r1. }
      assert (is_caller_error ra = false) as Hra.
      { destruct (bool_decide (objtype = _)) eqn:Ho; simpl in Ha;
          [|by inv_ret Ha].
        apply bool_decide_eq_true in Ho. subst objtype.
        destruct (bool_decide (mode _ = _)); simpl in Ha; [|by inv_ret Ha].
        eapply graceful_apply_bare_attributes; [|exact Ha].
        by eapply materialize_file_info. }
      destruct Hx as [(Hf & -> & _)|(_ & rc & s5 & Hc & Hx)];
        [by destruct ra|].
      pose proof (graceful_commit_loose_object_trusted _ _ _ _ _ Hc).
      destruct Hx as [(Hf & -> & _)|(_ & -> & _)]; [by destruct rc|done]. }
    apply store_object_life in Hs as (evs2 & L2 & F2 & Hl).
    exists (evs ++ evs2). split; [by eapply logged_trans|].
    destruct Hl as [->|[-> Hex]].
    + right. exists (m_temp m). split; [done|]. by apply one_temp_app_r.
    + left. split; [done|]. right. exists (m_temp m).
      by eapply one_temp_dispose.
Qed.

(** X12.  Every run of [write_object] makes at most one temp file
    (one exclusive create or one symlink in [tmp/] that succeeds), and
    whenever it made one, a later call of the same run either renames
    that file into [objects/] or is an [unlinkat] of it, whose result
    the code does not look at. *)
Theorem write_object_disposes_temp_file objtype expected_checksum input
    file_object_length out_csum cancelled s s' r evs :
  write_object objtype expected_checksum input file_object_length out_csum
    cancelled s = (r, s') ->
  logged s s' evs ->
  no_creation evs \/ exists t, one_temp t true evs.
Proof.
  intros H L.
  apply write_object_cases in H
    as [[-> _]|(_ & _ & Hentry & lb & sb & Hb & Hout)].
  { rewrite (logged_inj _ _ _ _ L (logged_refl s)). left. by constructor. }
  apply write_object_body_life in Hb as (Hg & evs1 & L1 & Hb);
    [|exact Hentry].
  destruct Hout as [[[->|Hn] ->]|(_ & t & Ht & ->)]; [done| |].
  - rewrite (logged_inj _ _ _ _ L L1).
    destruct Hb as [[_ Hb]|(t & Ht & _)]; [done|congruence].
  - destruct Hb as [[Hn _]|(t' & Ht' & H1)]; [congruence|].
    assert (t' = t) as -> by congruence.
    destruct (syscall (SYS_unlinkat t) (eff_unlinkat t) sb) as [ru su] eqn:Hu.
    apply syscall_inv in Hu as (errno & _ & Lu & _). simpl in L.
    rewrite (logged_inj _ _ _ _ L (logged_trans _ _ _ _ _ L1 Lu)).
    right. exists t. eapply one_temp_dispose; [exact H1| |].
    + destruct errno as [e|]; [apply no_creation_failed|].
      repeat constructor. by intros name [[fm [=]]|[tg [=]]].
    + apply Exists_cons_hd. right. by eexists.
Qed.

(** A rename that was answered EEXIST: [commit_loose_object_trusted]
    takes it as "the object is there" (lines 60-67). *)
Definition rename_collided (ev : Event) : Prop :=
  exists tempfile_name loose_path,
    ev = Ev (SYS_renameat tempfile_name loose_path) (Some EEXIST).

Lemma has_loose_object_true checksum objtype s p s' :
  _ostree_repo_has_loose_object checksum objtype s = (Ok (true, p), s') ->
  disk s' = disk s /\ self s' = self s
  /\ is_Some (objects_dir (disk s)
              !! _ostree_loose_path checksum objtype (mode (self s))).
Proof.
  unfold _ostree_repo_has_loose_object. rewrite bind_get. intros H.
  step_bind H as errno s1 Hsys;
    [|apply syscall_inv in Hsys as (?&->&_); done].
  apply syscall_inv in Hsys as (errno' & [= <-] & _ & Hs & _ & _ & Hd).
  destruct errno as [[]|]; inv_ret H. destruct Hd as [Hd _].
  unfold eff_fstatat in Hd.
  destruct (objects_dir (disk s) !! _) as [i|] eqn:Hl; [|done].
  injection Hd as Hd. split; [done|]. split; [done|]. by eauto.
Qed.

Lemma has_loose_object_path checksum objtype s b p s' :
  _ostree_repo_has_loose_object checksum objtype s = (Ok (b, p), s') ->
  p = _ostree_loose_path checksum objtype (mode (self s)).
Proof.
  intros H. apply has_loose_object_inv in H as (_ & _ & errno & _ & H).
  by destruct errno as [[]|]; inversion H.
Qed.

(** A placing that succeeds leaves an object at [loose_path], unless its
    rename was answered EEXIST. *)
Lemma commit_loose_object_trusted_ok loose_path tempfile_name s s' :
  commit_loose_object_trusted loose_path tempfile_name s = (Ok tt, s') ->
  exists evs,
    logged s s' evs
    /\ (is_Some (objects_dir (disk s') !! loose_path)
        \/ Exists rename_collided evs).
Proof.
  intros H. unfold commit_loose_object_trusted in H.
  step_bind H as r1 s1 Hmk; [|apply syscall_inv in Hmk as (?&->&_); done].
  apply syscall_inv in Hmk as (e1 & [= ->] & L1 & _).
  step_bind H as u s2 Hu; [|not_ok].
  assert (s2 = s1) as ->.
  { destruct e1 as [e1|]; [|by inv_ret Hu].
    destruct (decide (e1 <> EEXIST)); by inv_ret Hu. }
  step_bind H as r2 s3 Hrn; [|apply syscall_inv in Hrn as (?&->&_); done].
  apply syscall_inv in Hrn as (e2 & [= ->] & L2 & _ & _ & _ & Hd).
  destruct e2 as [e2|].
  - destruct (decide (e2 <> EEXIST)) as [|Heq]; [done|].
    assert (e2 = EEXIST) as -> by (by destruct e2; try done; destruct Heq).
    step_bind H as r3 s4 Hul;
      [|apply syscall_inv in Hul as (?&->&_); done].
    apply syscall_inv in Hul as (e3 & _ & L3 & _).
    inv_ret H. eexists. split.
    { eapply logged_trans; [exact L1|]. eapply logged_trans; [exact L2|].
      exact L3. }
    right. apply Exists_cons_tl, Exists_cons_hd. by do 2 eexists.
  - inv_ret H. eexists. split; [by eapply logged_trans|]. left.
    destruct Hd as [Hd _]. unfold eff_renameat in Hd.
    destruct (tmp_dir (disk s1) !! tempfile_name) as [i|]; [|done].
    case_decide; [|done]. injection Hd as Hd. rewrite <- Hd. simpl.
    rewrite lookup_insert_eq. by eauto.
Qed.

Lemma resolve_checksum_value objtype expected_checksum out_csum m x cs x' :
  resolve_checksum objtype expected_checksum out_csum m x = (Ok cs, x') ->
  cs = match expected_checksum with
       | Some e => e
       | None => g_checksum_get_string (g_checksum_sha256 (m_read m))
       end.
Proof.
  unfold resolve_checksum. intros H.
  destruct out_csum, expected_checksum as [e|]; simpl in H;
    try case_decide; inversion H; subst; try done.
Qed.

Lemma counted_logged objtype do_commit file_object_length s :
  logged s (counted objtype do_commit file_object_length s) [].
Proof. unfold logged, counted, set_self. simpl. by rewrite app_nil_r. Qed.

Lemma write_object_body_stores objtype expected_checksum input
    file_object_length out_csum l s v lb sb :
  write_object_body objtype expected_checksum input file_object_length
    out_csum (l, s) = (Ok v, (lb, sb)) ->
  let checksum :=
    match expected_checksum with
    | Some e => e
    | None =>
        g_checksum_get_string
          (g_checksum_sha256 (object_bytes objtype input file_object_length))
    end in
  exists evs,
    logged s sb evs
    /\ (is_Some (objects_dir (disk sb)
                 !! _ostree_loose_path checksum objtype (mode (self s)))
        \/ Exists rename_collided evs).
Proof.
  intros Hb checksum.
  apply write_object_body_inv in Hb
    as [(e & p & -> & Hh & _ & _)
       |[(e & r1 & _ & _ & Hf & Hr & _)
        |(s1 & Hpre & [(rm & _ & Hf & Hr)
                      |(m & l2 & s2 & Hm & [(rr & _ & Hf & Hr)
                                           |(cs & Hres & Hst)])])]];
    try (by destruct r1); try (by destruct rm); try (by destruct rr).
  { destruct (has_loose_object_life _ _ _ _ _ Hh) as (evs & L & _).
    apply has_loose_object_true in Hh as (Hd & _ & Hp).
    exists evs. split; [done|]. left. by rewrite Hd. }
  assert (exists evs0, logged s s1 evs0 /\ self s1 = self s
                       /\ disk s1 = disk s) as (evs0 & L0 & Hs1 & Hd1).
  { destruct Hpre as [[_ ->]|(e & p & _ & Hh)].
    - exists []. split; [apply logged_refl|done].
    - destruct (has_loose_object_life _ _ _ _ _ Hh) as (evs0 & L0 & _).
      apply has_loose_object_inv in Hh as (Hs & Hd & _). by exists evs0. }
  pose proof (materialize_read _ _ _ _ _ _ _ Hm) as Hread.
  pose proof (keeps_materialize _ _ _ _ _ _ _ Hm) as (Hs2 & _ & Ho2 & _).
  simpl in Hs2, Ho2.
  apply materialize_life in Hm as (evs1 & L1 & _).
  apply resolve_checksum_value in Hres. rewrite Hread in Hres.
  fold checksum in Hres. subst cs.
  assert (mode (self s2) = mode (self s)) as Hmode by (by rewrite Hs2, Hs1).
  apply store_object_inv in Hst
    as [(r1 & _ & Hf & Hr & _)
       |[(p & s3 & Hh & _ & _ & ->)
        |(p & s3 & ra & s4 & Hh & Ha &
          [(Hf & Hr & _)
          |(-> & rc & s5 & Hc & [(Hf & Hr & _)|(-> & _ & _ & ->)])])]];
    try (by destruct r1); try (by destruct ra); try (by destruct rc).
  - destruct (has_loose_object_life _ _ _ _ _ Hh) as (evs2 & L2 & _).
    apply has_loose_object_true in Hh as (Hd & _ & Hp).
    exists (evs0 ++ evs1 ++ evs2). split.
    { eapply logged_trans; [exact L0|]. eapply logged_trans; [exact L1|].
      rewrite <- (app_nil_r evs2).
      eapply logged_trans; [exact L2|apply counted_logged]. }
    left. simpl. by rewrite Hd, <- Hmode.
  - destruct (has_loose_object_life _ _ _ _ _ Hh) as (evs2 & L2 & _).
    pose proof (has_loose_object_path _ _ _ _ _ _ Hh) as Hp.
    rewrite Hmode in Hp. subst p.
    assert (exists evs3, logged s3 s4 evs3) as (evs3 & L3).
    { destruct (_ && _).
      - destruct (emits_apply_bare_attributes_not_create _ _ _ _ Ha)
          as (evs3 & L3 & _). by exists evs3.
      - inv_ret Ha. exists []. apply logged_refl. }
    apply commit_loose_object_trusted_ok in Hc as (evs4 & L4 & Hc).
    exists (evs0 ++ evs1 ++ evs2 ++ evs3 ++ evs4). split.
    { eapply logged_trans; [exact L0|]. eapply logged_trans; [exact L1|].
      eapply logged_trans; [exact L2|]. eapply logged_trans; [exact L3|].
      rewrite <- (app_nil_r evs4).
      eapply logged_trans; [exact L4|apply counted_logged]. }
    destruct Hc as [Hc|Hc]; [by left|]. right.
    do 4 (apply Exists_app; right). exact Hc.
Qed.

(** A successful [write_object]: its log, what it keeps, and the
    object it leaves unless a rename was answered EEXIST. *)
Lemma write_object_ok_stored objtype expected_checksum input
    file_object_length out_csum cancelled s v s' :
  write_object objtype expected_checksum input file_object_length out_csum
    cancelled s = (Ok v, s') ->
  let checksum :=
    match expected_checksum with
    | Some e => e
    | None =>
        g_checksum_get_string
          (g_checksum_sha256 (object_bytes objtype input file_object_length))
    end in
  exists evs,
    logged s s' evs
    /\ mode (self s') = mode (self s)
    /\ (forall p, is_Some (objects_dir (disk s) !! p) ->
                  is_Some (objects_dir (disk s') !! p))
    /\ (is_Some (objects_dir (disk s')
                 !! _ostree_loose_path checksum objtype (mode (self s)))
        \/ Exists rename_collided evs).
Proof.
  intros H checksum.
  destruct (write_object_changes _ _ _ _ _ _ _ _ _ H)
    as ((_ & _ & _ & Hs & Hobj) & _).
  assert (mode (self s') = mode (self s)) as Hmode.
  { rewrite Hs. by destruct (self s). }
  assert (forall p, is_Some (objects_dir (disk s) !! p) ->
                    is_Some (objects_dir (disk s') !! p)) as Hkeys.
  { intros p Hp. destruct Hobj as [->|(lp & i & -> & _)]; [done|].
    destruct (decide (lp = p)) as [->|Hne].
    - rewrite lookup_insert_eq. by eauto.
    - by rewrite lookup_insert_ne. }
  apply write_object_cases in H
    as [(_ & [(_ & [=])|[(_ & _ & [=])|(_ & _ & _ & _ & [=])]])
       |(Hin & Hc & _ & lb & sb & Hb & Hout)].
  apply write_object_body_stores in Hb as (evs1 & L1 & Hb).
  assert (exists evs2, logged sb s' evs2
                       /\ objects_dir (disk s') = objects_dir (disk sb))
    as (evs2 & L2 & Ho).
  { destruct Hout as [[_ ->]|(_ & t & _ & ->)].
    - exists []. split; [apply logged_refl|done].
    - destruct (syscall (SYS_unlinkat t) (eff_unlinkat t) sb)
        as [ru su] eqn:Hu. simpl.
      pose proof (keeps_syscall _ _ (tmp_only_unlinkat _) _ _ _ Hu)
        as (_ & _ & Ho & _).
      apply syscall_inv in Hu as (errno & _ & Lu & _). by eexists. }
  exists (evs1 ++ evs2). split; [by eapply logged_trans|].
  split; [done|]. split; [done|]. rewrite Ho.
  destruct Hb as [Hb|Hb]; [by left|]. right. apply Exists_app. by left.
Qed.

(** X13.  After a call of [write_object] that succeeds, the object
    is in [objects/] at the loose path of its checksum (the expected one
    if given, else the SHA-256 of the bytes read), so that
    [_ostree_repo_has_loose_object] finds it: unless a rename of the run
    was answered EEXIST, which [commit_loose_object_trusted] takes for
    success without looking. *)
Theorem write_object_stores (objtype : OstreeObjectType)
    (expected_checksum : option string) (input : list byte)
    (file_object_length : Z) (out_csum cancelled : bool) (s s' : State)
    (v : option (list byte)) (evs : list Event) :
  write_object objtype expected_checksum input file_object_length out_csum
    cancelled s = (Ok v, s') ->
  logged s s' evs ->
  ~ Exists rename_collided evs ->
  let checksum :=
    match expected_checksum with
    | Some e => e
    | None =>
        g_checksum_get_string
          (g_checksum_sha256 (object_bytes objtype input file_object_length))
    end in
  let path := _ostree_loose_path checksum objtype (mode (self s)) in
  is_Some (objects_dir (disk s') !! path)
  /\ (calm s' ->
      fst (_ostree_repo_has_loose_object checksum objtype s')
      = Ok (true, path)).
Proof.
  intros H L Hno checksum path.
  apply write_object_ok_stored in H as (evs' & L' & Hmode & _ & Hp).
  rewrite (logged_inj _ _ _ _ L L') in Hno.
  destruct Hp as [Hp|Hp]; [|done]. fold checksum path in Hp.
  split; [done|]. intros Hc.
  destruct (has_loose_object_calm checksum objtype s' Hc) as (s2 & -> & _).
  simpl. rewrite Hmode. fold path. by rewrite bool_decide_eq_true_2.
Qed.

(** ** Writing a mutable tree (lines 1608-1673) *)

(** Induction on a tree, with the property at hand for every
    subdirectory. *)
Fixpoint OstreeMutableTree_subdirs_ind (P : OstreeMutableTree -> Prop)
    (step : forall t, Forall (fun sub => P (snd sub)) (mt_subdirs t) -> P t)
    (t : OstreeMutableTree) : P t :=
  step t
    (match t as t0
       return Forall (fun sub => P (snd sub)) (mt_subdirs t0) with
     | Build_OstreeMutableTree _ _ _ subdirs =>
         (fix go (l : list (string * OstreeMutableTree))
            : Forall (fun sub => P (snd sub)) l :=
            match l with
            | [] => @List.Forall_nil _ _
            | sub :: rest =>
                @List.Forall_cons _ _ sub rest
                  (OstreeMutableTree_subdirs_ind P step (snd sub)) (go rest)
            end) subdirs
     end).

(** The loop of lines 1637-1656 over the subdirectories. *)
Definition write_subdirs (cancelled : bool)
    : list (string * OstreeMutableTree)
      -> M State (list (string * (string * string))) :=
  fix write_subdirs (subdirs : list (string * OstreeMutableTree)) :=
    match subdirs with
    | [] => ret []
    | (name, child_dir) :: rest =>
        child_dir_contents_checksum <-
          ostree_repo_write_mtree child_dir cancelled ;;
        match mt_metadata_checksum child_dir with
        | None => abort
        | Some metadata_checksum =>
            more <- write_subdirs rest ;;
            ret ((name, (child_dir_contents_checksum, metadata_checksum))
                 :: more)
        end
    end.

Lemma write_subdirs_cons cancelled name child_dir rest :
  write_subdirs cancelled ((name, child_dir) :: rest)
  = (child_dir_contents_checksum <-
       ostree_repo_write_mtree child_dir cancelled ;;
     match mt_metadata_checksum child_dir with
     | None => abort
     | Some metadata_checksum =>
         more <- write_subdirs cancelled rest ;;
         ret ((name, (child_dir_contents_checksum, metadata_checksum))
              :: more)
     end).
Proof. done. Qed.

Lemma ostree_repo_write_mtree_eq mtree cancelled :
  ostree_repo_write_mtree mtree cancelled
  = match mt_contents_checksum mtree with
    | Some existing_checksum => ret existing_checksum
    | None =>
        children <- write_subdirs cancelled (mt_subdirs mtree) ;;
        let tables := collect_dir_checksums children in
        match create_tree_variant_from_hashes (mt_files mtree)
                (fst tables) (snd tables) with
        | None => abort
        | Some serialized_tree =>
            contents_csum <-
              ostree_repo_write_metadata OSTREE_OBJECT_TYPE_DIR_TREE None
                serialized_tree true cancelled ;;
            match contents_csum with
            | Some csum => ret (ostree_checksum_from_bytes csum)
            | None => abort
            end
        end
    end.
Proof. by destruct mtree. Qed.

(** The contents checksum of a tree as a function of the tree alone: the
    cached one, else the digest of the DIR_TREE variant made of the files
    table and of the checksums of the subdirectories. *)
Fixpoint mtree_contents_checksum (mtree : OstreeMutableTree)
    : option string :=
  match mt_contents_checksum mtree with
  | Some existing_checksum => Some existing_checksum
  | None =>
      children ←
        (fix subdirs_checksums (subdirs : list (string * OstreeMutableTree))
           : option (list (string * (string * string))) :=
           match subdirs with
           | [] => Some []
           | (name, child_dir) :: rest =>
               contents ← mtree_contents_checksum child_dir;
               metadata_checksum ← mt_metadata_checksum child_dir;
               more ← subdirs_checksums rest;
               Some ((name, (contents, metadata_checksum)) :: more)
           end) (mt_subdirs mtree);
      let tables := collect_dir_checksums children in
      serialized_tree ←
        create_tree_variant_from_hashes (mt_files mtree)
          (fst tables) (snd tables);
      Some (ostree_checksum_from_bytes
              (g_checksum_sha256 (ot_variant_read serialized_tree)))
  end.

Fixpoint subdirs_checksums (subdirs : list (string * OstreeMutableTree))
    : option (list (string * (string * string))) :=
  match subdirs with
  | [] => Some []
  | (name, child_dir) :: rest =>
      contents ← mtree_contents_checksum child_dir;
      metadata_checksum ← mt_metadata_checksum child_dir;
      more ← subdirs_checksums rest;
      Some ((name, (contents, metadata_checksum)) :: more)
  end.

Lemma mtree_contents_checksum_eq mtree :
  mtree_contents_checksum mtree
  = match mt_contents_checksum mtree with
    | Some existing_checksum => Some existing_checksum
    | None =>
        children ← subdirs_checksums (mt_subdirs mtree);
        let tables := collect_dir_checksums children in
        serialized_tree ←
          create_tree_variant_from_hashes (mt_files mtree)
            (fst tables) (snd tables);
        Some (ostree_checksum_from_bytes
                (g_checksum_sha256 (ot_variant_read serialized_tree)))
    end.
Proof. by destruct mtree. Qed.

Lemma write_subdirs_checksums cancelled subdirs s children s' :
  Forall (fun sub =>
            forall s cs s',
              ostree_repo_write_mtree (snd sub) cancelled s = (Ok cs, s') ->
              mtree_contents_checksum (snd sub) = Some cs) subdirs ->
  write_subdirs cancelled subdirs s = (Ok children, s') ->
  subdirs_checksums subdirs = Some children.
Proof.
  intros HF. revert s children.
  induction HF as [|[name child] rest Hchild _ IH]; intros s children H.
  { by injection H as <- _. }
  rewrite write_subdirs_cons in H. step_bind H as cs s1 Hc; [|not_ok].
  simpl in Hchild. apply Hchild in Hc.
  change (subdirs_checksums ((name, child) :: rest))
    with (contents ← mtree_contents_checksum child;
          metadata_checksum ← mt_metadata_checksum child;
          more ← subdirs_checksums rest;
          Some ((name, (contents, metadata_checksum)) :: more)).
  rewrite Hc. simpl.
  destruct (mt_metadata_checksum child) as [mc|]; [|done]. simpl.
  step_bind H as more s2 Hm; [|not_ok]. inv_ret H.
  by rewrite (IH _ _ Hm).
Qed.

Lemma write_mtree_checksum cancelled mtree :
  forall s cs s',
    ostree_repo_write_mtree mtree cancelled s = (Ok cs, s') ->
    mtree_contents_checksum mtree = Some cs.
Proof.
  induction mtree as [mtree IH] using OstreeMutableTree_subdirs_ind.
  intros s cs s' H.
  rewrite ostree_repo_write_mtree_eq in H.
  rewrite mtree_contents_checksum_eq.
  destruct (mt_contents_checksum mtree) as [c|]; [by inv_ret H|].
  step_bind H as children s1 Hch; [|not_ok].
  rewrite (write_subdirs_checksums _ _ _ _ _ IH Hch). simpl.
  cbv zeta in H.
  destruct (create_tree_variant_from_hashes _ _ _) as [v|]; [|done]. simpl.
  step_bind H as contents_csum s2 Hw; [|not_ok].
  destruct contents_csum as [csum|]; [|done]. inv_ret H.
  apply write_object_ok_digest in Hw as (_ & _ & Hv & _).
  by destruct (Hv csum eq_refl) as (_ & -> & _).
Qed.

(** X14.  The contents checksum a successful
    [ostree_repo_write_mtree] hands back is a function of the tree alone:
    the cached checksum of the node, else the hex SHA-256 of the DIR_TREE
    variant built from the files table and from the contents and metadata
    checksums of the subdirectories, each computed the same way.  So two
    successful runs on the same tree agree, whatever the repository holds
    and whatever else they did. *)
Theorem write_mtree_checksum_of_tree (mtree : OstreeMutableTree)
    (cancelled : bool) (s s' : State) (cs : string) :
  ostree_repo_write_mtree mtree cancelled s = (Ok cs, s') ->
  mtree_contents_checksum mtree = Some cs
  /\ forall cancelled2 s2 cs2 s2',
       ostree_repo_write_mtree mtree cancelled2 s2 = (Ok cs2, s2') ->
       cs2 = cs.
Proof.
  intros H. apply write_mtree_checksum in H. split; [done|].
  intros c2 s2 cs2 s2' H2. apply write_mtree_checksum in H2. congruence.
Qed.

(** The checksums of the DIR_TREE objects a run of
    [ostree_repo_write_mtree] writes: none below a node with a cached
    contents checksum; else those of the subdirectories, then the one of
    the node. *)
Fixpoint mtree_written (mtree : OstreeMutableTree) : list string :=
  match mt_contents_checksum mtree with
  | Some _ => []
  | None =>
      (fix subdirs_written (subdirs : list (string * OstreeMutableTree)) :=
         match subdirs with
         | [] => []
         | (_, child_dir) :: rest =>
             mtree_written child_dir ++ subdirs_written rest
         end) (mt_subdirs mtree)
      ++ match mtree_contents_checksum mtree with
         | Some cs => [cs]
         | None => []
         end
  end.

Definition subdirs_written
    : list (string * OstreeMutableTree) -> list string :=
  fix subdirs_written (subdirs : list (string * OstreeMutableTree)) :=
    match subdirs with
    | [] => []
    | (_, child_dir) :: rest =>
        mtree_written child_dir ++ subdirs_written rest
    end.

Lemma mtree_written_eq mtree :
  mtree_written mtree
  = match mt_contents_checksum mtree with
    | Some _ => []
    | None =>
        subdirs_written (mt_subdirs mtree)
        ++ match mtree_contents_checksum mtree with
           | Some cs => [cs]
           | None => []
           end
    end.
Proof. by destruct mtree. Qed.

(** The DIR_TREE object of [checksum] is in [objects/]. *)
Definition has_dirtree (s : State) (checksum : string) : Prop :=
  is_Some (objects_dir (disk s)
           !! _ostree_loose_path checksum OSTREE_OBJECT_TYPE_DIR_TREE
                (mode (self s))).

(** What a successful run over trees leaves: its log, the mode and the
    objects that were there, and the DIR_TREE objects of [written]
    unless a rename was answered EEXIST. *)
Definition trees_stored (s s' : State) (written : list string) : Prop :=
  exists evs,
    logged s s' evs
    /\ mode (self s') = mode (self s)
    /\ (forall p, is_Some (objects_dir (disk s) !! p) ->
                  is_Some (objects_dir (disk s') !! p))
    /\ (~ Exists rename_collided evs -> Forall (has_dirtree s') written).

Lemma trees_stored_refl s : trees_stored s s [].
Proof. exists []. split; [apply logged_refl|]. by split_and!. Qed.

Lemma trees_stored_trans s1 s2 s3 w1 w2 :
  trees_stored s1 s2 w1 -> trees_stored s2 s3 w2 ->
  trees_stored s1 s3 (w1 ++ w2).
Proof.
  intros (evs1 & L1 & M1 & K1 & W1) (evs2 & L2 & M2 & K2 & W2).
  exists (evs1 ++ evs2). split; [by eapply logged_trans|].
  split; [by rewrite M2|]. split; [by auto|].
  intros Hno. apply Forall_app. split.
  - eapply Forall_impl; [apply W1|].
    + intros Hx. apply Hno, Exists_app. by left.
    + intros cs Hcs. unfold has_dirtree in *. rewrite M2. by apply K2.
  - apply W2. intros Hx. apply Hno, Exists_app. by right.
Qed.

Lemma write_subdirs_stored cancelled subdirs s children s' :
  Forall (fun sub =>
            forall s cs s',
              ostree_repo_write_mtree (snd sub) cancelled s = (Ok cs, s') ->
              trees_stored s s' (mtree_written (snd sub))) subdirs ->
  write_subdirs cancelled subdirs s = (Ok children, s') ->
  trees_stored s s' (subdirs_written subdirs).
Proof.
  intros HF. revert s children.
  induction HF as [|[name child] rest Hchild _ IH]; intros s children H.
  { injection H as _ <-. apply trees_stored_refl. }
  rewrite write_subdirs_cons in H. step_bind H as cs s1 Hc; [|not_ok].
  simpl in Hchild. apply Hchild in Hc.
  destruct (mt_metadata_checksum child) as [mc|]; [|done].
  step_bind H as more s2 Hm; [|not_ok]. inv_ret H.
  change (subdirs_written ((name, child) :: rest))
    with (mtree_written child ++ subdirs_written rest).
  eapply trees_stored_trans; [exact Hc|]. by eapply IH.
Qed.

Lemma write_mtree_trees_stored cancelled mtree :
  forall s cs s',
    ostree_repo_write_mtree mtree cancelled s = (Ok cs, s') ->
    trees_stored s s' (mtree_written mtree).
Proof.
  induction mtree as [mtree IH] using OstreeMutableTree_subdirs_ind.
  intros s cs s' H. pose proof (write_mtree_checksum _ _ _ _ _ H) as Hcs.
  rewrite ostree_repo_write_mtree_eq in H. rewrite mtree_written_eq, Hcs.
  destruct (mt_contents_checksum mtree) as [c|].
  { inv_ret H. apply trees_stored_refl. }
  step_bind H as children s1 Hch; [|not_ok]. cbv zeta in H.
  eapply trees_stored_trans; [by eapply write_subdirs_stored|].
  destruct (create_tree_variant_from_hashes _ _ _) as [v|]; [|done].
  step_bind H as contents_csum s2 Hw; [|not_ok].
  destruct contents_csum as [csum|]; [|done]. inv_ret H.
  pose proof (write_object_ok_digest _ _ _ _ _ _ _ _ _ Hw)
    as (_ & _ & Hv & _).
  destruct (Hv csum eq_refl) as (_ & -> & _).
  apply write_object_ok_stored in Hw as (evs & L & Hm & Hk & Hp).
  exists evs. split; [done|]. split; [done|]. split; [done|].
  intros Hno. destruct Hp as [Hp|Hp]; [|done].
  constructor; [|done]. unfold has_dirtree. by rewrite Hm.
Qed.

(** X15.  After a successful [ostree_repo_write_mtree], the
    DIR_TREE object of every node the run wrote (the root and, below
    nodes without a cached contents checksum, every subdirectory without
    one) is in [objects/] under its contents checksum; objects that were
    there before are still there.  The exception is a run in which a
    rename was answered EEXIST. *)
Theorem write_mtree_stores_trees (mtree : OstreeMutableTree)
    (cancelled : bool) (s s' : State) (cs : string) (evs : list Event) :
  ostree_repo_write_mtree mtree cancelled s = (Ok cs, s') ->
  logged s s' evs ->
  ~ Exists rename_collided evs ->
  Forall (has_dirtree s') (mtree_written mtree)
  /\ (mt_contents_checksum mtree = None -> has_dirtree s' cs)
  /\ forall p, is_Some (objects_dir (disk s) !! p) ->
               is_Some (objects_dir (disk s') !! p).
Proof.
  intros H L Hno.
  pose proof (write_mtree_checksum _ _ _ _ _ H) as Hcs.
  apply write_mtree_trees_stored in H as (evs' & L' & _ & Hk & Hw).
  rewrite (logged_inj _ _ _ _ L L') in Hno. specialize (Hw Hno).
  split; [done|]. split; [|done]. intros Hnone.
  rewrite mtree_written_eq, Hnone, Hcs in Hw.
  apply Forall_app in Hw as [_ Hw]. by inversion Hw.
Qed.

Lemma write_subdirs_outside cancelled subdirs s r s' :
  Forall (fun sub =>
            forall r s',
              ostree_repo_write_mtree (snd sub) cancelled s = (r, s') ->
              s' = s /\ (is_ok r = true \/ is_caller_error r = true))
    subdirs ->
  write_subdirs cancelled subdirs s = (r, s') ->
  s' = s /\ (is_ok r = true \/ is_caller_error r = true).
Proof.
  intros HF. revert r s'.
  induction HF as [|[name child] rest Hchild _ IH]; intros r s' H.
  { injection H as <- <-. by auto. }
  rewrite write_subdirs_cons in H. step_bind H as cs s1 Hc.
  2:{ apply Hchild in Hc as [-> [Hok|Herr]]; [by destruct r0|].
      subst r. split; [done|]. right. by destruct r0. }
  apply Hchild in Hc as [-> _].
  destruct (mt_metadata_checksum child) as [mc|];
    [|injection H as <- <-; by auto].
  step_bind H as more s2 Hm.
  - apply IH in Hm as [-> _]. inv_ret H. by auto.
  - apply IH in Hm as [-> [Hok|Herr]]; [by destruct r0|].
    subst r. split; [done|]. right. by destruct r0.
Qed.

(** X16.  Outside a transaction
    [ostree_repo_write_mtree] changes nothing.  For a node with a cached
    contents checksum it hands that checksum back; for any other node it
    ends in a caller error: the failed precondition of the first write
    it reaches, or the assertion on a subdirectory without a metadata
    checksum. *)
Theorem write_mtree_outside_transaction (mtree : OstreeMutableTree)
    (cancelled : bool) (s : State) :
  in_transaction (self s) = false ->
  snd (ostree_repo_write_mtree mtree cancelled s) = s
  /\ match mt_contents_checksum mtree with
     | Some existing_checksum =>
         fst (ostree_repo_write_mtree mtree cancelled s)
         = Ok existing_checksum
     | None =>
         is_caller_error (fst (ostree_repo_write_mtree mtree cancelled s))
         = true
     end.
Proof.
  intros Hin.
  induction mtree as [mtree IH] using OstreeMutableTree_subdirs_ind.
  rewrite ostree_repo_write_mtree_eq.
  destruct (mt_contents_checksum mtree) as [c|] eqn:Hcached; [done|].
  destruct ((children <- write_subdirs cancelled (mt_subdirs mtree) ;;
             let tables := collect_dir_checksums children in
             match create_tree_variant_from_hashes (mt_files mtree)
                     (fst tables) (snd tables) with
             | None => abort
             | Some serialized_tree =>
                 contents_csum <-
                   ostree_repo_write_metadata OSTREE_OBJECT_TYPE_DIR_TREE
                     None serialized_tree true cancelled ;;
                 match contents_csum with
                 | Some csum => ret (ostree_checksum_from_bytes csum)
                 | None => abort
                 end
             end) s) as [r s'] eqn:H.
  simpl.
  assert (Forall (fun sub =>
            forall r s',
              ostree_repo_write_mtree (snd sub) cancelled s = (r, s') ->
              s' = s /\ (is_ok r = true \/ is_caller_error r = true))
            (mt_subdirs mtree)) as HF.
  { eapply Forall_impl; [exact IH|]. intros [name child] [Hs Hr] r1 s1 H1.
    simpl in *. rewrite H1 in Hs, Hr. simpl in *. split; [done|].
    destruct (mt_contents_checksum child); [left; by rewrite Hr|by right]. }
  step_bind H as children s1 Hch.
  2:{ apply (write_subdirs_outside _ _ _ _ _ HF) in Hch as [-> [Hok|Herr]];
        [by destruct r0|].
      subst r. split; [done|]. by destruct r0. }
  apply (write_subdirs_outside _ _ _ _ _ HF) in Hch as [-> _].
  cbv zeta in H.
  destruct (create_tree_variant_from_hashes _ _ _) as [v|];
    [|by injection H as <- <-].
  unfold ostree_repo_write_metadata, write_object, bind in H.
  rewrite Hin in H. simpl in H. by injection H as <- <-.
Qed.

(** ** Writing a commit (lines 1206-1252) *)

(** X17.  A successful [ostree_repo_write_commit] was given a
    branch, a subject and both root checksums; the checksum it hands back
    is the hex SHA-256 of the commit variant made of the parent (an empty
    byte array if none), the subject, the body (empty if none), the
    big-endian time and the root checksums.  The call sets no ref: the
    refs on disk and the pending refs are as before, the branch is only
    checked for [NULL].  Unless a rename was answered EEXIST the COMMIT
    object is then in [objects/]. *)
Theorem write_commit_object (host : ByteOrder) (now : Z)
    (branch parent subject body : option string)
    (root_contents_checksum root_metadata_checksum : option string)
    (cancelled : bool) (s s' : State) (cs : string) (evs : list Event) :
  ostree_repo_write_commit host now branch parent subject body
    root_contents_checksum root_metadata_checksum cancelled s
  = (Ok cs, s') ->
  logged s s' evs ->
  is_Some branch
  /\ (exists subject' contents metadata,
        subject = Some subject'
        /\ root_contents_checksum = Some contents
        /\ root_metadata_checksum = Some metadata
        /\ cs = ostree_checksum_from_bytes
                  (g_checksum_sha256
                     (ot_variant_read
                        (commit_variant host now parent subject' body
                           contents metadata))))
  /\ refs (disk s') = refs (disk s)
  /\ txn_refs (self s') = txn_refs (self s)
  /\ (~ Exists rename_collided evs ->
      is_Some (objects_dir (disk s')
               !! _ostree_loose_path cs OSTREE_OBJECT_TYPE_COMMIT
                    (mode (self s)))).
Proof.
  intros H L. unfold ostree_repo_write_commit in H.
  destruct branch as [b|]; [|done].
  destruct subject as [subject'|]; [|done].
  destruct root_contents_checksum as [contents|]; [|done].
  destruct root_metadata_checksum as [metadata|]; [|done].
  cbv zeta in H. step_bind H as commit_csum s1 Hw; [|not_ok].
  destruct commit_csum as [csum|]; [|done]. inv_ret H.
  pose proof (write_object_ok_digest _ _ _ _ _ _ _ _ _ Hw)
    as (_ & _ & Hv & _).
  destruct (Hv csum eq_refl) as (_ & -> & _).
  destruct (write_object_changes _ _ _ _ _ _ _ _ _ Hw)
    as ((Hrefs & _ & _ & Hs & _) & _).
  apply write_object_ok_stored in Hw as (evs' & L' & _ & _ & Hp).
  rewrite (logged_inj _ _ _ _ L L').
  split; [by eauto|]. split; [by exists subject', contents, metadata|].
  split; [done|]. split; [rewrite Hs; by destruct (self s)|].
  intros Hno. by destruct Hp.
Qed.

(** ** Reference counting of commit modifiers (lines 1684-1721) *)

(** The count after [ops], from [n]. *)
Definition references (n : Z) (ops : list ModifierOp) : Z :=
  fold_left (fun n op =>
               match op with
               | ModifierRef => n + 1
               | ModifierUnref => n - 1
               end) ops n.

(** Along [ops] the count stays above zero and within a [gint]. *)
Fixpoint referenced (n : Z) (ops : list ModifierOp) : Prop :=
  match ops with
  | [] => True
  | op :: rest =>
      let n' := references n [op] in
      0 < n' < 2 ^ 31 /\ referenced n' rest
  end.

Lemma gint_small z : - 2 ^ 31 <= z < 2 ^ 31 -> gint z = z.
Proof. intros Hz. unfold gint. rewrite Z.mod_small; lia. Qed.

Lemma run_modifier_ops_referenced modifier ops :
  forall h m,
    modifiers h !! modifier = Some m ->
    referenced (modifier_refcount m) ops ->
    exists h',
      run_modifier_ops modifier ops h = Some h'
      /\ modifiers h' !! modifier
         = Some (with_refcount (references (modifier_refcount m) ops) m)
      /\ destroyed h' = destroyed h
      /\ forall other, other <> modifier ->
                       modifiers h' !! other = modifiers h !! other.
Proof.
  induction ops as [|op rest IH]; intros h m Hm Href.
  { exists h. split; [done|]. split; [|done]. rewrite Hm. by destruct m. }
  destruct Href as [Hn Hrest]. simpl in Hn.
  destruct op; simpl; unfold ostree_repo_commit_modifier_ref; rewrite Hm;
    simpl.
  - rewrite gint_small by lia.
    destruct (IH {| modifiers :=
                      <[modifier :=
                          with_refcount (modifier_refcount m + 1) m]>
                        (modifiers h);
                    destroyed := destroyed h |}
                 (with_refcount (modifier_refcount m + 1) m))
      as (h' & Hrun & Hcell & Hd & Hother);
      [by simpl; rewrite lookup_insert_eq|exact Hrest|].
    exists h'. split; [done|]. split; [done|]. split; [done|].
    intros other Hne. rewrite Hother by done. simpl.
    by rewrite lookup_insert_ne.
  - rewrite gint_small by lia.
    destruct (modifier_refcount m - 1 =? 0)%Z eqn:Hz; [lia|]. simpl.
    destruct (IH {| modifiers :=
                      <[modifier :=
                          with_refcount (modifier_refcount m - 1) m]>
                        (modifiers h);
                    destroyed := destroyed h |}
                 (with_refcount (modifier_refcount m - 1) m))
      as (h' & Hrun & Hcell & Hd & Hother);
      [by simpl; rewrite lookup_insert_eq|exact Hrest|].
    exists h'. split; [done|]. split; [done|]. split; [done|].
    intros other Hne. rewrite Hother by done. simpl.
    by rewrite lookup_insert_ne.
Qed.

(** X18.  A modifier from [ostree_repo_commit_modifier_new]
    stays allocated, and its destroy notifier uncalled, through any run
    of refs and unrefs that keeps the count above zero (and within a
    [gint]); its count is one plus the refs minus the unrefs, and no other
    modifier is touched.  The unref that brings the count to zero frees
    it and calls the notifier, if there is one, once with the user
    data. *)
Theorem modifier_freed_at_last_unref (flags : Z)
    (commit_filter : option OstreeRepoCommitFilter) (user_data : Z)
    (destroy_notify : bool) (h : ModifierHeap) (ops : list ModifierOp) :
  referenced 1 ops ->
  let modifier :=
    fst (ostree_repo_commit_modifier_new flags commit_filter user_data
           destroy_notify h) in
  let h0 :=
    snd (ostree_repo_commit_modifier_new flags commit_filter user_data
           destroy_notify h) in
  modifiers h !! modifier = None
  /\ exists h1,
       run_modifier_ops modifier ops h0 = Some h1
       /\ modifiers h1 !! modifier
          = Some {| modifier_refcount := references 1 ops;
                    modifier_flags := flags;
                    modifier_filter := commit_filter;
                    modifier_user_data := user_data;
                    modifier_destroy_notify := destroy_notify |}
       /\ destroyed h1 = destroyed h
       /\ (forall other, other <> modifier ->
                         modifiers h1 !! other = modifiers h !! other)
       /\ (references 1 ops = 1 ->
           exists h2,
             ostree_repo_commit_modifier_unref (Some modifier) h1 = Some h2
             /\ modifiers h2 !! modifier = None
             /\ (forall other, other <> modifier ->
                               modifiers h2 !! other = modifiers h !! other)
             /\ destroyed h2
                = if destroy_notify then destroyed h ++ [user_data]
                  else destroyed h).
Proof.
  intros Href modifier h0. unfold ostree_repo_commit_modifier_new in *.
  simpl in modifier, h0.
  assert (modifiers h !! modifier = None) as Hfresh.
  { apply not_elem_of_dom. apply is_fresh. }
  split; [done|].
  destruct (run_modifier_ops_referenced modifier ops h0
              {| modifier_refcount := 1; modifier_flags := flags;
                 modifier_filter := commit_filter;
                 modifier_user_data := user_data;
                 modifier_destroy_notify := destroy_notify |})
    as (h1 & Hrun & Hcell & Hd & Hother);
    [by unfold h0; simpl; rewrite lookup_insert_eq|exact Href|].
  exists h1. split; [done|]. split; [done|]. split; [done|].
  assert (forall other, other <> modifier ->
                        modifiers h1 !! other = modifiers h !! other) as Ho.
  { intros other Hne. rewrite Hother by done. unfold h0. simpl.
    by rewrite lookup_insert_ne. }
  split; [done|]. intros Hone.
  unfold ostree_repo_commit_modifier_unref. rewrite Hcell. simpl.
  rewrite Hone. simpl. eexists. split; [done|]. simpl.
  split; [by rewrite lookup_delete_eq|].
  split; [|by rewrite Hd].
  intros other Hne. rewrite lookup_delete_ne by done. by apply Ho.
Qed.

(** ** Walking a directory (lines 1336-1606) *)

Fixpoint GFile_children_ind (P : GFile -> Prop)
    (step : forall dir,
        Forall (fun child => P (snd child)) (enumerated dir) -> P dir)
    (dir : GFile) : P dir :=
  step dir
    (match dir as d
       return Forall (fun child => P (snd child)) (enumerated d) with
     | Build_GFile _ _ _ _ _ _ _ _ children _ =>
         (fix go (l : list (GFileInfo * GFile))
            : Forall (fun child => P (snd child)) l :=
            match l with
            | [] => @List.Forall_nil _ _
            | child :: rest =>
                @List.Forall_cons _ _ child rest
                  (GFile_children_ind P step (snd child)) (go rest)
            end) children
     end).

Lemma write_directory_to_mtree_internal_eq modifier cancelled dir mtree :
  write_directory_to_mtree_internal modifier cancelled dir mtree
  = (let repo_dir :=
       is_repo_file dir
       && match modifier with None => true | Some _ => false end in
     itself <- write_directory_itself modifier cancelled repo_dir dir mtree ;;
     (if is_allow (fst itself) then
        match enumerate_error dir with
        | Some e => throw e
        | None =>
            iterate_children modifier cancelled dir mtree (enumerated dir)
        end
      else ret tt) ;;;
     if repo_dir && snd itself then
       modify_walk (with_mtrees
         (ostree_mutable_tree_set_contents_checksum mtree
            (repo_file_tree_contents_checksum dir)))
     else ret tt).
Proof. by destruct dir. Qed.

Lemma iterate_children_nil modifier cancelled dir mtree :
  iterate_children modifier cancelled dir mtree []
  = match iterate_error dir with
    | Some e => throw e
    | None => ret tt
    end.
Proof. done. Qed.

Lemma iterate_children_cons modifier cancelled dir mtree child_info child
    rest :
  iterate_children modifier cancelled dir mtree ((child_info, child) :: rest)
  = (let repo_dir :=
       is_repo_file dir
       && match modifier with None => true | Some _ => false end in
     let name := standard_name child_info in
     modify_walk (with_path (fun path => path ++ [name])) ;;;
     answer <- apply_commit_filter modifier child_info ;;
     (if is_allow (fst answer) then
        (if bool_decide (standard_type child_info = G_FILE_TYPE_DIRECTORY)
         then
           child_mtree <-
             mtree_call (ostree_mutable_tree_ensure_dir mtree name) ;;
           write_directory_to_mtree_internal modifier cancelled
             child child_mtree
         else if repo_dir then
           mtree_replace_file mtree name (repo_file_checksum child)
         else
           write_child_file modifier cancelled mtree name
             child_info (snd answer) child) ;;;
        modify_walk (with_path (fun path => take (length path - 1) path))
      else ret tt) ;;;
     iterate_children modifier cancelled dir mtree rest).
Proof. done. Qed.

(** A step of the walk that leaves the path and the record of the
    filter calls alone. *)
Definition keeps_walk {A} (c : M (Walk * State) A) : Prop :=
  forall x r x',
    c x = (r, x') ->
    w_path (fst x') = w_path (fst x) /\ w_asked (fst x') = w_asked (fst x).

Lemma keeps_walk_ret {A} (a : A) : keeps_walk (ret a).
Proof. by intros x r x' [= <- <-]. Qed.
Lemma keeps_walk_throw {A} e : keeps_walk (@throw _ A e).
Proof. by intros x r x' [= <- <-]. Qed.
Lemma keeps_walk_abort {A} : keeps_walk (@abort _ A).
Proof. by intros x r x' [= <- <-]. Qed.
Lemma keeps_walk_get : keeps_walk get.
Proof. by intros x r x' [= <- <-]. Qed.
Lemma keeps_walk_lift {A} (c : M State A) : keeps_walk (lift c).
Proof. intros [w s] r [w' s'] H. by apply lift_inv in H as [-> _]. Qed.
Lemma keeps_walk_mtrees f : keeps_walk (modify_walk (with_mtrees f)).
Proof. by intros x r x' [= <- <-]. Qed.
Lemma keeps_walk_mtree_call {A} call : keeps_walk (@mtree_call A call).
Proof.
  intros x r x' H. unfold mtree_call in H.
  destruct (call _) as [[e|a] t]; by injection H as <- <-.
Qed.
Lemma keeps_walk_bind {A B} (c : M (Walk * State) A)
    (k : A -> M (Walk * State) B) :
  keeps_walk c -> (forall a, keeps_walk (k a)) -> keeps_walk (bind c k).
Proof.
  intros Hc Hk x r x' H. step_bind H as a x1 Hca.
  - destruct (Hk _ _ _ _ H) as [-> ->]. by eapply Hc.
  - by eapply Hc.
Qed.

Ltac keeps_walk_step :=
  lazymatch goal with
  | |- keeps_walk (bind _ _) => apply keeps_walk_bind; [|intros ?]
  | |- keeps_walk (ret _) => apply keeps_walk_ret
  | |- keeps_walk (throw _) => apply keeps_walk_throw
  | |- keeps_walk abort => apply keeps_walk_abort
  | |- keeps_walk get => apply keeps_walk_get
  | |- keeps_walk (lift _) => apply keeps_walk_lift
  | |- keeps_walk (modify_walk (with_mtrees _)) => apply keeps_walk_mtrees
  | |- keeps_walk (mtree_call _) => apply keeps_walk_mtree_call
  | |- keeps_walk (match ?x with _ => _ end) => destruct x
  end.

Lemma keeps_walk_replace_file mtree name checksum :
  keeps_walk (mtree_replace_file mtree name checksum).
Proof. apply keeps_walk_mtree_call. Qed.

Lemma keeps_walk_xattrs modifier file :
  keeps_walk (xattrs_unless_skipped modifier file).
Proof. unfold xattrs_unless_skipped. repeat keeps_walk_step. Qed.

Lemma keeps_walk_child_file modifier cancelled mtree name child_info
    modified_info child :
  keeps_walk (write_child_file modifier cancelled mtree name child_info
                modified_info child).
Proof.
  unfold write_child_file.
  repeat first [ apply keeps_walk_replace_file | apply keeps_walk_xattrs
               | keeps_walk_step ].
Qed.

(** A step of the walk that writes nothing to the repository, asks the
    filter nothing and, if it succeeds, turns the path [p] into [f p]. *)
Definition walks {A} (f : list string -> list string)
    (c : M (Walk * State) A) : Prop :=
  forall x r x',
    c x = (r, x') ->
    snd x' = snd x /\ w_asked (fst x') = w_asked (fst x)
    /\ (is_ok r = true -> w_path (fst x') = f (w_path (fst x))).

Lemma walks_ret {A} (a : A) : walks id (ret a).
Proof. by intros x r x' [= <- <-]. Qed.
Lemma walks_throw {A} f e : walks f (@throw _ A e).
Proof. by intros x r x' [= <- <-]. Qed.
Lemma walks_get : walks id get.
Proof. by intros x r x' [= <- <-]. Qed.
Lemma walks_mtrees f : walks id (modify_walk (with_mtrees f)).
Proof. by intros x r x' [= <- <-]. Qed.
Lemma walks_path f : walks f (modify_walk (with_path f)).
Proof. by intros x r x' [= <- <-]. Qed.
Lemma walks_mtree_call {A} call : walks id (@mtree_call A call).
Proof.
  intros x r x' H. unfold mtree_call in H.
  destruct (call _) as [[e|a] t]; by injection H as <- <-.
Qed.
Lemma walks_bind {A B} f g (c : M (Walk * State) A)
    (k : A -> M (Walk * State) B) :
  walks f c -> (forall a, walks g (k a)) ->
  walks (fun p => g (f p)) (bind c k).
Proof.
  intros Hc Hk x r x' H. step_bind H as a x1 Hca.
  - destruct (Hk _ _ _ _ H) as (-> & -> & Hp).
    destruct (Hc _ _ _ Hca) as (-> & -> & Hp1).
    split; [done|]. split; [done|]. intros Hok.
    by rewrite Hp, Hp1.
  - destruct (Hc _ _ _ Hca) as (-> & -> & _).
    split; [done|]. split; [done|]. subst r. by destruct r0.
Qed.
Lemma walks_ext {A} f g (c : M (Walk * State) A) :
  (forall p, f p = g p) -> walks f c -> walks g c.
Proof.
  intros Hfg Hc x r x' H. destruct (Hc _ _ _ H) as (-> & -> & Hp).
  split; [done|]. split; [done|]. intros Hok. by rewrite <- Hfg, Hp.
Qed.
Lemma walks_bind_ret {A B} f (a : A) (k : A -> M (Walk * State) B) :
  walks f (k a) -> walks f (bind (ret a) k).
Proof. intros Hk x r x' H. rewrite bind_ret in H. by apply Hk. Qed.
Lemma walks_bind_id {A B} (c : M (Walk * State) A)
    (k : A -> M (Walk * State) B) :
  walks id c -> (forall a, walks id (k a)) -> walks id (bind c k).
Proof. intros Hc Hk. exact (walks_bind id id c k Hc Hk). Qed.

(** Every directory of the tree under [dir], [dir] included, is an
    [OstreeRepoFile]. *)
Fixpoint repo_directories (dir : GFile) : Prop :=
  is_repo_file dir = true
  /\ (fix all (children : list (GFileInfo * GFile)) : Prop :=
        match children with
        | [] => True
        | (child_info, child) :: rest =>
            (standard_type child_info = G_FILE_TYPE_DIRECTORY ->
             repo_directories child)
            /\ all rest
        end) (enumerated dir).

Lemma repo_directories_inv dir :
  repo_directories dir ->
  is_repo_file dir = true
  /\ Forall (fun child =>
               standard_type (fst child) = G_FILE_TYPE_DIRECTORY ->
               repo_directories (snd child)) (enumerated dir).
Proof.
  destruct dir as [? ? ? ? ? ? ? ? children ?]. simpl.
  intros [Hr Hall]. split; [done|].
  induction children as [|[child_info child] rest IH]; [done|].
  destruct Hall as [Hc Hrest]. constructor; [done|]. by apply IH.
Qed.

Lemma iterate_children_reuse cancelled dir mtree children :
  is_repo_file dir = true ->
  Forall (fun child =>
            standard_type (fst child) = G_FILE_TYPE_DIRECTORY ->
            forall mtree,
              walks id (write_directory_to_mtree_internal None cancelled
                          (snd child) mtree)) children ->
  walks id (iterate_children None cancelled dir mtree children).
Proof.
  intros Hrepo HF.
  induction HF as [|[child_info child] rest Hchild _ IH].
  { rewrite iterate_children_nil.
    destruct (iterate_error dir); [apply walks_throw|apply walks_ret]. }
  rewrite iterate_children_cons, Hrepo. cbv zeta. simpl.
  eapply walks_ext;
    [|apply walks_bind;
        [apply walks_path
        |intros _; apply walks_bind_ret; simpl; apply walks_bind;
           [apply walks_bind; [|intros _; apply walks_path]
           |intros _; exact IH]]].
  2:{ destruct (bool_decide (standard_type child_info
                             = G_FILE_TYPE_DIRECTORY)) eqn:Hd.
      - apply bool_decide_eq_true in Hd.
        apply walks_bind_id; [apply walks_mtree_call|intros child_mtree].
        by apply Hchild.
      - apply walks_mtree_call. }
  intros p. unfold id. rewrite length_app. simpl.
  replace (length p + 1 - 1)%nat with (length p) by lia.
  by rewrite take_app_length.
Qed.

Lemma walk_repo_directory_walks cancelled dir :
  repo_directories dir ->
  forall mtree,
    walks id (write_directory_to_mtree_internal None cancelled dir mtree).
Proof.
  induction dir as [dir IH] using GFile_children_ind.
  intros Hrepo mtree. apply repo_directories_inv in Hrepo as [Hrepo Hall].
  rewrite write_directory_to_mtree_internal_eq, Hrepo. cbv zeta. simpl.
  apply walks_bind_id; [|intros itself; apply walks_bind_id; [|intros _]].
  - unfold write_directory_itself.
    destruct (repo_file_ensure_resolved dir); [apply walks_throw|].
    apply walks_bind_id; [apply walks_mtrees|intros _].
    apply walks_bind_id; [apply walks_get|intros ws]. apply walks_ret.
  - destruct (is_allow (fst itself)); [|apply walks_ret].
    destruct (enumerate_error dir); [apply walks_throw|].
    apply iterate_children_reuse; [done|].
    rewrite Forall_forall in IH, Hall. apply Forall_forall.
    intros child Hin Hd mtree'. by apply IH, Hall.
  - destruct (snd itself); [apply walks_mtrees|apply walks_ret].
Qed.

(** X19.  Walking a directory of the repository without a
    modifier (every directory under it an [OstreeRepoFile]) writes
    nothing to the repository and never calls a filter: the repository
    state is untouched, whatever the outcome, and a walk that succeeds
    leaves the path as it found it. *)
Theorem walk_repo_directory_writes_nothing (cancelled : bool) (dir : GFile)
    (mtree : MTreePtr) (w w' : Walk) (s s' : State) (r : Res unit) :
  repo_directories dir ->
  write_directory_to_mtree_internal None cancelled dir mtree (w, s)
  = (r, (w', s')) ->
  s' = s /\ w_asked w' = w_asked w
  /\ (is_ok r = true -> w_path w' = w_path w).
Proof.
  intros Hrepo H.
  exact (walk_repo_directory_walks cancelled dir Hrepo mtree _ _ _ H).
Qed.

Lemma apply_commit_filter_inv m filter file_info w s r x' :
  modifier_filter m = Some filter ->
  apply_commit_filter (Some m) file_info (w, s) = (r, x') ->
  let path_buf := filter_path (w_path w) in
  let answer := filter (self s) path_buf file_info (modifier_user_data m) in
  r = Ok answer /\ x' = (with_asked path_buf (fst answer) w, s).
Proof.
  intros Hf H. unfold apply_commit_filter in H. rewrite Hf in H.
  by injection H as <- <-.
Qed.

(** What the walker does for the directory itself when there is a
    filter: it asks the filter once, with the path as it stands. *)
Lemma write_directory_itself_asked m filter cancelled dir mtree w s itself
    w' s' :
  modifier_filter m = Some filter ->
  write_directory_itself (Some m) cancelled false dir mtree (w, s)
  = (Ok itself, (w', s')) ->
  w_path w' = w_path w
  /\ w_asked w' = w_asked w ++ [(filter_path (w_path w), fst itself)].
Proof.
  intros Hf H. unfold write_directory_itself in H.
  destruct (file_query_info dir) as [e|child_info]; [done|].
  step_bind H as answer x1 Ha; [|not_ok].
  apply (apply_commit_filter_inv _ _ _ _ _ _ _ Hf) in Ha as [[= <-] ->].
  cbv zeta in H. step_bind H as u x2 Hw; [|not_ok]. inv_ret H. simpl.
  destruct (is_allow _); [|by inv_ret Hw].
  assert (keeps_walk
            (xattrs <- xattrs_unless_skipped (Some m) dir ;;
             child_file_csum <-
               lift (_ostree_repo_write_directory_meta
                       ostree_create_directory_metadata (snd answer)
                       xattrs true cancelled) ;;
             match child_file_csum with
             | Some csum =>
                 modify_walk (with_mtrees
                   (ostree_mutable_tree_set_metadata_checksum mtree
                      (ostree_checksum_from_bytes csum)))
             | None => abort
             end)) as Hk.
  { repeat first [apply keeps_walk_xattrs | keeps_walk_step]. }
  destruct (Hk _ _ _ Hw) as [Hp Ha]. simpl in Hp, Ha. by rewrite Hp, Ha.
Qed.







(** The paths of the tree under [dir], as the walk meets them: the
    directory, then each child, a subdirectory once as a child and once
    more as the directory walked. *)
Fixpoint walk_paths (dir : GFile) (path : list string) : list string :=
  filter_path path
  :: (fix children_paths (children : list (GFileInfo * GFile)) :=
        match children with
        | [] => []
        | (child_info, child) :: rest =>
            let here := path ++ [standard_name child_info] in
            (filter_path here
             :: if bool_decide (standard_type child_info
                                = G_FILE_TYPE_DIRECTORY)
                then walk_paths child here
                else [])
            ++ children_paths rest
        end) (enumerated dir).

Definition children_paths (path : list string)
    : list (GFileInfo * GFile) -> list string :=
  fix children_paths (children : list (GFileInfo * GFile)) :=
    match children with
    | [] => []
    | (child_info, child) :: rest =>
        let here := path ++ [standard_name child_info] in
        (filter_path here
         :: if bool_decide (standard_type child_info = G_FILE_TYPE_DIRECTORY)
            then walk_paths child here
            else [])
        ++ children_paths rest
    end.

Lemma walk_paths_eq dir path :
  walk_paths dir path
  = filter_path path :: children_paths path (enumerated dir).
Proof. by destruct dir. Qed.

(** What a successful stretch of the walk asked the filter: if every
    answer was to allow, the paths are [paths] and the path is back where
    it was. *)
Definition asked_paths (w w' : Walk) (paths : list string) : Prop :=
  exists asked,
    w_asked w' = w_asked w ++ asked
    /\ (Forall (fun a => is_allow (snd a) = true) asked ->
        map fst asked = paths /\ w_path w' = w_path w).

Lemma iterate_children_allowed m filter cancelled dir mtree children :
  modifier_filter m = Some filter ->
  Forall (fun child =>
            forall mtree w s w' s',
              write_directory_to_mtree_internal (Some m) cancelled
                (snd child) mtree (w, s) = (Ok tt, (w', s')) ->
              asked_paths w w' (walk_paths (snd child) (w_path w)))
    children ->
  forall w s w' s',
    iterate_children (Some m) cancelled dir mtree children (w, s)
    = (Ok tt, (w', s')) ->
    asked_paths w w' (children_paths (w_path w) children).
Proof.
  intros Hf HF.
  induction HF as [|[child_info child] rest Hchild _ IH]; intros w s w' s' H.
  { rewrite iterate_children_nil in H.
    destruct (iterate_error dir); [done|]. inv_ret H.
    exists []. by rewrite app_nil_r. }
  rewrite iterate_children_cons in H. cbv zeta in H.
  rewrite andb_false_r in H.
  step_bind H as u x1 Hpush; [|not_ok]. injection Hpush as _ <-.
  step_bind H as answer x2 Ha; [|not_ok].
  apply (apply_commit_filter_inv _ _ _ _ _ _ _ Hf) in Ha as [Hanswer ->].
  simpl in H, Hanswer. injection Hanswer as Hanswer.
  rewrite <- Hanswer in H. clear Hanswer.
  set (name := standard_name child_info) in *.
  set (here := w_path w ++ [name]) in *.
  step_bind H as u2 x3 Hbody; [|not_ok]. destruct x3 as [w3 s3].
  apply IH in H as (asked_rest & Har & Hrest).
  assert (exists asked_child,
            w_asked w3
            = w_asked w ++ (filter_path here, fst answer) :: asked_child
            /\ (is_allow (fst answer) = true ->
                Forall (fun a => is_allow (snd a) = true) asked_child ->
                w_path w3 = w_path w
                /\ map fst asked_child
                   = if bool_decide (standard_type child_info
                                     = G_FILE_TYPE_DIRECTORY)
                     then walk_paths child here else []))
    as (asked_child & Hac & Hchild_ok).
  { destruct (is_allow (fst answer));
      [|inv_ret Hbody; exists []; by split].
    step_bind Hbody as u3 x4 Hfile; [|not_ok]. injection Hbody as _ <-.
    destruct x4 as [w4 s4]. simpl.
    assert (forall p, take (length (p ++ [name]) - 1) (p ++ [name]) = p)
      as Hpop.
    { intros p. rewrite length_app. simpl.
      replace (length p + 1 - 1)%nat with (length p) by lia.
      by rewrite take_app_length. }
    destruct (bool_decide (standard_type child_info = G_FILE_TYPE_DIRECTORY)).
    - step_bind Hfile as child_mtree x5 He; [|not_ok].
      destruct x5 as [w5 s5].
      destruct (keeps_walk_mtree_call _ _ _ _ He) as [Hp5 Ha5].
      simpl in Hp5, Ha5. destruct u3.
      apply Hchild in Hfile as (asked_child & Hac & Hok).
      exists asked_child. rewrite Hac, Ha5, <- app_assoc. split; [done|].
      intros _ Hall. destruct (Hok Hall) as [Hm Hp].
      rewrite Hp, Hp5, Hm, Hp5. by rewrite Hpop.
    - destruct (keeps_walk_child_file _ _ _ _ _ _ _ _ _ _ Hfile)
        as [Hp4 Ha4]. simpl in Hp4, Ha4.
      exists []. rewrite Ha4. split; [done|]. intros _ _.
      by rewrite Hp4, Hpop. }
  exists ((filter_path here, fst answer) :: asked_child ++ asked_rest).
  rewrite Har, Hac, <- app_assoc. split; [done|].
  intros Hall. apply Forall_cons in Hall as [Hanswer Hall].
  apply Forall_app in Hall as [Hallc Hallr]. simpl in Hanswer.
  destruct (Hchild_ok Hanswer Hallc) as [Hp3 Hmc].
  destruct (Hrest Hallr) as [Hmr Hp]. rewrite Hp3 in Hmr, Hp.
  split; [|done]. simpl. rewrite map_app, Hmc, Hmr. done.
Qed.

Lemma walk_allowed cancelled m filter dir :
  modifier_filter m = Some filter ->
  forall mtree w s w' s',
    write_directory_to_mtree_internal (Some m) cancelled dir mtree (w, s)
    = (Ok tt, (w', s')) ->
    asked_paths w w' (walk_paths dir (w_path w)).
Proof.
  intros Hf. induction dir as [dir IH] using GFile_children_ind.
  intros mtree w s w' s' H.
  rewrite write_directory_to_mtree_internal_eq in H. cbv zeta in H.
  rewrite andb_false_r in H.
  step_bind H as itself x1 Hself; [|not_ok]. destruct x1 as [w1 s1].
  apply (write_directory_itself_asked _ _ _ _ _ _ _ _ _ _ Hf) in Hself
    as [Hp1 Ha1].
  step_bind H as u x2 Hloop; [|not_ok]. simpl in H. inv_ret H.
  rewrite walk_paths_eq.
  destruct (is_allow (fst itself)) eqn:Hallow.
  - destruct (enumerate_error dir); [done|]. destruct u.
    apply (iterate_children_allowed _ _ _ _ _ _ Hf IH) in Hloop
      as (asked & Ha & Hok).
    exists ((filter_path (w_path w), fst itself) :: asked).
    rewrite Ha, Ha1, <- app_assoc. split; [done|].
    intros Hall. apply Forall_cons in Hall as [_ Hall].
    destruct (Hok Hall) as [Hm Hp]. rewrite Hp1 in Hm, Hp.
    simpl. by rewrite Hm, Hp.
  - inv_ret Hloop. exists [(filter_path (w_path w), fst itself)].
    split; [done|]. intros Hall. apply Forall_cons in Hall as [Hx _].
    simpl in Hx. congruence.
Qed.

(** X21.  A walk with a filter that succeeds, and in which
    the filter allowed everything it was asked about, asked it about the
    directory, then about each child in the order of the enumeration with
    the path of the directory and the name of the child, and about a
    subdirectory once more when walking it; the path is at the end what it
    was at the start.  The public entry starts the walk at [/]. *)
Theorem walk_allowed_paths (m : OstreeRepoCommitModifier)
    (filter : OstreeRepoCommitFilter) (cancelled : bool) (dir : GFile)
    (mtree : MTreePtr) (w w' : Walk) (s s' : State) :
  modifier_filter m = Some filter ->
  ostree_repo_write_directory_to_mtree (Some m) cancelled dir mtree (w, s)
  = (Ok tt, (w', s')) ->
  exists asked,
    w_asked w' = w_asked w ++ asked
    /\ (Forall (fun a => is_allow (snd a) = true) asked ->
        map fst asked = walk_paths dir [] /\ w_path w' = []).
Proof.
  intros Hf H. unfold ostree_repo_write_directory_to_mtree in H.
  step_bind H as u x1 Hreset; [|not_ok]. injection Hreset as _ <-.
  by apply (walk_allowed _ _ _ _ Hf) in H.
Qed.

(** ** Counting objects (lines 372-389) *)

(** A computation that, run with no failure left to inject, ends with
    none. *)
Definition calmly {S A} (proj : S -> State) (c : M S A) : Prop :=
  forall x r x', c x = (r, x') -> calm (proj x) -> calm (proj x').

Lemma calmly_ret {S A} proj (a : A) : calmly proj (@ret S A a).
Proof. by intros x r x' [= <- <-]. Qed.
Lemma calmly_throw {S A} proj e : calmly proj (@throw S A e).
Proof. by intros x r x' [= <- <-]. Qed.
Lemma calmly_get {S} proj : calmly proj (@get S).
Proof. by intros x r x' [= <- <-]. Qed.
Lemma calmly_set_locals {L} (l : L) : calmly snd (@set_locals L l).
Proof. by intros [l0 s] r x' [= <- <-]. Qed.
Lemma calmly_bind {S A B} proj (c : M S A) (k : A -> M S B) :
  calmly proj c -> (forall a, calmly proj (k a)) -> calmly proj (bind c k).
Proof.
  intros Hc Hk x r x' H Hx. step_bind H as a x1 Hca.
  - eapply Hk; [exact H|]. by eapply Hc.
  - by eapply Hc.
Qed.
Lemma calmly_lift {L A} (c : M State A) :
  calmly id c -> calmly snd (@lift L A c).
Proof.
  intros Hc [l s] r [l' s'] H Hx. apply lift_inv in H as [-> H].
  by eapply Hc.
Qed.
Lemma calmly_syscall call eff : calmly id (syscall call eff).
Proof.
  intros s r s' H Hx. apply syscall_inv in H as (e & _ & _ & _ & Hf & _).
  unfold calm, id in *. by rewrite Hf, Hx.
Qed.
Lemma calmly_retry_eintr call eff : calmly id (retry_eintr call eff).
Proof.
  intros s r s' H Hx. rewrite retry_eintr_calm in H by done.
  by eapply calmly_syscall.
Qed.
Lemma calmly_gen_tmp_name : calmly id gsystem_fileutil_gen_tmp_name.
Proof. by intros s r s' [= <- <-]. Qed.

Ltac calmly_core :=
  lazymatch goal with
  | |- calmly _ (bind _ _) => apply calmly_bind; [|intros ?]
  | |- calmly _ (ret _) => apply calmly_ret
  | |- calmly _ (throw _) => apply calmly_throw
  | |- calmly _ get => apply calmly_get
  | |- calmly _ (set_locals _) => apply calmly_set_locals
  | |- calmly _ (lift _) => apply calmly_lift
  | |- calmly _ (syscall _ _) => apply calmly_syscall
  | |- calmly _ (retry_eintr _ _) => apply calmly_retry_eintr
  | |- calmly _ gsystem_fileutil_gen_tmp_name => apply calmly_gen_tmp_name
  | |- calmly _ (match ?x with _ => _ end) => destruct x
  end.

Lemma calmly_checked call eff : calmly id (checked call eff).
Proof. unfold checked. repeat calmly_core. Qed.

Lemma calmly_open_in_tmpdir file_mode :
  calmly id (gs_file_open_in_tmpdir_at file_mode).
Proof.
  unfold gs_file_open_in_tmpdir_at. generalize 128%nat.
  intros n. induction n as [|n IH]; simpl; [apply calmly_throw|].
  repeat first [exact IH | calmly_core].
Qed.

Lemma calmly_make_temporary_symlink target :
  calmly id (make_temporary_symlink_at target).
Proof.
  unfold make_temporary_symlink_at. generalize 128%nat.
  intros n. induction n as [|n IH]; simpl; [apply calmly_throw|].
  repeat first [exact IH | calmly_core].
Qed.

Ltac calmly_step :=
  lazymatch goal with
  | |- calmly _ (gs_file_open_in_tmpdir_at _) => apply calmly_open_in_tmpdir
  | |- calmly _ (make_temporary_symlink_at _) =>
      apply calmly_make_temporary_symlink
  | |- calmly _ (g_output_stream_splice _ _) => apply calmly_checked
  | |- calmly _ (checked _ _) => apply calmly_checked
  | |- _ => calmly_core
  end.

Lemma calmly_materialize objtype repo_mode input file_object_length :
  calmly snd (materialize objtype repo_mode input file_object_length).
Proof.
  unfold materialize, materialize_file, materialize_metadata, open_temp_file.
  destruct objtype; repeat calmly_step.
Qed.

Lemma has_loose_object_calm_inv checksum objtype s b p s' :
  calm s ->
  _ostree_repo_has_loose_object checksum objtype s = (Ok (b, p), s') ->
  b = bool_decide
        (is_Some (objects_dir (disk s)
                  !! _ostree_loose_path checksum objtype (mode (self s))))
  /\ calm s' /\ self s' = self s /\ disk s' = disk s.
Proof.
  intros Hc H.
  destruct (has_loose_object_calm checksum objtype s Hc)
    as (s2 & Hh & Hc2 & Hs & Hd & _).
  rewrite Hh in H. by injection H as <- _ <-.
Qed.

(** X22.  With no failure injected, a successful [write_object]
    counts as follows.  If the object is already in [objects/] under its
    checksum: nothing at all when an expected checksum was given (the
    fast path), else one more object seen and none written.  If it is
    not: one more object seen and one more written, and for a FILE object
    its length more content bytes. *)
Theorem write_object_counts (objtype : OstreeObjectType)
    (expected_checksum : option string) (input : list byte)
    (file_object_length : Z) (out_csum cancelled : bool) (s s' : State)
    (v : option (list byte)) :
  calm s ->
  write_object objtype expected_checksum input file_object_length out_csum
    cancelled s = (Ok v, s') ->
  let checksum :=
    match expected_checksum with
    | Some e => e
    | None =>
        g_checksum_get_string
          (g_checksum_sha256 (object_bytes objtype input file_object_length))
    end in
  let present :=
    bool_decide
      (is_Some (objects_dir (disk s)
                !! _ostree_loose_path checksum objtype (mode (self s)))) in
  txn_stats (self s')
  = if present then
      match expected_checksum with
      | Some _ => txn_stats (self s)
      | None =>
          update_txn_stats objtype false file_object_length
            (txn_stats (self s))
      end
    else
      update_txn_stats objtype true file_object_length (txn_stats (self s)).
Proof.
  intros Hcalm H checksum present.
  apply write_object_cases in H
    as [(_ & [(_ & [=])|[(_ & _ & [=])|(_ & _ & _ & _ & [=])]])
       |(Hin & Hc & _ & lb & sb & Hb & Hout)].
  assert (self s' = self sb) as ->.
  { destruct Hout as [[_ ->]|(_ & t & _ & ->)]; [done|].
    destruct (syscall (SYS_unlinkat t) (eff_unlinkat t) sb)
      as [ru su] eqn:Hu. simpl.
    by apply syscall_inv in Hu as (errno & _ & _ & Hs & _). }
  clear Hout.
  apply write_object_body_inv in Hb
    as [(e & p & -> & Hh & _ & _)
       |[(e & r1 & _ & _ & Hf & Hr & _)
        |(s1 & Hpre & [(rm & _ & Hf & Hr)
                      |(m & l2 & s2 & Hm & [(rr & _ & Hf & Hr)
                                           |(cs & Hres & Hst)])])]];
    try (by destruct r1); try (by destruct rm); try (by destruct rr).
  { apply (has_loose_object_calm_inv _ _ _ _ _ _ Hcalm) in Hh
      as (Hp & _ & -> & _).
    unfold present, checksum. by rewrite <- Hp. }
  assert (calm s1 /\ self s1 = self s /\ disk s1 = disk s
          /\ (is_Some expected_checksum -> present = false))
    as (Hc1 & Hs1 & Hd1 & Hexp).
  { destruct Hpre as [[-> ->]|(e & p & -> & Hh)].
    - split_and!; try done; by intros [? [=]].
    - apply (has_loose_object_calm_inv _ _ _ _ _ _ Hcalm) in Hh
        as (Hp & ? & ? & ?).
      split_and!; try done; intros _; by unfold present, checksum. }
  pose proof (materialize_read _ _ _ _ _ _ _ Hm) as Hread.
  pose proof (keeps_materialize _ _ _ _ _ _ _ Hm) as (Hs2 & _ & Ho2 & _).
  pose proof (calmly_materialize _ _ _ _ _ _ _ Hm Hc1) as Hc2.
  simpl in Hs2, Ho2, Hc2.
  apply resolve_checksum_value in Hres. rewrite Hread in Hres.
  fold checksum in Hres. subst cs.
  assert (bool_decide
            (is_Some (objects_dir (disk s2)
                      !! _ostree_loose_path checksum objtype
                           (mode (self s2)))) = present) as Hpresent.
  { unfold present. by rewrite Ho2, Hs2, Hd1, Hs1. }
  apply store_object_inv in Hst
    as [(r1 & _ & Hf & Hr & _)
       |[(p & s3 & Hh & _ & _ & ->)
        |(p & s3 & ra & s4 & Hh & Ha &
          [(Hf & Hr & _)
          |(-> & rc & s5 & Hcm & [(Hf & Hr & _)|(-> & _ & _ & ->)])])]];
    try (by destruct r1); try (by destruct ra); try (by destruct rc).
  - apply (has_loose_object_calm_inv _ _ _ _ _ _ Hc2) in Hh
      as (Hp & _ & Hs3 & _).
    rewrite Hpresent in Hp. rewrite <- Hp.
    destruct expected_checksum as [e|];
      [by rewrite Hexp in Hp by eauto|].
    unfold counted. simpl. by rewrite Hs3, Hs2, Hs1.
  - apply (has_loose_object_calm_inv _ _ _ _ _ _ Hc2) in Hh
      as (Hp & _ & Hs3 & _).
    rewrite Hpresent in Hp. rewrite <- Hp.
    assert (self s4 = self s3) as Hs4.
    { destruct (_ && _); [|by inv_ret Ha].
      by destruct (keeps_apply_bare_attributes _ _ _ _ Ha) as [? _]. }
    apply commit_loose_object_trusted_disk in Hcm as (Hs5 & _).
    unfold counted. simpl. by rewrite Hs5, Hs4, Hs3, Hs2, Hs1.
Qed.

End Externals.

(** * Sample runs *)

(** Stand-ins for the functions of other files: the digest of a buffer is
    the buffer, a content stream is the payload of a regular file owned by
    root with mode 0100644, and a checksum's bytes are its characters. *)
Definition sample_checksum_sha256 (data : list byte) : list byte := data.

Definition sample_file_info : GFileInfo :=
  {| standard_name := "hello"; standard_type := G_FILE_TYPE_REGULAR;
     standard_symlink_target := EmptyString; unix_uid := 0; unix_gid := 0;
     unix_mode := 33188; unix_device := 0; unix_inode := 0 |}.

Definition sample_content (input : list byte) : ParsedContent :=
  {| pc_header := []; pc_file_info := sample_file_info; pc_xattrs := None;
     pc_payload := input |}.

Definition sample_content_stream_parse (input : list byte) (len : Z)
    : GError + ParsedContent :=
  inr (sample_content input).

Definition sample_zlib_file_header (file_info : GFileInfo)
    (xattrs : option XAttrs) : list byte := [].

Definition sample_zlib_compress_raw (data : list byte) : list byte := data.

Definition sample_variant_read (v : GVariant) : list byte :=
  match v with
  | GV_bytes b => b
  | _ => []
  end.

Definition sample_checksum_to_bytes (checksum : string) : list byte :=
  list_byte_of_string checksum.

(** An empty BARE repository, and a process whose temp names are
    [tmp0], [tmp1], ... *)
Definition sample_repo (in_txn : bool) (repo_mode : OstreeRepoMode)
    (pending : option (gmap string (option string))) : OstreeRepo :=
  {| in_transaction := in_txn; mode := repo_mode; txn_refs := pending;
     txn_stats := stats_zero; loose_object_devino_hash := None |}.

Definition sample_disk : Disk :=
  {| tmp_dir := ∅; objects_prefixes := ∅; objects_dir := ∅;
     transaction_lock := None; refs := ∅ |}.

Definition sample_env (fs : list (option Errno)) : Env :=
  {| faults := fs; tmp_name_gen := fun n => "tmp" +:+ pretty n;
     tmp_name_next := 0; euid := 1000; egid := 1000; pid := 4242%N;
     trace := [] |}.

Definition sample_state (in_txn : bool) (repo_mode : OstreeRepoMode)
    (pending : option (gmap string (option string)))
    (fs : list (option Errno)) : State :=
  {| self := sample_repo in_txn repo_mode pending; disk := sample_disk;
     env := sample_env fs |}.

(** The six bytes [hello\n] and their SHA-256. *)
Definition sample_input : list byte := [x68; x65; x6c; x6c; x6f; x0a].

Definition sample_checksum : string :=
  "5891b5b522d5df086d0ff0b110fbd9d21bb4fc7163af34d08286a2e846f6be03".

Definition sample_write_content_trusted (s : State)
    : Res (option (list byte)) * State :=
  ostree_repo_write_content_trusted sample_checksum_sha256
    sample_content_stream_parse sample_zlib_file_header
    sample_zlib_compress_raw (Some sample_checksum) sample_input 6 false s.

Definition sample_first_write : Res (option (list byte)) * State :=
  sample_write_content_trusted
    (sample_state true OSTREE_REPO_MODE_BARE None []).

Definition sample_second_write : Res (option (list byte)) * State :=
  sample_write_content_trusted (snd sample_first_write).

(** The sample write places its object with the calls in order. *)
Lemma bare_file_write_order_witness :
  is_ok (fst sample_first_write) = true
  /\ exists tmpname loose_path n,
       attr_events (trace (env (snd sample_first_write)))
       = bare_regular_write tmpname loose_path (sample_content sample_input) n.
Proof.
  apply (bare_file_write_order sample_checksum_sha256
           sample_content_stream_parse sample_zlib_file_header
           sample_zlib_compress_raw (Some sample_checksum) sample_input 6
           false false (sample_content sample_input)
           (sample_state true OSTREE_REPO_MODE_BARE None [])
           (snd sample_first_write) (fst sample_first_write)
           (trace (env (snd sample_first_write)))).
  - reflexivity.
  - reflexivity.
  - vm_compute. reflexivity.
  - vm_compute. reflexivity.
  - reflexivity.
  - vm_compute. repeat first [by apply Exists_cons_hd | apply Exists_cons_tl].
Defined.

(** A verifying write of the sample content under a checksum that is not
    its digest. *)
Lemma corrupt_object_rejected_witness :
  fst (write_object sample_checksum_sha256 sample_content_stream_parse
         sample_zlib_file_header sample_zlib_compress_raw
         OSTREE_OBJECT_TYPE_FILE (Some sample_checksum) sample_input 6 true
         false (sample_state true OSTREE_REPO_MODE_BARE None []))
  = Error (ErrFailed
             ("Corrupted file object " +:+ sample_checksum
              +:+ " (actual checksum is 68656c6c6f0a)")).
Proof.
  set (s := sample_state true OSTREE_REPO_MODE_BARE None []).
  set (s1 := snd (_ostree_repo_has_loose_object sample_checksum
                    OSTREE_OBJECT_TYPE_FILE s)).
  set (m := {| m_temp := "tmp0"; m_file_info := Some sample_file_info;
               m_xattrs := None; m_is_symlink := false;
               m_read := sample_input |}).
  set (out := materialize sample_content_stream_parse sample_zlib_file_header
                sample_zlib_compress_raw OSTREE_OBJECT_TYPE_FILE
                OSTREE_REPO_MODE_BARE sample_input 6
                ({| temp_filename := None |}, s1)).
  refine (proj1 (corrupt_object_rejected sample_checksum_sha256
                   sample_content_stream_parse sample_zlib_file_header
                   sample_zlib_compress_raw sample_variant_read
                   OSTREE_OBJECT_TYPE_FILE sample_checksum sample_input 6
                   s s1 (snd (snd out))
                   (false, _ostree_loose_path sample_checksum
                             OSTREE_OBJECT_TYPE_FILE OSTREE_REPO_MODE_BARE)
                   {| temp_filename := Some "tmp0" |} m _ _ _ _ _)).
  - reflexivity.
  - vm_compute. reflexivity.
  - reflexivity.
  - vm_compute. reflexivity.
  - vm_compute. discriminate.
Defined.

(** Two trusted writes of the sample content count it once. *)
Lemma write_content_trusted_twice_witness :
  fst sample_first_write = Ok None /\ fst sample_second_write = Ok None
  /\ content_objects_total (txn_stats (self (snd sample_second_write)))
     = content_objects_total stats_zero + 1.
Proof.
  pose proof (write_content_trusted_twice sample_checksum_sha256
                sample_content_stream_parse sample_zlib_file_header
                sample_zlib_compress_raw sample_checksum sample_input 6
                (sample_content sample_input)
                (sample_state true OSTREE_REPO_MODE_BARE None [])
                eq_refl eq_refl eq_refl eq_refl eq_refl eq_refl eq_refl)
    as (H1 & H2 & _ & H3 & _).
  split; [exact H1|]. split; [exact H2|]. exact H3.
Defined.

(** The second write of the stored object is not counted: the totals are
    1, 1 and 6 bytes, not 2. *)
Lemma write_content_trusted_twice_counts_once :
  fst sample_first_write = Ok None /\ fst sample_second_write = Ok None
  /\ txn_stats (self (snd sample_second_write))
     = {| metadata_objects_total := 0; metadata_objects_written := 0;
          content_objects_total := 1; content_objects_written := 1;
          content_bytes_written := 6 |}
  /\ content_objects_total (txn_stats (self (snd sample_second_write))) <> 2.
Proof. vm_compute. by repeat split. Qed.

(** An ARCHIVE repository whose one objects directory [ab] holds a
    62-character non-hex stem with the suffix [.file], a 62-hex stem with
    the suffix [.filez], and a subdirectory. *)
Definition sample_child (name : string) (type : GFileType) (ino : Z)
    : IterStep :=
  IterChild {| standard_name := name; standard_type := type;
               standard_symlink_target := EmptyString; unix_uid := 0;
               unix_gid := 0; unix_mode := 33188; unix_device := 1;
               unix_inode := ino |}.

Definition sample_stem_z : string :=
  "zzzzzzzzzzzzzzzzzzzzzzzzzzzzzzzzzzzzzzzzzzzzzzzzzzzzzzzzzzzzzz".

Definition sample_stem_hex : string :=
  "91b5b522d5df086d0ff0b110fbd9d21bb4fc7163af34d08286a2e846f6be03".

Definition sample_listing : RepoListing :=
  {| listing_mode := OSTREE_REPO_MODE_ARCHIVE_Z2;
     listing_parent_repo := None;
     listing_object_dirs :=
       inr [ {| objdir_basename := "ab";
                objdir_enumerate :=
                  inr [ sample_child (sample_stem_z +:+ ".file")
                          G_FILE_TYPE_REGULAR 2;
                        sample_child (sample_stem_hex +:+ ".filez")
                          G_FILE_TYPE_REGULAR 3;
                        sample_child (sample_stem_hex +:+ ".file")
                          G_FILE_TYPE_DIRECTORY 4 ] |} ] |}.

Definition sample_devino_cache : gmap (Z * Z) string :=
  {[ (1, 2) := "ab" +:+ sample_stem_z ]}.

Lemma scan_loose_devino_records_witness :
  sample_devino_cache
  = record_entries (recorded (listing_children sample_listing)) ∅.
Proof.
  apply (scan_loose_devino_records sample_listing ∅ sample_devino_cache).
  vm_compute. reflexivity.
Defined.

(** In an ARCHIVE repository the scan records the child named [.file],
    whose stem is no hex string, and skips the one named [.filez]. *)
Lemma scan_loose_devino_archive_suffix :
  listing_mode sample_listing = OSTREE_REPO_MODE_ARCHIVE_Z2
  /\ scan_loose_devino sample_listing ∅ = (Ok tt, sample_devino_cache)
  /\ sample_devino_cache !! (1, 2) = Some ("ab" +:+ sample_stem_z)
  /\ sample_devino_cache !! (1, 3) = None.
Proof. vm_compute. by repeat split. Qed.

(** Prepare, then abort, on the empty sample repository. *)
Definition sample_prepared : Res bool * State :=
  ostree_repo_prepare_transaction
    (sample_state false OSTREE_REPO_MODE_BARE None []).

Definition sample_aborted : Res unit * State :=
  ostree_repo_abort_transaction (snd sample_prepared).

Lemma prepare_then_abort_witness :
  in_transaction (self (snd sample_aborted)) = false
  /\ txn_refs (self (snd sample_aborted)) = None
  /\ tmp_dir (disk (snd sample_aborted)) = ∅
  /\ txn_stats (self (snd sample_aborted)) = stats_zero.
Proof.
  pose proof (prepare_then_abort
                (sample_state false OSTREE_REPO_MODE_BARE None [])
                (snd sample_prepared) (snd sample_aborted) false)
    as H.
  destruct H as (H1 & H2 & _ & _ & H3 & H4 & _).
  - vm_compute. reflexivity.
  - vm_compute. reflexivity.
  - by repeat split.
Defined.

(** After prepare and abort the symlink [transaction] is still there. *)
Lemma abort_keeps_transaction_symlink :
  fst sample_prepared = Ok false /\ fst sample_aborted = Ok tt
  /\ transaction_lock (disk (snd sample_aborted)) = Some (Symlink "pid=4242")
  /\ transaction_lock (disk (snd sample_aborted)) <> None.
Proof. vm_compute. by repeat split. Qed.

(** A commit whose last step, the unlink of [transaction], fails. *)
Definition sample_failed_commit
    : Res OstreeRepoTransactionStats * State :=
  ostree_repo_commit_transaction
    (sample_state true OSTREE_REPO_MODE_BARE None
       [None; None; Some EACCES]).

(** A commit whose ref update fails, in an environment where the next
    call fails as well. *)
Definition sample_failed_update
    : Res OstreeRepoTransactionStats * State :=
  ostree_repo_commit_transaction
    (sample_state true OSTREE_REPO_MODE_BARE
       (Some {[ "main" := Some sample_checksum ]})
       [None; None; Some EIO; Some EIO]).

Lemma failed_commit_then_abort_witness :
  in_transaction (self (snd sample_failed_commit)) = false
  /\ txn_refs (self (snd sample_failed_commit)) = None
  /\ in_transaction (self (snd sample_failed_update)) = true.
Proof.
  destruct (failed_commit_then_abort
              (sample_state true OSTREE_REPO_MODE_BARE None
                 [None; None; Some EACCES])
              (snd sample_failed_commit) (fst sample_failed_commit))
    as (_ & _ & _ & _ & Hunlink & _).
  { reflexivity. }
  { vm_compute. reflexivity. }
  { reflexivity. }
  destruct (Hunlink [Ev SYS_enumerate_tmp None;
                     Ev SYS_enumerator_iterate None] EACCES)
    as (H1 & H2 & _).
  { vm_compute. reflexivity. }
  destruct (failed_commit_then_abort
              (sample_state true OSTREE_REPO_MODE_BARE
                 (Some {[ "main" := Some sample_checksum ]})
                 [None; None; Some EIO; Some EIO])
              (snd sample_failed_update) (fst sample_failed_update))
    as (_ & _ & Hupdate & _).
  { reflexivity. }
  { vm_compute. reflexivity. }
  { reflexivity. }
  destruct (Hupdate [Ev SYS_enumerate_tmp None;
                     Ev SYS_enumerator_iterate None]
              {[ "main" := Some sample_checksum ]} EIO)
    as (H3 & _).
  { vm_compute. reflexivity. }
  by split_and!.
Defined.

(** The failed commit of the first sample leaves the repository out of
    the transaction; after the failed ref update of the second, abort
    fails and the repository stays in the transaction. *)
Lemma failed_commit_leaves_transaction :
  fst sample_failed_commit = Error (ErrFromErrno EACCES)
  /\ in_transaction (self (snd sample_failed_commit)) = false
  /\ fst sample_failed_update = Error (ErrFromErrno EIO)
  /\ in_transaction (self (snd sample_failed_update)) = true
  /\ fst (ostree_repo_abort_transaction (snd sample_failed_update))
     = Error (ErrFromErrno EIO).
Proof. vm_compute. by repeat split. Qed.

(** Two listings of the same tree in different iteration orders. *)
Definition sample_files : GHashTable string :=
  [("b", "c2"); ("a", "c1")].

Definition sample_children : list (string * (string * string)) :=
  [("y", ("c5", "c6")); ("x", ("c3", "c4"))].

Lemma tree_variant_deterministic_witness :
  create_tree_variant_from_hashes sample_checksum_to_bytes
    (rev sample_files) (fst (collect_dir_checksums (rev sample_children)))
    (snd (collect_dir_checksums (rev sample_children)))
  = create_tree_variant_from_hashes sample_checksum_to_bytes
      sample_files (fst (collect_dir_checksums sample_children))
      (snd (collect_dir_checksums sample_children)).
Proof.
  pose proof (tree_variant_deterministic sample_variant_read
                sample_checksum_to_bytes sample_files (rev sample_files)
                sample_children (rev sample_children)) as H.
  destruct H as (sf & sd & _ & _ & _ & _ & _ & H & _).
  - by apply (bool_decide_unpack _).
  - by apply (bool_decide_unpack _).
  - apply perm_swap.
  - apply perm_swap.
  - exact H.
Defined.

Lemma write_object_rejects_caller_errors_witness :
  fst (write_object sample_checksum_sha256 sample_content_stream_parse
         sample_zlib_file_header sample_zlib_compress_raw
         OSTREE_OBJECT_TYPE_FILE None sample_input 6 false false
         (sample_state true OSTREE_REPO_MODE_BARE None []))
  = Abort.
Proof.
  pose proof (write_object_rejects_caller_errors sample_checksum_sha256
                sample_content_stream_parse sample_zlib_file_header
                sample_zlib_compress_raw sample_variant_read
                OSTREE_OBJECT_TYPE_FILE None sample_input 6 false false
                (sample_state true OSTREE_REPO_MODE_BARE None [])
                (or_intror (conj eq_refl eq_refl)))
    as (_ & _ & _ & H & _).
  by apply H.
Defined.

(** Inside a transaction, a call with neither checksum whose cancellable
    is already cancelled is not turned down as a caller error: the
    cancellation is checked first and reported as an ordinary error. *)
Lemma write_object_cancelled_is_no_caller_error :
  in_transaction
    (self (sample_state true OSTREE_REPO_MODE_BARE None [])) = true
  /\ write_object sample_checksum_sha256 sample_content_stream_parse
       sample_zlib_file_header sample_zlib_compress_raw
       OSTREE_OBJECT_TYPE_FILE None sample_input 6 false true
       (sample_state true OSTREE_REPO_MODE_BARE None [])
     = (Error ErrCancelled, sample_state true OSTREE_REPO_MODE_BARE None [])
  /\ is_caller_error (Error ErrCancelled : Res (option (list byte))) = false.
Proof. by split_and!. Qed.

(** Two calls for the same refspec, then one that deletes another. *)
Definition sample_ref_calls : list RefCall :=
  [ SetRef None "main" (Some "c1"); SetRefspec "main" (Some "c2");
    SetRef (Some "origin") "main" None ].

Lemma run_result {A S} (run : Res A * S) (r : Res A) :
  fst run = r -> run = (r, snd run).
Proof. destruct run. simpl. by intros ->. Qed.

(** The commit that follows the three calls. *)
Definition sample_ref_commit : Res OstreeRepoTransactionStats * State :=
  ostree_repo_commit_transaction
    (snd (run_ref_calls sample_ref_calls
            (sample_state true OSTREE_REPO_MODE_BARE None []))).

Lemma pending_refs_last_call_wins_witness :
  fst (run_ref_calls sample_ref_calls
         (sample_state true OSTREE_REPO_MODE_BARE None []))
  = Ok tt
  /\ is_ok (fst sample_ref_commit) = true
  /\ refs (disk (snd sample_ref_commit)) !! "main" = Some "c2"
  /\ refs (disk (snd sample_ref_commit)) !! "origin:main" = None.
Proof.
  destruct (pending_refs_last_call_wins sample_ref_calls
              (sample_state true OSTREE_REPO_MODE_BARE None []))
    as (H1 & _ & H3 & H4 & _); [reflexivity|].
  cbv zeta in H3, H4.
  destruct (H3 stats_zero (snd sample_ref_commit)) as [Hrefs _].
  { apply run_result. vm_compute. reflexivity. }
  split; [exact H1|]. split; [apply H4; [reflexivity|discriminate]|].
  split; [exact (Hrefs "main")|exact (Hrefs "origin:main")].
Defined.

(** ** Transactions *)

Definition sample_committed : Res OstreeRepoTransactionStats * State :=
  ostree_repo_commit_transaction (snd sample_prepared).

(** Preparing on the empty sample repository opens a transaction with
    the statistics at zero. *)
Lemma prepare_transaction_outcomes_witness :
  self (snd sample_prepared)
  = with_in_transaction true
      (with_txn_stats stats_zero
         (self (sample_state false OSTREE_REPO_MODE_BARE None [])))
  /\ fst (ostree_repo_prepare_transaction (snd sample_prepared))
     = ReturnIfFail.
Proof.
  destruct (prepare_transaction_outcomes
              (sample_state false OSTREE_REPO_MODE_BARE None [])
              (snd sample_prepared) (fst sample_prepared))
    as [_ H].
  - vm_compute. reflexivity.
  - destruct H as (H1 & _ & _ & H2); [reflexivity|]. by split.
Defined.

(** Committing the transaction just prepared. *)
Lemma commit_transaction_success_witness :
  in_transaction (self (snd sample_committed)) = false
  /\ tmp_dir (disk (snd sample_committed)) = ∅
  /\ ostree_repo_commit_transaction (snd sample_committed)
     = (ReturnIfFail, snd sample_committed).
Proof.
  destruct (commit_transaction_success (snd sample_prepared)
              (snd sample_committed) stats_zero)
    as (_ & _ & H1 & _ & _ & _ & H2 & _ & _ & _ & _ & _ & H3).
  - vm_compute. reflexivity.
  - by split.
Defined.

(** Aborting it instead. *)
Lemma abort_transaction_idempotent_witness :
  disk_same_but_tmp (disk (snd sample_prepared)) (disk (snd sample_aborted)).
Proof.
  destruct (abort_transaction_idempotent (snd sample_prepared)
              (snd sample_aborted) (fst sample_aborted))
    as (_ & H & _).
  - vm_compute. reflexivity.
  - exact H.
Defined.

(** Scanning the sample listing inside a transaction. *)
Definition sample_scanned : Res unit * State :=
  ostree_repo_scan_hardlinks sample_listing
    (sample_state true OSTREE_REPO_MODE_ARCHIVE_Z2 None []).

Lemma scan_hardlinks_then_lookup_witness :
  loose_object_devino_hash (self (snd sample_scanned))
  = Some (snd (scan_loose_devino sample_listing ∅)).
Proof.
  destruct (scan_hardlinks_then_lookup sample_listing
              (sample_state true OSTREE_REPO_MODE_ARCHIVE_Z2 None [])
              (snd sample_scanned) (fst sample_scanned))
    as [_ H].
  - vm_compute. reflexivity.
  - by destruct H as (_ & _ & _ & H & _).
Defined.
(** ** Writes of single objects *)

(** A verifying write of the sample content with no expected checksum,
    and the same write of a DIR_TREE object. *)
Definition sample_write (objtype : OstreeObjectType)
    (expected_checksum : option string) (out_csum : bool) (s : State)
    : Res (option (list byte)) * State :=
  write_object sample_checksum_sha256 sample_content_stream_parse
    sample_zlib_file_header sample_zlib_compress_raw objtype
    expected_checksum sample_input 6 out_csum false s.

Definition sample_in_txn : State :=
  sample_state true OSTREE_REPO_MODE_BARE None [].

Definition sample_verified_write : Res (option (list byte)) * State :=
  sample_write OSTREE_OBJECT_TYPE_FILE None true sample_in_txn.


Lemma sample_verified_write_eq :
  sample_write OSTREE_OBJECT_TYPE_FILE None true sample_in_txn
  = (Ok (Some sample_input), snd sample_verified_write).
Proof. vm_compute. reflexivity. Defined.

Lemma sample_verified_write_logged :
  logged sample_in_txn (snd sample_verified_write)
    (trace (env (snd sample_verified_write))).
Proof. vm_compute. reflexivity. Defined.

Lemma write_object_returns_digest_witness :
  sample_input
  = sample_checksum_sha256
      (object_bytes sample_content_stream_parse OSTREE_OBJECT_TYPE_FILE
         sample_input 6).
Proof.
  destruct (write_object_returns_digest _ _ _ _ _ _ _ _ _ _ _ _ _
              sample_verified_write_eq) as (_ & _ & H & _).
  by destruct (H sample_input eq_refl) as (_ & H1 & _).
Defined.

Lemma write_object_frame_witness :
  object_written OSTREE_OBJECT_TYPE_FILE 6 sample_in_txn
    (snd sample_verified_write).
Proof.
  by destruct (write_object_frame _ _ _ _ _ _ _ _ _ _ _ _ _
                 sample_verified_write_eq) as (H & _).
Defined.


(** A stream that does not parse. *)
Definition sample_parse_error : GError := ErrFailed "Invalid header".

Definition sample_unparsable (input : list byte) (len : Z)
    : GError + ParsedContent :=
  inl sample_parse_error.

Definition sample_unsupported_write : Res (option (list byte)) * State :=
  write_object sample_checksum_sha256 sample_unparsable
    sample_zlib_file_header sample_zlib_compress_raw OSTREE_OBJECT_TYPE_FILE
    None sample_input 6 true false sample_in_txn.

Lemma write_object_unsupported_file_witness :
  fst sample_unsupported_write = Error sample_parse_error
  /\ snd sample_unsupported_write = sample_in_txn.
Proof.
  destruct (write_object_unsupported_file sample_checksum_sha256
              sample_unparsable sample_zlib_file_header
              sample_zlib_compress_raw None sample_input 6 true
              sample_parse_error sample_in_txn
              (snd sample_unsupported_write) (fst sample_unsupported_write))
    as (_ & _ & H & _).
  - reflexivity.
  - by right.
  - reflexivity.
  - vm_compute. reflexivity.
  - by apply H.
Defined.

Lemma write_object_disposes_temp_file_witness :
  no_creation (trace (env (snd sample_verified_write)))
  \/ exists t, one_temp t true (trace (env (snd sample_verified_write))).
Proof.
  exact (write_object_disposes_temp_file _ _ _ _ _ _ _ _ _ _ _ _ _ _
           sample_verified_write_eq sample_verified_write_logged).
Defined.
#[global] Instance rename_collided_dec ev : Decision (rename_collided ev).
Proof.
  destruct ev as [[] [[]|]];
    first [ left; by do 2 eexists
          | right; by intros (? & ? & [=]) ].
Defined.

Lemma sample_verified_write_no_collision :
  ~ Exists rename_collided (trace (env (snd sample_verified_write))).
Proof.
  apply (bool_decide_unpack _). vm_compute. exact I.
Defined.

Lemma write_object_stores_witness :
  is_Some (objects_dir (disk (snd sample_verified_write))
           !! _ostree_loose_path
                (g_checksum_get_string
                   (sample_checksum_sha256
                      (object_bytes sample_content_stream_parse
                         OSTREE_OBJECT_TYPE_FILE sample_input 6)))
                OSTREE_OBJECT_TYPE_FILE (mode (self sample_in_txn))).
Proof.
  pose proof (write_object_stores sample_checksum_sha256
                sample_content_stream_parse sample_zlib_file_header
                sample_zlib_compress_raw OSTREE_OBJECT_TYPE_FILE None
                sample_input 6 true false sample_in_txn
                (snd sample_verified_write) (Some sample_input)
                (trace (env (snd sample_verified_write)))
                sample_verified_write_eq sample_verified_write_logged
                sample_verified_write_no_collision) as H.
  cbv zeta in H. exact (proj1 H).
Defined.

Lemma sample_in_txn_calm : calm sample_in_txn.
Proof. reflexivity. Defined.

Lemma write_object_counts_witness :
  txn_stats (self (snd sample_verified_write))
  = update_txn_stats OSTREE_OBJECT_TYPE_FILE true 6
      (txn_stats (self sample_in_txn)).
Proof.
  pose proof (write_object_counts sample_checksum_sha256
                sample_content_stream_parse sample_zlib_file_header
                sample_zlib_compress_raw OSTREE_OBJECT_TYPE_FILE None
                sample_input 6 true false sample_in_txn
                (snd sample_verified_write) (Some sample_input)
                sample_in_txn_calm sample_verified_write_eq) as H.
  cbv zeta in H. rewrite H. reflexivity.
Defined.
(** ** Trees and commits *)

(** A stand-in for the bytes of a variant: the strings and byte arrays
    in it, in order. *)
Fixpoint sample_variant_bytes (v : GVariant) : list byte :=
  match v with
  | GV_string s => list_byte_of_string s
  | GV_bytes ay => ay
  | GV_uint64 _ => []
  | GV_tuple items | GV_array items =>
      (fix all (l : list GVariant) : list byte :=
         match l with
         | [] => []
         | item :: rest => sample_variant_bytes item ++ all rest
         end) items
  end.

(** A short stand-in for the digest: the first two bytes. *)
Definition sample_digest (data : list byte) : list byte := take 2 data.

(** A node with one file and no subdirectory, not yet written. *)
Definition sample_mtree : OstreeMutableTree :=
  {| mt_contents_checksum := None; mt_metadata_checksum := None;
     mt_files := [("hello", sample_checksum)]; mt_subdirs := [] |}.

Definition sample_write_mtree (s : State) : Res string * State :=
  ostree_repo_write_mtree sample_digest
    sample_content_stream_parse sample_zlib_file_header
    sample_zlib_compress_raw sample_variant_bytes sample_checksum_to_bytes
    sample_mtree false s.

Definition sample_tree_checksum : string :=
  match fst (sample_write_mtree sample_in_txn) with
  | Ok cs => cs
  | _ => EmptyString
  end.

Lemma sample_write_mtree_eq :
  sample_write_mtree sample_in_txn
  = (Ok sample_tree_checksum, snd (sample_write_mtree sample_in_txn)).
Proof. apply run_result. vm_compute. reflexivity. Defined.

Lemma sample_write_mtree_logged :
  logged sample_in_txn (snd (sample_write_mtree sample_in_txn))
    (trace (env (snd (sample_write_mtree sample_in_txn)))).
Proof. vm_compute. reflexivity. Defined.

Lemma sample_write_mtree_no_collision :
  ~ Exists rename_collided
      (trace (env (snd (sample_write_mtree sample_in_txn)))).
Proof. apply (bool_decide_unpack _). vm_compute. exact I. Defined.

Lemma write_mtree_checksum_of_tree_witness :
  mtree_contents_checksum sample_digest sample_variant_bytes
    sample_checksum_to_bytes sample_mtree
  = Some sample_tree_checksum.
Proof.
  exact (proj1 (write_mtree_checksum_of_tree sample_digest
                  sample_content_stream_parse sample_zlib_file_header
                  sample_zlib_compress_raw sample_variant_bytes
                  sample_checksum_to_bytes sample_mtree false sample_in_txn
                  (snd (sample_write_mtree sample_in_txn))
                  sample_tree_checksum sample_write_mtree_eq)).
Defined.

Lemma write_mtree_stores_trees_witness :
  Forall (has_dirtree (snd (sample_write_mtree sample_in_txn)))
    (mtree_written sample_digest sample_variant_bytes
       sample_checksum_to_bytes sample_mtree).
Proof.
  exact (proj1 (write_mtree_stores_trees sample_digest
                  sample_content_stream_parse sample_zlib_file_header
                  sample_zlib_compress_raw sample_variant_bytes
                  sample_checksum_to_bytes sample_mtree false sample_in_txn
                  (snd (sample_write_mtree sample_in_txn))
                  sample_tree_checksum
                  (trace (env (snd (sample_write_mtree sample_in_txn))))
                  sample_write_mtree_eq sample_write_mtree_logged
                  sample_write_mtree_no_collision)).
Defined.

Lemma write_mtree_outside_transaction_witness :
  snd (sample_write_mtree (sample_state false OSTREE_REPO_MODE_BARE None []))
  = sample_state false OSTREE_REPO_MODE_BARE None [].
Proof.
  exact (proj1 (write_mtree_outside_transaction sample_digest
                  sample_content_stream_parse sample_zlib_file_header
                  sample_zlib_compress_raw sample_variant_bytes
                  sample_checksum_to_bytes sample_mtree false
                  (sample_state false OSTREE_REPO_MODE_BARE None [])
                  eq_refl)).
Defined.

(** A first commit of the sample tree on a little-endian host. *)
Definition sample_write_commit : Res string * State :=
  ostree_repo_write_commit sample_digest
    sample_content_stream_parse sample_zlib_file_header
    sample_zlib_compress_raw sample_variant_bytes sample_checksum_to_bytes
    G_LITTLE_ENDIAN 1380000000 (Some "main") None (Some "init") None
    (Some sample_tree_checksum) (Some sample_checksum) false sample_in_txn.

Definition sample_commit_checksum : string :=
  match fst sample_write_commit with
  | Ok cs => cs
  | _ => EmptyString
  end.

Lemma write_commit_object_witness :
  refs (disk (snd sample_write_commit)) = refs (disk sample_in_txn)
  /\ txn_refs (self (snd sample_write_commit)) = txn_refs (self sample_in_txn).
Proof.
  destruct (write_commit_object sample_digest
              sample_content_stream_parse sample_zlib_file_header
              sample_zlib_compress_raw sample_variant_bytes
              sample_checksum_to_bytes G_LITTLE_ENDIAN 1380000000
              (Some "main") None (Some "init") None
              (Some sample_tree_checksum) (Some sample_checksum) false
              sample_in_txn (snd sample_write_commit) sample_commit_checksum
              (trace (env (snd sample_write_commit))))
    as (_ & _ & H1 & H2 & _).
  - apply run_result. vm_compute. reflexivity.
  - vm_compute. reflexivity.
  - by split.
Defined.

(** ** Commit modifiers *)

Definition sample_heap : ModifierHeap :=
  {| modifiers := ∅; destroyed := [] |}.

Lemma modifier_freed_at_last_unref_witness :
  exists h1,
    run_modifier_ops
      (fst (ostree_repo_commit_modifier_new 0 None 7 true sample_heap))
      [ModifierRef; ModifierUnref]
      (snd (ostree_repo_commit_modifier_new 0 None 7 true sample_heap))
    = Some h1
    /\ destroyed h1 = destroyed sample_heap.
Proof.
  destruct (modifier_freed_at_last_unref 0 None 7 true sample_heap
              [ModifierRef; ModifierUnref])
    as (_ & h1 & H1 & _ & H2 & _).
  - simpl. lia.
  - exists h1. by split.
Defined.
(** ** Walks *)

(** Stand-ins for the mutable trees: the store is the list of the files
    recorded, there is one tree, and no call fails. *)
Definition sample_set_checksum (mtree : unit) (checksum : string)
    (t : list (string * string)) : list (string * string) := t.
Definition sample_get_files (mtree : unit) (t : list (string * string))
    : GHashTable string := t.
Definition sample_get_subdirs (mtree : unit) (t : list (string * string))
    : GHashTable unit := [].
Definition sample_ensure_dir (mtree : unit) (name : string)
    (t : list (string * string)) : (GError + unit) * list (string * string) :=
  (inr tt, t).
Definition sample_replace_file (mtree : unit) (name checksum : string)
    (t : list (string * string)) : option GError * list (string * string) :=
  (None, t ++ [(name, checksum)]).
Definition sample_directory_metadata (file_info : GFileInfo)
    (xattrs : option XAttrs) : GVariant :=
  GV_tuple [GV_string (standard_name file_info)].
Definition sample_raw_file_to_content_stream (input : option (list byte))
    (file_info : GFileInfo) (xattrs : option XAttrs)
    : GError + (list byte * Z) :=
  inr (default [] input, Z.of_nat (length (default [] input))).

Definition sample_info (name : string) (type : GFileType) : GFileInfo :=
  {| standard_name := name; standard_type := type;
     standard_symlink_target := EmptyString; unix_uid := 0; unix_gid := 0;
     unix_mode := 33188; unix_device := 0; unix_inode := 0 |}.

Definition sample_gfile (repo_file : bool) (name : string)
    (type : GFileType) (children : list (GFileInfo * GFile)) : GFile :=
  {| is_repo_file := repo_file; repo_file_ensure_resolved := None;
     repo_file_checksum := sample_checksum;
     repo_file_tree_contents_checksum := sample_checksum;
     file_query_info := inr (sample_info name type);
     file_xattrs := inr []; file_read := inr sample_input;
     enumerate_error := None; enumerated := children;
     iterate_error := None |}.

Definition sample_child_of (repo_file : bool) (name : string)
    (type : GFileType) (children : list (GFileInfo * GFile))
    : GFileInfo * GFile :=
  (sample_info name type, sample_gfile repo_file name type children).

Arguments w_mtrees {MTreeStore} _.
Arguments w_path {MTreeStore} _.
Arguments w_asked {MTreeStore} _.

Lemma walk_result {W} (run : Res unit * (W * State)) (r : Res unit) :
  fst run = r -> run = (r, (fst (snd run), snd (snd run))).
Proof. destruct run as [r0 [w s]]. simpl. by intros ->. Qed.

Definition sample_walk : Walk (list (string * string)) :=
  {| w_mtrees := []; w_path := []; w_asked := [] |}.

Definition sample_walk_internal
    (modifier : option OstreeRepoCommitModifier) (dir : GFile) (s : State)
    : Res unit * (Walk (list (string * string)) * State) :=
  write_directory_to_mtree_internal sample_digest
    sample_content_stream_parse sample_zlib_file_header
    sample_zlib_compress_raw sample_variant_bytes
    (list (string * string)) unit sample_set_checksum sample_set_checksum
    sample_get_files sample_get_subdirs sample_ensure_dir
    sample_replace_file sample_directory_metadata
    sample_raw_file_to_content_stream modifier false dir tt (sample_walk, s).

(** A directory of the repository with one file. *)
Definition sample_repo_dir : GFile :=
  sample_gfile true "root" G_FILE_TYPE_DIRECTORY
    [sample_child_of true "hello" G_FILE_TYPE_REGULAR []].

Lemma walk_repo_directory_writes_nothing_witness :
  snd (snd (sample_walk_internal None sample_repo_dir sample_in_txn))
  = sample_in_txn.
Proof.
  refine (proj1 (walk_repo_directory_writes_nothing sample_digest
                   sample_content_stream_parse sample_zlib_file_header
                   sample_zlib_compress_raw sample_variant_bytes
                   (list (string * string)) unit sample_set_checksum
                   sample_set_checksum sample_get_files sample_get_subdirs
                   sample_ensure_dir sample_replace_file
                   sample_directory_metadata
                   sample_raw_file_to_content_stream false sample_repo_dir
                   tt sample_walk
                   (fst (snd (sample_walk_internal None sample_repo_dir
                                sample_in_txn)))
                   sample_in_txn _
                   (fst (sample_walk_internal None sample_repo_dir
                           sample_in_txn)) _ _)).
  - simpl. split; [done|]. split; [discriminate|done].
  - by apply walk_result.
Defined.

(** A plain directory with the files [a] and [b], and a filter that
    allows the root only. *)
Definition sample_flat_dir : GFile :=
  sample_gfile false "root" G_FILE_TYPE_DIRECTORY
    [sample_child_of false "a" G_FILE_TYPE_REGULAR [];
     sample_child_of false "b" G_FILE_TYPE_REGULAR []].

Definition sample_modifier (commit_filter : OstreeRepoCommitFilter)
    : OstreeRepoCommitModifier :=
  {| modifier_refcount := 1; modifier_flags := 0;
     modifier_filter := Some commit_filter; modifier_user_data := 0;
     modifier_destroy_notify := false |}.

Definition sample_root_only : OstreeRepoCommitFilter :=
  fun repo path file_info user_data =>
    (if String.eqb path "/" then OSTREE_REPO_COMMIT_FILTER_ALLOW
     else OSTREE_REPO_COMMIT_FILTER_SKIP, file_info).

Definition sample_allow_all : OstreeRepoCommitFilter :=
  fun repo path file_info user_data =>
    (OSTREE_REPO_COMMIT_FILTER_ALLOW, file_info).

Definition sample_flat_walk
    : Res unit * (Walk (list (string * string)) * State) :=
  sample_walk_internal (Some (sample_modifier sample_root_only))
    sample_flat_dir sample_in_txn.

(** The filter is asked about [b] with the path [/a/b]. *)
Lemma sample_flat_walk_asked :
  fst sample_flat_walk = Ok tt
  /\ w_asked (fst (snd sample_flat_walk))
     = [("/", OSTREE_REPO_COMMIT_FILTER_ALLOW);
        ("/a", OSTREE_REPO_COMMIT_FILTER_SKIP);
        ("/a/b", OSTREE_REPO_COMMIT_FILTER_SKIP)]
  /\ w_path (fst (snd sample_flat_walk)) = ["a"; "b"].
Proof. vm_compute. by repeat split. Qed.


(** A plain directory with a file and a subdirectory holding a file, all
    allowed, walked from the public entry. *)
Definition sample_deep_dir : GFile :=
  sample_gfile false "root" G_FILE_TYPE_DIRECTORY
    [sample_child_of false "a" G_FILE_TYPE_REGULAR [];
     sample_child_of false "d" G_FILE_TYPE_DIRECTORY
       [sample_child_of false "c" G_FILE_TYPE_REGULAR []]].

Definition sample_deep_walk
    : Res unit * (Walk (list (string * string)) * State) :=
  ostree_repo_write_directory_to_mtree sample_digest
    sample_content_stream_parse sample_zlib_file_header
    sample_zlib_compress_raw sample_variant_bytes
    (list (string * string)) unit sample_set_checksum sample_set_checksum
    sample_get_files sample_get_subdirs sample_ensure_dir
    sample_replace_file sample_directory_metadata
    sample_raw_file_to_content_stream
    (Some (sample_modifier sample_allow_all)) false sample_deep_dir tt
    (sample_walk, sample_in_txn).

Lemma walk_allowed_paths_witness :
  exists asked,
    w_asked (fst (snd sample_deep_walk)) = w_asked sample_walk ++ asked
    /\ (Forall (fun a => is_allow (snd a) = true) asked ->
        map fst asked = walk_paths sample_deep_dir []
        /\ w_path (fst (snd sample_deep_walk)) = []).
Proof.
  apply (walk_allowed_paths sample_digest
           sample_content_stream_parse sample_zlib_file_header
           sample_zlib_compress_raw sample_variant_bytes
           (list (string * string)) unit sample_set_checksum
           sample_set_checksum sample_get_files sample_get_subdirs
           sample_ensure_dir sample_replace_file sample_directory_metadata
           sample_raw_file_to_content_stream
           (sample_modifier sample_allow_all) sample_allow_all false
           sample_deep_dir tt sample_walk (fst (snd sample_deep_walk))
           sample_in_txn (snd (snd sample_deep_walk))).
  - reflexivity.
  - apply walk_result. vm_compute. reflexivity.
Defined.
